(** * StdTreeDecoder: level-order tree decoding

    A shallow embedding of
    [graph4nlp/pytorch/modules/prediction/generation/TreeBasedDecoder.py]:
    the tree linearisation [get_dec_batch], the recurrent unit
    [TreeDecodingUnit.forward], the single decoding step
    [StdTreeDecoder.decode_step] with its copy mechanism, the teacher-forced
    training pass [StdTreeDecoder._run_forward_pass] and greedy inference
    [StdTreeDecoder.translate].

    Conventions of the embedding.
    - A tensor row is a [list Q]; a batched tensor is the list of its rows.
      Arithmetic is exact: floating-point rounding is not modelled.
    - Learned layers and transcendental functions (embedding, LSTM cell,
      attention, linear layers, softmax, sigmoid, log, the loss criterion)
      are fields of a record [Net]; dropout is a fixed function of its input.
    - Python exceptions are values of [exn]; a function that can raise
      returns a [result].  [Timeout] marks an exhausted loop budget of the
      embedding and is shown unreachable where a claim needs it.
    - Python dictionaries are [gmap]s, Python lists are lists with the
      negative-index rule written out in [py_getitem] and [py_setitem]. *)

From Stdlib Require Import ZArith QArith Lia Bool String.
From stdpp Require Import base option list gmap strings.

Local Open Scope nat_scope.

(** ** Exceptions and results *)

Inductive exn : Type :=
| IndexError | KeyError | TypeError | UnboundLocalError
| NotImplementedError | AssertionError | ZeroDivisionError | RuntimeError.

Inductive result (A : Type) : Type :=
| Ok (a : A)
| Raise (e : exn)
| Timeout.
Arguments Ok {A} a.
Arguments Raise {A} e.
Arguments Timeout {A}.

Definition rbind {A B} (m : result A) (f : A -> result B) : result B :=
  match m with
  | Ok a => f a
  | Raise e => Raise e
  | Timeout => Timeout
  end.

Declare Scope result_scope.
Delimit Scope result_scope with result.
Notation "x <-- m ;; k" := (rbind m (fun x => k))
  (at level 100, m at next level, right associativity) : result_scope.
Local Open Scope result_scope.

Definition of_option {A} (e : exn) (o : option A) : result A :=
  match o with Some a => Ok a | None => Raise e end.

Definition is_ok {A} (r : result A) : Prop := exists a, r = Ok a.

(** State and exceptions: the state reached is kept when an exception is
    raised. *)
Definition M (S A : Type) : Type := S -> S * result A.

Definition mret {S A} (a : A) : M S A := fun st => (st, Ok a).

Definition mbind {S A B} (m : M S A) (f : A -> M S B) : M S B :=
  fun st =>
    match m st with
    | (st', Ok a) => f a st'
    | (st', Raise e) => (st', Raise e)
    | (st', Timeout) => (st', Timeout)
    end.

Definition lift {S A} (r : result A) : M S A := fun st => (st, r).

Declare Scope m_scope.
Delimit Scope m_scope with M.
Notation "x <~ m ;; k" := (mbind m (fun x => k))
  (at level 100, m at next level, right associativity) : m_scope.
Notation "m ;;; k" := (mbind m (fun _ => k))
  (at level 100, right associativity) : m_scope.

Fixpoint mfor {S A} (l : list A) (body : A -> M S unit) : M S unit :=
  match l with
  | [] => mret tt
  | a :: l' => mbind (body a) (fun _ => mfor l' body)
  end.

(** A [for] loop that also updates a local variable. *)
Fixpoint mfold {S A B} (l : list A) (body : B -> A -> M S B) (b : B) : M S B :=
  match l with
  | [] => mret b
  | a :: l' => mbind (body b a) (fun b' => mfold l' body b')
  end.

(** ** Python list indexing *)

(** The position an index denotes in a list of length [len]: a negative
    index counts from the end. *)
Definition py_index (len : nat) (i : Z) : result nat :=
  if (0 <=? i)%Z then
    if Z.to_nat i <? len then Ok (Z.to_nat i) else Raise IndexError
  else if (- Z.of_nat len <=? i)%Z then Ok (Z.to_nat (Z.of_nat len + i))
       else Raise IndexError.

(** [l[i]] *)
Definition py_getitem {A} (l : list A) (i : Z) : result A :=
  k <-- py_index (length l) i ;; of_option IndexError (l !! k).

(** [l[i] = x] *)
Definition py_setitem {A} (l : list A) (i : Z) (x : A) : result (list A) :=
  k <-- py_index (length l) i ;; Ok (<[k := x]> l).

(** ** Trees

    [Tree] of [tree_utils]: an ordered list of children, each a word index or
    a child [Tree].  [num_children] is kept equal to the length of
    [children] by [add_child], the only way the decoder grows a tree. *)

Inductive Tree : Type :=
| Node (cs : list Child)
with Child : Type :=
| Word (w : Z)
| Sub (t : Tree).

Definition children (t : Tree) : list Child :=
  match t with Node cs => cs end.

Definition num_children (t : Tree) : nat := length (children t).

(** Number of [Tree] objects in a tree. *)
Fixpoint tree_size (t : Tree) : nat :=
  match t with
  | Node cs =>
      S ((fix go (l : list Child) : nat :=
            match l with
            | [] => 0
            | Word _ :: l' => go l'
            | Sub t' :: l' => tree_size t' + go l'
            end) cs)
  end.

Definition child_size (c : Child) : nat :=
  match c with Word _ => 0 | Sub t => tree_size t end.

Definition children_size (cs : list Child) : nat :=
  foldr (fun c n => child_size c + n) 0 cs.

(** ** Vocabulary (external collaborator) *)

Record Vocab : Type := {
  vocab_size : nat;                 (* attribute vocab_size *)
  vocab_len : nat;                  (* len(vocab) *)
  get_symbol_idx : string -> Z;
  start_token : string;
  end_token : string;
  non_terminal_token : string;
  unk_token : string
}.

(** ** Linearisation: [get_dec_batch] *)

Record QTree : Type := {
  q_tree : Tree;
  q_parent : nat;
  q_child_index : nat
}.

(** [for ic in range(t.num_children)]: a child tree is written as 4 and
    appended to the queue, a word keeps its index. *)
Fixpoint scan_children (cur_index ic : nat) (cs : list Child)
    (w_list : list Z) (queue : list QTree) : list Z * list QTree :=
  match cs with
  | [] => (w_list, queue)
  | Sub t :: cs' =>
      scan_children cur_index (S ic) cs' (w_list ++ [4%Z])
        (queue ++ [{| q_tree := t; q_parent := cur_index; q_child_index := ic + 1 |}])
  | Word w :: cs' =>
      scan_children cur_index (S ic) cs' (w_list ++ [w]) queue
  end.

(** Body of [for i in range(1, batch_size+1)] for one tree: its word list
    and its queue afterwards. *)
Definition expand (cur_index : nat) (queue : list QTree) : list Z * list QTree :=
  if cur_index <=? length queue then
    match queue !! (cur_index - 1) with
    | Some e => scan_children cur_index 0 (children (q_tree e)) [] queue
    | None => ([], queue)
    end
  else ([], queue).

(** The loop over the batch, threading [max_index] and [max_w_len]. *)
Fixpoint level_scan (cur_index : nat) (queues : list (list QTree))
    (max_index : nat) (max_w_len : Z)
  : list (list Z) * list (list QTree) * nat * Z :=
  match queues with
  | [] => ([], [], max_index, max_w_len)
  | queue :: rest =>
      let '(w_list, queue') := expand cur_index queue in
      let max_index1 :=
        if cur_index <=? length queue
        then (if max_index <? length queue' then length queue' else max_index)
        else max_index in
      let max_w_len1 :=
        if (max_w_len <? Z.of_nat (length w_list))%Z
        then Z.of_nat (length w_list) else max_w_len in
      let '(ws, qs, mi, mw) := level_scan cur_index rest max_index1 max_w_len1 in
      (w_list :: ws, queue' :: qs, mi, mw)
  end.

(** One row of [dec_batch[cur_index]], written into a zero row. *)
Definition fill_row (lparen : Z) (cur_index width : nat) (w_list : list Z) : list Z :=
  let row0 := replicate width 0%Z in
  if 0 <? length w_list then
    let row1 := foldl (fun row jw => <[S (fst jw) := snd jw]> row) row0
                      (imap (fun j w => (j, w)) w_list) in
    let row2 := <[0 := if cur_index =? 1 then 1%Z else lparen]> row1 in
    <[length w_list + 1 := 2%Z]> row2
  else row0.

(** [dec_batch]: level index to its matrix, kept as (width, rows). *)
Abbreviation DecBatch := (gmap nat (nat * list (list Z))).

Fixpoint get_dec_batch_loop (fuel : nat) (lparen : Z) (cur_index max_index : nat)
    (queue_tree : list (list QTree)) (dec_batch : DecBatch)
  : result (DecBatch * list (list QTree) * nat) :=
  match fuel with
  | 0 => Timeout
  | S fuel' =>
      if cur_index <=? max_index then
        let '(batch_w_list, queue_tree', max_index', max_w_len) :=
          level_scan cur_index queue_tree max_index (-1)%Z in
        let width := Z.to_nat (max_w_len + 2) in
        let m := map (fill_row lparen cur_index width) batch_w_list in
        get_dec_batch_loop fuel' lparen (S cur_index) max_index' queue_tree'
          (<[cur_index := (width, m)]> dec_batch)
      else Ok (dec_batch, queue_tree, max_index)
  end.

Definition init_queue (t : Tree) : list QTree :=
  [{| q_tree := t; q_parent := 0; q_child_index := 1 |}].

(** Loop budget: no tree has more queue entries than [Tree] objects. *)
Definition linearise_fuel (trees : list Tree) : nat :=
  2 + foldr (fun t n => tree_size t + n) 0 trees.

Definition get_dec_batch (dec_tree_batch : list Tree) (batch_size : nat)
    (form_manager : Vocab) : result (DecBatch * list (list QTree) * nat) :=
  if batch_size <=? length dec_tree_batch then
    let trees := take batch_size dec_tree_batch in
    get_dec_batch_loop (linearise_fuel trees) (get_symbol_idx form_manager "(")
      1 1 (map init_queue trees) ∅
  else Raise IndexError.

(** ** Tensors and the network *)

Abbreviation Vec := (list Q).

(** Node embeddings of one graph: one row per source node. *)
Abbreviation Mem := (list (list Q)).

Definition zeros (rows width : nat) : list Vec := replicate rows (replicate width 0%Q).

Definition rows_get (t : list Vec) (i : nat) : result Vec :=
  of_option IndexError (t !! i).

(** [t[i, :] = v] *)
Definition rows_set (t : list Vec) (i : nat) (v : Vec) : result (list Vec) :=
  if i <? length t then Ok (<[i := v]> t) else Raise IndexError.

(** Learned layers and the numeric primitives of the tensor library, each
    acting on one row.  Shapes are not part of the embedding: a batched
    operation acts row by row on the rows its arguments share. *)
Record Net : Type := {
  embedding : Z -> Vec;               (* self.embeddings *)
  dropout : Vec -> Vec;               (* TreeDecodingUnit.dropout *)
  lstm : Vec -> Vec * Vec -> Vec * Vec; (* nn.LSTMCell *)
  attention : Vec -> Mem -> Vec * Vec;  (* Attention: context vector, scores *)
  linear_att : Vec -> Vec;
  tanh : Vec -> Vec;
  dropout_attn : Vec -> Vec;
  linear_out : Vec -> Vec;
  ptr : Vec -> Q;
  sigmoid : Q -> Q;
  softmax : Vec -> Vec;
  log : Q -> Q;
  criterion : list Vec -> list Z -> Q;
  pool_max : Mem -> Vec;              (* torch.max(x, 1)[0] on one graph *)
  pool_min : Mem -> Vec;
  pool_mean : Mem -> Vec
}.

(** First index of a largest entry, as [argmax] returns it. *)
Fixpoint argmax_from (best_i : nat) (best : Q) (i : nat) (l : Vec) : nat :=
  match l with
  | [] => best_i
  | x :: l' =>
      if Qle_bool x best then argmax_from best_i best (S i) l'
      else argmax_from i x (S i) l'
  end.

Definition argmax (l : Vec) : Z :=
  match l with
  | [] => 0%Z
  | x :: l' => Z.of_nat (argmax_from 0 x 1 l')
  end.

Definition vsum (v : Vec) : Q := foldr Qplus 0%Q v.

(** ** The decoder object *)

Record TreeDecodingUnit : Type := {
  tdu_input_size : nat;
  tdu_emb_size : nat;
  tdu_hidden_size : nat;
  tdu_dropout_input : Q;
  tdu_use_sibling : bool
}.

Record StdTreeDecoder : Type := {
  net : Net;
  num_layers : nat;
  rnn_size : nat;
  enc_hidden_size : nat;
  hidden_size : nat;
  max_dec_seq_length : nat;
  max_dec_tree_depth : nat;
  tgt_vocab : Vocab;
  teacher_force_ratio : Q;
  use_sibling : bool;
  dec_emb_size : nat;
  dropout_input : Q;
  graph_pooling_strategy : string;
  use_copy : bool;
  separate_attn : bool;
  rnn : TreeDecodingUnit
}.

(** [_build_rnn]: [rnn_type] is a parameter and is not read. *)
Definition _build_rnn (rnn_type : string) (input_size emb_size hidden_size : nat)
    (dropout_input : Q) (use_sibling : bool) : TreeDecodingUnit :=
  {| tdu_input_size := input_size; tdu_emb_size := emb_size;
     tdu_hidden_size := hidden_size; tdu_dropout_input := dropout_input;
     tdu_use_sibling := use_sibling |}.

(** Arguments of [__init__]; [cfg_net] stands for the layers it creates and
    for the [embeddings] and [criterion] it is given.  A [Config] stands for
    arguments the layer constructors accept (a dropout ratio within [0, 1],
    an [embeddings] module that has an [embedding_dim]): their own argument
    checks are not modelled, and nothing below rests on the constructor
    returning for other arguments. *)
Record Config : Type := {
  cfg_net : Net;
  cfg_attn_type : string;
  cfg_enc_hidden_size : nat;
  cfg_dec_emb_size : nat;
  cfg_dec_hidden_size : nat;
  cfg_output_size : nat;
  cfg_teacher_force_ratio : Q;
  cfg_use_sibling : bool;
  cfg_use_copy : bool;
  cfg_num_layers : nat;
  cfg_dropout_for_decoder : Q;
  cfg_rnn_type : string;
  cfg_max_dec_seq_length : nat;
  cfg_max_dec_tree_depth : nat;
  cfg_tgt_vocab : Vocab;
  cfg_graph_pooling_strategy : string
}.

Definition __init__ (c : Config) : StdTreeDecoder :=
  {| net := cfg_net c;
     num_layers := cfg_num_layers c;
     rnn_size := cfg_dec_hidden_size c;
     enc_hidden_size := cfg_enc_hidden_size c;
     hidden_size := cfg_dec_hidden_size c;
     max_dec_seq_length := cfg_max_dec_seq_length c;
     max_dec_tree_depth := cfg_max_dec_tree_depth c;
     tgt_vocab := cfg_tgt_vocab c;
     teacher_force_ratio := cfg_teacher_force_ratio c;
     use_sibling := cfg_use_sibling c;
     dec_emb_size := cfg_dec_emb_size c;
     dropout_input := cfg_dropout_for_decoder c;
     graph_pooling_strategy := cfg_graph_pooling_strategy c;
     use_copy := cfg_use_copy c;
     separate_attn := negb (String.eqb (cfg_attn_type c) "uniform");
     rnn := _build_rnn (cfg_rnn_type c) (cfg_output_size c) (cfg_dec_emb_size c)
              (cfg_dec_hidden_size c) (cfg_dropout_for_decoder c) (cfg_use_sibling c) |}.

(** ** The recurrent unit: [TreeDecodingUnit.forward] *)

Definition cat3 (a b c : Vec) : Vec := a ++ b ++ c.

Definition tdu_forward (n : Net) (u : TreeDecodingUnit) (input_src : list Z)
    (prev_c prev_h parent_h : list Vec) (sibling_state : option (list Vec))
  : result (list Vec * list Vec * list Vec) :=
  let src_emb := map (fun w => dropout n (embedding n w)) input_src in
  input_single_step <--
    (if tdu_use_sibling u then
       match sibling_state with
       | Some sib => Ok (zip_with (fun ep s => fst ep ++ snd ep ++ s) (zip src_emb parent_h) sib)
       | None => Raise TypeError   (* torch.cat over a tuple holding None *)
       end
     else Ok (zip_with app src_emb parent_h)) ;;
  let out := zip_with (lstm n) input_single_step (zip prev_c prev_h) in
  Ok (map fst out, map snd out, input_single_step).

(** ** One decoding step: [decode_step] *)

Definition _filter_oov (tokens : list Z) (vocab : Vocab) : list Z :=
  map (fun t => if (Z.of_nat (vocab_size vocab) <=? t)%Z
                then get_symbol_idx vocab (unk_token vocab) else t) tokens.

(** [out.scatter_add_(1, index, src)] on one row: [out[index[j]] += src[j]]
    for every position [j] of [index]. *)
Fixpoint scatter_add_row (out : Vec) (index : list Z) (src : Vec) : result Vec :=
  match index with
  | [] => Ok out
  | i :: index' =>
      match src with
      | [] => Raise RuntimeError
      | x :: src' =>
          if (0 <=? i)%Z && (Z.to_nat i <? length out) then
            scatter_add_row (alter (fun y => (y + x)%Q) (Z.to_nat i) out) index' src'
          else Raise RuntimeError
      end
  end.

Fixpoint rmapM {A B} (f : A -> result B) (l : list A) : result (list B) :=
  match l with
  | [] => Ok []
  | a :: l' => b <-- f a ;; bs <-- rmapM f l' ;; Ok (b :: bs)
  end.

(** The copy branch of [decode_step] on one row: [ret] padded with zeros,
    then the pointer mass scattered onto the source ids. *)
Definition copy_row (n : Net) (need_pad_length : nat)
    (dec_emb rnn_state_c rnn_state_h attn_ptr decoder_output attn_scores : Vec)
    (enc_row : list Z) : result Vec :=
  let prob_ptr := sigmoid n (ptr n (dec_emb ++ (rnn_state_c ++ rnn_state_h) ++ attn_ptr)) in
  let prob_gen := (1 - prob_ptr)%Q in
  let gen_output := softmax n decoder_output in
  let ret := map (Qmult prob_gen) gen_output in
  let output := ret ++ replicate need_pad_length 0%Q in
  scatter_add_row output enc_row (map (Qmult prob_ptr) attn_scores).

Definition decode_step (d : StdTreeDecoder) (tgt_batch_size : nat)
    (dec_single_input : list Z) (dec_single_state : list Vec * list Vec)
    (memory : list Mem) (parent_state : list Vec)
    (sibling_state : option (list Vec)) (oov_dict : option Vocab)
    (enc_batch : option (list (list Z)))
  : result (list Vec * (list Vec * list Vec) * list Vec) :=
  let n := net d in
  let dec_single_input := _filter_oov dec_single_input (tgt_vocab d) in
  r <-- tdu_forward n (rnn d) dec_single_input (fst dec_single_state)
          (snd dec_single_state) parent_state sibling_state ;;
  let '(rnn_state_c, rnn_state_h, dec_emb) := r in
  (* the local variables context_vector and attn_scores, bound only in the
     uniform-attention branch *)
  let bound : option (list Vec * list Vec) :=
    if separate_attn d then None
    else let a := zip_with (attention n) rnn_state_h memory in
         Some (map fst a, map snd a) in
  let attn_collect : list (list Vec) :=
    match bound with Some (cv, _) => [cv] | None => [] end in
  match bound with
  | None => Raise UnboundLocalError
  | Some (context_vector, attn_scores) =>
      let pred := map (fun x => tanh n (linear_att n x))
                      (zip_with app context_vector rnn_state_h) in
      let decoder_output := map (fun x => linear_out n (dropout_attn n x)) pred in
      if use_copy d then
        match enc_batch, oov_dict with
        | None, _ => Raise AssertionError
        | Some _, None => Raise AssertionError
        | Some enc, Some oov =>
            let attn_ptr := context_vector in   (* torch.cat of the one collected context *)
            let need_pad_length := (Z.of_nat (vocab_len oov) - Z.of_nat (vocab_len (tgt_vocab d)))%Z in
            if (need_pad_length <? 0)%Z then Raise RuntimeError
            else
              output <-- rmapM
                (fun x : Vec * Vec * Vec * Vec * Vec * Vec * list Z =>
                   let '(e, c, h, a, o, s, ids) := x in
                   copy_row n (Z.to_nat need_pad_length) e c h a o s ids)
                (zip (zip (zip (zip (zip (zip dec_emb rnn_state_c) rnn_state_h) attn_ptr)
                                decoder_output) attn_scores) enc) ;;
              Ok (output, (rnn_state_c, rnn_state_h), attn_scores)
        end
      else
        Ok (map (softmax n) decoder_output, (rnn_state_c, rnn_state_h), attn_scores)
  end.


(** ** [create_mask]

    [x] is a one-dimensional tensor of integers and [N] the width of the
    mask.  [mask[i, :x[i]] = 1] is a NumPy slice assignment: a negative stop
    counts from the end of the row and a stop outside the row is clipped. *)

(** The end of the slice [:k] of a row of length [N]. *)
Definition slice_stop (N : nat) (k : Z) : nat :=
  if (k <? 0)%Z then Z.to_nat (Z.of_nat N + k) else Z.to_nat k `min` N.

(** [row[:stop] = 1] *)
Definition set_prefix (row : Vec) (stop : nat) : Vec :=
  foldl (fun r j => <[j := 1%Q]> r) row (seq 0 stop).

Definition create_mask (x : list Z) (N : nat) : list Vec :=
  map (fun k => set_prefix (replicate N 0%Q) (slice_stop N k)) x.
(** ** The training pass: [_run_forward_pass] *)

(** [dec_state[level][step][1 or 2]]: cell (1) and hidden (2) state. *)
Abbreviation DecState := (gmap nat (gmap nat (gmap nat (list Vec)))).

Definition init_dec_state (depth seq_length : nat) : DecState :=
  let row : gmap nat (gmap nat (list Vec)) :=
    list_to_map (map (fun j => (j, ∅)) (seq 0 (S seq_length))) in
  list_to_map (map (fun i => (i, row)) (seq 0 (S depth))).

Definition ds_get (ds : DecState) (q t j : nat) : result (list Vec) :=
  match ds !! q with
  | None => Raise KeyError
  | Some row =>
      match row !! t with
      | None => Raise KeyError
      | Some slot => of_option KeyError (slot !! j)
      end
  end.

(** [dec_state[q][t][j] = v]: the two outer dictionaries are only read. *)
Definition ds_set (ds : DecState) (q t j : nat) (v : list Vec) : result DecState :=
  match ds !! q with
  | None => Raise KeyError
  | Some row =>
      match row !! t with
      | None => Raise KeyError
      | Some slot => Ok (<[q := <[t := <[j := v]> slot]> row]> ds)
      end
  end.

(** [m[:, i]] *)
Definition column (m : nat * list (list Z)) (i : nat) : list Z :=
  map (fun row => default 0%Z (row !! i)) (snd m).

(** What a call of [decode_step] made by the training pass was given and
    what it returned. *)
Record StepEvent : Type := {
  ev_level : nat;
  ev_step : nat;
  ev_teacher_force : bool;
  ev_pred : option (list Vec);       (* the local [pred] when the input is chosen *)
  ev_input : list Z;
  ev_state : list Vec * list Vec;
  ev_parent : list Vec;
  ev_sibling : option (list Vec);
  ev_out : result (list Vec * (list Vec * list Vec) * list Vec)
}.

Inductive Event : Type :=
| Seeded (cur_index : nat) (cell hidden sibling_state : list Vec)
| Stepped (e : StepEvent).

(** The mutable locals of the pass, and the log of what it did. *)
Record TState : Type := {
  dec_state : DecState;
  loss : Q;
  pred : option (list Vec);
  draws : nat;                 (* calls of random.random() so far *)
  trace : list Event
}.

Abbreviation T := (M TState).

Definition get_ds {A} (f : DecState -> result A) : T A :=
  fun st => (st, f (dec_state st)).

Definition put_ds (q t j : nat) (v : list Vec) : T unit :=
  fun st =>
    match ds_set (dec_state st) q t j v with
    | Ok ds => ({| dec_state := ds; loss := loss st; pred := pred st;
                   draws := draws st; trace := trace st |}, Ok tt)
    | Raise e => (st, Raise e)
    | Timeout => (st, Timeout)
    end.

Definition log_event (e : Event) : T unit :=
  fun st => ({| dec_state := dec_state st; loss := loss st; pred := pred st;
                draws := draws st; trace := trace st ++ [e] |}, Ok tt).

Definition draw (rand : nat -> Q) : T Q :=
  fun st => ({| dec_state := dec_state st; loss := loss st; pred := pred st;
                draws := S (draws st); trace := trace st |}, Ok (rand (draws st))).

Definition set_pred_loss (p : list Vec) (l : Q) : T unit :=
  fun st => ({| dec_state := dec_state st; loss := l; pred := Some p;
                draws := draws st; trace := trace st |}, Ok tt).

Local Open Scope m_scope.

(** The seeding of a level only touches the state table: it runs on the
    table alone and [on_table] places it in the pass. *)
Abbreviation D := (M DecState).

Definition tab_get (q t j : nat) : D (list Vec) := fun ds => (ds, ds_get ds q t j).

Definition tab_put (q t j : nat) (v : list Vec) : D unit :=
  fun ds =>
    match ds_set ds q t j v with
    | Ok ds' => (ds', Ok tt)
    | Raise e => (ds, Raise e)
    | Timeout => (ds, Timeout)
    end.

Definition on_table {A} (m : D A) : T A :=
  fun st =>
    let (ds, r) := m (dec_state st) in
    ({| dec_state := ds; loss := loss st; pred := pred st;
        draws := draws st; trace := trace st |}, r).

(** [dec_state[q][0][j][i, :] = v] *)
Definition set_state_row (q j i : nat) (v : Vec) : D unit :=
  t <~ tab_get q 0 j ;;
  t' <~ lift (rows_set t i v) ;;
  tab_put q 0 j t'.

(** The scan for a left sibling: the last queue index before [cur_index - 1]
    with the same parent and a smaller child index. *)
Definition find_sibling (cur_index : nat) (queue : list QTree) : option nat :=
  foldl
    (fun (sibling_index : option nat) (q_index : nat) =>
       match queue !! q_index, queue !! (cur_index - 1) with
       | Some e, Some c =>
           if (cur_index <=? length queue) && (q_index <? cur_index - 1)
              && (q_parent e =? q_parent c) && (q_child_index e <? q_child_index c)
           then Some q_index else sibling_index
       | _, _ => sibling_index
       end)
    None (seq 0 (length queue)).

(** Lines 232-240 for tree [i]: the state of the parent at the step of this
    child is copied into row [i - 1] of the level's first state. *)
Definition seed_from_parent (queue : list QTree) (cur_index i : nat) : D unit :=
  if cur_index <=? length queue then
    e <~ lift (of_option IndexError (queue !! (cur_index - 1))) ;;
    let par_index := q_parent e in
    let child_index := q_child_index e in
    c <~ tab_get par_index child_index 1 ;;
    cr <~ lift (rows_get c (i - 1)) ;;
    set_state_row cur_index 1 (i - 1) cr ;;;
    h <~ tab_get par_index child_index 2 ;;
    hr <~ lift (rows_get h (i - 1)) ;;
    set_state_row cur_index 2 (i - 1) hr
  else mret tt.

(** Lines 242-249 for tree [i]: the local [sibling_state] afterwards. *)
Definition seed_sibling (dec_batch : DecBatch) (queue : list QTree)
    (cur_index i : nat) (sibling_state : list Vec) : D (list Vec) :=
  match find_sibling cur_index queue with
  | Some sibling_index =>
      m <~ lift (of_option KeyError (dec_batch !! sibling_index)) ;;
      (if fst m =? 0 then lift (Raise KeyError) else mret tt) ;;;
      s <~ tab_get sibling_index (fst m - 1) 2 ;;
      sr <~ lift (rows_get s (i - 1)) ;;
      lift (rows_set sibling_state (i - 1) sr)
  | None => mret sibling_state
  end.

(** Seeding of level [cur_index] (lines 214-249): returns [sibling_state]. *)
Definition seed_level (d : StdTreeDecoder) (tgt_batch_size : nat)
    (graph_cell_state graph_hidden_state : list Vec)
    (dec_batch : DecBatch) (queue_tree : list (list QTree))
    (cur_index : nat) : D (list Vec) :=
  mfor [1; 2] (fun j => tab_put cur_index 0 j (zeros tgt_batch_size (rnn_size d))) ;;;
  let sibling_state := zeros tgt_batch_size (rnn_size d) in
  if cur_index =? 1 then
    mfor (seq 0 tgt_batch_size) (fun i =>
      c <~ lift (rows_get graph_cell_state i) ;;
      set_state_row 1 1 i c ;;;
      h <~ lift (rows_get graph_hidden_state i) ;;
      set_state_row 1 2 i h) ;;;
    mret sibling_state
  else
    mfold (seq 1 tgt_batch_size)
      (fun sibling_state i =>
         queue <~ lift (of_option KeyError (queue_tree !! (i - 1))) ;;
         seed_from_parent queue cur_index i ;;;
         seed_sibling dec_batch queue cur_index i sibling_state)
      sibling_state.

Definition eps : Q := 1 # (10 ^ 31).

(** [torch.log(pred + 1e-31)] *)
Definition log_rows (n : Net) (pr : list Vec) : list Vec :=
  map (map (fun x => log n (x + eps)%Q)) pr.

(** One iteration of the token loop of a level (lines 253-271). *)
Definition token_step (d : StdTreeDecoder) (rand : nat -> Q) (tgt_batch_size : nat)
    (enc_outputs : list Mem) (oov_dict : option Vocab)
    (enc_batch : option (list (list Z)))
    (m : nat * list (list Z)) (parent_h : list Vec) (cur_index i : nat) : T unit :=
  r <~ draw rand ;;
  let teacher_force := negb (Qle_bool (teacher_force_ratio d) r) in
  p <~ (fun st => (st, Ok (pred st))) ;;
  input_word <~
    (if negb teacher_force && (0 <? i) then
       match p with
       | Some pr => mret (map argmax pr)
       | None => lift (Raise UnboundLocalError)
       end
     else mret (column m i)) ;;
  c <~ get_ds (fun ds => ds_get ds cur_index i 1) ;;
  h <~ get_ds (fun ds => ds_get ds cur_index i 2) ;;
  (* sibling_state is not among the arguments of this call *)
  let out := decode_step d tgt_batch_size input_word (c, h) enc_outputs parent_h
               None oov_dict enc_batch in
  log_event (Stepped {| ev_level := cur_index; ev_step := i;
                        ev_teacher_force := teacher_force; ev_pred := p;
                        ev_input := input_word; ev_state := (c, h);
                        ev_parent := parent_h; ev_sibling := None;
                        ev_out := out |}) ;;;
  o <~ lift out ;;
  let '(pr, (c', h'), _) := o in
  put_ds cur_index (i + 1) 1 c' ;;;
  put_ds cur_index (i + 1) 2 h' ;;;
  let pr' := log_rows (net d) pr in
  l <~ (fun st => (st, Ok (loss st))) ;;
  set_pred_loss pr' (l + criterion (net d) pr' (column m (i + 1)))%Q.

(** Body of the [while] loop for one level. *)
Definition run_level (d : StdTreeDecoder) (rand : nat -> Q) (tgt_batch_size : nat)
    (graph_cell_state graph_hidden_state : list Vec) (enc_outputs : list Mem)
    (oov_dict : option Vocab) (enc_batch : option (list (list Z)))
    (dec_batch : DecBatch) (queue_tree : list (list QTree))
    (cur_index : nat) : T unit :=
  sibling_state <~ on_table (seed_level d tgt_batch_size graph_cell_state
                                 graph_hidden_state dec_batch queue_tree cur_index) ;;
  parent_h <~ get_ds (fun ds => ds_get ds cur_index 0 2) ;;
  c0 <~ get_ds (fun ds => ds_get ds cur_index 0 1) ;;
  log_event (Seeded cur_index c0 parent_h sibling_state) ;;;
  m <~ lift (of_option KeyError (dec_batch !! cur_index)) ;;
  mfor (seq 0 (fst m - 1))
    (token_step d rand tgt_batch_size enc_outputs oov_dict enc_batch m parent_h cur_index).

(** [while cur_index <= max_index], with [remaining = max_index + 1 - cur_index];
    the [break] leaves the loop once the depth limit is passed. *)
Fixpoint level_loop (d : StdTreeDecoder) (rand : nat -> Q) (tgt_batch_size : nat)
    (graph_cell_state graph_hidden_state : list Vec) (enc_outputs : list Mem)
    (oov_dict : option Vocab) (enc_batch : option (list (list Z)))
    (dec_batch : DecBatch) (queue_tree : list (list QTree))
    (remaining cur_index : nat) : T unit :=
  match remaining with
  | 0 => mret tt
  | S remaining' =>
      if max_dec_tree_depth d <? cur_index then mret tt
      else
        run_level d rand tgt_batch_size graph_cell_state graph_hidden_state
          enc_outputs oov_dict enc_batch dec_batch queue_tree cur_index ;;;
        level_loop d rand tgt_batch_size graph_cell_state graph_hidden_state
          enc_outputs oov_dict enc_batch dec_batch queue_tree remaining' (S cur_index)
  end.

Local Close Scope m_scope.

Definition zeros_like (x : list Mem) : list Mem :=
  map (map (map (fun _ => 0%Q))) x.

(** The pooled graph state (lines 180-193). *)
Definition graph_states (d : StdTreeDecoder) (graph_node_embedding : list Mem)
    (graph_level_embedding : option (list Vec * list Vec))
  : result (list Vec * list Vec) :=
  match graph_level_embedding with
  | None =>
      g <-- (if String.eqb (graph_pooling_strategy d) "max"
             then Ok (map (pool_max (net d)) graph_node_embedding)
             else if String.eqb (graph_pooling_strategy d) "min"
             then Ok (map (pool_min (net d)) graph_node_embedding)
             else if String.eqb (graph_pooling_strategy d) "mean"
             then Ok (map (pool_mean (net d)) graph_node_embedding)
             else Raise NotImplementedError) ;;
      Ok (g, g)
  | Some (c, h) => Ok (c, h)
  end.

Definition init_tstate (d : StdTreeDecoder) : TState :=
  {| dec_state := init_dec_state (max_dec_tree_depth d) (max_dec_seq_length d);
     loss := 0; pred := None; draws := 0; trace := [] |}.

(** [_run_forward_pass].  [rand] is the stream of values [random.random()]
    returns.  The result pairs the final locals (with the log) and the
    returned loss or the exception raised. *)
Definition _run_forward_pass (d : StdTreeDecoder) (rand : nat -> Q)
    (graph_node_embedding : list Mem) (graph_node_mask : list Vec)
    (rnn_node_embedding : list Mem)
    (graph_level_embedding : option (list Vec * list Vec))
    (tgt_tree_batch : list Tree) (enc_batch : option (list (list Z)))
    (oov_dict : option Vocab) : TState * result Q :=
  let tgt_batch_size := length tgt_tree_batch in
  let enc_outputs := graph_node_embedding in
  match graph_states d graph_node_embedding graph_level_embedding with
  | Raise e => (init_tstate d, Raise e)
  | Timeout => (init_tstate d, Timeout)
  | Ok (graph_cell_state, graph_hidden_state) =>
      let rnn_node_embedding := zeros_like graph_node_embedding in
      match get_dec_batch tgt_tree_batch tgt_batch_size (tgt_vocab d) with
      | Raise e => (init_tstate d, Raise e)
      | Timeout => (init_tstate d, Timeout)
      | Ok (dec_batch, queue_tree, max_index) =>
          match level_loop d rand tgt_batch_size graph_cell_state graph_hidden_state
                  enc_outputs oov_dict enc_batch dec_batch queue_tree max_index 1
                  (init_tstate d) with
          | (st, Ok _) =>
              if tgt_batch_size =? 0 then (st, Raise ZeroDivisionError)
              else (st, Ok (loss st / inject_Z (Z.of_nat tgt_batch_size))%Q)
          | (st, Raise e) => (st, Raise e)
          | (st, Timeout) => (st, Timeout)
          end
      end
  end.

(** ** The public entry: [forward] and [_extract_params] *)

(** [batch_node_features] of the batched input graph; the key
    ["token_id_oov"] is present only when the copy mechanism prepared it. *)
Record GraphBatch : Type := {
  node_emb : list Mem;
  rnn_emb : list Mem;
  token_id : list (list Z);
  token_id_oov : option (list (list Z))
}.

Record Params : Type := {
  p_graph_node_embedding : list Mem;
  p_graph_node_mask : list Vec;
  p_rnn_node_embedding : list Mem;
  p_graph_level_embedding : option (list Vec * list Vec);
  p_enc_batch : option (list (list Z))
}.

Definition _extract_params (d : StdTreeDecoder) (g : GraphBatch) : result Params :=
  let graph_node_mask :=
    map (map (fun t => if (t =? 0)%Z then (0 - 1)%Q else (1 - 1)%Q)) (token_id g) in
  src_seq_ret <-- (if use_copy d
                   then match token_id_oov g with
                        | Some ids => Ok (Some ids)
                        | None => Raise KeyError
                        end
                   else Ok None) ;;
  Ok {| p_graph_node_embedding := node_emb g;
        p_graph_node_mask := graph_node_mask;
        p_rnn_node_embedding := rnn_emb g;
        p_graph_level_embedding := None;
        p_enc_batch := src_seq_ret |}.

Definition forward (d : StdTreeDecoder) (rand : nat -> Q) (g : GraphBatch)
    (tgt_tree_batch : list Tree) (oov_dict : option Vocab) : TState * result Q :=
  match _extract_params d g with
  | Ok params =>
      _run_forward_pass d rand (p_graph_node_embedding params)
        (p_graph_node_mask params) (p_rnn_node_embedding params)
        (p_graph_level_embedding params) tgt_tree_batch (p_enc_batch params) oov_dict
  | Raise e => (init_tstate d, Raise e)
  | Timeout => (init_tstate d, Timeout)
  end.

(** ** Greedy inference: [translate] with [use_beam_search = False]

    The [Tree] objects built during inference are mutated in place and end
    up referring to one another, so they live in a store: the tree of queue
    entry [k] is object [k], and a child slot holds a word index or the
    address of another object. *)

Inductive Slot : Type :=
| SWord (w : Z)
| SRef (addr : nat).

Record QDec : Type := {
  qd_s : list Vec * list Vec;
  qd_parent : nat;
  qd_child_index : nat;
  qd_t : list Slot
}.

(** A call of [decode_step] made by [translate]; [ce_sibling_state] is the
    local [sibling_state] at the time of the call. *)
Record CallEvent : Type := {
  ce_head : nat;
  ce_input : list Z;
  ce_state : list Vec * list Vec;
  ce_parent : list Vec;
  ce_sibling_state : list Vec;
  ce_sibling : option (list Vec);
  ce_out : result (list Vec * (list Vec * list Vec) * list Vec)
}.

Record IState : Type := {
  queue_decode : list QDec;
  calls : list CallEvent
}.

Abbreviation I := (M IState).

Definition get_queue : I (list QDec) := fun st => (st, Ok (queue_decode st)).

Definition put_queue (q : list QDec) : I unit :=
  fun st => ({| queue_decode := q; calls := calls st |}, Ok tt).

Definition log_call (e : CallEvent) : I unit :=
  fun st => ({| queue_decode := queue_decode st; calls := calls st ++ [e] |}, Ok tt).

Local Open Scope m_scope.

(** [t.add_child(w)] on the tree of queue entry [head - 1]. *)
Definition add_child (head : nat) (w : Z) : I unit :=
  q <~ get_queue ;;
  e <~ lift (of_option IndexError (q !! (head - 1))) ;;
  put_queue (<[head - 1 := {| qd_s := qd_s e; qd_parent := qd_parent e;
                              qd_child_index := qd_child_index e;
                              qd_t := qd_t e ++ [SWord w] |}]> q).

(** The sibling scan of [translate], over [queue_decode]. *)
Definition find_sibling_decode (head : nat) (queue : list QDec) : option nat :=
  foldl
    (fun (sibling_index : option nat) (q_index : nat) =>
       match queue !! q_index, queue !! (head - 1) with
       | Some e, Some c =>
           if (head <=? length queue) && (q_index <? head - 1)
              && (qd_parent e =? qd_parent c) && (qd_child_index e <? qd_child_index c)
           then Some q_index else sibling_index
       | _, _ => sibling_index
       end)
    None (seq 0 (length queue)).

(** [while True] of the greedy branch (lines 428-447). *)
Fixpoint greedy_loop (fuel : nat) (d : StdTreeDecoder) (form_manager : Vocab)
    (max_dec_seq_length : nat) (enc_outputs : list Mem) (oov_dict : option Vocab)
    (enc_w_list : option (list (list Z))) (head : nat)
    (parent_h sibling_state : list Vec)
    (s : list Vec * list Vec) (prev_word : list Z) (i_child : nat) : I unit :=
  match fuel with
  | 0 => lift Timeout
  | S fuel' =>
      (* sibling_state is not among the arguments of this call *)
      let out := decode_step d 1 prev_word s enc_outputs parent_h None oov_dict enc_w_list in
      log_call {| ce_head := head; ce_input := prev_word; ce_state := s;
                  ce_parent := parent_h; ce_sibling_state := sibling_state;
                  ce_sibling := None; ce_out := out |} ;;;
      o <~ lift out ;;
      let '(prediction, (curr_c, curr_h), _) := o in
      let s := (curr_c, curr_h) in
      let prev_word := map argmax (log_rows (net d) prediction) in
      w <~ lift (of_option IndexError (prev_word !! 0)) ;;
      q <~ get_queue ;;
      e <~ lift (of_option IndexError (q !! (head - 1))) ;;
      if (w =? get_symbol_idx form_manager (end_token form_manager))%Z
         || (max_dec_seq_length <=? length (qd_t e))
      then mret tt
      else
        (if (w =? get_symbol_idx form_manager (non_terminal_token form_manager))%Z
         then
           put_queue (q ++ [{| qd_s := s; qd_parent := head;
                               qd_child_index := i_child; qd_t := [] |}]) ;;;
           add_child head w
         else add_child head w) ;;;
        greedy_loop fuel' d form_manager max_dec_seq_length enc_outputs oov_dict
          enc_w_list head parent_h sibling_state s prev_word (i_child + 1)
  end.

(** Body of the outer [while] for one queue position. *)
Definition expand_head (d : StdTreeDecoder) (form_manager : Vocab)
    (dec_hidden_size max_dec_seq_length : nat) (enc_outputs : list Mem)
    (oov_dict : option Vocab) (enc_w_list : option (list (list Z)))
    (head : nat) : I unit :=
  q <~ get_queue ;;
  e <~ lift (of_option IndexError (q !! (head - 1))) ;;
  let s := qd_s e in
  let parent_h := snd s in
  let sibling_state :=
    match find_sibling_decode head q with
    | Some sibling_index =>
        match q !! sibling_index with
        | Some sib => snd (qd_s sib)
        | None => zeros 1 dec_hidden_size
        end
    | None => zeros 1 dec_hidden_size
    end in
  let prev_word :=
    if head =? 1 then [get_symbol_idx form_manager (start_token form_manager)]
    else [get_symbol_idx form_manager "("] in
  greedy_loop (S max_dec_seq_length - length (qd_t e)) d form_manager max_dec_seq_length
    enc_outputs oov_dict enc_w_list head parent_h sibling_state s prev_word 1.

(** [while head <= len(queue_decode) and head <= max_dec_tree_depth], with
    [remaining = max_dec_tree_depth + 1 - head]. *)
Fixpoint head_loop (d : StdTreeDecoder) (form_manager : Vocab)
    (dec_hidden_size max_dec_seq_length : nat) (enc_outputs : list Mem)
    (oov_dict : option Vocab) (enc_w_list : option (list (list Z)))
    (remaining head : nat) : I unit :=
  match remaining with
  | 0 => mret tt
  | S remaining' =>
      q <~ get_queue ;;
      if head <=? length q then
        expand_head d form_manager dec_hidden_size max_dec_seq_length enc_outputs
          oov_dict enc_w_list head ;;;
        head_loop d form_manager dec_hidden_size max_dec_seq_length enc_outputs
          oov_dict enc_w_list remaining' (head + 1)
      else mret tt
  end.

Local Close Scope m_scope.

(** One iteration of the assembly loop (lines 478-480):
    [queue_decode[cur["parent"] - 1]["t"].children[cur["child_index"] - 1] = cur["t"]]. *)
Definition attach (queue : list QDec) (i : nat) : result (list QDec) :=
  cur <-- of_option IndexError (queue !! i) ;;
  p <-- py_index (length queue) (Z.of_nat (qd_parent cur) - 1) ;;
  e <-- of_option IndexError (queue !! p) ;;
  cs <-- py_setitem (qd_t e) (Z.of_nat (qd_child_index cur) - 1) (SRef i) ;;
  Ok (<[p := {| qd_s := qd_s e; qd_parent := qd_parent e;
                qd_child_index := qd_child_index e; qd_t := cs |}]> queue).

(** [for i in range(len(queue_decode) - 1, 0, -1)] *)
Definition assemble (queue : list QDec) : result (list QDec) :=
  foldl (fun acc i => q <-- acc ;; attach q i) (Ok queue)
        (reverse (seq 1 (length queue - 1))).

(** The tree an object of the store denotes; in Python a cyclic store makes
    any traversal recurse without end, which [Timeout] stands for. *)
Fixpoint read_tree (fuel : nat) (queue : list QDec) (addr : nat) : result Tree :=
  match fuel with
  | 0 => Timeout
  | S fuel' =>
      e <-- of_option IndexError (queue !! addr) ;;
      cs <-- rmapM (fun s => match s with
                             | SWord w => Ok (Word w)
                             | SRef a => t <-- read_tree fuel' queue a ;; Ok (Sub t)
                             end) (qd_t e) ;;
      Ok (Node cs)
  end.

(** [translate] from the encoder outputs on ([graph_topology], [gnn_encoder]
    and [_extract_params] are external), greedy branch.  The value returned
    is the tree [queue_decode[0]["t"]] on which [to_list] is then called. *)
Definition translate (d : StdTreeDecoder) (form_manager : Vocab)
    (dec_hidden_size max_dec_seq_length max_dec_tree_depth : nat)
    (graph_node_embedding : list Mem) (enc_w_list : option (list (list Z)))
    (oov_dict : option Vocab) : IState * result Tree :=
  let st0 := {| queue_decode := []; calls := [] |} in
  if String.eqb (graph_pooling_strategy d) "max" then
    let graph_level_embedding := map (pool_max (net d)) graph_node_embedding in
    let enc_outputs := graph_node_embedding in
    let prev_c := graph_level_embedding in
    let prev_h := graph_level_embedding in
    let st1 := {| queue_decode := [{| qd_s := (prev_c, prev_h); qd_parent := 0;
                                      qd_child_index := 1; qd_t := [] |}];
                  calls := [] |} in
    match head_loop d form_manager dec_hidden_size max_dec_seq_length enc_outputs
            oov_dict enc_w_list max_dec_tree_depth 1 st1 with
    | (st, Ok _) =>
        match assemble (queue_decode st) with
        | Ok q =>
            let st' := {| queue_decode := q; calls := calls st |} in
            (st', q0 <-- py_getitem q 0 ;; read_tree (length q) q 0)
        | Raise e => (st, Raise e)
        | Timeout => (st, Timeout)
        end
    | (st, Raise e) => (st, Raise e)
    | (st, Timeout) => (st, Timeout)
    end
  else (st0, Raise UnboundLocalError).

(** ** Reading a linearisation back

    The queue entries of the tree at batch position [b], as [translate]
    holds them before assembly: parent and child index from [queue_tree],
    and a tree whose children are the words of that level, read from row [b]
    of [dec_batch] between the start and the end marker. *)

Definition level_words (m : nat * list (list Z)) (b n : nat) : list Z :=
  take n (drop 1 (default [] (snd m !! b))).

Definition decode_queue_of (dec_batch : DecBatch) (b : nat) (queue : list QTree)
  : list QDec :=
  imap (fun k e =>
          {| qd_s := ([], []);
             qd_parent := q_parent e;
             qd_child_index := q_child_index e;
             qd_t := map SWord
                       (level_words (default (0, []) (dec_batch !! S k)) b
                          (num_children (q_tree e))) |})
       queue.

(** Linearise a batch, then assemble the entries of the tree at position [b]. *)
Definition linearise_then_assemble (form_manager : Vocab) (trees : list Tree)
    (b : nat) : result Tree :=
  r <-- get_dec_batch trees (length trees) form_manager ;;
  let '(dec_batch, queue_tree, _) := r in
  queue <-- of_option KeyError (queue_tree !! b) ;;
  q <-- assemble (decode_queue_of dec_batch b queue) ;;
  read_tree (length q) q 0.

(** ** Invariants of the linearisation and of assembly *)

Definition tag (c : Child) : Z :=
  match c with Word w => w | Sub _ => 4%Z end.

(** The entries [scan_children] appends. *)
Fixpoint sub_entries (cur_index ic : nat) (cs : list Child) : list QTree :=
  match cs with
  | [] => []
  | Sub t :: cs' =>
      {| q_tree := t; q_parent := cur_index; q_child_index := ic + 1 |}
        :: sub_entries cur_index (S ic) cs'
  | Word _ :: cs' => sub_entries cur_index (S ic) cs'
  end.

Definition qsize (l : list QTree) : nat :=
  foldr (fun e n => tree_size (q_tree e) + n) 0 l.

(** What holds of the queue of tree [T] when the loop is about to run level
    [cur]: entry 0 is the root; every later entry names a parent that comes
    before it and the child slot of that parent that holds its tree; every
    child tree of a level already run has its entry. *)
Record queue_inv (T : Tree) (cur : nat) (queue : list QTree) : Prop := {
  qi_root : queue !! 0 = Some {| q_tree := T; q_parent := 0; q_child_index := 1 |};
  qi_parent : forall i e, queue !! S i = Some e ->
    1 <= q_parent e <= S i /\ q_parent e < cur /\ 1 <= q_child_index e /\
    exists p, queue !! (q_parent e - 1) = Some p /\
      children (q_tree p) !! (q_child_index e - 1) = Some (Sub (q_tree e));
  qi_complete : forall k p c t, S k < cur -> queue !! k = Some p ->
    children (q_tree p) !! c = Some (Sub t) ->
    exists i e, queue !! S i = Some e /\ q_parent e = S k /\ q_child_index e = S c;
  qi_size : min (cur - 1) (length queue) + qsize (drop (cur - 1) queue) = tree_size T
}.

(** What holds of the whole loop state before level [cur] is run. *)
Record lin_inv (trees : list Tree) (bound cur max_index : nat)
    (queue_tree : list (list QTree)) (dec_batch : DecBatch) : Prop := {
  li_cur : 1 <= cur <= S max_index;
  li_queues : Forall2 (fun T q => queue_inv T cur q) trees queue_tree;
  li_max : 1 <= max_index <= bound;
  li_len : forall q, q ∈ queue_tree -> length q <= max_index;
  li_rows : forall c, 1 <= c < cur ->
    exists m, dec_batch !! c = Some m /\ 1 <= fst m /\
      length (snd m) = length trees /\
      forall b q e, queue_tree !! b = Some q -> q !! (c - 1) = Some e ->
        num_children (q_tree e) + 2 <= fst m /\
        level_words m b (num_children (q_tree e)) = map tag (children (q_tree e))
}.

Definition size_bound (trees : list Tree) : nat :=
  1 + foldr (fun t n => tree_size t + n) 0 trees.

(** Entry [k] of the store stands for entry [k] of the queue [Q] once the
    entries from [m] on have been attached: a word slot holds its word, and
    the slot of a child tree holds the address of the entry of that tree, or
    awaits an entry before [m]. *)
Definition slot_ok (Q : list QTree) (m k : nat) (x : QDec) (c : nat) (ch : Child) : Prop :=
  match ch with
  | Word w => qd_t x !! c = Some (SWord w)
  | Sub t =>
      (exists i e', m <= i /\ k < i /\ Q !! i = Some e' /\ q_tree e' = t /\
                    qd_t x !! c = Some (SRef i)) \/
      (exists i e', 1 <= i < m /\ Q !! i = Some e' /\
                    q_parent e' = S k /\ q_child_index e' = S c)
  end.

Definition asm_inv (Q : list QTree) (m : nat) (D : list QDec) : Prop :=
  length D = length Q /\
  forall k e, Q !! k = Some e ->
    exists x, D !! k = Some x /\ qd_parent x = q_parent e /\
      qd_child_index x = q_child_index e /\
      length (qd_t x) = num_children (q_tree e) /\
      forall c ch, children (q_tree e) !! c = Some ch -> slot_ok Q m k x c ch.

(** ** Reading a copy-mode distribution *)

Definition getq (v : Vec) (k : nat) : Q := default 0%Q (v !! k).

(** The pointer mass [p * attn[j]] of the source positions [j] whose id is [k]. *)
Definition copied (p : Q) (attn : Vec) (ids : list Z) (k : nat) : Q :=
  vsum (zip_with (fun i x => if (i =? Z.of_nat k)%Z then (p * x)%Q else 0%Q) ids attn).

(** The probability the copy branch computes from the raw step input, the
    new cell and hidden rows and the attention context. *)
Definition pointer_gate (n : Net) (dec_emb rnn_state_c rnn_state_h attn_ptr : Vec) : Q :=
  sigmoid n (ptr n (dec_emb ++ (rnn_state_c ++ rnn_state_h) ++ attn_ptr)).

(** The mixing with the two weights exchanged: the generation part scaled
    by the sigmoid gate and the attention scaled by one minus it. *)
Definition copy_row_gate_on_generation (n : Net) (need_pad_length : nat)
    (dec_emb rnn_state_c rnn_state_h attn_ptr decoder_output attn_scores : Vec)
    (enc_row : list Z) : result Vec :=
  let gate := pointer_gate n dec_emb rnn_state_c rnn_state_h attn_ptr in
  let gen_output := softmax n decoder_output in
  scatter_add_row (map (Qmult gate) gen_output ++ replicate need_pad_length 0%Q)
    enc_row (map (Qmult (1 - gate)%Q) attn_scores).

(** Rows with every entry in lowest terms, to display a computed result. *)
Definition lowest_terms (rows : list Vec) : list Vec := map (map Qred) rows.

Definition step_rows (r : result (list Vec * (list Vec * list Vec) * list Vec))
  : option (list Vec) :=
  match r with
  | Ok (out, _, _) => Some (lowest_terms out)
  | _ => None
  end.

(** ** What the training pass logs *)

(** The event that token step [i] of level [cur_index] logs from the state
    [st], given the states [c] and [h] it reads from the table. *)
Definition step_event (d : StdTreeDecoder) (rand : nat -> Q) (tgt_batch_size : nat)
    (enc_outputs : list Mem) (oov_dict : option Vocab)
    (enc_batch : option (list (list Z))) (m : nat * list (list Z))
    (parent_h : list Vec) (cur_index i : nat) (st : TState) (c h : list Vec)
  : StepEvent :=
  let teacher_force := negb (Qle_bool (teacher_force_ratio d) (rand (draws st))) in
  let input_word :=
    if negb teacher_force && (0 <? i)
    then match pred st with Some pr => map argmax pr | None => [] end
    else column m i in
  {| ev_level := cur_index; ev_step := i; ev_teacher_force := teacher_force;
     ev_pred := pred st; ev_input := input_word; ev_state := (c, h);
     ev_parent := parent_h; ev_sibling := None;
     ev_out := decode_step d tgt_batch_size input_word (c, h) enc_outputs parent_h
                 None oov_dict enc_batch |}.

(** ** Hoare triples for the state-and-exception monad *)

(** Partial correctness: what holds when [m] returns. *)
Definition hoare {St A} (P : St -> Prop) (m : M St A) (Q : A -> St -> Prop) : Prop :=
  forall s, P s -> forall s' a, m s = (s', Ok a) -> Q a s'.

(** Total correctness: [m] returns, and what holds then. *)
Definition total {St A} (P : St -> Prop) (m : M St A) (Q : A -> St -> Prop) : Prop :=
  forall s, P s -> exists s' a, m s = (s', Ok a) /\ Q a s'.

(** [R] relates the state before to the state after, whatever the outcome. *)
Definition preserves {St A} (R : St -> St -> Prop) (m : M St A) : Prop :=
  forall s, R s (fst (m s)).

(** The cells [(q, t)] outside [P] keep their content, and no slot of the
    table appears or disappears. *)
Definition tab_frame (P : nat -> nat -> Prop) (ds ds' : DecState) : Prop :=
  (forall q t, is_Some (ds' !! q ≫= (.!! t)) <-> is_Some (ds !! q ≫= (.!! t))) /\
  (forall q t j, ~ P q t -> ds_get ds' q t j = ds_get ds q t j).

(** ** What a log of the training pass must satisfy *)

Section PassLog.
Variables (d : StdTreeDecoder) (rand : nat -> Q) (tgt_batch_size : nat).
Variables (graph_cell_state graph_hidden_state : list Vec).
Variables (enc_outputs : list Mem) (oov_dict : option Vocab).
Variables (enc_batch : option (list (list Z))).
Variables (dec_batch : DecBatch) (queue_tree : list (list QTree)).

(** A logged step is a call of [decode_step] at a level within the depth
    limit, without sibling state, on an input chosen by the teacher-forcing
    rule from one draw of the random stream. *)
Definition step_ok (ev : StepEvent) : Prop :=
  1 <= ev_level ev <= max_dec_tree_depth d /\
  ev_sibling ev = None /\
  ev_out ev = decode_step d tgt_batch_size (ev_input ev) (ev_state ev) enc_outputs
                (ev_parent ev) None oov_dict enc_batch /\
  exists m k,
    dec_batch !! ev_level ev = Some m /\ ev_step ev < fst m - 1 /\
    ev_teacher_force ev = negb (Qle_bool (teacher_force_ratio d) (rand k)) /\
    ev_input ev =
      if negb (ev_teacher_force ev) && (0 <? ev_step ev)
      then match ev_pred ev with Some pr => map argmax pr | None => [] end
      else column m (ev_step ev).

(** A step after the first of its level comes right after the step before
    it, whose logged distribution is the local [pred]. *)
Definition chain_ok (tr : list Event) (n : nat) (ev : StepEvent) : Prop :=
  0 < ev_step ev ->
  exists ev' pr s a,
    1 <= n /\ tr !! (n - 1) = Some (Stepped ev') /\
    ev_level ev' = ev_level ev /\ S (ev_step ev') = ev_step ev /\
    ev_out ev' = Ok (pr, s, a) /\ ev_pred ev = Some (log_rows (net d) pr).

(** The first step of a level comes right after the seeding of the level
    and starts from the seeded state. *)
Definition first_ok (tr : list Event) (n : nat) (ev : StepEvent) : Prop :=
  ev_step ev = 0 ->
  exists c0 h0 sib,
    1 <= n /\ tr !! (n - 1) = Some (Seeded (ev_level ev) c0 h0 sib) /\
    ev_state ev = (c0, h0) /\ ev_parent ev = h0.

(** The seeded state of level 1 is the graph state; the seeded row of a
    tree at a later level is the row the parent's step [child_index - 1]
    returned. *)
Definition seeded_ok (tr : list Event) (n q : nat) (c0 h0 : list Vec) : Prop :=
  (q = 1 ->
   forall i, i < tgt_batch_size ->
     is_Some (c0 !! i) /\ c0 !! i = graph_cell_state !! i /\
     h0 !! i = graph_hidden_state !! i) /\
  (q <> 1 ->
   forall b queue e,
     b < tgt_batch_size -> queue_tree !! b = Some queue -> queue !! (q - 1) = Some e ->
     1 <= q_child_index e ->
     exists n' ev pr c h a,
       n' < n /\ tr !! n' = Some (Stepped ev) /\
       ev_level ev = q_parent e /\ S (ev_step ev) = q_child_index e /\
       ev_out ev = Ok (pr, (c, h), a) /\
       is_Some (c0 !! b) /\ c0 !! b = c !! b /\ h0 !! b = h !! b).

Definition trace_ok (tr : list Event) : Prop :=
  forall n e, tr !! n = Some e ->
    match e with
    | Stepped ev => step_ok ev /\ chain_ok tr n ev /\ first_ok tr n ev
    | Seeded q c0 h0 _ =>
        1 <= q <= max_dec_tree_depth d /\ seeded_ok tr n q c0 h0
    end.

(** Every state the table holds beyond step 0 was returned by a logged step. *)
Definition table_ok (st : TState) : Prop :=
  forall q t, 
    is_ok (ds_get (dec_state st) q (S t) 1) \/ is_ok (ds_get (dec_state st) q (S t) 2) ->
    exists n ev pr c h a,
      trace st !! n = Some (Stepped ev) /\ ev_level ev = q /\ ev_step ev = t /\
      ev_out ev = Ok (pr, (c, h), a) /\
      (forall v, ds_get (dec_state st) q (S t) 1 = Ok v -> v = c) /\
      (forall v, ds_get (dec_state st) q (S t) 2 = Ok v -> v = h).

End PassLog.

Section PassInvariants.
Variables (d : StdTreeDecoder) (rand : nat -> Q) (tgt_batch_size : nat).
Variables (graph_cell_state graph_hidden_state : list Vec).
Variables (enc_outputs : list Mem) (oov_dict : option Vocab).
Variables (enc_batch : option (list (list Z))).
Variables (dec_batch : DecBatch) (queue_tree : list (list QTree)).

(** Between two levels. *)
Definition loop_inv (st : TState) : Prop :=
  trace_ok d rand tgt_batch_size graph_cell_state graph_hidden_state enc_outputs
    oov_dict enc_batch dec_batch queue_tree (trace st) /\
  table_ok st.

(** Before token step [i] of level [cur]. *)
Definition step_inv (cur i : nat) (parent_h : list Vec) (st : TState) : Prop :=
  loop_inv st /\
  (i = 0 ->
   exists tr0 c0 h0 sib,
     trace st = tr0 ++ [Seeded cur c0 h0 sib] /\
     ds_get (dec_state st) cur 0 1 = Ok c0 /\
     ds_get (dec_state st) cur 0 2 = Ok h0 /\ parent_h = h0) /\
  (0 < i ->
   exists tr0 ev pr s a,
     trace st = tr0 ++ [Stepped ev] /\ ev_level ev = cur /\ S (ev_step ev) = i /\
     ev_out ev = Ok (pr, s, a) /\ pred st = Some (log_rows (net d) pr)).

End PassInvariants.

(** ** Reading a log *)

(** The state with which the log seeds level [q]. *)
Definition seeded_state (tr : list Event) (q : nat) : option (list Vec * list Vec) :=
  list_find (fun e => match e with
                      | Seeded q' _ _ _ => q' =? q
                      | Stepped _ => false
                      end = true) tr
  ≫= fun ne => match snd ne with
               | Seeded _ c h _ => Some (c, h)
               | Stepped _ => None
               end.

(** The local [sibling_state] after the seeding of level [q]. *)
Definition seeded_sibling (tr : list Event) (q : nat) : option (list Vec) :=
  list_find (fun e => match e with
                      | Seeded q' _ _ _ => q' =? q
                      | Stepped _ => false
                      end = true) tr
  ≫= fun ne => match snd ne with
               | Seeded _ _ _ s => Some s
               | Stepped _ => None
               end.

(** The state that step [t] of level [q] returned. *)
Definition returned_state (tr : list Event) (q t : nat) : option (list Vec * list Vec) :=
  list_find (fun e => match e with
                      | Stepped ev => (ev_level ev =? q) && (ev_step ev =? t)
                      | Seeded _ _ _ _ => false
                      end = true) tr
  ≫= fun ne => match snd ne with
               | Stepped ev => match ev_out ev with
                               | Ok (_, s, _) => Some s
                               | _ => None
                               end
               | Seeded _ _ _ _ => None
               end.

(** The number of steps the log holds for level [q]. *)
Definition steps_of_level (tr : list Event) (q : nat) : nat :=
  length (filter (fun e => match e with
                           | Stepped ev => ev_level ev =? q
                           | Seeded _ _ _ _ => false
                           end = true) tr).

(** The terminal state of level [q]: the state its last step returned. *)
Definition terminal_state (tr : list Event) (q : nat) : option (list Vec * list Vec) :=
  returned_state tr q (steps_of_level tr q - 1).

(** The level an entry of the log belongs to. *)
Definition event_level (e : Event) : nat :=
  match e with
  | Seeded q _ _ _ => q
  | Stepped ev => ev_level ev
  end.

(** The calls of greedy inference made for queue position [h], the local
    [sibling_state] during them, and the state the last of them returned. *)
Definition head_calls (cs : list CallEvent) (h : nat) : list CallEvent :=
  filter (fun c => (ce_head c =? h) = true) cs.

Definition head_sibling_state (cs : list CallEvent) (h : nat) : option (list Vec) :=
  ce_sibling_state <$> (head_calls cs h !! 0).

Definition head_terminal_state (cs : list CallEvent) (h : nat)
  : option (list Vec * list Vec) :=
  last (head_calls cs h)
  ≫= fun c => match ce_out c with
               | Ok (_, s, _) => Some s
               | _ => None
               end.

(** ** What holds of the queue of greedy inference *)

Section DecodeQueue.
Variables (d : StdTreeDecoder) (form_manager : Vocab).
Variables (max_dec_seq_length max_dec_tree_depth : nat).
Variables (enc_outputs : list Mem) (oov_dict : option Vocab).
Variables (enc_w_list : option (list (list Z))).

Definition end_idx : Z := get_symbol_idx form_manager (end_token form_manager).
Definition nt_idx : Z := get_symbol_idx form_manager (non_terminal_token form_manager).

(** A logged call is a call of [decode_step] for a queue position within
    the depth limit, on a batch of one, without sibling state. *)
Definition call_ok (c : CallEvent) : Prop :=
  1 <= ce_head c <= max_dec_tree_depth /\ ce_sibling c = None /\
  ce_out c = decode_step d 1 (ce_input c) (ce_state c) enc_outputs (ce_parent c)
               None oov_dict enc_w_list.

(** The queue before assembly, with the entries from index [fresh] on not
    yet expanded and every parent at most [bound]: a later entry names an
    earlier parent and the slot of that parent holding the placeholder; the
    children are words other than the end token, at most
    [max_dec_seq_length] of them; every placeholder child has its entry. *)
Record dq_inv (fresh bound : nat) (q : list QDec) : Prop := {
  dq_root : is_Some (q !! 0);
  dq_parent : forall k e, q !! S k = Some e ->
    1 <= qd_parent e <= S k /\ qd_parent e <= bound /\ 1 <= qd_child_index e /\
    exists p, q !! (qd_parent e - 1) = Some p /\
              qd_t p !! (qd_child_index e - 1) = Some (SWord nt_idx);
  dq_words : forall k e c s, q !! k = Some e -> qd_t e !! c = Some s ->
    exists w, s = SWord w /\ w <> end_idx;
  dq_complete : forall k e c, q !! k = Some e -> qd_t e !! c = Some (SWord nt_idx) ->
    exists i e', q !! S i = Some e' /\ qd_parent e' = S k /\ qd_child_index e' = S c;
  dq_len : forall k e, q !! k = Some e -> length (qd_t e) <= max_dec_seq_length;
  dq_fresh : forall k e, q !! k = Some e -> fresh <= k -> qd_t e = []
}.

(** Every state held in the queue has one row. *)
Definition rows1 (q : list QDec) : Prop :=
  forall k e, q !! k = Some e ->
    length (fst (qd_s e)) = 1 /\ length (snd (qd_s e)) = 1.

(** The store once the entries from [m] on are attached, against the queue
    [q] before assembly: a slot still holds its word or holds the address
    of a later entry. *)
Definition store_inv (q : list QDec) (m : nat) (D : list QDec) : Prop :=
  length D = length q /\
  forall k e, q !! k = Some e ->
    exists x, D !! k = Some x /\ qd_parent x = qd_parent e /\
      qd_child_index x = qd_child_index e /\
      length (qd_t x) = length (qd_t e) /\
      forall c s, qd_t x !! c = Some s ->
        (exists w, s = SWord w /\ qd_t e !! c = Some (SWord w)) \/
        (exists i, s = SRef i /\ m <= i < length q /\ k < i).

End DecodeQueue.

Definition add_word (e : QDec) (w : Z) : QDec :=
  {| qd_s := qd_s e; qd_parent := qd_parent e; qd_child_index := qd_child_index e;
     qd_t := qd_t e ++ [SWord w] |}.

(** The call one iteration of the greedy loop logs, and the state after an
    iteration that goes on. *)
Definition greedy_call (d : StdTreeDecoder) (enc_outputs : list Mem)
    (oov_dict : option Vocab) (enc_w_list : option (list (list Z))) (head : nat)
    (parent_h sibling_state : list Vec) (s : list Vec * list Vec)
    (prev_word : list Z) : CallEvent :=
  {| ce_head := head; ce_input := prev_word; ce_state := s; ce_parent := parent_h;
     ce_sibling_state := sibling_state; ce_sibling := None;
     ce_out := decode_step d 1 prev_word s enc_outputs parent_h None oov_dict enc_w_list |}.

Definition grown_queue (form_manager : Vocab) (q : list QDec) (head : nat) (e : QDec)
    (w : Z) (s : list Vec * list Vec) (i_child : nat) : list QDec :=
  <[head - 1 := add_word e w]>
    (q ++ if (w =? get_symbol_idx form_manager (non_terminal_token form_manager))%Z
          then [{| qd_s := s; qd_parent := head; qd_child_index := i_child; qd_t := [] |}]
          else []).

(** ** Decoders whose step cannot raise *)

(** No sibling feeding, uniform attention, no copy mechanism. *)
Definition plain (d : StdTreeDecoder) : Prop :=
  tdu_use_sibling (rnn d) = false /\ separate_attn d = false /\ use_copy d = false.

(** ** What the state table holds in a pass that goes on *)

Section PassTable.
Variables (d : StdTreeDecoder) (tgt_batch_size : nat) (dec_batch : DecBatch).

(** Both states of step [t] of level [q] are there, one row for each tree. *)
Definition holds (ds : DecState) (q t : nat) : Prop :=
  forall j, j = 1 \/ j = 2 ->
    exists v, ds_get ds q t j = Ok v /\ length v = tgt_batch_size.

(** Before level [cur]: the slots made at the start are there, and every
    level before [cur] holds a state for each of its steps. *)
Definition tab_inv (cur : nat) (ds : DecState) : Prop :=
  (forall q t, q <= max_dec_tree_depth d -> t <= max_dec_seq_length d ->
     is_Some (ds !! q ≫= (.!! t))) /\
  (forall q m t, 1 <= q < cur -> dec_batch !! q = Some m -> t <= fst m - 1 ->
     holds ds q t).

(** While level [cur] is seeded. *)
Definition seed_inv (cur : nat) (ds : DecState) : Prop :=
  tab_inv cur ds /\ holds ds cur 0.

(** Before token step [i] of level [cur]. *)
Definition token_inv (cur i : nat) (st : TState) : Prop :=
  tab_inv cur (dec_state st) /\
  (forall t, t <= i -> holds (dec_state st) cur t) /\
  (0 < i -> exists pr, pred st = Some pr /\ length pr = tgt_batch_size).

End PassTable.

(** Every level within the depth limit has a target matrix of at most
    [max_dec_seq_length + 1] columns: the first token and at most
    [max_dec_seq_length] tokens to predict. *)
Definition levels_fit (d : StdTreeDecoder) (dec_batch : DecBatch) : Prop :=
  forall q m, 1 <= q <= max_dec_tree_depth d -> dec_batch !! q = Some m ->
    fst m - 1 <= max_dec_seq_length d.

(** The same, computed; and for the batch of trees a pass is given. *)
Definition levels_fitb (d : StdTreeDecoder) (dec_batch : DecBatch) : bool :=
  forallb (fun q => match dec_batch !! q with
                    | Some m => fst m - 1 <=? max_dec_seq_length d
                    | None => true
                    end) (seq 1 (max_dec_tree_depth d)).

Definition batch_fits (d : StdTreeDecoder) (trees : list Tree) : bool :=
  match get_dec_batch trees (length trees) (tgt_vocab d) with
  | Ok (dec_batch, _, _) => levels_fitb d dec_batch
  | _ => false
  end.

(** ** The target matrices as [get_dec_batch] leaves them *)

(** The largest number of [Tree] objects in a tree of the batch, 1 at least. *)
Definition largest_tree (trees : list Tree) : nat :=
  foldr (fun t n => tree_size t `max` n) 1 trees.

(** The word list of the entry at queue position [c], empty without one. *)
Definition words_at (queue : list QTree) (c : nat) : list Z :=
  match queue !! (c - 1) with
  | Some e => map tag (children (q_tree e))
  | None => []
  end.

(** A row of a level matrix: zeros for an empty word list; otherwise the
    first token (1 at level 1, the index of ["("] later), the words, the
    token 2 and zeros up to the width. *)
Definition level_row (lparen : Z) (c width : nat) (ws : list Z) : list Z :=
  match ws with
  | [] => replicate width 0%Z
  | _ => (if c =? 1 then 1%Z else lparen)
           :: ws ++ 2%Z :: replicate (width - length ws - 2) 0%Z
  end.

(** The number of columns of the matrix of level [c]. *)
Definition level_width (queues : list (list QTree)) (c : nat) : nat :=
  match queues with
  | [] => 1
  | _ => 2 + max_list (map (fun q => length (words_at q c)) queues)
  end.

(** Entries after the root come by parent, then by child index. *)
Definition queue_sorted (queue : list QTree) : Prop :=
  forall i j ei ej, 1 <= i < j -> queue !! i = Some ei -> queue !! j = Some ej ->
    q_parent ei < q_parent ej \/
    (q_parent ei = q_parent ej /\ q_child_index ei < q_child_index ej).

(** The test of the scan for a left sibling (line 244), on one index. *)
Definition sibling_test (cur_index : nat) (queue : list QTree) (q_index : nat) : bool :=
  match queue !! q_index, queue !! (cur_index - 1) with
  | Some e, Some c =>
      (cur_index <=? length queue) && (q_index <? cur_index - 1)
      && (q_parent e =? q_parent c) && (q_child_index e <? q_child_index c)
  | _, _ => false
  end.

(** ** The shape of the log of a pass that returns *)

(** The level of an entry of the log and, for a step, its number. *)
Definition event_key (e : Event) : nat * option nat :=
  match e with
  | Seeded q _ _ _ => (q, None)
  | Stepped ev => (ev_level ev, Some (ev_step ev))
  end.

(** Level [q] run in full: its seeding, then one step for each column of
    its matrix but the last. *)
Definition level_keys (dec_batch : DecBatch) (q : nat) : list (nat * option nat) :=
  (q, None)
    :: map (fun i => (q, Some i))
           (seq 0 (match dec_batch !! q with Some m => fst m - 1 | None => 0 end)).

Definition pass_keys (dec_batch : DecBatch) (levels : nat) : list (nat * option nat) :=
  concat (map (level_keys dec_batch) (seq 1 levels)).

(** The number of steps in a log. *)
Definition step_count (tr : list Event) : nat :=
  length (filter (fun e => match e with Stepped _ => true | Seeded _ _ _ _ => false end = true) tr).

(** The loss a log adds up: one term of the criterion for each step that
    returned, on its logged distribution and the next column of the level. *)
Definition step_loss (d : StdTreeDecoder) (dec_batch : DecBatch) (acc : Q) (e : Event) : Q :=
  match e with
  | Stepped ev =>
      match ev_out ev, dec_batch !! ev_level ev with
      | Ok (pr, _, _), Some m =>
          (acc + criterion (net d) (log_rows (net d) pr) (column m (ev_step ev + 1)))%Q
      | _, _ => acc
      end
  | Seeded _ _ _ _ => acc
  end.

Definition trace_loss (d : StdTreeDecoder) (dec_batch : DecBatch) (tr : list Event) : Q :=
  foldl (step_loss d dec_batch) 0%Q tr.

(** What the locals of a pass are to its log. *)
Definition log_inv (d : StdTreeDecoder) (dec_batch : DecBatch)
    (keys : list (nat * option nat)) (st : TState) : Prop :=
  loss st = trace_loss d dec_batch (trace st) /\
  draws st = step_count (trace st) /\
  map event_key (trace st) = keys.

(** ** A pass that raises *)

(** [m] raises [e] from every state that satisfies [P]. *)
Definition fails {St A} (P : St -> Prop) (m : M St A) (e : exn) : Prop :=
  forall s, P s -> exists s', m s = (s', Raise e).

(** No slot of the state table appears or disappears. *)
Definition same_slots (st st' : TState) : Prop :=
  forall q t,
    is_Some (dec_state st' !! q ≫= (.!! t)) <-> is_Some (dec_state st !! q ≫= (.!! t)).

(** The table has no slot beyond step [max_dec_seq_length]. *)
Definition tight (d : StdTreeDecoder) (st : TState) : Prop :=
  forall q t, max_dec_seq_length d < t -> dec_state st !! q ≫= (.!! t) = None.

(** ** The tree greedy inference returns *)

(** The words of a tree, left to right. *)
Fixpoint tree_words (t : Tree) : list Z :=
  match t with
  | Node cs =>
      (fix go (l : list Child) : list Z :=
         match l with
         | [] => []
         | Word w :: l' => w :: go l'
         | Sub t' :: l' => tree_words t' ++ go l'
         end) cs
  end.

(** The largest number of children of a node of a tree. *)
Fixpoint max_arity (t : Tree) : nat :=
  match t with
  | Node cs =>
      length cs `max`
        (fix go (l : list Child) : nat :=
           match l with
           | [] => 0
           | Word _ :: l' => go l'
           | Sub t' :: l' => max_arity t' `max` go l'
           end) cs
  end.

(** The entries from [m] on have been written into the slot of their parent. *)
Definition attached (q : list QDec) (m : nat) (D : list QDec) : Prop :=
  forall i e, m <= i -> 1 <= i -> q !! i = Some e ->
    exists x j, D !! (qd_parent e - 1) = Some x /\
                qd_t x !! (qd_child_index e - 1) = Some (SRef j).

(** ** How greedy inference threads the state *)

Section CallChain.
Variables (d : StdTreeDecoder) (form_manager : Vocab).

(** The first input of a queue position (lines 418-423). *)
Definition first_input (head : nat) : list Z :=
  if head =? 1 then [get_symbol_idx form_manager (start_token form_manager)]
  else [get_symbol_idx form_manager "("].

Definition prev_call (cs : list CallEvent) (n : nat) : option CallEvent :=
  match n with
  | 0 => None
  | S n' => cs !! n'
  end.

(** [c] goes on from what the call [c'] returned. *)
Definition continues (c' c : CallEvent) : Prop :=
  exists pr s a,
    ce_out c' = Ok (pr, s, a) /\ ce_state c = s /\
    ce_input c = map argmax (log_rows (net d) pr).

(** [c] is the first call of its queue position, whose stored state is [s0]. *)
Definition starts (s0 : list Vec * list Vec) (c : CallEvent) : Prop :=
  ce_state c = s0 /\ ce_input c = first_input (ce_head c).

(** Call [n] of the log, against the states stored in the queue: its parent
    state is the hidden part of the state stored for its position; it goes
    on from the call before it when that call is for the same position, and
    starts from the stored state otherwise. *)
Definition chain_at (states : list (list Vec * list Vec)) (cs : list CallEvent)
    (n : nat) (c : CallEvent) : Prop :=
  exists s0,
    states !! (ce_head c - 1) = Some s0 /\ ce_parent c = snd s0 /\
    match prev_call cs n with
    | Some c' => if ce_head c' =? ce_head c then continues c' c else starts s0 c
    | None => starts s0 c
    end.

Definition calls_chain (states : list (list Vec * list Vec)) (cs : list CallEvent) : Prop :=
  forall n c, cs !! n = Some c -> chain_at states cs n c.

(** The state stored for an entry after the root is the state returned by
    the call, for its parent, that predicted the placeholder. *)
Definition entries_seeded (q : list QDec) (cs : list CallEvent) : Prop :=
  forall i e, q !! S i = Some e ->
    exists n c pr a,
      cs !! n = Some c /\ ce_head c = qd_parent e /\
      ce_out c = Ok (pr, qd_s e, a) /\
      map argmax (log_rows (net d) pr) !! 0
        = Some (get_symbol_idx form_manager (non_terminal_token form_manager)).

Definition thread_inv (q : list QDec) (cs : list CallEvent) : Prop :=
  calls_chain (map qd_s q) cs /\ entries_seeded q cs.

(** Inside the greedy loop for position [head], whose calls start at index
    [n0] of the log. *)
Definition loop_thread (head n0 : nat) (parent_h : list Vec) (s : list Vec * list Vec)
    (prev_word : list Z) (st : IState) : Prop :=
  thread_inv (queue_decode st) (calls st) /\
  n0 <= length (calls st) /\
  (forall n c, calls st !! n = Some c ->
     if n <? n0 then ce_head c < head else ce_head c = head) /\
  exists e,
    queue_decode st !! (head - 1) = Some e /\ parent_h = snd (qd_s e) /\
    ((length (calls st) = n0 /\ s = qd_s e /\ prev_word = first_input head) \/
     (n0 < length (calls st) /\
      exists c' pr a,
        last (calls st) = Some c' /\ ce_out c' = Ok (pr, s, a) /\
        prev_word = map argmax (log_rows (net d) pr))).

End CallChain.
(** ** A small decoder for worked examples *)

Module Toy.

Definition vocab : Vocab :=
  {| vocab_size := 8; vocab_len := 8;
     get_symbol_idx := fun s =>
       if String.eqb s "<S>" then 1%Z
       else if String.eqb s "<E>" then 2%Z
       else if String.eqb s "(" then 3%Z
       else if String.eqb s "<N>" then 4%Z
       else 0%Z;
     start_token := "<S>"; end_token := "<E>";
     non_terminal_token := "<N>"; unk_token := "<U>" |}.

Definition one_hot (width : nat) (k : Z) : Vec :=
  map (fun i => if (Z.of_nat i =? k)%Z then 1%Q else 0%Q) (seq 0 width).

(** The word the toy output layer favours, read off the hidden value. *)
Definition script (h : Q) : Z :=
  if Qeq_bool h 1%Q then 5%Z
  else if Qeq_bool h 2%Q then 4%Z
  else if Qeq_bool h 3%Q then 4%Z
  else if Qeq_bool h 23%Q then 6%Z
  else if Qeq_bool h 34%Q then 7%Z
  else if Qeq_bool h 65%Q then 4%Z
  else 2%Z.

(** The input row is the embedded word followed by the parent's hidden row
    and, with sibling feeding, the sibling's; each of width 1 here. *)
Definition toy_net : Net :=
  {| embedding := fun w => [inject_Z w];
     dropout := fun v => v;
     lstm := fun x s =>
       ([Qred (vsum (fst s) + vsum (firstn 1 x))%Q],
        [Qred (vsum (snd s) + 1 + 10 * vsum (skipn 1 x))%Q]);
     attention := fun h mem =>
       ([], replicate (length mem) (1 # Pos.of_nat (length mem))%Q);
     linear_att := fun v => v;
     tanh := fun v => v;
     dropout_attn := fun v => v;
     linear_out := fun v => one_hot 8 (script (vsum v));
     ptr := vsum;
     sigmoid := fun x => (1 # 4)%Q;
     softmax := fun v => v;
     log := fun x => (x - 1)%Q;
     criterion := fun pr tgt =>
       Qred (vsum (zip_with (fun row t => (- default 0 (row !! Z.to_nat t))%Q) pr tgt));
     pool_max := fun m => default [] (head m);
     pool_min := fun m => default [] (head m);
     pool_mean := fun m => default [] (head m) |}.

Definition config : Config :=
  {| cfg_net := toy_net; cfg_attn_type := "uniform";
     cfg_enc_hidden_size := 1; cfg_dec_emb_size := 1; cfg_dec_hidden_size := 1;
     cfg_output_size := 8; cfg_teacher_force_ratio := 1;
     cfg_use_sibling := false; cfg_use_copy := false; cfg_num_layers := 1;
     cfg_dropout_for_decoder := 0; cfg_rnn_type := "lstm";
     cfg_max_dec_seq_length := 16; cfg_max_dec_tree_depth := 8;
     cfg_tgt_vocab := vocab; cfg_graph_pooling_strategy := "max" |}.

(** One graph with two nodes; its pooled state is [0]. *)
Definition memory : list Mem := [[[0%Q]; [1%Q]]].

(** The same decoder with the copy mechanism, an extended vocabulary with
    two more words, and the ids of the two source nodes. *)
Definition config_copy : Config :=
  {| cfg_net := toy_net; cfg_attn_type := "uniform";
     cfg_enc_hidden_size := 1; cfg_dec_emb_size := 1; cfg_dec_hidden_size := 1;
     cfg_output_size := 8; cfg_teacher_force_ratio := 1;
     cfg_use_sibling := false; cfg_use_copy := true; cfg_num_layers := 1;
     cfg_dropout_for_decoder := 0; cfg_rnn_type := "lstm";
     cfg_max_dec_seq_length := 16; cfg_max_dec_tree_depth := 8;
     cfg_tgt_vocab := vocab; cfg_graph_pooling_strategy := "max" |}.

Definition oov_vocab : Vocab :=
  {| vocab_size := 10; vocab_len := 10;
     get_symbol_idx := get_symbol_idx vocab;
     start_token := "<S>"; end_token := "<E>";
     non_terminal_token := "<N>"; unk_token := "<U>" |}.

Definition source_ids : list (list Z) := [[9%Z; 9%Z]].

(** The same decoder without teacher forcing, and one with a very short
    state table. *)
Definition config_free : Config :=
  {| cfg_net := toy_net; cfg_attn_type := "uniform";
     cfg_enc_hidden_size := 1; cfg_dec_emb_size := 1; cfg_dec_hidden_size := 1;
     cfg_output_size := 8; cfg_teacher_force_ratio := 0;
     cfg_use_sibling := false; cfg_use_copy := false; cfg_num_layers := 1;
     cfg_dropout_for_decoder := 0; cfg_rnn_type := "lstm";
     cfg_max_dec_seq_length := 16; cfg_max_dec_tree_depth := 8;
     cfg_tgt_vocab := vocab; cfg_graph_pooling_strategy := "max" |}.

Definition config_short : Config :=
  {| cfg_net := toy_net; cfg_attn_type := "uniform";
     cfg_enc_hidden_size := 1; cfg_dec_emb_size := 1; cfg_dec_hidden_size := 1;
     cfg_output_size := 8; cfg_teacher_force_ratio := 1;
     cfg_use_sibling := false; cfg_use_copy := false; cfg_num_layers := 1;
     cfg_dropout_for_decoder := 0; cfg_rnn_type := "lstm";
     cfg_max_dec_seq_length := 1; cfg_max_dec_tree_depth := 8;
     cfg_tgt_vocab := vocab; cfg_graph_pooling_strategy := "max" |}.

(** The decoder whose recurrent unit is built to take the sibling state. *)
Definition config_sibling : Config :=
  {| cfg_net := toy_net; cfg_attn_type := "uniform";
     cfg_enc_hidden_size := 1; cfg_dec_emb_size := 1; cfg_dec_hidden_size := 1;
     cfg_output_size := 8; cfg_teacher_force_ratio := 1;
     cfg_use_sibling := true; cfg_use_copy := false; cfg_num_layers := 1;
     cfg_dropout_for_decoder := 0; cfg_rnn_type := "lstm";
     cfg_max_dec_seq_length := 16; cfg_max_dec_tree_depth := 8;
     cfg_tgt_vocab := vocab; cfg_graph_pooling_strategy := "max" |}.

(** A root with three child trees, and the batched graph of one example. *)
Definition three_siblings : Tree :=
  Node [Sub (Node [Word 5]); Sub (Node [Word 6; Word 7]); Sub (Node [Word 7])].

Definition graph : GraphBatch :=
  {| node_emb := memory; rnn_emb := memory;
     token_id := [[5%Z; 6%Z]]; token_id_oov := None |}.

Definition with_rnn_type (c : Config) (t : string) : Config :=
  {| cfg_net := cfg_net c; cfg_attn_type := cfg_attn_type c;
     cfg_enc_hidden_size := cfg_enc_hidden_size c;
     cfg_dec_emb_size := cfg_dec_emb_size c;
     cfg_dec_hidden_size := cfg_dec_hidden_size c;
     cfg_output_size := cfg_output_size c;
     cfg_teacher_force_ratio := cfg_teacher_force_ratio c;
     cfg_use_sibling := cfg_use_sibling c; cfg_use_copy := cfg_use_copy c;
     cfg_num_layers := cfg_num_layers c;
     cfg_dropout_for_decoder := cfg_dropout_for_decoder c;
     cfg_rnn_type := t;
     cfg_max_dec_seq_length := cfg_max_dec_seq_length c;
     cfg_max_dec_tree_depth := cfg_max_dec_tree_depth c;
     cfg_tgt_vocab := cfg_tgt_vocab c;
     cfg_graph_pooling_strategy := cfg_graph_pooling_strategy c |}.

Definition with_pooling (c : Config) (s : string) : Config :=
  {| cfg_net := cfg_net c; cfg_attn_type := cfg_attn_type c;
     cfg_enc_hidden_size := cfg_enc_hidden_size c;
     cfg_dec_emb_size := cfg_dec_emb_size c;
     cfg_dec_hidden_size := cfg_dec_hidden_size c;
     cfg_output_size := cfg_output_size c;
     cfg_teacher_force_ratio := cfg_teacher_force_ratio c;
     cfg_use_sibling := cfg_use_sibling c; cfg_use_copy := cfg_use_copy c;
     cfg_num_layers := cfg_num_layers c;
     cfg_dropout_for_decoder := cfg_dropout_for_decoder c;
     cfg_rnn_type := cfg_rnn_type c;
     cfg_max_dec_seq_length := cfg_max_dec_seq_length c;
     cfg_max_dec_tree_depth := cfg_max_dec_tree_depth c;
     cfg_tgt_vocab := cfg_tgt_vocab c;
     cfg_graph_pooling_strategy := s |}.

End Toy.

(** ** Configurations the documentation lists *)

Definition supported_pooling (s : string) : bool :=
  String.eqb s "max" || String.eqb s "min" || String.eqb s "mean".

Definition supported_rnn_type (s : string) : bool :=
  String.eqb s "lstm" || String.eqb s "gru".

Definition result_loss (r : TState * result Q) : result Q :=
  match snd r with
  | Ok l => Ok (Qred l)
  | Raise e => Raise e
  | Timeout => Timeout
  end.

(** * Properties *)



Local Open Scope nat_scope.

(** ** The result monad *)

Lemma rbind_ok {A B} (m : result A) (f : A -> result B) (b : B) :
  rbind m f = Ok b -> exists a, m = Ok a /\ f a = Ok b.
Proof. destruct m; simpl; intros H; try discriminate. eauto. Qed.

Lemma of_option_ok {A} (e : exn) (o : option A) (a : A) :
  of_option e o = Ok a <-> o = Some a.
Proof. destruct o; simpl; split; congruence. Qed.

Lemma rmapM_ok {A B} (f : A -> result B) (l : list A) (l' : list B) :
  length l = length l' ->
  (forall i a b, l !! i = Some a -> l' !! i = Some b -> f a = Ok b) ->
  rmapM f l = Ok l'.
Proof.
  revert l'. induction l as [|a l IH]; intros [|b l'] Hlen H; simpl in *; try discriminate.
  - reflexivity.
  - rewrite (H 0 a b eq_refl eq_refl). simpl.
    rewrite (IH l'); [reflexivity | lia |].
    intros i a' b' Ha Hb. apply (H (S i)); assumption.
Qed.

(** ** Linearisation: the queue of one tree *)

Lemma scan_children_spec cur ic cs w q :
  scan_children cur ic cs w q = (w ++ map tag cs, q ++ sub_entries cur ic cs).
Proof.
  revert ic w q. induction cs as [|[x|t] cs IH]; intros ic w q; simpl.
  - by rewrite !app_nil_r.
  - rewrite IH. by rewrite <- app_assoc.
  - rewrite IH. by rewrite <- !app_assoc.
Qed.

Lemma sub_entries_sound cur ic cs j e :
  sub_entries cur ic cs !! j = Some e ->
  q_parent e = cur /\
  exists c, q_child_index e = ic + c + 1 /\ cs !! c = Some (Sub (q_tree e)).
Proof.
  revert ic j. induction cs as [|[x|t] cs IH]; intros ic j H; simpl in *.
  - discriminate.
  - destruct (IH _ _ H) as [Hp [c [Hc Hl]]]. split; [done|].
    exists (S c). split; [lia | done].
  - destruct j as [|j]; simpl in H.
    + inversion H; subst; simpl. split; [done|]. exists 0. split; [lia | done].
    + destruct (IH _ _ H) as [Hp [c [Hc Hl]]]. split; [done|].
      exists (S c). split; [lia | done].
Qed.

Lemma sub_entries_complete cur ic cs c t :
  cs !! c = Some (Sub t) ->
  exists j e, sub_entries cur ic cs !! j = Some e /\
    q_parent e = cur /\ q_child_index e = ic + c + 1 /\ q_tree e = t.
Proof.
  revert ic c. induction cs as [|[x|t'] cs IH]; intros ic c H.
  - discriminate.
  - destruct c as [|c]; simpl in H; [discriminate|].
    destruct (IH (S ic) _ H) as (j & e & Hj & Hp & Hc & Ht).
    exists j, e. simpl. repeat split; try done. lia.
  - destruct c as [|c]; simpl in H.
    + inversion H; subst. exists 0, {| q_tree := t; q_parent := cur; q_child_index := ic + 1 |}.
      simpl. repeat split; try done. lia.
    + destruct (IH (S ic) _ H) as (j & e & Hj & Hp & Hc & Ht).
      exists (S j), e. simpl. repeat split; try done. lia.
Qed.

Lemma tree_size_children t : tree_size t = S (children_size (children t)).
Proof.
  destruct t as [cs]. simpl. f_equal.
  induction cs as [|[x|t] cs IH]; simpl; [done | done | by rewrite IH].
Qed.

Lemma sub_entries_size cur ic cs : qsize (sub_entries cur ic cs) = children_size cs.
Proof.
  revert ic. induction cs as [|[x|t] cs IH]; intros ic; simpl; [done | apply IH | by rewrite IH].
Qed.

Lemma qsize_app l1 l2 : qsize (l1 ++ l2) = qsize l1 + qsize l2.
Proof. induction l1 as [|e l1 IH]; simpl; [done | rewrite IH; lia]. Qed.

Lemma qsize_length l : length l <= qsize l.
Proof.
  induction l as [|e l IH]; simpl; [done|].
  rewrite tree_size_children. lia.
Qed.

Lemma queue_inv_init T : queue_inv T 1 (init_queue T).
Proof.
  split; simpl.
  - done.
  - intros i e H. discriminate.
  - intros k p c t H. lia.
  - lia.
Qed.

Lemma queue_inv_length T cur queue :
  queue_inv T cur queue -> 1 <= length queue <= tree_size T.
Proof.
  intros H. split.
  - pose proof (qi_root _ _ _ H) as Hr. apply lookup_lt_Some in Hr. lia.
  - pose proof (qi_size _ _ _ H) as Hs.
    pose proof (qsize_length (drop (cur - 1) queue)) as Hl.
    rewrite length_drop in Hl. lia.
Qed.

Lemma expand_spec cur queue :
  1 <= cur ->
  expand cur queue =
    match queue !! (cur - 1) with
    | Some e => (map tag (children (q_tree e)),
                 queue ++ sub_entries cur 0 (children (q_tree e)))
    | None => ([], queue)
    end.
Proof.
  intros Hc. unfold expand.
  destruct (queue !! (cur - 1)) as [e|] eqn:He.
  - apply lookup_lt_Some in He.
    destruct (Nat.leb_spec cur (length queue)); [|lia].
    by rewrite scan_children_spec.
  - by destruct (cur <=? length queue).
Qed.

Lemma expand_inv T cur queue :
  1 <= cur -> queue_inv T cur queue -> queue_inv T (S cur) (snd (expand cur queue)).
Proof.
  intros Hc [Hroot Hpar Hcomp Hsize]. rewrite expand_spec by done.
  destruct (queue !! (cur - 1)) as [e|] eqn:He; simpl.
  - pose proof (lookup_lt_Some _ _ _ He) as Hlt.
    set (new := sub_entries cur 0 (children (q_tree e))).
    split.
    + by rewrite lookup_app_l by lia.
    + intros i x Hx.
      destruct (decide (S i < length queue)) as [Hi|Hi].
      * rewrite lookup_app_l in Hx by done.
        destruct (Hpar _ _ Hx) as (H1 & H2 & H3 & p & Hp & Hch).
        repeat split; try lia. exists p. split; [|done].
        rewrite lookup_app_l; [done | by apply lookup_lt_Some in Hp].
      * rewrite lookup_app_r in Hx by lia.
        destruct (sub_entries_sound _ _ _ _ _ Hx) as [Hp [c [Hci Hl]]].
        rewrite Hp. repeat split; try lia.
        exists e. split; [by rewrite lookup_app_l by lia|].
        by replace (q_child_index x - 1) with c by lia.
    + intros k p c t Hk Hp Hch.
      destruct (decide (S k < cur)) as [Hlt'|Hge].
      * assert (queue !! k = Some p) as Hp'.
        { rewrite lookup_app_l in Hp; [done|lia]. }
        destruct (Hcomp _ _ _ _ Hlt' Hp' Hch) as (i & x & Hx & H1 & H2).
        exists i, x. split; [|done].
        rewrite lookup_app_l; [done | by apply lookup_lt_Some in Hx].
      * assert (k = cur - 1) as -> by lia.
        rewrite lookup_app_l in Hp by done. rewrite He in Hp. inversion Hp; subst p.
        destruct (sub_entries_complete cur 0 _ _ _ Hch) as (j & x & Hj & H1 & H2 & H3).
        exists (length queue + j - 1), x.
        replace (S (length queue + j - 1)) with (length queue + j) by lia.
        rewrite lookup_app_r by lia.
        replace (length queue + j - length queue) with j by lia.
        split; [done|]. split; lia.
    + rewrite length_app. replace (S cur - 1) with cur by lia.
      rewrite drop_app_le by lia. rewrite qsize_app. unfold new.
      rewrite sub_entries_size.
      assert (drop (cur - 1) queue = e :: drop cur queue) as Hd.
      { replace cur with (S (cur - 1)) at 2 by lia. by apply drop_S. }
      rewrite Hd in Hsize. simpl in Hsize. rewrite tree_size_children in Hsize. lia.
  - apply lookup_ge_None in He. split.
    + done.
    + intros i x Hx. destruct (Hpar _ _ Hx) as (H1 & H2 & H3 & H4).
      repeat split; try lia. done.
    + intros k p c t Hk Hp Hch. apply (Hcomp k p c t); try done.
      apply lookup_lt_Some in Hp. lia.
    + rewrite !drop_ge in * by lia. lia.
Qed.

Lemma expand_prefix cur queue : 1 <= cur -> queue `prefix_of` snd (expand cur queue).
Proof.
  intros Hc. rewrite expand_spec by done.
  destruct (queue !! (cur - 1)); simpl; [by apply prefix_app_r | done].
Qed.

(** ** Linearisation: the batch loop *)

Lemma level_scan_spec cur queues mi mw :
  exists mi' mw',
    level_scan cur queues mi mw =
      (map (fun q => fst (expand cur q)) queues,
       map (fun q => snd (expand cur q)) queues, mi', mw') /\
    mi <= mi' /\ (mw <= mw')%Z /\
    (forall q, q ∈ queues -> cur <= length q -> length (snd (expand cur q)) <= mi') /\
    (forall q, q ∈ queues -> (Z.of_nat (length (fst (expand cur q))) <= mw')%Z) /\
    (forall bound, mi <= bound ->
       (forall q, q ∈ queues -> length (snd (expand cur q)) <= bound) -> mi' <= bound).
Proof.
  revert mi mw. induction queues as [|q queues IH]; intros mi mw.
  - exists mi, mw. simpl.
    split; [done|]. split; [lia|]. split; [lia|].
    split; [intros q Hq; by apply elem_of_nil in Hq|].
    split; [intros q Hq; by apply elem_of_nil in Hq|]. done.
  - simpl. destruct (expand cur q) as [w q'] eqn:He.
    set (mi1 := if cur <=? length q
                then (if mi <? length q' then length q' else mi) else mi).
    set (mw1 := if (mw <? Z.of_nat (length w))%Z then Z.of_nat (length w) else mw).
    destruct (IH mi1 mw1) as (mi' & mw' & Heq & Hmi & Hmw & Hlen & Hw & Hb).
    rewrite Heq. exists mi', mw'. simpl.
    assert (mi <= mi1) as Hmi1.
    { unfold mi1. destruct (cur <=? length q); [|lia].
      destruct (Nat.ltb_spec mi (length q')); lia. }
    assert (mw <= mw1)%Z as Hmw1.
    { unfold mw1. destruct (Z.ltb_spec mw (Z.of_nat (length w))); lia. }
    split; [done|]. split; [lia|]. split; [lia|]. split; [|split].
    + intros x Hx Hc. apply elem_of_cons in Hx as [->|Hx]; [|by apply Hlen].
      rewrite He. simpl. unfold mi1 in Hmi.
      destruct (Nat.leb_spec cur (length q)); [|lia].
      destruct (Nat.ltb_spec mi (length q')); lia.
    + intros x Hx. apply elem_of_cons in Hx as [->|Hx]; [|by apply Hw].
      rewrite He. simpl. unfold mw1 in Hmw.
      destruct (Z.ltb_spec mw (Z.of_nat (length w))); lia.
    + intros bound Hbd Hall. apply Hb.
      * unfold mi1. destruct (cur <=? length q); [|done].
        destruct (Nat.ltb_spec mi (length q')); [|done].
        specialize (Hall q (list_elem_of_here _ _)). rewrite He in Hall. done.
      * intros x Hx. apply Hall. by apply list_elem_of_further.
Qed.

(** The words written into a row are read back from it. *)
Lemma fill_loop_lookup (ws : list Z) :
  forall (k : nat) (row : list Z) (j : nat),
    k + length ws < length row ->
    foldl (fun r jw => <[S (fst jw) := snd jw]> r) row
          (imap (fun j w => (k + j, w)) ws) !! S j =
    if decide (k <= j < k + length ws) then ws !! (j - k) else row !! S j.
Proof.
  induction ws as [|w ws IH]; intros k row j Hlen; simpl in *.
  - case_decide; [lia | done].
  - rewrite (imap_ext _ (fun j w => (S k + j, w))).
    2:{ intros i x _. simpl. f_equal. lia. }
    rewrite IH by (rewrite length_insert; lia).
    replace (k + 0) with k by lia.
    repeat case_decide; try lia.
    + destruct (j - k) as [|n] eqn:E; [lia|]. simpl. f_equal. lia.
    + assert (j = k) as -> by lia. rewrite list_lookup_insert_eq by lia.
      by replace (k - k) with 0 by lia.
    + rewrite list_lookup_insert_ne by lia. done.
Qed.

Lemma fill_loop_length (ws : list Z) :
  forall (k : nat) (row : list Z),
    length (foldl (fun r jw => <[S (fst jw) := snd jw]> r) row
                  (imap (fun j w => (k + j, w)) ws)) = length row.
Proof.
  induction ws as [|w ws IH]; intros k row; simpl; [done|].
  rewrite (imap_ext _ (fun j w => (S k + j, w))).
  2:{ intros i x _. simpl. f_equal. lia. }
  rewrite IH. by rewrite length_insert.
Qed.

Lemma fill_row_words lparen cur width (ws : list Z) :
  length ws + 2 <= width ->
  take (length ws) (drop 1 (fill_row lparen cur width ws)) = ws.
Proof.
  intros Hw. unfold fill_row.
  destruct (Nat.ltb_spec 0 (length ws)) as [Hpos|Hz].
  - apply list_eq. intros j.
    destruct (decide (j < length ws)) as [Hj|Hj].
    + rewrite lookup_take_lt by done. rewrite lookup_drop. simpl.
      rewrite list_lookup_insert_ne by lia.
      rewrite list_lookup_insert_ne by lia.
      rewrite (fill_loop_lookup ws 0) by (rewrite length_replicate; lia).
      case_decide; [|lia]. f_equal. lia.
    + rewrite lookup_take_ge by lia. symmetry. apply lookup_ge_None. lia.
  - destruct ws; simpl in *; [done | lia].
Qed.
Lemma lin_inv_step trees bound lparen cur mi qt db :
  (forall T, T ∈ trees -> tree_size T <= bound) ->
  lin_inv trees bound cur mi qt db -> cur <= mi ->
  exists ws qt' mi' mw,
    level_scan cur qt mi (-1)%Z = (ws, qt', mi', mw) /\
    lin_inv trees bound (S cur) mi' qt'
      (<[cur := (Z.to_nat (mw + 2), map (fill_row lparen cur (Z.to_nat (mw + 2))) ws)]> db).
Proof.
  intros Hbound [Hcur Hq Hmax Hlen Hrows] Hle.
  destruct (level_scan_spec cur qt mi (-1)%Z)
    as (mi' & mw & Heq & Hmi & Hmw & Hl & Hw & Hb).
  eexists _, _, mi', mw. split; [exact Heq|].
  assert (Forall2 (fun T q => queue_inv T (S cur) q) trees
            (map (fun q => snd (expand cur q)) qt)) as Hq'.
  { apply Forall2_fmap_r. eapply Forall2_impl; [exact Hq|].
    intros T q Hi. simpl. apply expand_inv; [lia | done]. }
  split.
  - lia.
  - exact Hq'.
  - split; [lia|]. apply Hb; [lia|].
    intros q Hin. apply list_elem_of_lookup in Hin as [b Hb'].
    destruct (Forall2_lookup_r _ _ _ _ _ Hq Hb') as (T & HT & Hi).
    assert (queue_inv T (S cur) (snd (expand cur q))) as Hi'.
    { apply expand_inv; [lia | done]. }
    apply queue_inv_length in Hi'.
    assert (T ∈ trees) as HTin by (apply list_elem_of_lookup; eauto).
    specialize (Hbound T HTin). lia.
  - intros q' Hin. apply list_elem_of_fmap in Hin as (q & -> & Hin).
    destruct (decide (cur <= length q)) as [Hc|Hc].
    + by apply Hl.
    + rewrite expand_spec by lia.
      rewrite (proj2 (lookup_ge_None q (cur - 1))) by lia. simpl.
      specialize (Hlen q Hin). lia.
  - intros c Hc.
    destruct (decide (c = cur)) as [->|Hne].
    + eexists. split; [by rewrite lookup_insert_eq|]. simpl.
      split; [lia|]. split.
      { rewrite !length_map. by apply Forall2_length in Hq. }
      intros b q' e Hb' He.
      rewrite list_lookup_fmap in Hb'.
      destruct (qt !! b) as [q|] eqn:Hqb; [|discriminate].
      simpl in Hb'. inversion Hb'; subst q'; clear Hb'.
      assert (q !! (cur - 1) = Some e) as He'.
      { rewrite expand_spec in He by lia.
        destruct (q !! (cur - 1)) as [e0|] eqn:E; simpl in He.
        - rewrite lookup_app_l in He by (by apply lookup_lt_Some in E). congruence.
        - rewrite E in He. discriminate. }
      assert (fst (expand cur q) = map tag (children (q_tree e))) as Hws.
      { rewrite expand_spec by lia. by rewrite He'. }
      assert (q ∈ qt) as Hin by (apply list_elem_of_lookup; eauto).
      specialize (Hw q Hin). rewrite Hws, length_map in Hw.
      unfold num_children. split; [lia|].
      unfold level_words. simpl. rewrite !list_lookup_fmap, Hqb. simpl.
      rewrite Hws.
      rewrite <- (length_map tag (children (q_tree e))) at 1.
      apply fill_row_words. rewrite length_map. lia.
    + destruct (Hrows c ltac:(lia)) as (m & Hm & Hw1 & Hrows_len & Hr).
      exists m. split; [by rewrite lookup_insert_ne|].
      split; [done|]. split; [done|].
      intros b q' e Hb' He.
      rewrite list_lookup_fmap in Hb'.
      destruct (qt !! b) as [q|] eqn:Hqb; [|discriminate].
      simpl in Hb'. inversion Hb'; subst q'; clear Hb'.
      apply (Hr b q e Hqb).
      rewrite expand_spec in He by lia.
      destruct (q !! (cur - 1)) as [e0|] eqn:E; simpl in He; [|done].
      rewrite lookup_app_l in He; [done|].
      apply lookup_lt_Some in E. lia.
Qed.

Lemma get_dec_batch_loop_spec trees bound lparen :
  (forall T, T ∈ trees -> tree_size T <= bound) ->
  forall fuel cur mi qt db,
    lin_inv trees bound cur mi qt db -> bound + 2 <= fuel + cur ->
    exists db' qt' mi',
      get_dec_batch_loop fuel lparen cur mi qt db = Ok (db', qt', mi') /\
      lin_inv trees bound (S mi') mi' qt' db'.
Proof.
  intros Hbound. induction fuel as [|fuel IH]; intros cur mi qt db Hinv Hfuel.
  - destruct Hinv as [Hcur _ Hmax _ _]. lia.
  - simpl. destruct (Nat.leb_spec cur mi) as [Hle|Hgt].
    + destruct (lin_inv_step trees bound lparen cur mi qt db Hbound Hinv Hle)
        as (ws & qt' & mi' & mw & Heq & Hinv').
      rewrite Heq. apply IH; [exact Hinv' | lia].
    + exists db, qt, mi. split; [done|].
      assert (cur = S mi) as <-; [|done].
      destruct Hinv as [Hcur _ _ _ _]. lia.
Qed.

Lemma size_bound_spec trees T : T ∈ trees -> tree_size T <= size_bound trees.
Proof.
  unfold size_bound. induction trees as [|t trees IH]; intros Hin.
  - by apply elem_of_nil in Hin.
  - apply elem_of_cons in Hin as [->|Hin]; simpl; [lia|].
    specialize (IH Hin). lia.
Qed.

(** [get_dec_batch] returns, and its result satisfies the invariant with
    every level run. *)
Lemma get_dec_batch_spec trees form_manager :
  exists db qt mi,
    get_dec_batch trees (length trees) form_manager = Ok (db, qt, mi) /\
    lin_inv trees (size_bound trees) (S mi) mi qt db.
Proof.
  unfold get_dec_batch. rewrite Nat.leb_refl. rewrite firstn_all.
  apply get_dec_batch_loop_spec.
  - apply size_bound_spec.
  - split.
    + lia.
    + apply Forall2_fmap_r. apply Forall_Forall2_diag.
      apply Forall_forall. intros T _. apply queue_inv_init.
    + unfold size_bound. lia.
    + intros q Hin. apply list_elem_of_fmap in Hin as (T & -> & _). simpl. lia.
    + intros c Hc. lia.
  - unfold linearise_fuel, size_bound. lia.
Qed.

(** ** Assembly of a linearised tree *)

Lemma py_index_pred len p :
  1 <= p -> p - 1 < len -> py_index len (Z.of_nat p - 1) = Ok (p - 1).
Proof.
  intros H1 H2. unfold py_index.
  destruct (Z.leb_spec 0 (Z.of_nat p - 1)); [|lia].
  replace (Z.to_nat (Z.of_nat p - 1)) with (p - 1) by lia.
  destruct (Nat.ltb_spec (p - 1) len); [done | lia].
Qed.

Section Assembly.
Variables (T : Tree) (Q : list QTree) (cur : nat).
Hypothesis HQ : queue_inv T cur Q.

Lemma attach_inv i D :
  1 <= i < length Q -> asm_inv Q (S i) D ->
  exists D', attach D i = Ok D' /\ asm_inv Q i D'.
Proof.
  intros Hi [Hlen Hinv].
  destruct (lookup_lt_is_Some_2 Q i ltac:(lia)) as [e He].
  destruct i as [|i']; [lia|]. set (i := S i') in *.
  destruct (qi_parent _ _ _ HQ _ _ He) as (Hp1 & Hp2 & Hc1 & p & Hp & Hch).
  destruct (Hinv _ _ He) as (x & Hx & Hxp & Hxc & _ & _).
  destruct (Hinv _ _ Hp) as (y & Hy & Hyp & Hyc & Hylen & Hys).
  pose proof (lookup_lt_Some _ _ _ Hch) as Hclt. fold (num_children (q_tree p)) in Hclt.
  unfold attach. rewrite Hx. simpl. rewrite Hxp, Hxc.
  rewrite py_index_pred by (try lia; apply lookup_lt_Some in Hy; lia).
  simpl. rewrite Hy. simpl. unfold py_setitem.
  rewrite py_index_pred by lia. simpl.
  eexists. split; [reflexivity|].
  split; [by rewrite length_insert|].
  intros k e0 He0.
  destruct (decide (k = q_parent e - 1)) as [->|Hk].
  - rewrite He0 in Hp. inversion Hp; subst e0.
    eexists. split; [rewrite list_lookup_insert_eq; [done | by apply lookup_lt_Some in Hy]|].
    simpl. split; [done|]. split; [done|]. split; [by rewrite length_insert|].
    intros c ch Hc.
    destruct (decide (c = q_child_index e - 1)) as [->|Hcne].
    + rewrite Hch in Hc. inversion Hc; subst ch. simpl. left.
      exists i, e. repeat split; try lia; try done.
      rewrite list_lookup_insert_eq; [done | lia].
    + specialize (Hys c ch Hc). destruct ch as [w|t]; simpl in *.
      * by rewrite list_lookup_insert_ne by done.
      * destruct Hys as [(j & e' & H1 & H2 & H3 & H4 & H5)|(j & e' & H1 & H2 & H3 & H4)].
        -- left. exists j, e'. repeat split; try lia; try done.
           by rewrite list_lookup_insert_ne by done.
        -- right. exists j, e'. repeat split; try lia; try done.
           destruct (decide (j = i)) as [->|]; [|lia].
           rewrite He in H2. inversion H2; subst e'. lia.
  - destruct (Hinv _ _ He0) as (z & Hz & Hzp & Hzc & Hzlen & Hzs).
    exists z. split; [by rewrite list_lookup_insert_ne by done|].
    repeat split; try done.
    intros c ch Hc. specialize (Hzs c ch Hc). destruct ch as [w|t]; simpl in *; [done|].
    destruct Hzs as [(j & e' & H1 & H2 & H3 & H4 & H5)|(j & e' & H1 & H2 & H3 & H4)].
    + left. exists j, e'. repeat split; try lia; done.
    + right. exists j, e'. repeat split; try lia; try done.
      destruct (decide (j = i)) as [->|]; [|lia].
      rewrite He in H2. inversion H2; subst e'. lia.
Qed.

Lemma assemble_loop_inv j D :
  j < length Q -> asm_inv Q (S j) D ->
  exists D', foldl (fun acc i => q <-- acc ;; attach q i) (Ok D) (reverse (seq 1 j)) = Ok D' /\
             asm_inv Q 1 D'.
Proof.
  revert D. induction j as [|j IH]; intros D Hj Hinv.
  - exists D. split; [done|done].
  - rewrite seq_S, reverse_app. simpl.
    destruct (attach_inv (S j) D ltac:(lia) Hinv) as (D1 & -> & Hinv1).
    apply IH; [lia | done].
Qed.

Lemma read_tree_unfold fuel D addr :
  read_tree (S fuel) D addr =
    (e <-- of_option IndexError (D !! addr) ;;
     cs <-- rmapM (fun s => match s with
                            | SWord w => Ok (Word w)
                            | SRef a => t <-- read_tree fuel D a ;; Ok (Sub t)
                            end) (qd_t e) ;;
     Ok (Node cs)).
Proof. reflexivity. Qed.

Lemma read_tree_inv D :
  asm_inv Q 1 D ->
  forall fuel k e, Q !! k = Some e -> length Q - k <= fuel ->
    read_tree fuel D k = Ok (q_tree e).
Proof.
  intros [Hlen Hinv]. induction fuel as [|fuel IH]; intros k e He Hf.
  - apply lookup_lt_Some in He. lia.
  - rewrite read_tree_unfold.
    destruct (Hinv _ _ He) as (x & Hx & _ & _ & Hxlen & Hxs).
    rewrite Hx. simpl.
    rewrite (rmapM_ok _ (qd_t x) (children (q_tree e))).
    + simpl. by destruct (q_tree e).
    + done.
    + intros c s ch Hs Hc. specialize (Hxs c ch Hc).
      destruct ch as [w|t]; simpl in Hxs.
      * rewrite Hs in Hxs. by inversion Hxs.
      * destruct Hxs as [(j & e' & H1 & H2 & H3 & H4 & H5)|(j & e' & H1 & _)]; [|lia].
        rewrite Hs in H5. inversion H5; subst s.
        rewrite (IH j e' H3) by lia. simpl. by rewrite H4.
Qed.
End Assembly.

Lemma decode_queue_of_inv T cur Q db b :
  queue_inv T cur Q -> length Q < cur ->
  (forall k e, Q !! k = Some e ->
     exists m, db !! S k = Some m /\
       level_words m b (num_children (q_tree e)) = map tag (children (q_tree e))) ->
  asm_inv Q (length Q) (decode_queue_of db b Q).
Proof.
  intros HQ Hdone Hrows. unfold decode_queue_of. split; [by rewrite length_imap|].
  intros k e He. rewrite list_lookup_imap, He. simpl.
  eexists. split; [reflexivity|]. simpl.
  destruct (Hrows _ _ He) as (m & Hm & Hw). rewrite Hm. simpl. rewrite Hw.
  repeat split; try done.
  - by rewrite !length_map.
  - intros c ch Hc. destruct ch as [w|t]; simpl.
    + by rewrite !list_lookup_fmap, Hc.
    + right.
      destruct (qi_complete _ _ _ HQ k e c t) as (i & e' & Hi & H1 & H2); try done.
      { apply lookup_lt_Some in He. lia. }
      exists (S i), e'. repeat split; try done; try lia.
      by apply lookup_lt_Some in Hi.
Qed.

(** C7.  Linearising a batch with [get_dec_batch] and then running the
    assembly loop of [translate] on the entries of one of its trees (parent
    and child index from the queue, the words of each level read from its
    row of [dec_batch], child trees standing as the placeholder 4) gives
    that tree back: the loop walks the queue from the last entry down to
    entry 1, stores each entry's tree in the child slot of its parent, and
    the tree of entry 0 is the tree that was linearised. *)
Theorem C7_linearise_assemble_roundtrip (form_manager : Vocab) (trees : list Tree)
    (b : nat) (T : Tree) :
  trees !! b = Some T -> linearise_then_assemble form_manager trees b = Ok T.
Proof.
  intros HT. unfold linearise_then_assemble.
  destruct (get_dec_batch_spec trees form_manager) as (db & qt & mi & -> & Hinv).
  simpl. destruct Hinv as [Hcur Hq Hmax Hlen Hrows].
  destruct (Forall2_lookup_l _ _ _ _ _ Hq HT) as (Q & HQb & HQ).
  rewrite HQb. simpl.
  assert (length Q < S mi) as Hdone.
  { assert (Q ∈ qt) as Hin by (apply list_elem_of_lookup; eauto).
    specialize (Hlen Q Hin). lia. }
  pose proof (queue_inv_length _ _ _ HQ) as [Hpos _].
  assert (asm_inv Q (length Q) (decode_queue_of db b Q)) as H0.
  { eapply decode_queue_of_inv; [exact HQ | exact Hdone |].
    intros k e He. pose proof (lookup_lt_Some _ _ _ He) as Hk.
    destruct (Hrows (S k) ltac:(lia)) as (m & Hm & _ & _ & Hr).
    exists m. split; [done|].
    apply (Hr b Q e HQb). by replace (S k - 1) with k by lia. }
  unfold assemble. rewrite (proj1 H0).
  destruct (assemble_loop_inv T Q (S mi) HQ (length Q - 1) (decode_queue_of db b Q))
    as (D' & -> & Hinv1).
  { lia. }
  { by replace (S (length Q - 1)) with (length Q) by lia. }
  simpl. destruct Hinv1 as [HlenD HinvD].
  rewrite HlenD.
  apply (read_tree_inv Q D' (conj HlenD HinvD) (length Q) 0 _ (qi_root _ _ _ HQ)). lia.
Qed.

Lemma C7_witness :
  linearise_then_assemble Toy.vocab
    [Node [Word 5; Sub (Node [Word 6; Sub (Node [Word 7])]); Sub (Node [])];
     Toy.three_siblings] 0
  = Ok (Node [Word 5; Sub (Node [Word 6; Sub (Node [Word 7])]); Sub (Node [])]).
Proof.
  apply C7_linearise_assemble_roundtrip. reflexivity.
Defined.

(** ** The decoding step *)

Lemma rmapM_lookup {A B} (f : A -> result B) (l : list A) (l' : list B) :
  rmapM f l = Ok l' ->
  length l' = length l /\
  forall i b, l' !! i = Some b -> exists a, l !! i = Some a /\ f a = Ok b.
Proof.
  revert l'. induction l as [|a l IH]; intros l' H; simpl in H.
  - inversion H; subst. split; [done|]. intros i b Hb. discriminate.
  - apply rbind_ok in H as (b0 & Hb0 & H).
    apply rbind_ok in H as (bs & Hbs & H). inversion H; subst l'.
    destruct (IH _ Hbs) as [Hlen Hl]. split; [simpl; lia|].
    intros [|i] b Hb; simpl in *.
    + inversion Hb; subst. eauto.
    + by apply Hl.
Qed.

Lemma vsum_cons (x : Q) (v : Vec) : vsum (x :: v) = (x + vsum v)%Q.
Proof. reflexivity. Qed.

Lemma vsum_nil : vsum [] = 0%Q.
Proof. reflexivity. Qed.

Lemma vsum_app (u v : Vec) : vsum (u ++ v) == vsum u + vsum v.
Proof.
  induction u as [|x u IH].
  - rewrite app_nil_l, vsum_nil. ring.
  - rewrite <- app_comm_cons, !vsum_cons, IH. ring.
Qed.

Lemma vsum_replicate_0 n : vsum (replicate n 0%Q) == 0.
Proof.
  induction n as [|n IH]; [reflexivity|].
  change (replicate (S n) 0%Q) with (0%Q :: replicate n 0%Q).
  rewrite vsum_cons, IH. ring.
Qed.

Lemma vsum_scale (p : Q) (v : Vec) : vsum (map (Qmult p) v) == p * vsum v.
Proof.
  induction v as [|x v IH].
  - change (vsum (map (Qmult p) [])) with 0%Q. rewrite vsum_nil. ring.
  - change (map (Qmult p) (x :: v)) with ((p * x)%Q :: map (Qmult p) v).
    rewrite !vsum_cons, IH. ring.
Qed.

Lemma vsum_alter (x : Q) (out : Vec) (i : nat) :
  i < length out -> vsum (alter (fun y => (y + x)%Q) i out) == vsum out + x.
Proof.
  revert i. induction out as [|y out IH]; intros i Hi; [simpl in Hi; lia|].
  destruct i as [|i].
  - change (alter (fun y => (y + x)%Q) 0 (y :: out)) with ((y + x)%Q :: out).
    rewrite !vsum_cons. ring.
  - change (alter (fun y => (y + x)%Q) (S i) (y :: out))
      with (y :: alter (fun y => (y + x)%Q) i out).
    rewrite !vsum_cons, IH by (simpl in Hi; lia). ring.
Qed.

Lemma getq_alter (x : Q) (out : Vec) (i k : nat) :
  i < length out ->
  getq (alter (fun y => (y + x)%Q) i out) k ==
  getq out k + (if decide (i = k) then x else 0).
Proof.
  intros Hi. unfold getq. case_decide as Hk.
  - subst k. rewrite list_lookup_alter_eq.
    destruct (lookup_lt_is_Some_2 out i Hi) as [y ->]. simpl. reflexivity.
  - rewrite list_lookup_alter_ne by done. ring.
Qed.

Lemma scatter_add_row_spec (ids : list Z) :
  forall (out src out' : Vec),
    scatter_add_row out ids src = Ok out' ->
    length out' = length out /\ length ids <= length src /\
    (forall i, i ∈ ids -> (0 <= i)%Z /\ Z.to_nat i < length out) /\
    (forall k, getq out' k ==
       getq out k + vsum (zip_with (fun i x => if (i =? Z.of_nat k)%Z then x else 0%Q) ids src)) /\
    vsum out' == vsum out + vsum (take (length ids) src).
Proof.
  induction ids as [|i ids IH]; intros out src out' H; simpl in H.
  - inversion H; subst. split; [done|]. split; [simpl; lia|].
    split; [intros i Hi; by apply elem_of_nil in Hi|].
    split; [intros k|].
    + change (zip_with _ [] src) with (@nil Q). rewrite vsum_nil. ring.
    + change (take (length []) src) with (@nil Q). rewrite vsum_nil. ring.
  - destruct src as [|x src]; [discriminate|].
    destruct (Z.leb_spec 0 i) as [Hi0|]; [|discriminate].
    destruct (Nat.ltb_spec (Z.to_nat i) (length out)) as [Hi1|]; [|discriminate].
    simpl in H.
    destruct (IH _ _ _ H) as (Hlen & Hsrc & Hrange & Hget & Hsum).
    rewrite length_alter in Hlen, Hrange.
    split; [done|]. split; [simpl; lia|]. split; [|split].
    + intros j Hj. apply elem_of_cons in Hj as [->|Hj]; [done | by apply Hrange].
    + intros k. rewrite Hget. rewrite getq_alter by done.
      change (zip_with ?f (i :: ids) (x :: src)) with (f i x :: zip_with f ids src).
      rewrite vsum_cons.
      case_decide as Hk.
      * subst k. rewrite Z2Nat.id by done. rewrite Z.eqb_refl. ring.
      * destruct (Z.eqb_spec i (Z.of_nat k)) as [E|E]; [lia|]. ring.
    + rewrite Hsum. rewrite vsum_alter by done.
      change (take (length (i :: ids)) (x :: src)) with (x :: take (length ids) src).
      rewrite vsum_cons. ring.
Qed.

Lemma copy_row_spec n pad e c h a o s ids row :
  copy_row n pad e c h a o s ids = Ok row ->
  let p := pointer_gate n e c h a in
  let gen := softmax n o in
  length row = length gen + pad /\ length ids <= length s /\
  (forall k, getq row k ==
     (if k <? length gen then (1 - p) * getq gen k else 0) + copied p s ids k) /\
  vsum row == (1 - p) * vsum gen + p * vsum (take (length ids) s).
Proof.
  intros H p gen. unfold copy_row in H. fold (pointer_gate n e c h a) in H. fold p in H.
  fold gen in H.
  destruct (scatter_add_row_spec _ _ _ _ H) as (Hlen & Hsrc & _ & Hget & Hsum).
  rewrite length_app, !length_map, length_replicate in Hlen.
  rewrite length_map in Hsrc.
  split; [exact Hlen|]. split; [exact Hsrc|]. split.
  - intros k. rewrite Hget. unfold copied.
    rewrite zip_with_fmap_r.
    assert (getq (map (Qmult (1 - p)) gen ++ replicate pad 0%Q) k ==
            (if k <? length gen then (1 - p) * getq gen k else 0)) as ->.
    { unfold getq. destruct (Nat.ltb_spec k (length gen)) as [Hk|Hk].
      - rewrite lookup_app_l by (by rewrite length_map).
        rewrite list_lookup_fmap.
        destruct (lookup_lt_is_Some_2 gen k Hk) as [y ->]. simpl. reflexivity.
      - rewrite lookup_app_r by (by rewrite length_map).
        destruct (replicate pad 0%Q !! (k - length (map (Qmult (1 - p)) gen))) as [z|] eqn:E.
        + apply lookup_replicate in E as [-> _]. simpl. reflexivity.
        + simpl. reflexivity. }
    reflexivity.
  - rewrite Hsum, vsum_app, vsum_scale, vsum_replicate_0.
    rewrite <- fmap_take, vsum_scale. ring.
Qed.

Lemma decode_step_copy_inv d B inp st mem par sib oov enc out st' attn :
  use_copy d = true ->
  decode_step d B inp st mem par sib oov enc = Ok (out, st', attn) ->
  exists oovv encv pad,
    oov = Some oovv /\ enc = Some encv /\
    vocab_len oovv = vocab_len (tgt_vocab d) + pad /\
    forall r row, out !! r = Some row ->
      exists e c h a v s ids,
        attn !! r = Some s /\ encv !! r = Some ids /\
        copy_row (net d) pad e c h a (linear_out (net d) v) s ids = Ok row.
Proof.
  intros Hcopy H. unfold decode_step in H.
  apply rbind_ok in H as ([[cs hs] es] & _ & H).
  destruct (separate_attn d); [discriminate|].
  rewrite Hcopy in H.
  destruct enc as [encv|]; [|discriminate].
  destruct oov as [oovv|]; [|discriminate].
  destruct (Z.ltb_spec (Z.of_nat (vocab_len oovv) - Z.of_nat (vocab_len (tgt_vocab d))) 0)
    as [|Hpad]; [discriminate|].
  apply rbind_ok in H as (output & Hout & H). inversion H; subst; clear H.
  exists oovv, encv,
    (Z.to_nat (Z.of_nat (vocab_len oovv) - Z.of_nat (vocab_len (tgt_vocab d)))).
  split; [done|]. split; [done|]. split; [lia|].
  intros r row Hrow.
  destruct (rmapM_lookup _ _ _ Hout) as [_ Hl].
  destruct (Hl _ _ Hrow) as ([[[[[[e c] h] a] o] s] ids] & Hz & Hf).
  apply lookup_zip_with_Some in Hz as (x1 & ids' & E1 & Hz & Hids).
  apply lookup_zip_with_Some in Hz as (x2 & s' & E2 & Hz & Hs).
  apply lookup_zip_with_Some in Hz as (x3 & o' & E3 & Hz & Ho).
  rewrite E2 in E1. rewrite E3 in E1. inversion E1; subst.
  rewrite list_lookup_fmap in Ho.
  destruct (_ !! r) as [v|] eqn:Hv in Ho; [|discriminate].
  simpl in Ho. inversion Ho as [Eo]; clear Ho. rewrite <- Eo in Hf.
  eexists _, _, _, _, _, _, _. split; [exact Hs|]. split; [exact Hids|]. exact Hf.
Qed.

(** The same, with every row tied to the values the step computed. *)
Lemma decode_step_copy_parts d B inp st mem par sib oov enc out st' attn :
  use_copy d = true ->
  decode_step d B inp st mem par sib oov enc = Ok (out, st', attn) ->
  exists oovv encv pad dec_emb,
    oov = Some oovv /\ enc = Some encv /\
    vocab_len oovv = vocab_len (tgt_vocab d) + pad /\
    tdu_forward (net d) (rnn d) (_filter_oov inp (tgt_vocab d)) (fst st) (snd st) par sib
      = Ok (fst st', snd st', dec_emb) /\
    attn = map snd (zip_with (attention (net d)) (snd st') mem) /\
    forall r row, out !! r = Some row ->
      exists e c h a s ids,
        dec_emb !! r = Some e /\ fst st' !! r = Some c /\ snd st' !! r = Some h /\
        map fst (zip_with (attention (net d)) (snd st') mem) !! r = Some a /\
        attn !! r = Some s /\ encv !! r = Some ids /\
        copy_row (net d) pad e c h a
          (linear_out (net d) (dropout_attn (net d)
             (tanh (net d) (linear_att (net d) (a ++ h))))) s ids = Ok row.
Proof.
  intros Hcopy H. unfold decode_step in H.
  apply rbind_ok in H as ([[cs hs] es] & Htdu & H).
  destruct (separate_attn d); [discriminate|].
  rewrite Hcopy in H.
  destruct enc as [encv|]; [|discriminate].
  destruct oov as [oovv|]; [|discriminate].
  destruct (Z.ltb_spec (Z.of_nat (vocab_len oovv) - Z.of_nat (vocab_len (tgt_vocab d))) 0)
    as [|Hpad]; [discriminate|].
  apply rbind_ok in H as (output & Hout & H). inversion H; subst; clear H.
  exists oovv, encv,
    (Z.to_nat (Z.of_nat (vocab_len oovv) - Z.of_nat (vocab_len (tgt_vocab d)))), es.
  split; [done|]. split; [done|]. split; [lia|]. split; [exact Htdu|]. split; [done|].
  intros r row Hrow. simpl fst. simpl snd.
  destruct (rmapM_lookup _ _ _ Hout) as [_ Hl].
  destruct (Hl _ _ Hrow) as ([[[[[[e c] h] a] o] s] ids] & Hz & Hf).
  apply lookup_zip_with_Some in Hz as (x1 & ids' & E1 & Hz & Hids).
  apply lookup_zip_with_Some in Hz as (x2 & s' & E2 & Hz & Hs).
  apply lookup_zip_with_Some in Hz as (x3 & o' & E3 & Hz & Ho).
  apply lookup_zip_with_Some in Hz as (x4 & a' & E4 & Hz & Ha).
  apply lookup_zip_with_Some in Hz as (x5 & h' & E5 & Hz & Hh).
  apply lookup_zip_with_Some in Hz as (e' & c' & E6 & He & Hc).
  subst x1 x2 x3 x4 x5. inversion E1; subst e c h a o s ids. clear E1.
  change (map ?f ?l) with (f <$> l) in Ho.
  rewrite !list_lookup_fmap in Ho.
  destruct (zip_with app _ _ !! r) as [x|] eqn:Hx in Ho; [|discriminate].
  simpl in Ho. inversion Ho as [Eo]; clear Ho. rewrite <- Eo in Hf.
  apply lookup_zip_with_Some in Hx as (a2 & h2 & Ex & Ha2 & Hh2).
  rewrite Ha in Ha2. rewrite Hh in Hh2. inversion Ha2; inversion Hh2; subst a2 h2 x.
  exists e', c', h', a', s', ids'. done.
Qed.

(** C10.  A decoder built with an attention type other than "uniform"
    cannot take a decoding step: whatever the arguments, [decode_step]
    raises.  The separate-attention branch binds no [context_vector], and the
    concatenation that follows reads it ([UnboundLocalError]); the only call
    that does not get that far is one that already failed in the recurrent
    unit, with sibling feeding on and no sibling state ([TypeError]).  The
    constructor [__init__] accepts the attention type all the same. *)
Theorem C10_separate_attention_always_raises (c : Config) (tgt_batch_size : nat)
    (dec_single_input : list Z) (dec_single_state : list Vec * list Vec)
    (memory : list Mem) (parent_state : list Vec) (sibling_state : option (list Vec))
    (oov_dict : option Vocab) (enc_batch : option (list (list Z))) :
  cfg_attn_type c <> "uniform" ->
  decode_step (__init__ c) tgt_batch_size dec_single_input dec_single_state memory
    parent_state sibling_state oov_dict enc_batch = Raise UnboundLocalError
  \/ (cfg_use_sibling c = true /\ sibling_state = None /\
      decode_step (__init__ c) tgt_batch_size dec_single_input dec_single_state memory
        parent_state sibling_state oov_dict enc_batch = Raise TypeError).
Proof.
  intros Hattn.
  assert (separate_attn (__init__ c) = true) as Hsep.
  { simpl. apply negb_true_iff. by apply String.eqb_neq. }
  assert (tdu_use_sibling (rnn (__init__ c)) = cfg_use_sibling c) as Hu by done.
  generalize dependent (__init__ c). intros d Hsep Hu.
  unfold decode_step, tdu_forward. rewrite Hu.
  destruct (cfg_use_sibling c).
  - destruct sibling_state as [sib|].
    + left. simpl. by rewrite Hsep.
    + right. done.
  - left. simpl. by rewrite Hsep.
Qed.

Lemma C10_witness :
  decode_step
    (__init__ {| cfg_net := Toy.toy_net; cfg_attn_type := "separate_on_node_type";
                 cfg_enc_hidden_size := 1; cfg_dec_emb_size := 1;
                 cfg_dec_hidden_size := 1; cfg_output_size := 8;
                 cfg_teacher_force_ratio := 1; cfg_use_sibling := false;
                 cfg_use_copy := false; cfg_num_layers := 1;
                 cfg_dropout_for_decoder := 0; cfg_rnn_type := "lstm";
                 cfg_max_dec_seq_length := 16; cfg_max_dec_tree_depth := 8;
                 cfg_tgt_vocab := Toy.vocab; cfg_graph_pooling_strategy := "max" |})
    1 [1%Z] ([[0%Q]], [[0%Q]]) Toy.memory [[0%Q]] None None None
  = Raise UnboundLocalError
  \/ (false = true /\ @None (list Vec) = None /\
      decode_step
        (__init__ {| cfg_net := Toy.toy_net; cfg_attn_type := "separate_on_node_type";
                     cfg_enc_hidden_size := 1; cfg_dec_emb_size := 1;
                     cfg_dec_hidden_size := 1; cfg_output_size := 8;
                     cfg_teacher_force_ratio := 1; cfg_use_sibling := false;
                     cfg_use_copy := false; cfg_num_layers := 1;
                     cfg_dropout_for_decoder := 0; cfg_rnn_type := "lstm";
                     cfg_max_dec_seq_length := 16; cfg_max_dec_tree_depth := 8;
                     cfg_tgt_vocab := Toy.vocab; cfg_graph_pooling_strategy := "max" |})
        1 [1%Z] ([[0%Q]], [[0%Q]]) Toy.memory [[0%Q]] None None None
      = Raise TypeError).
Proof.
  apply C10_separate_attention_always_raises. simpl. discriminate.
Defined.

(** C4 (as the code has it).  A decoding step in copy mode that returns
    gives, for every tree of the batch, a row over the extended vocabulary:
    its length is that of the generation distribution plus the
    [len(oov_dict) - len(tgt_vocab)] added slots.  Let [p] be [prob_ptr],
    the sigmoid of the pointer layer on the raw step input, the new cell
    and hidden rows and the attention context of this step, and [gen] the
    softmax of this step's output layer.  Entry [k] of the row is [(1 - p)]
    times [gen] at [k] when [k] lies in the base vocabulary and [0] in an
    added slot, plus [p] times the attention weight of every source
    position whose id is [k].  So the sigmoid output weighs the copied mass
    and its complement weighs the generation part. *)
Theorem C4_copy_mixture (d : StdTreeDecoder) (tgt_batch_size : nat)
    (dec_single_input : list Z) (dec_single_state : list Vec * list Vec)
    (memory : list Mem) (parent_state : list Vec) (sibling_state : option (list Vec))
    (oov_dict : option Vocab) (enc_batch : option (list (list Z)))
    (out : list Vec) (st' : list Vec * list Vec) (attn : list Vec) :
  use_copy d = true ->
  decode_step d tgt_batch_size dec_single_input dec_single_state memory
    parent_state sibling_state oov_dict enc_batch = Ok (out, st', attn) ->
  exists oov enc pad dec_emb,
    oov_dict = Some oov /\ enc_batch = Some enc /\
    vocab_len oov = vocab_len (tgt_vocab d) + pad /\
    tdu_forward (net d) (rnn d) (_filter_oov dec_single_input (tgt_vocab d))
      (fst dec_single_state) (snd dec_single_state) parent_state sibling_state
      = Ok (fst st', snd st', dec_emb) /\
    attn = map snd (zip_with (attention (net d)) (snd st') memory) /\
    forall r row, out !! r = Some row ->
      exists (e c h context weights : Vec) (ids : list Z),
        dec_emb !! r = Some e /\ fst st' !! r = Some c /\ snd st' !! r = Some h /\
        map fst (zip_with (attention (net d)) (snd st') memory) !! r = Some context /\
        attn !! r = Some weights /\ enc !! r = Some ids /\
        let p := sigmoid (net d) (ptr (net d) (e ++ (c ++ h) ++ context)) in
        let gen :=
          softmax (net d)
            (linear_out (net d) (dropout_attn (net d)
               (tanh (net d) (linear_att (net d) (context ++ h))))) in
        length row = length gen + pad /\
        forall k, getq row k ==
          (if k <? length gen then (1 - p) * getq gen k else 0) + copied p weights ids k.
Proof.
  intros Hcopy H.
  destruct (decode_step_copy_parts _ _ _ _ _ _ _ _ _ _ _ _ Hcopy H)
    as (oov & enc & pad & dec_emb & -> & -> & Hpad & Htdu & Hattn & Hrows).
  exists oov, enc, pad, dec_emb.
  split; [done|]. split; [done|]. split; [done|]. split; [done|]. split; [done|].
  intros r row Hrow.
  destruct (Hrows r row Hrow) as (e & c & h & a & s & ids & He & Hc & Hh & Ha & Hs & Hids & Hrowc).
  destruct (copy_row_spec _ _ _ _ _ _ _ _ _ _ Hrowc) as (Hlen & _ & Hget & _).
  exists e, c, h, a, s, ids. done.
Qed.

Lemma C4_witness :
  exists out st' attn,
    decode_step (__init__ Toy.config_copy) 1 [1%Z] ([[0%Q]], [[0%Q]]) Toy.memory
      [[0%Q]] None (Some Toy.oov_vocab) (Some Toy.source_ids) = Ok (out, st', attn) /\
    exists oov enc pad dec_emb,
      Some Toy.oov_vocab = Some oov /\ Some Toy.source_ids = Some enc /\
      vocab_len oov = vocab_len (tgt_vocab (__init__ Toy.config_copy)) + pad /\
      tdu_forward (net (__init__ Toy.config_copy)) (rnn (__init__ Toy.config_copy))
        (_filter_oov [1%Z] (tgt_vocab (__init__ Toy.config_copy)))
        (fst ([[0%Q]], [[0%Q]])) (snd ([[0%Q]], [[0%Q]])) [[0%Q]] None
        = Ok (fst st', snd st', dec_emb) /\
      attn = map snd (zip_with (attention (net (__init__ Toy.config_copy))) (snd st')
                        Toy.memory) /\
      forall r row, out !! r = Some row ->
        exists (e c h context weights : Vec) (ids : list Z),
          dec_emb !! r = Some e /\ fst st' !! r = Some c /\ snd st' !! r = Some h /\
          map fst (zip_with (attention (net (__init__ Toy.config_copy))) (snd st')
                     Toy.memory) !! r = Some context /\
          attn !! r = Some weights /\ enc !! r = Some ids /\
          let p := sigmoid (net (__init__ Toy.config_copy))
                     (ptr (net (__init__ Toy.config_copy)) (e ++ (c ++ h) ++ context)) in
          let gen :=
            softmax (net (__init__ Toy.config_copy))
              (linear_out (net (__init__ Toy.config_copy))
                 (dropout_attn (net (__init__ Toy.config_copy))
                    (tanh (net (__init__ Toy.config_copy))
                       (linear_att (net (__init__ Toy.config_copy)) (context ++ h))))) in
          length row = length gen + pad /\
          forall k, getq row k ==
            (if k <? length gen then (1 - p) * getq gen k else 0) + copied p weights ids k.
Proof.
  eexists _, _, _. split.
  - vm_compute. reflexivity.
  - apply (C4_copy_mixture (__init__ Toy.config_copy) 1 [1%Z] ([[0%Q]], [[0%Q]])
             Toy.memory [[0%Q]] None (Some Toy.oov_vocab) (Some Toy.source_ids)
             _ ([[1%Q]], [[1%Q]])).
    + reflexivity.
    + vm_compute. reflexivity.
Defined.

(** C4, counterexample.  One step of the toy decoder in copy mode: the
    output layer puts all generation mass on word 5, the sigmoid gives
    [1 # 4], and both source nodes carry the out-of-vocabulary id 9 with
    attention [1 # 2] each.  The row returned has [3 # 4] on word 5 and
    [1 # 4] on id 9.  Scaling the generation part by the sigmoid output and
    the attention by its complement would give [1 # 4] and [3 # 4]. *)
Lemma C4_counterexample :
  step_rows
    (decode_step (__init__ Toy.config_copy) 1 [1%Z] ([[0%Q]], [[0%Q]]) Toy.memory
       [[0%Q]] None (Some Toy.oov_vocab) (Some Toy.source_ids))
  = Some [[0; 0; 0; 0; 0; 3 # 4; 0; 0; 0; 1 # 4]%Q]
  /\ tdu_forward Toy.toy_net (rnn (__init__ Toy.config_copy)) [1%Z] [[0%Q]] [[0%Q]] [[0%Q]] None
     = Ok ([[1%Q]], [[1%Q]], [[1; 0]%Q])
  /\ pointer_gate Toy.toy_net [1; 0]%Q [1%Q] [1%Q] [] = (1 # 4)%Q
  /\ softmax Toy.toy_net (linear_out Toy.toy_net (dropout_attn Toy.toy_net [1%Q]))
     = [0; 0; 0; 0; 0; 1; 0; 0]%Q
  /\ rbind (copy_row_gate_on_generation Toy.toy_net 2 [1; 0]%Q [1%Q] [1%Q] []
              (linear_out Toy.toy_net (dropout_attn Toy.toy_net [1%Q]))
              [1 # 2; 1 # 2]%Q [9; 9]%Z)
           (fun row => Ok (map Qred row))
     = Ok [0; 0; 0; 0; 0; 1 # 4; 0; 0; 0; 3 # 4]%Q
  /\ ~ (3 # 4 == 1 # 4)%Q.
Proof.
  repeat split; try (vm_compute; reflexivity).
  intros H. discriminate H.
Qed.

(** C5.  In copy mode every row of the distribution [decode_step] returns
    sums to 1 over the extended vocabulary, provided the softmax of an
    output-layer row sums to 1, the attention weights of every tree sum to
    1, and the source ids of a tree are as many as its attention weights
    (one per source position).  Exact arithmetic. *)
Theorem C5_copy_distribution_sums_to_one (d : StdTreeDecoder) (tgt_batch_size : nat)
    (dec_single_input : list Z) (dec_single_state : list Vec * list Vec)
    (memory : list Mem) (parent_state : list Vec) (sibling_state : option (list Vec))
    (oov_dict : option Vocab) (enc : list (list Z))
    (out : list Vec) (st' : list Vec * list Vec) (attn : list Vec) :
  use_copy d = true ->
  (forall v, vsum (softmax (net d) (linear_out (net d) v)) == 1) ->
  decode_step d tgt_batch_size dec_single_input dec_single_state memory
    parent_state sibling_state oov_dict (Some enc) = Ok (out, st', attn) ->
  (forall r weights, attn !! r = Some weights -> vsum weights == 1) ->
  (forall r weights ids, attn !! r = Some weights -> enc !! r = Some ids ->
     length ids = length weights) ->
  forall r row, out !! r = Some row -> vsum row == 1.
Proof.
  intros Hcopy Hsoft H Hattn Hshape r row Hrow.
  destruct (decode_step_copy_inv _ _ _ _ _ _ _ _ _ _ _ _ Hcopy H)
    as (oov & enc' & pad & _ & Henc & _ & Hrows).
  inversion Henc; subst enc'.
  destruct (Hrows r row Hrow) as (e & c & h & a & v & s & ids & Hs & Hids & Hc).
  destruct (copy_row_spec _ _ _ _ _ _ _ _ _ _ Hc) as (_ & _ & _ & Hsum).
  rewrite Hsum, Hsoft.
  rewrite (Hshape r s ids Hs Hids), firstn_all, (Hattn r s Hs). ring.
Qed.

Lemma C5_witness :
  vsum [0 # 4; 0 # 4; 0 # 4; 0 # 4; 0 # 4; 3 # 4; 0 # 4; 0 # 4; 0; 16 # 64]%Q == 1.
Proof.
  apply (C5_copy_distribution_sums_to_one (__init__ Toy.config_copy) 1 [1%Z]
           ([[0%Q]], [[0%Q]]) Toy.memory [[0%Q]] None (Some Toy.oov_vocab)
           Toy.source_ids
           [[0 # 4; 0 # 4; 0 # 4; 0 # 4; 0 # 4; 3 # 4; 0 # 4; 0 # 4; 0; 16 # 64]%Q]
           ([[1%Q]], [[1%Q]]) [[1 # 2; 1 # 2]%Q]) with (r := 0).
  - reflexivity.
  - intros v. simpl. unfold Toy.script.
    repeat (match goal with |- context [Qeq_bool ?a ?b] => destruct (Qeq_bool a b) end;
            [vm_compute; reflexivity|]).
    vm_compute. reflexivity.
  - vm_compute. reflexivity.
  - intros [|[|r]] weights Hw; inversion Hw; subst. vm_compute. reflexivity.
  - intros [|[|r]] weights ids Hw Hi; inversion Hw; inversion Hi; subst. reflexivity.
  - reflexivity.
Defined.

(** ** Configuration and unused arguments *)

(** A pooling strategy outside "max", "min", "mean" is rejected at first
    use: the training pass entered through [forward] raises, the pass
    itself raises [NotImplementedError] when no graph-level embedding is
    given, and [translate] raises too. *)
Lemma unsupported_pooling_raises (c : Config) :
  supported_pooling (cfg_graph_pooling_strategy c) = false ->
  (forall rand g tgt_tree_batch oov_dict,
     exists e, snd (forward (__init__ c) rand g tgt_tree_batch oov_dict) = Raise e) /\
  (forall rand graph_node_embedding graph_node_mask rnn_node_embedding
          tgt_tree_batch enc_batch oov_dict,
     snd (_run_forward_pass (__init__ c) rand graph_node_embedding graph_node_mask
            rnn_node_embedding None tgt_tree_batch enc_batch oov_dict)
     = Raise NotImplementedError) /\
  (forall form_manager dec_hidden_size max_dec_seq_length max_dec_tree_depth
          graph_node_embedding enc_w_list oov_dict,
     snd (translate (__init__ c) form_manager dec_hidden_size max_dec_seq_length
            max_dec_tree_depth graph_node_embedding enc_w_list oov_dict)
     = Raise UnboundLocalError).
Proof.
  intros Hpool. unfold supported_pooling in Hpool.
  apply orb_false_iff in Hpool as [Hpool Hmean].
  apply orb_false_iff in Hpool as [Hmax Hmin].
  assert (forall rand gne mask rne trees enc oov,
            snd (_run_forward_pass (__init__ c) rand gne mask rne None trees enc oov)
            = Raise NotImplementedError) as Hpass.
  { intros. unfold _run_forward_pass, graph_states. simpl graph_pooling_strategy.
    by rewrite Hmax, Hmin, Hmean. }
  split; [|split].
  - intros rand g trees oov. unfold forward.
    destruct (_extract_params (__init__ c) g) as [params|e|] eqn:E.
    + unfold _extract_params in E.
      apply rbind_ok in E as (src & _ & E). inversion E; subst; simpl.
      eexists. apply Hpass.
    + by exists e.
    + unfold _extract_params in E.
      destruct (use_copy (__init__ c)); [destruct (token_id_oov g)|]; discriminate.
  - exact Hpass.
  - intros. unfold translate. simpl graph_pooling_strategy. by rewrite Hmax.
Qed.

(** C8, where the code departs from it.  The documentation of the class
    lists "lstm" and "gru" for [rnn_type], and [_build_rnn] takes the
    argument, but does not read it: whatever the value, the decoder built
    is the one "lstm" builds.  So "transformer", which is neither, with a
    supported pooling strategy gives a decoder whose training pass returns
    the loss of the "lstm" decoder and whose greedy inference returns a
    tree: no error at construction and none at first use. *)
Theorem C8_unsupported_rnn_type_is_accepted :
  let c := Toy.with_rnn_type Toy.config "transformer" in
  supported_rnn_type (cfg_rnn_type c) = false /\
  supported_pooling (cfg_graph_pooling_strategy c) = true /\
  (forall (c' : Config) (t : string),
     __init__ (Toy.with_rnn_type c' t) = __init__ (Toy.with_rnn_type c' "lstm")) /\
  (exists l,
     snd (forward (__init__ c) (fun _ => 0%Q) Toy.graph [Toy.three_siblings] None) = Ok l /\
     snd (forward (__init__ Toy.config) (fun _ => 0%Q) Toy.graph [Toy.three_siblings] None)
       = Ok l) /\
  snd (translate (__init__ c) Toy.vocab 1 16 8 Toy.memory None None)
    = Ok (Node [Word 5; Sub (Node [Word 6]); Sub (Node [Word 7; Sub (Node [])])]).
Proof.
  cbv zeta. split; [reflexivity|]. split; [reflexivity|]. split; [reflexivity|].
  split.
  - eexists. split; vm_compute; reflexivity.
  - vm_compute. reflexivity.
Qed.

(** C9.  The training pass does not depend on its [rnn_node_embedding]
    argument: two calls that differ only there return the same loss (or
    raise the same exception) and leave the same state table and log.  The
    argument is replaced by zeros before the first level, and no step reads
    it.  The same holds through [forward] for the graph's ["rnn_emb"]. *)
Theorem C9_loss_independent_of_rnn_node_embedding (d : StdTreeDecoder) (rand : nat -> Q)
    (graph_node_embedding : list Mem) (graph_node_mask : list Vec)
    (rnn_node_embedding rnn_node_embedding' : list Mem)
    (graph_level_embedding : option (list Vec * list Vec))
    (tgt_tree_batch : list Tree) (enc_batch : option (list (list Z)))
    (oov_dict : option Vocab) (token_ids : list (list Z))
    (token_ids_oov : option (list (list Z))) :
  _run_forward_pass d rand graph_node_embedding graph_node_mask rnn_node_embedding
    graph_level_embedding tgt_tree_batch enc_batch oov_dict
  = _run_forward_pass d rand graph_node_embedding graph_node_mask rnn_node_embedding'
      graph_level_embedding tgt_tree_batch enc_batch oov_dict
  /\ forward d rand {| node_emb := graph_node_embedding; rnn_emb := rnn_node_embedding;
                       token_id := token_ids; token_id_oov := token_ids_oov |}
       tgt_tree_batch oov_dict
     = forward d rand {| node_emb := graph_node_embedding; rnn_emb := rnn_node_embedding';
                         token_id := token_ids; token_id_oov := token_ids_oov |}
         tgt_tree_batch oov_dict.
Proof.
  split; [reflexivity|].
  unfold forward, _extract_params. simpl.
  destruct (use_copy d); [destruct token_ids_oov|]; reflexivity.
Qed.

(** ** The state table *)

Lemma ds_set_ok (ds ds' : DecState) q t j v :
  ds_set ds q t j v = Ok ds' ->
  exists row slot, ds !! q = Some row /\ row !! t = Some slot /\
    ds' = <[q := <[t := <[j := v]> slot]> row]> ds.
Proof.
  unfold ds_set. intros H.
  destruct (ds !! q) as [row|] eqn:Hq; [|discriminate].
  destruct (row !! t) as [slot|] eqn:Ht; [|discriminate].
  inversion H. by exists row, slot.
Qed.

Lemma ds_get_set (ds ds' : DecState) q t j v q' t' j' :
  ds_set ds q t j v = Ok ds' ->
  ds_get ds' q' t' j' =
    if decide (q = q' /\ t = t' /\ j = j') then Ok v else ds_get ds q' t' j'.
Proof.
  intros H. destruct (ds_set_ok _ _ _ _ _ _ H) as (row & slot & Hq & Ht & ->).
  unfold ds_get.
  destruct (decide (q = q')) as [<-|Hq'].
  - rewrite lookup_insert_eq, Hq.
    destruct (decide (t = t')) as [<-|Ht'].
    + rewrite lookup_insert_eq, Ht.
      destruct (decide (j = j')) as [<-|Hj'].
      * rewrite lookup_insert_eq. simpl. by rewrite decide_True.
      * rewrite lookup_insert_ne by done. rewrite decide_False by (intros (?&?&?); done). done.
    + rewrite lookup_insert_ne by done. rewrite decide_False by (intros (?&?&?); done). done.
  - rewrite lookup_insert_ne by done. rewrite decide_False by (intros (?&?&?); done). done.
Qed.

(** Slots present in the table: the two outer dictionaries. *)
Lemma ds_set_slots (ds ds' : DecState) q t j v q' t' :
  ds_set ds q t j v = Ok ds' ->
  is_Some (ds' !! q' ≫= (.!! t')) <-> is_Some (ds !! q' ≫= (.!! t')).
Proof.
  intros H. destruct (ds_set_ok _ _ _ _ _ _ H) as (row & slot & Hq & Ht & ->).
  destruct (decide (q = q')) as [<-|Hq'].
  - rewrite lookup_insert_eq, Hq. simpl.
    destruct (decide (t = t')) as [<-|Ht'].
    + rewrite lookup_insert_eq, Ht. split; eauto.
    + by rewrite lookup_insert_ne.
  - by rewrite lookup_insert_ne.
Qed.

Lemma ds_set_is_ok (ds : DecState) q t j v :
  is_Some (ds !! q ≫= (.!! t)) -> exists ds', ds_set ds q t j v = Ok ds'.
Proof.
  unfold ds_set. intros [slot H].
  destruct (ds !! q) as [row|]; [|discriminate]. simpl in H. rewrite H. eauto.
Qed.

Lemma range_map_lookup {A} (f : nat -> A) (n k : nat) :
  (list_to_map (map (fun i => (i, f i)) (seq 0 n)) : gmap nat A) !! k =
    if decide (k < n) then Some (f k) else None.
Proof.
  case_decide as Hk.
  - apply elem_of_list_to_map.
    + replace ((map (fun i => (i, f i)) (seq 0 n)).*1) with (seq 0 n); [apply NoDup_seq|].
      clear Hk. generalize 0. induction n as [|n IH]; intros s; simpl; [done|].
      f_equal. apply IH.
    + apply list_elem_of_fmap. exists k. split; [done|]. apply elem_of_seq. lia.
  - apply not_elem_of_list_to_map. intros Hin.
    apply list_elem_of_fmap in Hin as ([i x] & -> & Hin).
    apply list_elem_of_fmap in Hin as (i' & E & Hin). inversion E; subst.
    apply elem_of_seq in Hin. simpl in Hk. lia.
Qed.

Lemma init_dec_state_lookup depth seq_length q :
  init_dec_state depth seq_length !! q =
    if decide (q < S depth)
    then Some (list_to_map (map (fun j => (j, ∅)) (seq 0 (S seq_length))))
    else None.
Proof. unfold init_dec_state. apply (range_map_lookup (fun _ => _)). Qed.

Lemma init_dec_state_slots depth seq_length q t :
  q <= depth -> t <= seq_length ->
  is_Some (init_dec_state depth seq_length !! q ≫= (.!! t)).
Proof.
  intros Hq Ht. rewrite init_dec_state_lookup. rewrite decide_True by lia.
  change (is_Some ((list_to_map (map (fun j => (j, ∅)) (seq 0 (S seq_length)))
                    : gmap nat (gmap nat (list Vec))) !! t)).
  rewrite (range_map_lookup (fun _ => ∅)). rewrite decide_True by lia. eauto.
Qed.

Lemma init_dec_state_get depth seq_length q t j :
  ds_get (init_dec_state depth seq_length) q t j = Raise KeyError.
Proof.
  unfold ds_get. rewrite init_dec_state_lookup.
  case_decide; [|done].
  rewrite (range_map_lookup (fun _ => ∅)).
  case_decide; [|done]. by rewrite lookup_empty.
Qed.

(** ** One token step of the training pass *)

Lemma token_step_cases d rand B enc_outputs oov enc m parent_h cur i st st' r :
  token_step d rand B enc_outputs oov enc m parent_h cur i st = (st', r) ->
  (r <> Ok tt /\ trace st' = trace st) \/
  (exists c h,
     ds_get (dec_state st) cur i 1 = Ok c /\ ds_get (dec_state st) cur i 2 = Ok h /\
     let ev := step_event d rand B enc_outputs oov enc m parent_h cur i st c h in
     trace st' = trace st ++ [Stepped ev] /\
     (r = Ok tt ->
      exists pr c' h' a ds1 ds2,
        ev_out ev = Ok (pr, (c', h'), a) /\
        ds_set (dec_state st) cur (i + 1) 1 c' = Ok ds1 /\
        ds_set ds1 cur (i + 1) 2 h' = Ok ds2 /\
        st' = {| dec_state := ds2;
                 loss := (loss st + criterion (net d) (log_rows (net d) pr)
                                      (column m (i + 1)))%Q;
                 pred := Some (log_rows (net d) pr);
                 draws := S (draws st);
                 trace := trace st ++ [Stepped ev] |})).
Proof.
  unfold token_step, mbind, draw, get_ds, lift, log_event, put_ds, set_pred_loss, mret.
  simpl. intros H.
  set (tf := negb (Qle_bool (teacher_force_ratio d) (rand (draws st)))) in *.
  assert (exists w,
            (if negb tf && (0 <? i)
             then match pred st with Some pr => map argmax pr | None => [] end
             else column m i) = w) as [w Hw] by eauto.
  unfold step_event. fold tf. rewrite Hw.
  assert (negb tf && (0 <? i) = true -> pred st = None ->
          (r <> Ok tt /\ trace st' = trace st)) as Hunbound.
  { intros Hb Hp. rewrite Hb, Hp in H. inversion H; subst. split; done. }
  destruct (negb tf && (0 <? i)) eqn:Hb.
  - destruct (pred st) as [pr0|] eqn:Hp; [|left; by apply Hunbound].
    clear Hunbound. simpl in H. rewrite Hw in H. revert H. generalize w. clear Hw w.
    intros w H.
    destruct (ds_get (dec_state st) cur i 1) as [c|e|] eqn:Hc.
    2,3: left; inversion H; subst; split; done.
    destruct (ds_get (dec_state st) cur i 2) as [h|e|] eqn:Hh.
    2,3: left; inversion H; subst; split; done.
    right. exists c, h. split; [done|]. split; [done|].
    destruct (decode_step d B w (c, h) enc_outputs parent_h None oov enc)
      as [[[pr [c' h']] a]|e|] eqn:Hout.
    2,3: inversion H; subst; simpl; split; [done | intros; discriminate].
    simpl in H.
    destruct (ds_set (dec_state st) cur (i + 1) 1 c') as [ds1|e|] eqn:H1.
    2,3: inversion H; subst; simpl; split; [done | intros; discriminate].
    simpl in H.
    destruct (ds_set ds1 cur (i + 1) 2 h') as [ds2|e|] eqn:H2.
    2,3: inversion H; subst; simpl; split; [done | intros; discriminate].
    inversion H; subst; simpl. split; [done|]. intros _.
    by eexists pr, c', h', a, ds1, ds2.
  - clear Hunbound. simpl in H. rewrite Hw in H. revert H. generalize w. clear Hw w.
    intros w H.
    destruct (ds_get (dec_state st) cur i 1) as [c|e|] eqn:Hc.
    2,3: left; inversion H; subst; split; done.
    destruct (ds_get (dec_state st) cur i 2) as [h|e|] eqn:Hh.
    2,3: left; inversion H; subst; split; done.
    right. exists c, h. split; [done|]. split; [done|].
    destruct (decode_step d B w (c, h) enc_outputs parent_h None oov enc)
      as [[[pr [c' h']] a]|e|] eqn:Hout.
    2,3: inversion H; subst; simpl; split; [done | intros; discriminate].
    simpl in H.
    destruct (ds_set (dec_state st) cur (i + 1) 1 c') as [ds1|e|] eqn:H1.
    2,3: inversion H; subst; simpl; split; [done | intros; discriminate].
    simpl in H.
    destruct (ds_set ds1 cur (i + 1) 2 h') as [ds2|e|] eqn:H2.
    2,3: inversion H; subst; simpl; split; [done | intros; discriminate].
    inversion H; subst; simpl. split; [done|]. intros _.
    by eexists pr, c', h', a, ds1, ds2.
Qed.

(** ** Rules for the triples *)

Lemma mbind_ok {St A B} (m : M St A) (f : A -> M St B) s s' b :
  mbind m f s = (s', Ok b) ->
  exists s1 a, m s = (s1, Ok a) /\ f a s1 = (s', Ok b).
Proof.
  unfold mbind. destruct (m s) as [s1 [a|e|]]; intros H; try discriminate.
  by exists s1, a.
Qed.

Lemma hoare_ret {St A} (P : St -> Prop) (a : A) (Q : A -> St -> Prop) :
  (forall s, P s -> Q a s) -> hoare P (mret a) Q.
Proof. intros H s Hs s' a' E. inversion E; subst. by apply H. Qed.

Lemma hoare_lift {St A} (P : St -> Prop) (r : result A) (Q : A -> St -> Prop) :
  (forall s a, P s -> r = Ok a -> Q a s) -> hoare P (lift r) Q.
Proof. intros H s Hs s' a E. inversion E; subst. by apply H. Qed.

Lemma hoare_bind {St A B} (P : St -> Prop) (R : A -> St -> Prop) (Q : B -> St -> Prop)
    (m : M St A) (f : A -> M St B) :
  hoare P m R -> (forall a, hoare (R a) (f a) Q) -> hoare P (mbind m f) Q.
Proof.
  intros Hm Hf s Hs s' b E.
  apply mbind_ok in E as (s1 & a & E1 & E2).
  eapply Hf; [|exact E2]. eapply Hm; [exact Hs | exact E1].
Qed.

Lemma hoare_weaken {St A} (P P' : St -> Prop) (Q Q' : A -> St -> Prop) (m : M St A) :
  hoare P' m Q' -> (forall s, P s -> P' s) -> (forall a s, Q' a s -> Q a s) ->
  hoare P m Q.
Proof. intros H HP HQ s Hs s' a E. apply HQ. eapply H; [by apply HP | exact E]. Qed.

Lemma hoare_mfold {St A B} (I : nat -> B -> St -> Prop) (body : B -> A -> M St B)
    (l : list A) :
  (forall k a b, l !! k = Some a -> hoare (I k b) (body b a) (I (S k))) ->
  forall b, hoare (I 0 b) (mfold l body b) (I (length l)).
Proof.
  revert I. induction l as [|x l IH]; intros I Hbody b.
  - simpl. by apply hoare_ret.
  - simpl. eapply hoare_bind.
    + apply (Hbody 0 x b). done.
    + intros b'. apply (IH (fun k => I (S k))).
      intros k a b0 Hk. apply (Hbody (S k)). done.
Qed.

Lemma hoare_mfor {St A} (I : nat -> St -> Prop) (body : A -> M St unit) (l : list A) :
  (forall k a, l !! k = Some a -> hoare (I k) (body a) (fun _ => I (S k))) ->
  hoare (I 0) (mfor l body) (fun _ => I (length l)).
Proof.
  revert I. induction l as [|x l IH]; intros I Hbody.
  - simpl. by apply hoare_ret.
  - simpl. eapply hoare_bind.
    + apply (Hbody 0 x). done.
    + intros []. apply (IH (fun k => I (S k))).
      intros k a Hk. apply (Hbody (S k)). done.
Qed.

Lemma total_ret {St A} (P : St -> Prop) (a : A) (Q : A -> St -> Prop) :
  (forall s, P s -> Q a s) -> total P (mret a) Q.
Proof. intros H s Hs. exists s, a. split; [done | by apply H]. Qed.

Lemma total_lift {St A} (P : St -> Prop) (r : result A) (Q : A -> St -> Prop) :
  (forall s, P s -> exists a, r = Ok a /\ Q a s) -> total P (lift r) Q.
Proof.
  intros H s Hs. destruct (H s Hs) as (a & -> & Ha). by exists s, a.
Qed.

Lemma total_bind {St A B} (P : St -> Prop) (R : A -> St -> Prop) (Q : B -> St -> Prop)
    (m : M St A) (f : A -> M St B) :
  total P m R -> (forall a, total (R a) (f a) Q) -> total P (mbind m f) Q.
Proof.
  intros Hm Hf s Hs.
  destruct (Hm s Hs) as (s1 & a & E1 & Ha).
  destruct (Hf a s1 Ha) as (s' & b & E2 & Hb).
  exists s', b. split; [|done]. unfold mbind. by rewrite E1.
Qed.

Lemma total_weaken {St A} (P P' : St -> Prop) (Q Q' : A -> St -> Prop) (m : M St A) :
  total P' m Q' -> (forall s, P s -> P' s) -> (forall a s, Q' a s -> Q a s) ->
  total P m Q.
Proof.
  intros H HP HQ s Hs. destruct (H s (HP s Hs)) as (s' & a & E & Ha).
  exists s', a. split; [done | by apply HQ].
Qed.

Lemma total_mfold {St A B} (I : nat -> B -> St -> Prop) (body : B -> A -> M St B)
    (l : list A) :
  (forall k a b, l !! k = Some a -> total (I k b) (body b a) (I (S k))) ->
  forall b, total (I 0 b) (mfold l body b) (I (length l)).
Proof.
  revert I. induction l as [|x l IH]; intros I Hbody b.
  - simpl. by apply total_ret.
  - simpl. eapply total_bind.
    + apply (Hbody 0 x b). done.
    + intros b'. apply (IH (fun k => I (S k))).
      intros k a b0 Hk. apply (Hbody (S k)). done.
Qed.

Lemma total_mfor {St A} (I : nat -> St -> Prop) (body : A -> M St unit) (l : list A) :
  (forall k a, l !! k = Some a -> total (I k) (body a) (fun _ => I (S k))) ->
  total (I 0) (mfor l body) (fun _ => I (length l)).
Proof.
  revert I. induction l as [|x l IH]; intros I Hbody.
  - simpl. by apply total_ret.
  - simpl. eapply total_bind.
    + apply (Hbody 0 x). done.
    + intros []. apply (IH (fun k => I (S k))).
      intros k a Hk. apply (Hbody (S k)). done.
Qed.

Lemma preserves_ret {St A} (R : St -> St -> Prop) (a : A) :
  Reflexive R -> preserves R (mret a : M St A).
Proof. intros HR s. apply HR. Qed.

Lemma preserves_lift {St A} (R : St -> St -> Prop) (r : result A) :
  Reflexive R -> preserves R (lift r : M St A).
Proof. intros HR s. apply HR. Qed.

Lemma preserves_bind {St A B} (R : St -> St -> Prop) (m : M St A) (f : A -> M St B) :
  Transitive R -> preserves R m -> (forall a, preserves R (f a)) ->
  preserves R (mbind m f).
Proof.
  intros HR Hm Hf s. unfold mbind. specialize (Hm s).
  destruct (m s) as [s1 [a|e|]]; simpl in *; try done.
  eapply HR; [exact Hm | apply Hf].
Qed.

Lemma preserves_mfor {St A} (R : St -> St -> Prop) (body : A -> M St unit) (l : list A) :
  Reflexive R -> Transitive R -> (forall a, preserves R (body a)) ->
  preserves R (mfor l body).
Proof.
  intros Hr Ht Hb. induction l as [|x l IH]; simpl.
  - by apply preserves_ret.
  - apply preserves_bind; [done | apply Hb | intros _; apply IH].
Qed.

Lemma preserves_mfold {St A B} (R : St -> St -> Prop) (body : B -> A -> M St B)
    (l : list A) (b : B) :
  Reflexive R -> Transitive R -> (forall b a, preserves R (body b a)) ->
  preserves R (mfold l body b).
Proof.
  intros Hr Ht Hb. revert b. induction l as [|x l IH]; intros b; simpl.
  - by apply preserves_ret.
  - apply preserves_bind; [done | apply Hb | intros b'; apply IH].
Qed.

(** ** The table operations *)

#[local] Instance tab_frame_refl P : Reflexive (tab_frame P).
Proof. intros ds. split; done. Qed.

#[local] Instance tab_frame_trans P : Transitive (tab_frame P).
Proof.
  intros a b c [H1 H2] [H3 H4]. split.
  - intros q t. by rewrite H3, H1.
  - intros q t j Hn. by rewrite H4, H2.
Qed.

Lemma preserves_tab_get P q t j : preserves (tab_frame P) (tab_get q t j).
Proof. intros ds. simpl. reflexivity. Qed.

Lemma preserves_tab_put (P : nat -> nat -> Prop) q t j v :
  P q t -> preserves (tab_frame P) (tab_put q t j v).
Proof.
  intros HP ds. unfold tab_put.
  destruct (ds_set ds q t j v) as [ds'|e|] eqn:E; simpl; try reflexivity.
  split.
  - intros q' t'. by apply (ds_set_slots _ _ _ _ _ _ _ _ E).
  - intros q' t' j' Hn. rewrite (ds_get_set _ _ _ _ _ _ _ _ _ E).
    case_decide as Hd; [|done]. destruct Hd as (<- & <- & _). done.
Qed.

Lemma preserves_set_state_row (P : nat -> nat -> Prop) q j i v :
  P q 0 -> preserves (tab_frame P) (set_state_row q j i v).
Proof.
  intros HP. unfold set_state_row.
  apply preserves_bind; [apply _ | apply preserves_tab_get |]. intros t.
  apply preserves_bind; [apply _ | apply preserves_lift; apply _ |]. intros t'.
  by apply preserves_tab_put.
Qed.

Lemma seed_level_frame d B gc gh db qt cur :
  preserves (tab_frame (fun q t => q = cur /\ t = 0)) (seed_level d B gc gh db qt cur).
Proof.
  unfold seed_level.
  apply preserves_bind; [apply _ | |].
  { apply preserves_mfor; [apply _ | apply _ |]. intros j. by apply preserves_tab_put. }
  intros _. destruct (Nat.eqb_spec cur 1) as [->|Hc].
  - apply preserves_bind; [apply _ | | intros _; apply preserves_ret; apply _].
    apply preserves_mfor; [apply _ | apply _ |]. intros i.
    apply preserves_bind; [apply _ | apply preserves_lift; apply _ |]. intros c.
    apply preserves_bind; [apply _ | by apply preserves_set_state_row |]. intros _.
    apply preserves_bind; [apply _ | apply preserves_lift; apply _ |]. intros h.
    by apply preserves_set_state_row.
  - apply preserves_mfold; [apply _ | apply _ |]. intros sib i.
    apply preserves_bind; [apply _ | apply preserves_lift; apply _ |]. intros queue.
    apply preserves_bind; [apply _ | |].
    + unfold seed_from_parent. destruct (cur <=? length queue).
      * apply preserves_bind; [apply _ | apply preserves_lift; apply _ |]. intros e.
        apply preserves_bind; [apply _ | apply preserves_tab_get |]. intros c.
        apply preserves_bind; [apply _ | apply preserves_lift; apply _ |]. intros cr.
        apply preserves_bind; [apply _ | by apply preserves_set_state_row |]. intros _.
        apply preserves_bind; [apply _ | apply preserves_tab_get |]. intros h.
        apply preserves_bind; [apply _ | apply preserves_lift; apply _ |]. intros hr.
        by apply preserves_set_state_row.
      * apply preserves_ret; apply _.
    + intros _. unfold seed_sibling. destruct (find_sibling cur queue).
      * apply preserves_bind; [apply _ | apply preserves_lift; apply _ |]. intros m.
        apply preserves_bind; [apply _ | |].
        { destruct (fst m =? 0); [apply preserves_lift | apply preserves_ret]; apply _. }
        intros _.
        apply preserves_bind; [apply _ | apply preserves_tab_get |]. intros s.
        apply preserves_bind; [apply _ | apply preserves_lift; apply _ |]. intros sr.
        apply preserves_lift; apply _.
      * apply preserves_ret; apply _.
Qed.

Lemma tab_get_ok q t j ds ds' v :
  tab_get q t j ds = (ds', Ok v) -> ds' = ds /\ ds_get ds q t j = Ok v.
Proof. unfold tab_get. intros H. by inversion H. Qed.

Lemma tab_put_ok q t j v ds ds' u :
  tab_put q t j v ds = (ds', Ok u) -> ds_set ds q t j v = Ok ds'.
Proof.
  unfold tab_put. destruct (ds_set ds q t j v); intros H; by inversion H.
Qed.

Lemma lift_ok {St A} (r : result A) (s s' : St) a :
  lift r s = (s', Ok a) -> s' = s /\ r = Ok a.
Proof. unfold lift. intros H. by inversion H. Qed.

Lemma mret_ok {St A} (a a' : A) (s s' : St) :
  mret a s = (s', Ok a') -> s' = s /\ a' = a.
Proof. unfold mret. intros H. by inversion H. Qed.

Lemma rows_set_ok (t : list Vec) i v t' :
  rows_set t i v = Ok t' -> i < length t /\ t' = <[i := v]> t.
Proof.
  unfold rows_set. destruct (Nat.ltb_spec i (length t)) as [Hlt|Hge]; intros E; by inversion E.
Qed.

Lemma rows_get_ok (t : list Vec) i v : rows_get t i = Ok v -> t !! i = Some v.
Proof. unfold rows_get. apply of_option_ok. Qed.

Lemma set_state_row_ok q j i v ds ds' u :
  set_state_row q j i v ds = (ds', Ok u) ->
  exists t, ds_get ds q 0 j = Ok t /\ i < length t /\
            ds_set ds q 0 j (<[i := v]> t) = Ok ds'.
Proof.
  unfold set_state_row. intros H.
  apply mbind_ok in H as (s1 & t & H1 & H).
  apply tab_get_ok in H1 as [-> Ht].
  apply mbind_ok in H as (s2 & t' & H2 & H).
  apply lift_ok in H2 as [-> H2]. apply rows_set_ok in H2 as [Hi ->].
  apply tab_put_ok in H. by exists t.
Qed.

Lemma hoare_of_preserves {St A} (R : St -> St -> Prop) (m : M St A) (s0 : St) :
  Transitive R -> preserves R m ->
  hoare (fun s => R s0 s) m (fun _ s' => R s0 s').
Proof.
  intros Ht Hm s Hs s' a E. specialize (Hm s). rewrite E in Hm. simpl in Hm.
  by transitivity s.
Qed.

Lemma hoare_and {St A} (P : St -> Prop) (Q1 Q2 : A -> St -> Prop) (m : M St A) :
  hoare P m Q1 -> hoare P m Q2 -> hoare P m (fun a s => Q1 a s /\ Q2 a s).
Proof. intros H1 H2 s Hs s' a E. split; [eapply H1 | eapply H2]; eauto. Qed.

(** ** Seeding a level *)

(** The first state of the level that has just been zeroed. *)
Lemma seed_zero_ok d B cur ds ds' u :
  mfor [1; 2] (fun j => tab_put cur 0 j (zeros B (rnn_size d))) ds = (ds', Ok u) ->
  tab_frame (fun q t => q = cur /\ t = 0) ds ds' /\
  ds_get ds' cur 0 1 = Ok (zeros B (rnn_size d)) /\
  ds_get ds' cur 0 2 = Ok (zeros B (rnn_size d)).
Proof.
  intros H. split.
  - pose proof (preserves_mfor (tab_frame (fun q t => q = cur /\ t = 0))
                  (fun j => tab_put cur 0 j (zeros B (rnn_size d))) [1; 2] _ _) as Hp.
    specialize (Hp (fun j => preserves_tab_put _ cur 0 j _ (conj eq_refl eq_refl)) ds).
    by rewrite H in Hp.
  - simpl in H.
    apply mbind_ok in H as (s1 & [] & H1 & H). apply tab_put_ok in H1.
    apply mbind_ok in H as (s2 & [] & H2 & H). apply tab_put_ok in H2.
    apply mret_ok in H as [-> _].
    rewrite !(ds_get_set _ _ _ _ _ _ _ _ _ H2), !(ds_get_set _ _ _ _ _ _ _ _ _ H1).
    split.
    + rewrite decide_False by (intros (?&?&?); done). by rewrite decide_True.
    + by rewrite decide_True.
Qed.

(** Level 1: row [i] of the first state is row [i] of the graph state. *)
Lemma seed_level_root d B gc gh db qt ds ds' sib :
  seed_level d B gc gh db qt 1 ds = (ds', Ok sib) ->
  exists c0 h0,
    ds_get ds' 1 0 1 = Ok c0 /\ ds_get ds' 1 0 2 = Ok h0 /\
    forall i, i < B ->
      is_Some (c0 !! i) /\ c0 !! i = gc !! i /\ h0 !! i = gh !! i.
Proof.
  unfold seed_level. intros H.
  apply mbind_ok in H as (s1 & [] & H1 & H).
  apply seed_zero_ok in H1 as (_ & Hc & Hh).
  simpl in H. apply mbind_ok in H as (s2 & [] & H2 & H).
  apply mret_ok in H as [-> _].
  pose (I := fun (k : nat) (s : DecState) =>
    exists c0 h0, ds_get s 1 0 1 = Ok c0 /\ ds_get s 1 0 2 = Ok h0 /\
      forall i, i < k -> is_Some (c0 !! i) /\ c0 !! i = gc !! i /\ h0 !! i = gh !! i).
  assert (I (length (seq 0 B)) s2) as HI.
  { eapply (hoare_mfor I); [| |exact H2].
    - intros k i Hk s (c0 & h0 & Hc0 & Hh0 & Hrows) s' [] E.
      apply lookup_seq in Hk as [-> _]. simpl in E.
      apply mbind_ok in E as (s3 & c & E1 & E). apply lift_ok in E1 as [-> E1].
      apply rows_get_ok in E1.
      apply mbind_ok in E as (s4 & [] & E2 & E).
      apply set_state_row_ok in E2 as (t & Ht & Hlt & E2).
      apply mbind_ok in E as (s5 & h & E3 & E). apply lift_ok in E3 as [-> E3].
      apply rows_get_ok in E3.
      apply set_state_row_ok in E as (t2 & Ht2 & Hlt2 & E).
      rewrite Hc0 in Ht. inversion Ht; subst t.
      rewrite (ds_get_set _ _ _ _ _ _ _ _ _ E2) in Ht2.
      rewrite decide_False in Ht2 by (intros (?&?&?); done).
      rewrite Hh0 in Ht2. inversion Ht2; subst t2.
      exists (<[k := c]> c0), (<[k := h]> h0).
      rewrite !(ds_get_set _ _ _ _ _ _ _ _ _ E), !(ds_get_set _ _ _ _ _ _ _ _ _ E2).
      split; [rewrite decide_False by (intros (?&?&?); done); by rewrite decide_True|].
      split; [by rewrite decide_True|].
      intros i Hi. destruct (decide (i = k)) as [->|Hne].
      + rewrite !list_lookup_insert_eq by done. rewrite E1, E3. eauto.
      + rewrite !list_lookup_insert_ne by done. apply Hrows. lia.
    - exists (zeros B (rnn_size d)), (zeros B (rnn_size d)).
      split; [done|]. split; [done|]. intros i Hi. lia. }
  rewrite length_seq in HI. exact HI.
Qed.

Lemma seed_sibling_ok db queue cur i sib ds ds' sib' :
  seed_sibling db queue cur i sib ds = (ds', Ok sib') -> ds' = ds.
Proof.
  unfold seed_sibling. destruct (find_sibling cur queue) as [k|].
  - intros H.
    apply mbind_ok in H as (s1 & m & H1 & H). apply lift_ok in H1 as [-> _].
    apply mbind_ok in H as (s2 & [] & H2 & H).
    assert (s2 = ds) as ->.
    { destruct (fst m =? 0); [by apply lift_ok in H2 as [-> _] | by apply mret_ok in H2 as [-> _]]. }
    apply mbind_ok in H as (s3 & s & H3 & H). apply tab_get_ok in H3 as [-> _].
    apply mbind_ok in H as (s4 & sr & H4 & H). apply lift_ok in H4 as [-> _].
    by apply lift_ok in H as [-> _].
  - intros H. by apply mret_ok in H as [-> _].
Qed.

(** What [seed_from_parent] does to row [i - 1] of the first state of the
    level, whose two tensors are [c0] and [h0] before. *)
Lemma seed_from_parent_ok queue cur i ds ds' u c0 h0 :
  seed_from_parent queue cur i ds = (ds', Ok u) ->
  ds_get ds cur 0 1 = Ok c0 -> ds_get ds cur 0 2 = Ok h0 ->
  tab_frame (fun q t => q = cur /\ t = 0) ds ds' /\
  exists c0' h0',
    ds_get ds' cur 0 1 = Ok c0' /\ ds_get ds' cur 0 2 = Ok h0' /\
    (forall b, b <> i - 1 -> c0' !! b = c0 !! b /\ h0' !! b = h0 !! b) /\
    (forall e, queue !! (cur - 1) = Some e -> 1 <= cur -> 1 <= q_child_index e ->
       exists sc sh,
         ds_get ds (q_parent e) (q_child_index e) 1 = Ok sc /\
         ds_get ds (q_parent e) (q_child_index e) 2 = Ok sh /\
         is_Some (c0' !! (i - 1)) /\
         c0' !! (i - 1) = sc !! (i - 1) /\ h0' !! (i - 1) = sh !! (i - 1)).
Proof.
  unfold seed_from_parent. intros H Hc0 Hh0.
  destruct (Nat.leb_spec cur (length queue)) as [Hle|Hgt].
  - apply mbind_ok in H as (s1 & e & H1 & H). apply lift_ok in H1 as [-> He].
    apply of_option_ok in He.
    apply mbind_ok in H as (s2 & sc & H2 & H). apply tab_get_ok in H2 as [-> Hsc].
    apply mbind_ok in H as (s3 & cr & H3 & H). apply lift_ok in H3 as [-> Hcr].
    apply rows_get_ok in Hcr.
    apply mbind_ok in H as (s4 & [] & H4 & H).
    apply set_state_row_ok in H4 as (t1 & Ht1 & Hlt1 & H4).
    apply mbind_ok in H as (s5 & sh & H5 & H). apply tab_get_ok in H5 as [-> Hsh].
    apply mbind_ok in H as (s6 & hr & H6 & H). apply lift_ok in H6 as [-> Hhr].
    apply rows_get_ok in Hhr.
    apply set_state_row_ok in H as (t2 & Ht2 & Hlt2 & H).
    rewrite Hc0 in Ht1. inversion Ht1; subst t1.
    rewrite (ds_get_set _ _ _ _ _ _ _ _ _ H4) in Ht2.
    rewrite decide_False in Ht2 by (intros (?&?&?); done).
    rewrite Hh0 in Ht2. inversion Ht2; subst t2.
    split.
    { split.
      - intros q t. rewrite (ds_set_slots _ _ _ _ _ _ q t H).
        apply (ds_set_slots _ _ _ _ _ _ q t H4).
      - intros q t j Hn.
        rewrite (ds_get_set _ _ _ _ _ _ _ _ _ H), (ds_get_set _ _ _ _ _ _ _ _ _ H4).
        rewrite !decide_False; [done | |]; intros (?&?&?); apply Hn; by subst. }
    exists (<[i - 1 := cr]> c0), (<[i - 1 := hr]> h0).
    rewrite !(ds_get_set _ _ _ _ _ _ _ _ _ H), !(ds_get_set _ _ _ _ _ _ _ _ _ H4).
    split; [rewrite decide_False by (intros (?&?&?); done); by rewrite decide_True|].
    split; [by rewrite decide_True|].
    split.
    + intros b Hb. by rewrite !list_lookup_insert_ne by done.
    + intros e' He' Hcur Hci. rewrite He in He'. inversion He'; subst e'.
      rewrite (ds_get_set _ _ _ _ _ _ _ _ _ H4) in Hsh.
      rewrite decide_False in Hsh by (intros (?&?&?); lia).
      exists sc, sh. split; [done|]. split; [done|].
      rewrite !list_lookup_insert_eq by done. rewrite Hcr, Hhr. eauto.
  - apply mret_ok in H as [-> _]. split; [reflexivity|].
    exists c0, h0. split; [done|]. split; [done|]. split; [done|].
    intros e He Hcur. apply lookup_lt_Some in He. lia.
Qed.

(** A later level: row [b] of the first state is row [b] of the state the
    table holds for the parent at the child's index. *)
Lemma seed_level_child d B gc gh db qt cur ds ds' sib :
  1 < cur ->
  seed_level d B gc gh db qt cur ds = (ds', Ok sib) ->
  exists c0 h0,
    ds_get ds' cur 0 1 = Ok c0 /\ ds_get ds' cur 0 2 = Ok h0 /\
    forall b queue e,
      b < B -> qt !! b = Some queue -> queue !! (cur - 1) = Some e ->
      1 <= q_child_index e ->
      exists sc sh,
        ds_get ds (q_parent e) (q_child_index e) 1 = Ok sc /\
        ds_get ds (q_parent e) (q_child_index e) 2 = Ok sh /\
        is_Some (c0 !! b) /\ c0 !! b = sc !! b /\ h0 !! b = sh !! b.
Proof.
  unfold seed_level. intros Hcur H.
  apply mbind_ok in H as (s1 & [] & H1 & H).
  apply seed_zero_ok in H1 as (Hfr & Hc & Hh).
  destruct (Nat.eqb_spec cur 1) as [->|_]; [lia|].
  pose (I := fun (k : nat) (_ : list Vec) (s : DecState) =>
    tab_frame (fun q t => q = cur /\ t = 0) ds s /\
    exists c0 h0, ds_get s cur 0 1 = Ok c0 /\ ds_get s cur 0 2 = Ok h0 /\
      forall b queue e,
        b < k -> qt !! b = Some queue -> queue !! (cur - 1) = Some e ->
        1 <= q_child_index e ->
        exists sc sh,
          ds_get ds (q_parent e) (q_child_index e) 1 = Ok sc /\
          ds_get ds (q_parent e) (q_child_index e) 2 = Ok sh /\
          is_Some (c0 !! b) /\ c0 !! b = sc !! b /\ h0 !! b = sh !! b).
  assert (I (length (seq 1 B)) sib ds') as HI.
  { eapply (hoare_mfold I); [| |exact H].
    - intros k i sib0 Hk s (Hfr0 & c0 & h0 & Hc0 & Hh0 & Hrows) s' sib' E.
      apply lookup_seq in Hk as [-> _]. simpl in E.
      apply mbind_ok in E as (s2 & queue & E1 & E). apply lift_ok in E1 as [-> Hq].
      apply of_option_ok in Hq. replace (k - 0) with k in Hq by lia.
      apply mbind_ok in E as (s3 & [] & E2 & E).
      apply seed_sibling_ok in E as ->.
      destruct (seed_from_parent_ok _ _ _ _ _ _ _ _ E2 Hc0 Hh0)
        as (Hfr1 & c0' & h0' & Hc0' & Hh0' & Hother & Hrow).
      split; [by transitivity s|].
      exists c0', h0'. split; [done|]. split; [done|].
      intros b queue' e Hb Hqb He Hci.
      destruct (decide (b = k)) as [->|Hne].
      + rewrite Hq in Hqb. inversion Hqb; subst queue'.
        destruct (Hrow e He ltac:(lia) Hci) as (sc & sh & Hsc & Hsh & H1 & H2 & H3).
        replace (S k - 1) with k in * by lia.
        destruct Hfr0 as [_ Hget].
        rewrite !Hget in Hsc, Hsh by (intros [? ?]; lia).
        exists sc, sh. done.
      + destruct (Hrows b queue' e ltac:(lia) Hqb He Hci)
          as (sc & sh & Hsc & Hsh & H1 & H2 & H3).
        destruct (Hother b ltac:(lia)) as [-> ->].
        exists sc, sh. done.
    - split; [done|]. exists (zeros B (rnn_size d)), (zeros B (rnn_size d)).
      split; [done|]. split; [done|]. intros b queue e Hb. lia. }
  rewrite length_seq in HI. destruct HI as (_ & c0 & h0 & H1 & H2 & H3).
  exists c0, h0. done.
Qed.

(** ** The log of the training pass *)

Lemma mfor_inv {St A} (I : nat -> St -> Prop) (F : St -> Prop)
    (body : A -> M St unit) (l : list A) :
  (forall k a s, l !! k = Some a -> I k s ->
     F (fst (body a s)) /\ (snd (body a s) = Ok tt -> I (S k) (fst (body a s)))) ->
  (forall k s, I k s -> F s) ->
  forall s, I 0 s ->
    F (fst (mfor l body s)) /\
    (snd (mfor l body s) = Ok tt -> I (length l) (fst (mfor l body s))).
Proof.
  revert I. induction l as [|x l IH]; intros I Hbody HF s Hs.
  - simpl. split; [by apply (HF 0) | done].
  - simpl. unfold mbind.
    destruct (Hbody 0 x s eq_refl Hs) as [HF1 HI1].
    destruct (body x s) as [s1 [[]|e|]] eqn:E; simpl in *; try (split; [done | discriminate]).
    apply (IH (fun k => I (S k))).
    + intros k a s0 Hk. apply (Hbody (S k)). done.
    + intros k s0. apply HF.
    + by apply HI1.
Qed.

Lemma on_table_eq {A} (m : D A) (st : TState) :
  on_table m st =
    ({| dec_state := fst (m (dec_state st)); loss := loss st; pred := pred st;
        draws := draws st; trace := trace st |}, snd (m (dec_state st))).
Proof. unfold on_table. by destruct (m (dec_state st)). Qed.

Section PassProofs.
Variables (d : StdTreeDecoder) (rand : nat -> Q) (tgt_batch_size : nat).
Variables (graph_cell_state graph_hidden_state : list Vec).
Variables (enc_outputs : list Mem) (oov_dict : option Vocab).
Variables (enc_batch : option (list (list Z))).
Variables (dec_batch : DecBatch) (queue_tree : list (list QTree)).

Abbreviation trace_ok' := (trace_ok d rand tgt_batch_size graph_cell_state
  graph_hidden_state enc_outputs oov_dict enc_batch dec_batch queue_tree).
Abbreviation step_ok' := (step_ok d rand tgt_batch_size enc_outputs oov_dict enc_batch dec_batch).
Abbreviation loop_inv' := (loop_inv d rand tgt_batch_size graph_cell_state
  graph_hidden_state enc_outputs oov_dict enc_batch dec_batch queue_tree).
Abbreviation step_inv' := (step_inv d rand tgt_batch_size graph_cell_state
  graph_hidden_state enc_outputs oov_dict enc_batch dec_batch queue_tree).

Lemma trace_ok_snoc (tr : list Event) (e : Event) :
  trace_ok' tr ->
  match e with
  | Stepped ev => step_ok' ev /\ chain_ok d (tr ++ [e]) (length tr) ev /\
                  first_ok (tr ++ [e]) (length tr) ev
  | Seeded q c0 h0 _ =>
      1 <= q <= max_dec_tree_depth d /\
      seeded_ok tgt_batch_size graph_cell_state graph_hidden_state queue_tree
        (tr ++ [e]) (length tr) q c0 h0
  end ->
  trace_ok' (tr ++ [e]).
Proof.
  intros Htr Hnew n e' Hn.
  destruct (decide (n < length tr)) as [Hlt|Hge].
  - rewrite lookup_app_l in Hn by done. specialize (Htr n e' Hn).
    destruct e' as [q c0 h0 sib|ev].
    + destruct Htr as [Hlev [H1 H2]]. split; [done|]. split; [done|].
      intros Hq b queue e0 Hb Hqb He0 Hci.
      destruct (H2 Hq b queue e0 Hb Hqb He0 Hci)
        as (n' & ev & pr & c & h & a & Hn' & Hev & Hr).
      exists n', ev, pr, c, h, a. split; [done|].
      split; [by rewrite lookup_app_l by lia | done].
    + destruct Htr as (H1 & H2 & H3). split; [done|]. split.
      * intros Hs. destruct (H2 Hs) as (ev' & pr & s & a & Hn1 & Hl & Hr).
        exists ev', pr, s, a. split; [done|].
        split; [by rewrite lookup_app_l by lia | done].
      * intros Hs. destruct (H3 Hs) as (c0 & h0 & sib & Hn1 & Hl & Hr).
        exists c0, h0, sib. split; [done|].
        split; [by rewrite lookup_app_l by lia | done].
  - assert (n = length tr) as ->.
    { apply lookup_lt_Some in Hn. rewrite length_app in Hn. simpl in Hn. lia. }
    rewrite list_lookup_middle in Hn by done. inversion Hn; subst e'. exact Hnew.
Qed.

Lemma table_ok_trace (st st' : TState) (e : Event) :
  table_ok st -> dec_state st' = dec_state st -> trace st' = trace st ++ [e] ->
  table_ok st'.
Proof.
  intros H Hds Htr q t Hq. rewrite Hds in *.
  destruct (H q t Hq) as (n & ev & pr & c & h & a & Hn & Hr).
  exists n, ev, pr, c, h, a. split; [|done].
  rewrite Htr. rewrite lookup_app_l; [done | by apply lookup_lt_Some in Hn].
Qed.

Lemma table_ok_frame (st st' : TState) (P : nat -> nat -> Prop) :
  table_ok st -> tab_frame P (dec_state st) (dec_state st') ->
  (forall q t, P q t -> t = 0) -> trace st' = trace st ->
  table_ok st'.
Proof.
  intros H [_ Hget] HP Htr q t Hq. rewrite Htr.
  rewrite !Hget in * by (intros Hc; apply HP in Hc; lia).
  apply H. exact Hq.
Qed.

Lemma token_step_inv m parent_h cur i st :
  step_inv' cur i parent_h st ->
  1 <= cur <= max_dec_tree_depth d -> dec_batch !! cur = Some m -> i < fst m - 1 ->
  let res := token_step d rand tgt_batch_size enc_outputs oov_dict enc_batch m
               parent_h cur i st in
  trace_ok' (trace (fst res)) /\
  (snd res = Ok tt -> step_inv' cur (S i) parent_h (fst res)).
Proof.
  intros ((Htr & Htab) & H0 & Hpos) Hcur Hm Hi res.
  destruct res as [st' r] eqn:E. simpl.
  destruct (token_step_cases _ _ _ _ _ _ _ _ _ _ _ _ _ E)
    as [[Hr Ht]|(c & h & Hc & Hh & Hev)].
  { rewrite Ht. split; [done|]. intros ->. done. }
  cbv zeta in Hev. destruct Hev as [Ht Hok].
  set (ev := step_event d rand tgt_batch_size enc_outputs oov_dict enc_batch m
               parent_h cur i st c h) in *.
  assert (trace_ok' (trace st')) as Htr'.
  { rewrite Ht. apply trace_ok_snoc; [done|]. split; [|split].
    - split; [done|]. split; [done|]. split; [done|].
      exists m, (draws st). done.
    - intros Hs. simpl in Hs.
      destruct (Hpos Hs) as (tr0 & ev' & pr & s & a & Htr0 & Hl & Hst & Hout & Hp).
      exists ev', pr, s, a. split; [rewrite Htr0, length_app; simpl; lia|].
      split.
      { rewrite Htr0. rewrite length_app. simpl.
        replace (length tr0 + 1 - 1) with (length tr0) by lia.
        rewrite <- app_assoc. simpl. by apply list_lookup_middle. }
      split; [done|]. split; [simpl; lia|]. split; [done|]. done.
    - intros Hs. simpl in Hs.
      destruct (H0 Hs) as (tr0 & c0 & h0 & sib & Htr0 & Hc0 & Hh0 & Hp).
      exists c0, h0, sib. split; [rewrite Htr0, length_app; simpl; lia|].
      split.
      { rewrite Htr0. rewrite length_app. simpl.
        replace (length tr0 + 1 - 1) with (length tr0) by lia.
        rewrite <- app_assoc. simpl. by apply list_lookup_middle. }
      simpl. subst i. rewrite Hc0 in Hc. rewrite Hh0 in Hh.
      inversion Hc; inversion Hh; subst. done. }
  split; [done|]. intros ->.
  destruct (Hok eq_refl) as (pr & c' & h' & a & ds1 & ds2 & Hout & H1 & H2 & ->).
  split; [split; [done|]|split].
  - intros q t Hq. simpl in *.
    rewrite !(ds_get_set _ _ _ _ _ _ _ _ _ H2), !(ds_get_set _ _ _ _ _ _ _ _ _ H1) in *.
    destruct (decide (q = cur /\ t = i)) as [[-> ->]|Hne].
    + exists (length (trace st)), ev, pr, c', h', a.
      split; [by rewrite list_lookup_middle|]. split; [done|]. split; [done|].
      split; [done|]. split.
      * intros v. rewrite decide_False by (intros (?&?&?); done).
        rewrite decide_True by (split; [done | split; [lia | done]]).
        intros Hv. by inversion Hv.
      * intros v. rewrite decide_True by (split; [done | split; [lia | done]]).
        intros Hv. by inversion Hv.
    + rewrite !decide_False in * by (intros (?&?&?); apply Hne; split; [done | lia]).
      destruct (Htab q t Hq) as (n & ev0 & pr0 & c0 & h0 & a0 & Hn & Hr).
      exists n, ev0, pr0, c0, h0, a0. split; [|done].
      rewrite lookup_app_l; [done | by apply lookup_lt_Some in Hn].
  - intros Hs. lia.
  - intros _. exists (trace st), ev, pr, (c', h'), a. simpl.
    split; [done|]. split; [done|]. split; [done|]. split; [done|]. done.
Qed.

End PassProofs.

Section LevelProofs.
Variables (d : StdTreeDecoder) (rand : nat -> Q) (tgt_batch_size : nat).
Variables (graph_cell_state graph_hidden_state : list Vec).
Variables (enc_outputs : list Mem) (oov_dict : option Vocab).
Variables (enc_batch : option (list (list Z))).
Variables (dec_batch : DecBatch) (queue_tree : list (list QTree)).

Abbreviation trace_ok2 := (trace_ok d rand tgt_batch_size graph_cell_state
  graph_hidden_state enc_outputs oov_dict enc_batch dec_batch queue_tree).
Abbreviation loop_inv2 := (loop_inv d rand tgt_batch_size graph_cell_state
  graph_hidden_state enc_outputs oov_dict enc_batch dec_batch queue_tree).
Abbreviation step_inv2 := (step_inv d rand tgt_batch_size graph_cell_state
  graph_hidden_state enc_outputs oov_dict enc_batch dec_batch queue_tree).

Lemma run_level_inv cur st st' r :
  loop_inv2 st -> 1 <= cur <= max_dec_tree_depth d ->
  run_level d rand tgt_batch_size graph_cell_state graph_hidden_state
    enc_outputs oov_dict enc_batch dec_batch queue_tree cur st = (st', r) ->
  trace_ok2 (trace st') /\ (r = Ok tt -> loop_inv2 st').
Proof.
  intros [Htr Htab] Hcur E. unfold run_level in E. unfold mbind at 1 in E.
  rewrite on_table_eq in E.
  pose proof (seed_level_frame d tgt_batch_size graph_cell_state graph_hidden_state
                dec_batch queue_tree cur (dec_state st)) as Hfr.
  destruct (seed_level d tgt_batch_size graph_cell_state graph_hidden_state dec_batch
              queue_tree cur (dec_state st)) as [ds1 [sib|e|]] eqn:Eseed; simpl in E.
  2,3: inversion E; subst; simpl; split; [done | discriminate].
  simpl in Hfr.
  set (st1 := {| dec_state := ds1; loss := loss st; pred := pred st;
                 draws := draws st; trace := trace st |}) in *.
  assert (table_ok st1) as Htab1.
  { apply (table_ok_frame st st1 _ Htab Hfr); [by intros q t [_ ->] | done]. }
  unfold mbind at 1 in E. unfold get_ds at 1 in E. simpl in E.
  destruct (ds_get ds1 cur 0 2) as [parent_h|e|] eqn:Eh; simpl in E.
  2,3: inversion E; subst; simpl; split; [done | discriminate].
  unfold mbind at 1 in E. unfold get_ds at 1 in E. simpl in E.
  destruct (ds_get ds1 cur 0 1) as [c0|e|] eqn:Ec; simpl in E.
  2,3: inversion E; subst; simpl; split; [done | discriminate].
  unfold mbind at 1 in E. unfold log_event at 1 in E. simpl in E.
  set (st2 := {| dec_state := ds1; loss := loss st; pred := pred st; draws := draws st;
                 trace := trace st ++ [Seeded cur c0 parent_h sib] |}) in *.
  assert (trace_ok2 (trace st2)) as Htr2.
  { simpl. apply trace_ok_snoc; [done|]. split; [done|]. split.
    - intros ->. destruct (seed_level_root _ _ _ _ _ _ _ _ _ Eseed)
        as (c0' & h0' & Hc0 & Hh0 & Hrows).
      rewrite Ec in Hc0. rewrite Eh in Hh0. inversion Hc0; inversion Hh0; subst.
      exact Hrows.
    - intros Hne b queue e Hb Hqb He Hci.
      assert (1 < cur) as Hlt by lia.
      destruct (seed_level_child _ _ _ _ _ _ _ _ _ _ Hlt Eseed)
        as (c0' & h0' & Hc0 & Hh0 & Hrows).
      rewrite Ec in Hc0. rewrite Eh in Hh0. inversion Hc0; inversion Hh0; subst c0' h0'.
      destruct (Hrows b queue e Hb Hqb He Hci) as (sc & sh & Hsc & Hsh & H1 & H2 & H3).
      destruct (q_child_index e) as [|t] eqn:Et; [lia|].
      destruct (Htab (q_parent e) t) as (n & ev & pr & c & h & a & Hn & Hl & Hs & Hout & Hc & Hh).
      { left. by eexists. }
      rewrite (Hc _ Hsc) in *. rewrite (Hh _ Hsh) in *.
      exists n, ev, pr, c, h, a.
      split; [by apply lookup_lt_Some in Hn|].
      split; [rewrite lookup_app_l; [done | by apply lookup_lt_Some in Hn]|].
      split; [done|]. split; [lia|]. done. }
  assert (table_ok st2) as Htab2.
  { apply (table_ok_trace st1 st2 (Seeded cur c0 parent_h sib)); done. }
  unfold mbind at 1 in E. unfold lift at 1 in E. simpl in E.
  destruct (dec_batch !! cur) as [m|] eqn:Em; simpl in E.
  2: inversion E; subst; simpl; split; [done | discriminate].
  pose proof (mfor_inv (fun k s => step_inv2 cur k parent_h s)
                (fun s => trace_ok2 (trace s))
                (token_step d rand tgt_batch_size enc_outputs oov_dict enc_batch m
                   parent_h cur)
                (seq 0 (fst m - 1))) as Hloop.
  destruct (Hloop) with (s := st2) as [HF HI].
  - intros k a s Hk Hs. apply lookup_seq in Hk as [-> Hk]. simpl.
    apply token_step_inv; done.
  - intros k s [[H _] _]. exact H.
  - split; [done|]. split.
    + intros _. exists (trace st), c0, parent_h, sib. done.
    + intros H. lia.
  - fold st2 in E. rewrite E in HF, HI. simpl in HF, HI.
    split; [done|]. intros Hok. destruct (HI Hok) as [H _]. exact H.
Qed.

Lemma level_loop_inv remaining : forall cur st,
  loop_inv2 st -> 1 <= cur ->
  trace_ok2 (trace (fst (level_loop d rand tgt_batch_size graph_cell_state
                           graph_hidden_state enc_outputs oov_dict enc_batch
                           dec_batch queue_tree remaining cur st))).
Proof.
  induction remaining as [|n IH]; intros cur st Hinv Hcur; simpl.
  - by destruct Hinv.
  - destruct (Nat.ltb_spec (max_dec_tree_depth d) cur) as [Hd|Hd]; simpl.
    + by destruct Hinv.
    + unfold mbind.
      destruct (run_level _ _ _ _ _ _ _ _ _ _ _ st) as [st1 r] eqn:E.
      destruct (run_level_inv cur st st1 r Hinv ltac:(lia) E) as [HF HI].
      destruct r as [[]|e|]; simpl; try done.
      apply IH; [by apply HI | lia].
Qed.

End LevelProofs.

Lemma init_loop_inv d rand B gc gh enc_outputs oov enc db qt :
  loop_inv d rand B gc gh enc_outputs oov enc db qt (init_tstate d).
Proof.
  split.
  - intros n e Hn. discriminate.
  - intros q t [[v Hv]|[v Hv]]; simpl in Hv; rewrite init_dec_state_get in Hv; discriminate.
Qed.

(** The log of a whole pass satisfies [trace_ok], whatever the outcome. *)
Lemma pass_trace_ok d rand gne mask rne gle trees enc oov gc gh db qt mi :
  graph_states d gne gle = Ok (gc, gh) ->
  get_dec_batch trees (length trees) (tgt_vocab d) = Ok (db, qt, mi) ->
  trace_ok d rand (length trees) gc gh gne oov enc db qt
    (trace (fst (_run_forward_pass d rand gne mask rne gle trees enc oov))).
Proof.
  intros Hg Hb. unfold _run_forward_pass. rewrite Hg, Hb.
  pose proof (level_loop_inv d rand (length trees) gc gh gne oov enc db qt mi 1
                (init_tstate d) (init_loop_inv _ _ _ _ _ _ _ _ _ _) ltac:(lia)) as H.
  destruct (level_loop _ _ _ _ _ _ _ _ _ _ _ _ _) as [st [[]|e|]]; simpl in *; try done.
  by destruct (length trees =? 0).
Qed.

(** ** Teacher forcing *)

Lemma Qle_bool_mono (f : Q -> Q) (x y : Q) :
  (forall a b, a < b <-> f a < f b)%Q -> Qle_bool (f x) (f y) = Qle_bool x y.
Proof.
  intros Hf. destruct (Qle_bool x y) eqn:E.
  - apply Qle_bool_iff. apply Qle_bool_iff in E.
    apply Qnot_lt_le. intros H. apply Hf in H. by apply Qlt_not_le in H.
  - apply not_true_iff_false. intros H. apply Qle_bool_iff in H.
    apply not_true_iff_false in E. apply E. apply Qle_bool_iff.
    apply Qnot_lt_le. intros H'. apply Hf in H'. by apply Qlt_not_le in H'.
Qed.

Lemma argmax_from_mono (f : Q -> Q) :
  (forall a b, a < b <-> f a < f b)%Q ->
  forall v best_i best i,
    argmax_from best_i (f best) i (map f v) = argmax_from best_i best i v.
Proof.
  intros Hf. induction v as [|x v IH]; intros best_i best i; simpl; [done|].
  rewrite (Qle_bool_mono f x best Hf). destruct (Qle_bool x best); apply IH.
Qed.

Lemma argmax_mono (f : Q -> Q) (v : Vec) :
  (forall a b, a < b <-> f a < f b)%Q -> argmax (map f v) = argmax v.
Proof.
  intros Hf. destruct v as [|x v]; simpl; [done|]. f_equal.
  by apply argmax_from_mono.
Qed.

(** The logarithm applied before [argmax] does not change its result. *)
Lemma argmax_log_rows (n : Net) (pr : list Vec) :
  (forall x y, x < y <-> log n x < log n y)%Q ->
  map argmax (log_rows n pr) = map argmax pr.
Proof.
  intros Hlog. unfold log_rows. rewrite <- list_fmap_compose.
  apply list_fmap_ext. intros i v _. simpl.
  apply (argmax_mono (fun x => log n (x + eps)%Q)).
  intros a b. rewrite <- Hlog. split; intros H.
  - by apply Qplus_lt_l.
  - by apply Qplus_lt_l in H.
Qed.

(** C3.  Teacher forcing in the training pass, for draws of the random
    stream in [0, 1).  With ratio 1 every input fed to [decode_step] is the
    column of the level's matrix at the step's position.  With ratio 0 the
    input of step 0 of a level is column 0 of its matrix (the start
    marker), and the input of a later step is the row-wise argmax of the
    distribution the step before it returned; the logarithm taken in
    between is strictly increasing and leaves the argmax unchanged. *)
Theorem C3_teacher_forcing (d : StdTreeDecoder) (rand : nat -> Q)
    (graph_node_embedding : list Mem) (graph_node_mask : list Vec)
    (rnn_node_embedding : list Mem)
    (graph_level_embedding : option (list Vec * list Vec))
    (tgt_tree_batch : list Tree) (enc_batch : option (list (list Z)))
    (oov_dict : option Vocab) :
  (forall k, (0 <= rand k)%Q /\ (rand k < 1)%Q) ->
  exists dec_batch queue_tree max_index,
    get_dec_batch tgt_tree_batch (length tgt_tree_batch) (tgt_vocab d)
      = Ok (dec_batch, queue_tree, max_index) /\
    let tr := trace (fst (_run_forward_pass d rand graph_node_embedding graph_node_mask
                            rnn_node_embedding graph_level_embedding tgt_tree_batch
                            enc_batch oov_dict)) in
    (teacher_force_ratio d == 1 ->
     forall n ev, tr !! n = Some (Stepped ev) ->
       exists m, dec_batch !! ev_level ev = Some m /\
                 ev_input ev = column m (ev_step ev)) /\
    (teacher_force_ratio d == 0 ->
     (forall x y, x < y <-> log (net d) x < log (net d) y)%Q ->
     forall n ev, tr !! n = Some (Stepped ev) ->
       (ev_step ev = 0 ->
        exists m, dec_batch !! ev_level ev = Some m /\ ev_input ev = column m 0) /\
       (0 < ev_step ev ->
        exists ev' pr s a,
          1 <= n /\ tr !! (n - 1) = Some (Stepped ev') /\
          ev_level ev' = ev_level ev /\ S (ev_step ev') = ev_step ev /\
          ev_out ev' = Ok (pr, s, a) /\ ev_input ev = map argmax pr)).
Proof.
  intros Hrand.
  destruct (get_dec_batch_spec tgt_tree_batch (tgt_vocab d)) as (db & qt & mi & Hb & _).
  exists db, qt, mi. split; [exact Hb|]. cbv zeta.
  destruct (graph_states d graph_node_embedding graph_level_embedding)
    as [[gc gh]|e|] eqn:Hg.
  2,3: unfold _run_forward_pass; rewrite Hg; simpl; split; intros; discriminate.
  pose proof (pass_trace_ok d rand graph_node_embedding graph_node_mask
                rnn_node_embedding graph_level_embedding tgt_tree_batch enc_batch
                oov_dict gc gh db qt mi Hg Hb) as Htr.
  split.
  - intros Hratio n ev Hn. destruct (Htr n _ Hn) as ((_ & _ & _ & m & k & Hm & _ & Htf & Hin) & _).
    exists m. split; [done|]. rewrite Hin, Htf.
    assert (Qle_bool (teacher_force_ratio d) (rand k) = false) as ->.
    { apply not_true_iff_false. intros H. apply Qle_bool_iff in H.
      rewrite Hratio in H. destruct (Hrand k) as [_ Hlt]. by apply Qlt_not_le in Hlt. }
    done.
  - intros Hratio Hlog n ev Hn.
    destruct (Htr n _ Hn) as ((_ & _ & _ & m & k & Hm & _ & Htf & Hin) & Hchain & _).
    assert (ev_teacher_force ev = false) as Hfalse.
    { rewrite Htf. apply negb_false_iff. apply Qle_bool_iff. rewrite Hratio.
      apply (Hrand k). }
    rewrite Hfalse in Hin. simpl in Hin. split.
    + intros Hs. exists m. split; [done|]. by rewrite Hin, Hs.
    + intros Hs. destruct (Hchain Hs) as (ev' & pr & s & a & H1 & H2 & H3 & H4 & H5 & H6).
      exists ev', pr, s, a. repeat (split; [done|]).
      rewrite Hin. destruct (Nat.ltb_spec 0 (ev_step ev)); [|lia].
      rewrite H6. by apply argmax_log_rows.
Qed.

Lemma C3_witness :
  exists dec_batch queue_tree max_index,
    get_dec_batch [Toy.three_siblings] 1 Toy.vocab = Ok (dec_batch, queue_tree, max_index) /\
    let tr := trace (fst (_run_forward_pass (__init__ Toy.config_free) (fun _ => 1 # 2)%Q
                            Toy.memory [] [] None [Toy.three_siblings] None None)) in
    (teacher_force_ratio (__init__ Toy.config_free) == 1 ->
     forall n ev, tr !! n = Some (Stepped ev) ->
       exists m, dec_batch !! ev_level ev = Some m /\
                 ev_input ev = column m (ev_step ev)) /\
    (teacher_force_ratio (__init__ Toy.config_free) == 0 ->
     (forall x y, x < y <-> log Toy.toy_net x < log Toy.toy_net y)%Q ->
     forall n ev, tr !! n = Some (Stepped ev) ->
       (ev_step ev = 0 ->
        exists m, dec_batch !! ev_level ev = Some m /\ ev_input ev = column m 0) /\
       (0 < ev_step ev ->
        exists ev' pr s a,
          1 <= n /\ tr !! (n - 1) = Some (Stepped ev') /\
          ev_level ev' = ev_level ev /\ S (ev_step ev') = ev_step ev /\
          ev_out ev' = Ok (pr, s, a) /\ ev_input ev = map argmax pr)).
Proof.
  apply (C3_teacher_forcing (__init__ Toy.config_free) (fun _ => 1 # 2)%Q Toy.memory
           [] [] None [Toy.three_siblings] None None).
  intros k. split; [discriminate | reflexivity].
Defined.

(** ** Seeding *)

Lemma queue_child_index_pos T cur queue k e :
  queue_inv T cur queue -> queue !! k = Some e -> 1 <= q_child_index e.
Proof.
  intros HQ He. destruct k as [|k].
  - rewrite (qi_root _ _ _ HQ) in He. by inversion He.
  - by destruct (qi_parent _ _ _ HQ _ _ He) as (_ & _ & H & _).
Qed.

Section SeededBefore.
Variables (d : StdTreeDecoder) (rand : nat -> Q) (tgt_batch_size : nat).
Variables (graph_cell_state graph_hidden_state : list Vec).
Variables (enc_outputs : list Mem) (oov_dict : option Vocab).
Variables (enc_batch : option (list (list Z))).
Variables (dec_batch : DecBatch) (queue_tree : list (list QTree)).
Variable tr : list Event.
Hypothesis Htr : trace_ok d rand tgt_batch_size graph_cell_state graph_hidden_state
                   enc_outputs oov_dict enc_batch dec_batch queue_tree tr.

(** Every step of a level comes after the seeding of that level. *)
Lemma seeded_before_steps (s : nat) : forall n ev,
  ev_step ev = s -> tr !! n = Some (Stepped ev) ->
  exists n0 c0 h0 sib,
    n0 < n /\ tr !! n0 = Some (Seeded (ev_level ev) c0 h0 sib) /\
    (s = 0 -> n0 = n - 1 /\ ev_state ev = (c0, h0)).
Proof.
  induction s as [|s IH]; intros n ev Hs Hn.
  - destruct (Htr n _ Hn) as (_ & _ & Hfirst).
    destruct (Hfirst Hs) as (c0 & h0 & sib & H1 & H2 & H3 & _).
    exists (n - 1), c0, h0, sib. split; [lia|]. split; [done|]. done.
  - destruct (Htr n _ Hn) as (_ & Hchain & _).
    destruct (Hchain ltac:(lia)) as (ev' & pr & st & a & H1 & H2 & H3 & H4 & _).
    destruct (IH (n - 1) ev' ltac:(lia) H2) as (n0 & c0 & h0 & sib & Hlt & Hn0 & _).
    exists n0, c0, h0, sib. split; [lia|]. rewrite <- H3. split; [done|]. lia.
Qed.
End SeededBefore.

(** C2 (as the code has it).  In the training pass the first state of a
    level is seeded before any token step of the level runs, and the first
    step starts from it.  At level 1 row [i] is row [i] of the pooled graph
    state (cell and hidden).  At a later level [q], for every tree with an
    entry at [q], the row of that tree is the row of the state the parent
    level returned at step [child_index - 1]: the parent's state after it
    consumed [child_index] inputs, which is the state from which the child's
    placeholder is predicted. *)
Theorem C2_level_seeding (d : StdTreeDecoder) (rand : nat -> Q)
    (graph_node_embedding : list Mem) (graph_node_mask : list Vec)
    (rnn_node_embedding : list Mem)
    (graph_level_embedding : option (list Vec * list Vec))
    (tgt_tree_batch : list Tree) (enc_batch : option (list (list Z)))
    (oov_dict : option Vocab)
    (graph_cell_state graph_hidden_state : list Vec) :
  graph_states d graph_node_embedding graph_level_embedding
    = Ok (graph_cell_state, graph_hidden_state) ->
  exists dec_batch queue_tree max_index,
    get_dec_batch tgt_tree_batch (length tgt_tree_batch) (tgt_vocab d)
      = Ok (dec_batch, queue_tree, max_index) /\
    let tr := trace (fst (_run_forward_pass d rand graph_node_embedding graph_node_mask
                            rnn_node_embedding graph_level_embedding tgt_tree_batch
                            enc_batch oov_dict)) in
    (forall n ev, tr !! n = Some (Stepped ev) ->
       exists n0 c0 h0 sib,
         n0 < n /\ tr !! n0 = Some (Seeded (ev_level ev) c0 h0 sib) /\
         (ev_step ev = 0 -> n0 = n - 1 /\ ev_state ev = (c0, h0))) /\
    (forall n q c0 h0 sib, tr !! n = Some (Seeded q c0 h0 sib) ->
       (q = 1 ->
        forall i, i < length tgt_tree_batch ->
          is_Some (c0 !! i) /\ c0 !! i = graph_cell_state !! i /\
          h0 !! i = graph_hidden_state !! i) /\
       (q <> 1 ->
        forall b queue e,
          queue_tree !! b = Some queue -> queue !! (q - 1) = Some e ->
          exists n' ev pr c h a,
            n' < n /\ tr !! n' = Some (Stepped ev) /\
            ev_level ev = q_parent e /\ S (ev_step ev) = q_child_index e /\
            ev_out ev = Ok (pr, (c, h), a) /\
            is_Some (c0 !! b) /\ c0 !! b = c !! b /\ h0 !! b = h !! b)).
Proof.
  intros Hg.
  destruct (get_dec_batch_spec tgt_tree_batch (tgt_vocab d))
    as (db & qt & mi & Hb & Hinv).
  exists db, qt, mi. split; [exact Hb|]. cbv zeta.
  pose proof (pass_trace_ok d rand graph_node_embedding graph_node_mask
                rnn_node_embedding graph_level_embedding tgt_tree_batch enc_batch
                oov_dict _ _ db qt mi Hg Hb) as Htr.
  split.
  - intros n ev Hn.
    apply (seeded_before_steps _ _ _ _ _ _ _ _ _ _ _ Htr (ev_step ev) n ev eq_refl Hn).
  - intros n q c0 h0 sib Hn. destruct (Htr n _ Hn) as (_ & Hroot & Hchild).
    split; [exact Hroot|].
    intros Hq b queue e Hqb He.
    destruct (Forall2_lookup_r _ _ _ _ _ (li_queues _ _ _ _ _ _ Hinv) Hqb) as (T & HT & HQ).
    apply (Hchild Hq b queue e); try done.
    + apply lookup_lt_Some in HT. done.
    + by apply (queue_child_index_pos T _ queue (q - 1) e HQ).
Qed.

Lemma C2_witness :
  exists dec_batch queue_tree max_index,
    get_dec_batch [Toy.three_siblings] 1 Toy.vocab = Ok (dec_batch, queue_tree, max_index) /\
    let tr := trace (fst (_run_forward_pass (__init__ Toy.config) (fun _ => 0%Q)
                            Toy.memory [] [] None [Toy.three_siblings] None None)) in
    (forall n ev, tr !! n = Some (Stepped ev) ->
       exists n0 c0 h0 sib,
         n0 < n /\ tr !! n0 = Some (Seeded (ev_level ev) c0 h0 sib) /\
         (ev_step ev = 0 -> n0 = n - 1 /\ ev_state ev = (c0, h0))) /\
    (forall n q c0 h0 sib, tr !! n = Some (Seeded q c0 h0 sib) ->
       (q = 1 ->
        forall i, i < 1 ->
          is_Some (c0 !! i) /\ c0 !! i = [[0%Q]] !! i /\ h0 !! i = [[0%Q]] !! i) /\
       (q <> 1 ->
        forall b queue e,
          queue_tree !! b = Some queue -> queue !! (q - 1) = Some e ->
          exists n' ev pr c h a,
            n' < n /\ tr !! n' = Some (Stepped ev) /\
            ev_level ev = q_parent e /\ S (ev_step ev) = q_child_index e /\
            ev_out ev = Ok (pr, (c, h), a) /\
            is_Some (c0 !! b) /\ c0 !! b = c !! b /\ h0 !! b = h !! b)).
Proof.
  apply (C2_level_seeding (__init__ Toy.config) (fun _ => 0%Q) Toy.memory [] [] None
           [Toy.three_siblings] None None [[0%Q]] [[0%Q]]).
  reflexivity.
Defined.

(** C2, counterexample.  A root with three child trees, one tree in the
    batch.  The third child is queue position 4, with parent 1 and child
    index 3.  Level 4 is seeded with the state that step 2 of level 1
    returned, [([[9]], [[3]])]; the terminal state of level 1, returned by
    its last step (step 3), is [([[13]], [[4]])]. *)
Lemma C2_counterexample :
  let run := _run_forward_pass (__init__ Toy.config) (fun _ => 0%Q) Toy.memory [] []
               None [Toy.three_siblings] None None in
  (exists dec_batch queue_tree max_index queue,
     get_dec_batch [Toy.three_siblings] 1 Toy.vocab = Ok (dec_batch, queue_tree, max_index) /\
     queue_tree !! 0 = Some queue /\
     (q_parent <$> queue !! 3) = Some 1 /\ (q_child_index <$> queue !! 3) = Some 3) /\
  (exists l, result_loss run = Ok l) /\
  steps_of_level (trace (fst run)) 1 = 4 /\
  seeded_state (trace (fst run)) 4 = Some ([[9%Q]], [[3%Q]]) /\
  returned_state (trace (fst run)) 1 2 = Some ([[9%Q]], [[3%Q]]) /\
  terminal_state (trace (fst run)) 1 = Some ([[13%Q]], [[4%Q]]).
Proof.
  cbv zeta. split.
  - eexists _, _, _, _. split; [vm_compute; reflexivity|].
    split; [reflexivity|]. split; reflexivity.
  - split; [eexists; vm_compute; reflexivity|]. repeat split; vm_compute; reflexivity.
Qed.

(** ** A step that returns *)

Lemma decode_step_plain d B inp c h mem par oov enc (n : nat) :
  plain d ->
  length inp = n -> length c = n -> length h = n -> length par = n -> length mem = n ->
  exists pr c' h' a,
    decode_step d B inp (c, h) mem par None oov enc = Ok (pr, (c', h'), a) /\
    length pr = n /\ length c' = n /\ length h' = n.
Proof.
  intros (Hsib & Hsep & Hcopy) Hi Hc Hh Hp Hm.
  unfold decode_step, tdu_forward. rewrite Hsib, Hsep, Hcopy. simpl.
  eexists _, _, _, _. split; [reflexivity|].
  unfold _filter_oov.
  repeat (rewrite ?length_map, ?length_zip_with). lia.
Qed.

Lemma decode_step_needs_sibling d B inp st mem par oov enc :
  tdu_use_sibling (rnn d) = true ->
  decode_step d B inp st mem par None oov enc = Raise TypeError.
Proof. intros H. unfold decode_step, tdu_forward. by rewrite H. Qed.

(** ** The queue of greedy inference *)

Section DecodeQueueProofs.
Variables (form_manager : Vocab) (max_dec_seq_length : nat).

Abbreviation dq := (dq_inv form_manager max_dec_seq_length).

Lemma dq_inv_mono f b f' b' q : dq f b q -> f <= f' -> b <= b' -> dq f' b' q.
Proof.
  intros [H1 H2 H3 H4 H5 H6] Hf Hb. split; try done.
  - intros k e He. destruct (H2 k e He) as (Ha & Hb' & Hc & Hd).
    split; [done|]. split; [lia|]. done.
  - intros k e He Hk. apply (H6 k e He). lia.
Qed.

(** One child is added to the tree of entry [head - 1]; when it is the
    placeholder, its entry is appended, with the next child index. *)
Lemma dq_add_child head q e w s extra :
  dq head head q -> 1 <= head -> q !! (head - 1) = Some e ->
  w <> end_idx form_manager -> length (qd_t e) < max_dec_seq_length ->
  (w = nt_idx form_manager ->
   extra = [{| qd_s := s; qd_parent := head;
               qd_child_index := length (qd_t e) + 1; qd_t := [] |}]) ->
  (w <> nt_idx form_manager -> extra = []) ->
  dq head head (<[head - 1 := add_word e w]> (q ++ extra)).
Proof.
  intros [H1 H2 H3 H4 H5 H6] Hh He Hend Hlen Hnt Hword.
  pose proof (lookup_lt_Some _ _ _ He) as Hlt.
  set (q' := <[head - 1 := add_word e w]> (q ++ extra)).
  assert (q' !! (head - 1) = Some (add_word e w)) as Hhead.
  { unfold q'. rewrite list_lookup_insert_eq; [done | rewrite length_app; lia]. }
  assert (forall k x, q' !! k = Some x ->
            (k = head - 1 /\ x = add_word e w) \/
            (k <> head - 1 /\ q !! k = Some x) \/
            (k = length q /\ w = nt_idx form_manager /\
             x = {| qd_s := s; qd_parent := head;
                    qd_child_index := length (qd_t e) + 1; qd_t := [] |})) as Hlook.
  { intros k x Hx. unfold q' in Hx. destruct (decide (k = head - 1)) as [->|Hne].
    - rewrite list_lookup_insert_eq in Hx by (rewrite length_app; lia).
      left. split; [done | by inversion Hx].
    - rewrite list_lookup_insert_ne in Hx by done. right.
      destruct (decide (k < length q)) as [Hk|Hk].
      + rewrite lookup_app_l in Hx by done. by left.
      + rewrite lookup_app_r in Hx by lia. right.
        destruct (decide (w = nt_idx form_manager)) as [E|E].
        * rewrite (Hnt E) in Hx.
          destruct (k - length q) as [|n] eqn:En; simpl in Hx; [|discriminate].
          inversion Hx; subst x. split; [lia | done].
        * rewrite (Hword E) in Hx. discriminate. }
  assert (forall k x, q !! k = Some x -> k <> head - 1 -> q' !! k = Some x) as Hold.
  { intros k x Hx Hne. unfold q'. rewrite list_lookup_insert_ne by done.
    rewrite lookup_app_l; [done | by apply lookup_lt_Some in Hx]. }
  assert (forall c sl, qd_t e !! c = Some sl -> qd_t (add_word e w) !! c = Some sl) as Hkeep.
  { intros c sl Hc. simpl. rewrite lookup_app_l; [done | by apply lookup_lt_Some in Hc]. }
  assert (forall c sl, qd_t (add_word e w) !! c = Some sl ->
            qd_t e !! c = Some sl \/ (c = length (qd_t e) /\ sl = SWord w)) as Hslots.
  { intros c sl Hc. simpl in Hc. destruct (decide (c < length (qd_t e))) as [Hcl|Hcl].
    - left. by rewrite lookup_app_l in Hc.
    - right. rewrite lookup_app_r in Hc by lia.
      destruct (c - length (qd_t e)) as [|n] eqn:En; simpl in Hc; [|discriminate].
      inversion Hc. split; [lia | done]. }
  assert (forall k x, q !! k = Some x ->
            exists x', q' !! k = Some x' /\ qd_parent x' = qd_parent x /\
              qd_child_index x' = qd_child_index x /\
              forall c sl, qd_t x !! c = Some sl -> qd_t x' !! c = Some sl) as Hext.
  { intros k x Hx. destruct (decide (k = head - 1)) as [->|Hne].
    - rewrite He in Hx. inversion Hx; subst x. exists (add_word e w). done.
    - exists x. split; [by apply Hold|]. done. }
  split.
  - destruct H1 as [r Hr]. destruct (Hext 0 r Hr) as (x' & Hx' & _). eauto.
  - intros k x Hx.
    destruct (Hlook _ _ Hx) as [(Hk & ->)|[(Hne & Hx0)|(Hk & Hw & ->)]].
    + rewrite <- Hk in He. simpl. destruct (H2 k e He) as (Ha & Hb & Hcc & p & Hpp & Hslot).
      split; [done|]. split; [done|]. split; [done|].
      destruct (Hext _ _ Hpp) as (p' & Hp' & _ & _ & Hsl). exists p'. split; [done|].
      by apply Hsl.
    + destruct (H2 k x Hx0) as (Ha & Hb & Hcc & p & Hpp & Hslot).
      split; [done|]. split; [done|]. split; [done|].
      destruct (Hext _ _ Hpp) as (p' & Hp' & _ & _ & Hsl). exists p'. split; [done|].
      by apply Hsl.
    + simpl. split; [lia|]. split; [lia|]. split; [lia|].
      exists (add_word e w). split; [done|]. simpl.
      replace (length (qd_t e) + 1 - 1) with (length (qd_t e)) by lia.
      rewrite lookup_app_r by lia. rewrite Nat.sub_diag. simpl. by rewrite Hw.
  - intros k x c sl Hx Hs.
    destruct (Hlook _ _ Hx) as [(Hk & ->)|[(Hne & Hx0)|(Hk & Hw & ->)]].
    + destruct (Hslots _ _ Hs) as [Hs0|[_ ->]]; [by apply (H3 (head - 1) e c sl) | eauto].
    + by apply (H3 k x c sl).
    + simpl in Hs. discriminate.
  - intros k x c Hx Hs.
    destruct (Hlook _ _ Hx) as [(Hk & ->)|[(Hne & Hx0)|(Hk & Hw & ->)]].
    + destruct (Hslots _ _ Hs) as [Hs0|[Hc Hsw]].
      * destruct (H4 (head - 1) e c He Hs0) as (i & e' & Hi & Hp & Hc).
        destruct (Hext _ _ Hi) as (x' & Hx' & Hp' & Hc' & _).
        exists i, x'. rewrite Hp', Hc'. subst k. done.
      * inversion Hsw as [Hw]. exists (length q - 1).
        eexists. replace (S (length q - 1)) with (length q) by lia.
        split.
        { unfold q'. rewrite list_lookup_insert_ne by lia.
          rewrite lookup_app_r by lia. rewrite Nat.sub_diag.
          rewrite (Hnt (eq_sym Hw)). reflexivity. }
        simpl. split; lia.
    + destruct (H4 k x c Hx0 Hs) as (i & e' & Hi & Hp & Hc).
      destruct (Hext _ _ Hi) as (x' & Hx' & Hp' & Hc' & _).
      exists i, x'. rewrite Hp', Hc'. done.
    + simpl in Hs. discriminate.
  - intros k x Hx.
    destruct (Hlook _ _ Hx) as [(Hk & ->)|[(Hne & Hx0)|(Hk & Hw & ->)]].
    + simpl. rewrite length_app. simpl. lia.
    + by apply (H5 k x).
    + simpl. lia.
  - intros k x Hx Hk.
    destruct (Hlook _ _ Hx) as [(Hk' & ->)|[(Hne & Hx0)|(Hk' & Hw & ->)]].
    + lia.
    + by apply (H6 k x).
    + done.
Qed.
End DecodeQueueProofs.

(** One iteration of the greedy loop: it fails before the stop test, stops,
    or goes on with the word attached. *)

Lemma greedy_loop_cases fuel d form_manager max_dec_seq_length enc_outputs oov enc
    head parent_h sibling_state s prev_word i_child st st' r :
  greedy_loop (S fuel) d form_manager max_dec_seq_length enc_outputs oov enc head
    parent_h sibling_state s prev_word i_child st = (st', r) ->
  let call := greedy_call d enc_outputs oov enc head parent_h sibling_state s prev_word in
  let st1 := {| queue_decode := queue_decode st; calls := calls st ++ [call] |} in
  (st' = st1 /\ r <> Ok tt /\
   ~ (exists prediction c h a w e,
        ce_out call = Ok (prediction, (c, h), a) /\
        map argmax (log_rows (net d) prediction) !! 0 = Some w /\
        queue_decode st !! (head - 1) = Some e)) \/
  exists prediction c h a w e,
    ce_out call = Ok (prediction, (c, h), a) /\
    map argmax (log_rows (net d) prediction) !! 0 = Some w /\
    queue_decode st !! (head - 1) = Some e /\
    (((w =? get_symbol_idx form_manager (end_token form_manager))%Z
      || (max_dec_seq_length <=? length (qd_t e)) = true /\ st' = st1 /\ r = Ok tt) \/
     ((w =? get_symbol_idx form_manager (end_token form_manager))%Z
      || (max_dec_seq_length <=? length (qd_t e)) = false /\
      greedy_loop fuel d form_manager max_dec_seq_length enc_outputs oov enc head
        parent_h sibling_state (c, h) (map argmax (log_rows (net d) prediction))
        (i_child + 1)
        {| queue_decode := grown_queue form_manager (queue_decode st) head e w (c, h) i_child;
           calls := calls st ++ [call] |} = (st', r))).
Proof.
  intros H call st1.
  change (greedy_loop (S fuel) d form_manager max_dec_seq_length enc_outputs oov enc
            head parent_h sibling_state s prev_word i_child st)
    with (mbind (log_call call)
            (fun _ => mbind (lift (ce_out call)) (fun o =>
               let '(prediction, (curr_c, curr_h), _) := o in
               let s := (curr_c, curr_h) in
               let prev_word := map argmax (log_rows (net d) prediction) in
               mbind (lift (of_option IndexError (prev_word !! 0))) (fun w =>
               mbind get_queue (fun q =>
               mbind (lift (of_option IndexError (q !! (head - 1)))) (fun e =>
               if (w =? get_symbol_idx form_manager (end_token form_manager))%Z
                  || (max_dec_seq_length <=? length (qd_t e))
               then mret tt
               else
                 mbind
                   (if (w =? get_symbol_idx form_manager
                               (non_terminal_token form_manager))%Z
                    then mbind (put_queue
                                  (q ++ [{| qd_s := s; qd_parent := head;
                                            qd_child_index := i_child; qd_t := [] |}]))
                           (fun _ => add_child head w)
                    else add_child head w)
                   (fun _ => greedy_loop fuel d form_manager max_dec_seq_length
                               enc_outputs oov enc head parent_h sibling_state s
                               prev_word (i_child + 1))))))) st) in H.
  assert (queue_decode st1 = queue_decode st /\ calls st1 = calls st ++ [call]) as [Hq1 Hc1]
    by done.
  assert (log_call call st = (st1, Ok tt)) as Hlog by done.
  clearbody st1. clearbody call.
  unfold mbind at 1 in H. rewrite Hlog in H.
  unfold mbind at 1 in H. unfold lift at 1 in H.
  destruct (ce_out call) as [[[prediction [c h]] a]|e0|] eqn:Hout.
  2,3: left; inversion H; subst; split; [done|]; split; [done|];
       intros (? & ? & ? & ? & ? & ? & ? & _); discriminate.
  unfold mbind at 1 in H. unfold lift at 1 in H.
  destruct (map argmax (log_rows (net d) prediction) !! 0) as [w|] eqn:Hw; simpl in H.
  2: left; inversion H; subst; split; [done|]; split; [done|];
     intros (? & ? & ? & ? & ? & ? & E1 & E2 & _); inversion E1; subst; congruence.
  unfold mbind at 1 in H. unfold get_queue at 1 in H. rewrite Hq1 in H.
  unfold mbind at 1 in H. unfold lift at 1 in H.
  destruct (queue_decode st !! (head - 1)) as [e|] eqn:He; simpl in H.
  2: left; inversion H; subst; split; [done|]; split; [done|];
     intros (? & ? & ? & ? & ? & ? & _ & _ & E3); discriminate.
  right. exists prediction, c, h, a, w, e.
  split; [done|]. split; [done|]. split; [done|].
  destruct ((w =? get_symbol_idx form_manager (end_token form_manager))%Z
            || (max_dec_seq_length <=? length (qd_t e))) eqn:Hstop.
  - left. unfold mret in H. inversion H; subst. done.
  - right. split; [done|]. unfold grown_queue.
    unfold mbind at 1 in H.
    pose proof (lookup_lt_Some _ _ _ He) as Hlt.
    destruct (w =? get_symbol_idx form_manager (non_terminal_token form_manager))%Z eqn:Hnt.
    + unfold mbind at 1 in H. unfold put_queue at 1 in H.
      unfold add_child, mbind, get_queue, lift, put_queue in H. simpl in H.
      rewrite lookup_app_l in H by done. rewrite He in H. simpl in H.
      rewrite Hc1 in H. exact H.
    + unfold add_child, mbind, get_queue, lift, put_queue in H. simpl in H.
      rewrite Hq1, He in H. simpl in H. rewrite app_nil_r. rewrite Hc1 in H. exact H.
Qed.

(** ** The greedy loop keeps the queue well formed *)

Section GreedyProofs.
Variables (d : StdTreeDecoder) (form_manager : Vocab).
Variables (max_dec_seq_length max_dec_tree_depth : nat).
Variables (enc_outputs : list Mem) (oov_dict : option Vocab).
Variables (enc_w_list : option (list (list Z))).

Abbreviation call_ok1 := (call_ok d max_dec_tree_depth enc_outputs oov_dict enc_w_list).
Abbreviation dq1 := (dq_inv form_manager max_dec_seq_length).

Lemma greedy_loop_inv (fuel : nat) :
  forall head parent_h sibling_state s prev_word i_child st st' r,
    greedy_loop fuel d form_manager max_dec_seq_length enc_outputs oov_dict enc_w_list
      head parent_h sibling_state s prev_word i_child st = (st', r) ->
    1 <= head <= max_dec_tree_depth ->
    Forall call_ok1 (calls st) ->
    Forall call_ok1 (calls st') /\
    (forall e,
       queue_decode st !! (head - 1) = Some e -> i_child = length (qd_t e) + 1 ->
       dq1 head head (queue_decode st) ->
       (r = Ok tt -> dq1 head head (queue_decode st')) /\
       (plain d -> rows1 (queue_decode st) ->
        length (fst s) = 1 -> length (snd s) = 1 -> length prev_word = 1 ->
        length parent_h = 1 -> length enc_outputs = 1 ->
        max_dec_seq_length < fuel + length (qd_t e) ->
        r = Ok tt /\ rows1 (queue_decode st'))).
Proof.
  induction fuel as [|fuel IH];
    intros head parent_h sibling_state s prev_word i_child st st' r H Hhead Hcalls.
  - simpl in H. inversion H; subst. split; [done|].
    intros e He Hi Hdq. split; [discriminate|].
    intros _ _ _ _ _ _ _ Hfuel. pose proof (dq_len _ _ _ _ _ Hdq _ _ He). lia.
  - apply greedy_loop_cases in H. cbv zeta in H.
    set (call := greedy_call d enc_outputs oov_dict enc_w_list head parent_h
                   sibling_state s prev_word) in *.
    assert (Forall call_ok1 (calls st ++ [call])) as Hcalls1.
    { apply Forall_app. split; [done|]. apply Forall_singleton. done. }
    destruct H as [(-> & Hr & Hnot)|(prediction & c & h & a & w & e & Hout & Hw & He & H)].
    { split; [done|]. intros e He Hi Hdq. split; [done|].
      intros Hplain Hrows Hs1 Hs2 Hpw Hph Hmem Hfuel. exfalso. apply Hnot.
      destruct s as [sc sh]. simpl in Hs1, Hs2.
      destruct (decode_step_plain d 1 prev_word sc sh enc_outputs parent_h oov_dict
                  enc_w_list 1 Hplain Hpw Hs1 Hs2 Hph Hmem)
        as (pr & c' & h' & a & Hd & Hl & _).
      destruct (map argmax (log_rows (net d) pr) !! 0) as [w|] eqn:Hw.
      - by exists pr, c', h', a, w, e.
      - apply lookup_ge_None in Hw. unfold log_rows in Hw.
        rewrite !length_map in Hw. lia. }
    destruct H as [(Hstop & -> & ->)|(Hstop & H)].
    { split; [done|]. intros e' He' Hi Hdq. split; [done|].
      intros _ Hrows _ _ _ _ _ _. done. }
    destruct (IH _ _ _ _ _ _ _ _ _ H Hhead Hcalls1) as [HF HI].
    split; [done|]. intros e' He' Hi Hdq. rewrite He in He'. inversion He'; subst e'.
    apply orb_false_iff in Hstop as [Hend Hlen].
    apply Z.eqb_neq in Hend. apply Nat.leb_gt in Hlen.
    pose proof (lookup_lt_Some _ _ _ He) as Hlt.
    assert (grown_queue form_manager (queue_decode st) head e w (c, h) i_child
              !! (head - 1) = Some (add_word e w)) as Hnew.
    { unfold grown_queue. rewrite list_lookup_insert_eq; [done|].
      rewrite length_app. lia. }
    assert (dq1 head head
              (grown_queue form_manager (queue_decode st) head e w (c, h) i_child)) as Hdq'.
    { unfold grown_queue. apply (dq_add_child _ _ _ _ _ _ (c, h)); try done; try lia.
      - intros Hnt. fold (nt_idx form_manager). rewrite <- Hnt, Z.eqb_refl. by rewrite Hi.
      - intros Hnt. apply Z.eqb_neq in Hnt. unfold nt_idx in Hnt. by rewrite Hnt. }
    destruct (HI (add_word e w) Hnew) as [HB HC].
    { simpl. rewrite length_app. simpl. lia. }
    { exact Hdq'. }
    split; [exact HB|].
    intros Hplain Hrows Hs1 Hs2 Hpw Hph Hmem Hfuel.
    destruct s as [sc sh]. simpl in Hs1, Hs2.
    destruct (decode_step_plain d 1 prev_word sc sh enc_outputs parent_h oov_dict
                enc_w_list 1 Hplain Hpw Hs1 Hs2 Hph Hmem)
      as (pr & c' & h' & a' & Hd & Hl & Hlc & Hlh).
    change (ce_out call = Ok (pr, (c', h'), a')) in Hd. rewrite Hout in Hd.
    inversion Hd; subst pr c' h' a'.
    apply HC; try done.
    + intros k x Hx. simpl in Hx.
      destruct (decide (k = head - 1)) as [->|Hne].
      * rewrite Hnew in Hx. inversion Hx; subst x. simpl. by apply (Hrows (head - 1) e).
      * unfold grown_queue in Hx. rewrite list_lookup_insert_ne in Hx by done.
        destruct (decide (k < length (queue_decode st))) as [Hk|Hk].
        -- rewrite lookup_app_l in Hx by done. by apply (Hrows k x).
        -- rewrite lookup_app_r in Hx by lia.
           destruct (w =? _)%Z; [|discriminate].
           destruct (k - length (queue_decode st)) as [|n]; simpl in Hx; [|discriminate].
           inversion Hx; subst x. simpl. done.
    + unfold log_rows. by rewrite !length_map.
    + simpl. rewrite length_app. simpl. lia.
Qed.
End GreedyProofs.

(** ** The loop over queue positions *)

Section HeadProofs.
Variables (d : StdTreeDecoder) (form_manager : Vocab).
Variables (dec_hidden_size max_dec_seq_length max_dec_tree_depth : nat).
Variables (enc_outputs : list Mem) (oov_dict : option Vocab).
Variables (enc_w_list : option (list (list Z))).

Abbreviation call_ok2 := (call_ok d max_dec_tree_depth enc_outputs oov_dict enc_w_list).
Abbreviation dq2 := (dq_inv form_manager max_dec_seq_length).

Lemma expand_head_inv head st st' r :
  expand_head d form_manager dec_hidden_size max_dec_seq_length enc_outputs oov_dict
    enc_w_list head st = (st', r) ->
  1 <= head <= max_dec_tree_depth -> head <= length (queue_decode st) ->
  Forall call_ok2 (calls st) ->
  Forall call_ok2 (calls st') /\
  (dq2 (head - 1) (head - 1) (queue_decode st) ->
   (r = Ok tt -> dq2 head head (queue_decode st')) /\
   (plain d -> rows1 (queue_decode st) -> length enc_outputs = 1 ->
    r = Ok tt /\ rows1 (queue_decode st'))).
Proof.
  intros H Hhead Hlen Hcalls. unfold expand_head in H.
  unfold mbind at 1 in H. unfold get_queue at 1 in H.
  unfold mbind at 1 in H. unfold lift at 1 in H.
  destruct (lookup_lt_is_Some_2 (queue_decode st) (head - 1) ltac:(lia)) as [e He].
  rewrite He in H. simpl in H.
  destruct (greedy_loop_inv d form_manager max_dec_seq_length max_dec_tree_depth
              enc_outputs oov_dict enc_w_list _ _ _ _ _ _ _ _ _ _ H Hhead Hcalls)
    as [HF HI].
  split; [done|]. intros Hdq.
  assert (qd_t e = []) as Hfresh by (apply (dq_fresh _ _ _ _ _ Hdq (head - 1) e He); lia).
  destruct (HI e He) as [HB HC].
  { by rewrite Hfresh. }
  { apply (dq_inv_mono _ _ _ _ _ _ _ Hdq); lia. }
  split; [done|]. intros Hplain Hrows Hmem.
  destruct (Hrows _ _ He) as [Hr1 Hr2].
  apply HC; try done.
  - by destruct (head =? 1).
  - rewrite Hfresh. simpl. lia.
Qed.

Lemma head_loop_inv (remaining : nat) : forall head st st' r,
  head_loop d form_manager dec_hidden_size max_dec_seq_length enc_outputs oov_dict
    enc_w_list remaining head st = (st', r) ->
  1 <= head -> head + remaining = max_dec_tree_depth + 1 ->
  Forall call_ok2 (calls st) ->
  Forall call_ok2 (calls st') /\
  (dq2 (head - 1) (head - 1) (queue_decode st) ->
   (r = Ok tt -> exists f, f <= max_dec_tree_depth /\ dq2 f f (queue_decode st')) /\
   (plain d -> rows1 (queue_decode st) -> length enc_outputs = 1 ->
    r = Ok tt /\ rows1 (queue_decode st'))).
Proof.
  induction remaining as [|n IH]; intros head st st' r H Hhead Hrem Hcalls.
  - simpl in H. inversion H; subst. split; [done|]. intros Hdq. split.
    + intros _. exists (head - 1). split; [lia | done].
    + done.
  - simpl in H. unfold mbind at 1 in H. unfold get_queue at 1 in H.
    destruct (Nat.leb_spec head (length (queue_decode st))) as [Hle|Hgt].
    + unfold mbind at 1 in H.
      destruct (expand_head _ _ _ _ _ _ _ _ st) as [st1 r1] eqn:E.
      destruct (expand_head_inv _ _ _ _ E ltac:(lia) Hle Hcalls) as [HF1 HI1].
      destruct r1 as [[]|e1|].
      * destruct (IH _ _ _ _ H ltac:(lia) ltac:(lia) HF1) as [HF HI].
        split; [done|]. intros Hdq. destruct (HI1 Hdq) as [HB1 HC1].
        replace (head + 1 - 1) with head in HI by lia.
        destruct (HI (HB1 eq_refl)) as [HB HC]. split; [done|].
        intros Hplain Hrows Hmem. destruct (HC1 Hplain Hrows Hmem) as [_ Hrows1].
        by apply HC.
      * inversion H; subst. split; [done|]. intros Hdq. destruct (HI1 Hdq) as [_ HC1].
        split; [discriminate|]. intros Hplain Hrows Hmem.
        by destruct (HC1 Hplain Hrows Hmem).
      * inversion H; subst. split; [done|]. intros Hdq. destruct (HI1 Hdq) as [_ HC1].
        split; [discriminate|]. intros Hplain Hrows Hmem.
        by destruct (HC1 Hplain Hrows Hmem).
    + inversion H; subst. split; [done|]. intros Hdq. split.
      * intros _. exists (head - 1). split; [lia | done].
      * done.
Qed.
End HeadProofs.

(** ** Assembly of the trees of greedy inference *)

Lemma rmapM_total {A B} (f : A -> result B) (l : list A) :
  (forall c a, l !! c = Some a -> exists b, f a = Ok b) ->
  exists l', rmapM f l = Ok l'.
Proof.
  induction l as [|a l IH]; intros H; simpl.
  - by eexists.
  - destruct (H 0 a eq_refl) as [b ->]. simpl.
    destruct IH as [l' ->]; [intros c a' Hc; apply (H (S c) a' Hc)|].
    simpl. by eexists.
Qed.

Section StoreProofs.
Variables (form_manager : Vocab) (max_dec_seq_length : nat).
Variables (fresh bound : nat) (q : list QDec).
Hypothesis Hq : dq_inv form_manager max_dec_seq_length fresh bound q.

Lemma store_inv_init : store_inv q (length q) q.
Proof.
  split; [done|]. intros k e He. exists e. repeat split; try done.
  intros c s Hs. left.
  destruct (dq_words _ _ _ _ _ Hq _ _ _ _ He Hs) as (w & -> & _). by exists w.
Qed.

Lemma attach_store i D :
  1 <= i < length q -> store_inv q (S i) D ->
  exists D', attach D i = Ok D' /\ store_inv q i D'.
Proof.
  intros Hi [Hlen Hinv].
  destruct (lookup_lt_is_Some_2 q i ltac:(lia)) as [e He].
  destruct i as [|i']; [lia|]. set (i := S i') in *.
  destruct (dq_parent _ _ _ _ _ Hq _ _ He) as (Hp1 & _ & Hc1 & p & Hp & Hch).
  destruct (Hinv _ _ He) as (x & Hx & Hxp & Hxc & _ & _).
  destruct (Hinv _ _ Hp) as (y & Hy & Hyp & Hyc & Hylen & Hys).
  pose proof (lookup_lt_Some _ _ _ Hch) as Hclt.
  unfold attach. rewrite Hx. simpl. rewrite Hxp, Hxc.
  rewrite py_index_pred by (try lia; apply lookup_lt_Some in Hy; lia).
  simpl. rewrite Hy. simpl. unfold py_setitem.
  rewrite py_index_pred by lia. simpl.
  eexists. split; [reflexivity|].
  split; [by rewrite length_insert|].
  intros k e0 He0.
  destruct (decide (k = qd_parent e - 1)) as [->|Hk].
  - rewrite He0 in Hp. inversion Hp; subst e0.
    eexists. split; [rewrite list_lookup_insert_eq; [done | by apply lookup_lt_Some in Hy]|].
    simpl. split; [done|]. split; [done|]. split; [by rewrite length_insert|].
    intros c s Hc.
    destruct (decide (c = qd_child_index e - 1)) as [->|Hcne].
    + rewrite list_lookup_insert_eq in Hc by lia. inversion Hc; subst s.
      right. exists i. split; [done|]. lia.
    + rewrite list_lookup_insert_ne in Hc by done.
      destruct (Hys c s Hc) as [Hw|(j & -> & Hj)]; [by left|].
      right. exists j. split; [done|]. lia.
  - destruct (Hinv _ _ He0) as (z & Hz & Hzp & Hzc & Hzlen & Hzs).
    exists z. split; [by rewrite list_lookup_insert_ne by done|].
    repeat split; try done.
    intros c s Hc. destruct (Hzs c s Hc) as [Hw|(j & -> & Hj)]; [by left|].
    right. exists j. split; [done|]. lia.
Qed.

Lemma assemble_loop_store j D :
  j < length q -> store_inv q (S j) D ->
  exists D', foldl (fun acc i => x <-- acc ;; attach x i) (Ok D) (reverse (seq 1 j)) = Ok D' /\
             store_inv q 1 D'.
Proof.
  revert D. induction j as [|j IH]; intros D Hj Hinv.
  - exists D. split; [done|done].
  - rewrite seq_S, reverse_app. simpl.
    destruct (attach_store (S j) D ltac:(lia) Hinv) as (D1 & -> & Hinv1).
    apply IH; [lia | done].
Qed.

Lemma assemble_store :
  exists D, assemble q = Ok D /\ store_inv q 1 D.
Proof.
  unfold assemble. destruct (dq_root _ _ _ _ _ Hq) as [e0 He0].
  apply lookup_lt_Some in He0.
  apply assemble_loop_store; [lia|].
  replace (S (length q - 1)) with (length q) by lia. apply store_inv_init.
Qed.

Lemma read_tree_total D :
  store_inv q 1 D ->
  forall fuel k, k < length q -> length q - k <= fuel ->
    exists t, read_tree fuel D k = Ok t.
Proof.
  intros [Hlen Hinv]. induction fuel as [|fuel IH]; intros k Hk Hf; [lia|].
  rewrite read_tree_unfold.
  destruct (lookup_lt_is_Some_2 q k Hk) as [e He].
  destruct (Hinv _ _ He) as (x & Hx & _ & _ & _ & Hxs).
  rewrite Hx. simpl.
  destruct (rmapM_total
              (fun s => match s with
                        | SWord w => Ok (Word w)
                        | SRef a => t <-- read_tree fuel D a ;; Ok (Sub t)
                        end) (qd_t x)) as [cs ->].
  - intros c s Hs. destruct (Hxs c s Hs) as [(w & -> & _)|(j & -> & Hj)].
    + by eexists.
    + destruct (IH j ltac:(lia) ltac:(lia)) as [t ->]. simpl. by eexists.
  - simpl. by eexists.
Qed.
End StoreProofs.

(** ** Greedy inference as a whole *)

Lemma dq_inv_start form_manager max_dec_seq_length s :
  dq_inv form_manager max_dec_seq_length 0 0
    [{| qd_s := s; qd_parent := 0; qd_child_index := 1; qd_t := [] |}].
Proof.
  split.
  - by eexists.
  - intros k e H. by destruct k.
  - intros [|k] e c x H Hc; [|by destruct k]. inversion H; subst e. done.
  - intros [|k] e c H Hc; [|by destruct k]. inversion H; subst e. done.
  - intros [|k] e H; [|by destruct k]. inversion H; subst e. simpl. lia.
  - intros [|k] e H _; [|by destruct k]. by inversion H; subst e.
Qed.

Lemma translate_inv d form_manager dec_hidden_size max_dec_seq_length max_dec_tree_depth
    graph_node_embedding enc_w_list oov_dict st r :
  translate d form_manager dec_hidden_size max_dec_seq_length max_dec_tree_depth
    graph_node_embedding enc_w_list oov_dict = (st, r) ->
  Forall (call_ok d max_dec_tree_depth graph_node_embedding oov_dict enc_w_list) (calls st) /\
  (forall tree, r = Ok tree ->
     exists q f, f <= max_dec_tree_depth /\
       dq_inv form_manager max_dec_seq_length f f q /\
       store_inv q 1 (queue_decode st)) /\
  (plain d -> graph_pooling_strategy d = "max"%string -> length graph_node_embedding = 1 ->
   exists tree, r = Ok tree).
Proof.
  unfold translate. intros H.
  destruct (String.eqb_spec (graph_pooling_strategy d) "max") as [Hmax|Hmax].
  2:{ inversion H; subst. split; [constructor|]. split; [discriminate|]. by intros. }
  destruct (head_loop _ _ _ _ _ _ _ _ _ _) as [st1 r1] eqn:E.
  destruct (head_loop_inv _ _ _ _ max_dec_tree_depth _ _ _ _ _ _ _ _ E
              ltac:(lia) ltac:(lia) ltac:(constructor)) as [HF HI].
  simpl in HI. destruct (HI (dq_inv_start _ _ _)) as [HB HC]. clear HI.
  assert (r1 = Ok tt ->
          Forall (call_ok d max_dec_tree_depth graph_node_embedding oov_dict enc_w_list)
            (calls st) /\
          (exists q f, f <= max_dec_tree_depth /\
             dq_inv form_manager max_dec_seq_length f f q /\
             store_inv q 1 (queue_decode st)) /\
          exists tree, r = Ok tree) as Hok.
  { intros ->. destruct (HB eq_refl) as (f & Hf & Hdq).
    destruct (assemble_store _ _ _ _ _ Hdq) as (D & HD & Hst).
    rewrite HD in H. inversion H; subst. simpl.
    split; [done|]. split; [by exists (queue_decode st1), f|].
    destruct (dq_root _ _ _ _ _ Hdq) as [e0 He0]. apply lookup_lt_Some in He0.
    pose proof (proj1 Hst) as Hlen.
    assert (0 < length D) as HD0 by lia.
    destruct (lookup_lt_is_Some_2 D 0 HD0) as [x Hx].
    assert (py_getitem D 0 = Ok x) as ->.
    { destruct D as [|y D']; [done|]. by inversion Hx. }
    simpl.
    apply (read_tree_total _ D Hst); lia. }
  destruct r1 as [[]|e1|].
  - destruct (Hok eq_refl) as (H1 & H2 & H3). split; [done|]. split; [by intros|by intros].
  - inversion H; subst. split; [done|]. split; [discriminate|].
    intros Hplain _ Hlen. destruct HC as [HC _]; try done.
    intros [|k] e He; [|by destruct k]. inversion He; subst e. simpl.
    by rewrite length_map.
  - inversion H; subst. split; [done|]. split; [discriminate|].
    intros Hplain _ Hlen. destruct HC as [HC _]; try done.
    intros [|k] e He; [|by destruct k]. inversion He; subst e. simpl.
    by rewrite length_map.
Qed.

(** ** A training pass that returns *)

Lemma ds_get_slot (ds : DecState) q t j v :
  ds_get ds q t j = Ok v -> is_Some (ds !! q ≫= (.!! t)).
Proof.
  unfold ds_get. destruct (ds !! q) as [row|]; [|discriminate]. simpl.
  destruct (row !! t) as [slot|]; [|discriminate]. eauto.
Qed.

Lemma holds_slot B ds q t : holds B ds q t -> is_Some (ds !! q ≫= (.!! t)).
Proof. intros H. destruct (H 1 (or_introl eq_refl)) as (v & Hv & _). by eapply ds_get_slot. Qed.

Lemma holds_set_other B ds ds' q t j v q' t' :
  ds_set ds q t j v = Ok ds' -> ~ (q = q' /\ t = t') ->
  holds B ds q' t' -> holds B ds' q' t'.
Proof.
  intros E Hne H j' Hj'. destruct (H j' Hj') as (u & Hu & Hlen).
  exists u. split; [|done]. rewrite (ds_get_set _ _ _ _ _ _ _ _ _ E).
  rewrite decide_False; [done|]. intros (?&?&?). by apply Hne.
Qed.

Lemma holds_set_same B ds ds' q t j v :
  ds_set ds q t j v = Ok ds' -> length v = B -> holds B ds q t -> holds B ds' q t.
Proof.
  intros E Hv H j' Hj'. rewrite (ds_get_set _ _ _ _ _ _ _ _ _ E).
  case_decide as Hd; [by exists v|]. apply H, Hj'.
Qed.

Lemma holds_set_both B ds ds1 ds2 q t c h :
  ds_set ds q t 1 c = Ok ds1 -> ds_set ds1 q t 2 h = Ok ds2 ->
  length c = B -> length h = B -> holds B ds2 q t.
Proof.
  intros E1 E2 Hc Hh j [->| ->].
  - exists c. split; [|done].
    rewrite (ds_get_set _ _ _ _ _ _ _ _ _ E2), (ds_get_set _ _ _ _ _ _ _ _ _ E1).
    rewrite decide_False by (intros (?&?&?); done). by rewrite decide_True.
  - exists h. split; [|done].
    rewrite (ds_get_set _ _ _ _ _ _ _ _ _ E2). by rewrite decide_True.
Qed.

Lemma tab_inv_set d B db cur ds ds' q t j v :
  tab_inv d B db cur ds -> ds_set ds q t j v = Ok ds' -> cur <= q ->
  tab_inv d B db cur ds'.
Proof.
  intros [Hs Hd] E Hq. split.
  - intros q' t' H1 H2. apply (ds_set_slots _ _ _ _ _ _ _ _ E). by apply Hs.
  - intros q' m t' H1 H2 H3. eapply holds_set_other; [exact E | | by eapply Hd].
    intros [-> _]. lia.
Qed.

Lemma tab_put_total q t j v ds :
  is_Some (ds !! q ≫= (.!! t)) ->
  exists ds', tab_put q t j v ds = (ds', Ok tt) /\ ds_set ds q t j v = Ok ds'.
Proof.
  intros H. destruct (ds_set_is_ok ds q t j v H) as [ds' E].
  exists ds'. unfold tab_put. by rewrite E.
Qed.

Lemma set_state_row_total d B db cur j i v :
  i < B -> j = 1 \/ j = 2 ->
  total (seed_inv d B db cur) (set_state_row cur j i v) (fun _ => seed_inv d B db cur).
Proof.
  intros Hi Hj ds [Hinv Hh].
  destruct (Hh j Hj) as (t0 & Ht0 & Hlen).
  destruct (tab_put_total cur 0 j (<[i := v]> t0) ds (ds_get_slot _ _ _ _ _ Ht0))
    as (ds' & E & Eset).
  exists ds', tt. split.
  - unfold set_state_row, mbind, tab_get, lift, rows_set. rewrite Ht0.
    destruct (Nat.ltb_spec i (length t0)); [|lia]. exact E.
  - split; [by eapply tab_inv_set|].
    eapply holds_set_same; [exact Eset | by rewrite length_insert | done].
Qed.

Lemma seed_zero_total d B db cur :
  cur <= max_dec_tree_depth d ->
  total (tab_inv d B db cur)
    (mfor [1; 2] (fun j => tab_put cur 0 j (zeros B (rnn_size d))))
    (fun _ => seed_inv d B db cur).
Proof.
  intros Hcur ds Hinv.
  destruct (tab_put_total cur 0 1 (zeros B (rnn_size d)) ds) as (ds1 & E1 & S1).
  { apply (proj1 Hinv); lia. }
  destruct (tab_put_total cur 0 2 (zeros B (rnn_size d)) ds1) as (ds2 & E2 & S2).
  { apply (ds_set_slots _ _ _ _ _ _ _ _ S1). apply (proj1 Hinv); lia. }
  exists ds2, tt. split.
  - simpl. unfold mbind. by rewrite E1, E2.
  - split.
    + eapply tab_inv_set; [|exact S2|done]. by eapply tab_inv_set.
    + eapply holds_set_both; [exact S1 | exact S2 | |]; unfold zeros; by rewrite length_replicate.
Qed.

(** The left sibling the scan finds comes before the entry and has the
    parent of the entry. *)
Lemma find_sibling_found cur queue k :
  find_sibling cur queue = Some k ->
  k < cur - 1 /\
  exists e c, queue !! k = Some e /\ queue !! (cur - 1) = Some c /\
              q_parent e = q_parent c /\ q_child_index e < q_child_index c.
Proof.
  unfold find_sibling. generalize (seq 0 (length queue)). intros l.
  assert (forall acc,
    foldl (fun (sibling_index : option nat) (q_index : nat) =>
             match queue !! q_index, queue !! (cur - 1) with
             | Some e, Some c =>
                 if (cur <=? length queue) && (q_index <? cur - 1)
                    && (q_parent e =? q_parent c) && (q_child_index e <? q_child_index c)
                 then Some q_index else sibling_index
             | _, _ => sibling_index
             end) acc l = Some k ->
    (k < cur - 1 /\
     exists e c, queue !! k = Some e /\ queue !! (cur - 1) = Some c /\
                 q_parent e = q_parent c /\ q_child_index e < q_child_index c) \/
    acc = Some k) as H.
  { induction l as [|a l IH]; intros acc E; simpl in E; [by right|].
    destruct (IH _ E) as [Hk|Hk]; [by left|].
    destruct (queue !! a) as [e|] eqn:Ea; [|by right].
    destruct (queue !! (cur - 1)) as [c|] eqn:Ec; [|by right].
    destruct ((cur <=? length queue) && (a <? cur - 1)
              && (q_parent e =? q_parent c) && (q_child_index e <? q_child_index c)) eqn:Hb;
      [|by right].
    inversion Hk; subst a. left.
    apply andb_prop in Hb as [Hb H4]. apply andb_prop in Hb as [Hb H3].
    apply andb_prop in Hb as [H1 H2].
    apply Nat.ltb_lt in H2, H4. apply Nat.eqb_eq in H3.
    split; [done|]. by exists e, c. }
  intros E. destruct (H None E) as [Hk|Hk]; [done|discriminate].
Qed.

Lemma total_assume {St A} (phi : Prop) (P : St -> Prop) (m : M St A)
    (Q : A -> St -> Prop) :
  (phi -> total P m Q) -> total (fun s => phi /\ P s) m Q.
Proof. intros H s [Hphi Hs]. by apply H. Qed.

Section SeedTotal.
Variables (d : StdTreeDecoder) (trees : list Tree).
Variables (db : DecBatch) (qt : list (list QTree)) (mi : nat).
Hypothesis Hlin : lin_inv trees (size_bound trees) (S mi) mi qt db.

Abbreviation B := (length trees).

Lemma queue_of_tree i queue :
  qt !! i = Some queue -> exists T, queue_inv T (S mi) queue.
Proof.
  intros Hq. pose proof (li_queues _ _ _ _ _ _ Hlin) as HF.
  destruct (Forall2_lookup_r _ _ _ _ _ HF Hq) as (T & _ & HT). by exists T.
Qed.

Lemma queue_tree_length : length qt = B.
Proof. symmetry. apply (Forall2_length _ _ _ (li_queues _ _ _ _ _ _ Hlin)). Qed.

Lemma seed_from_parent_total queue cur i :
  qt !! (i - 1) = Some queue -> 2 <= cur -> 1 <= i <= B ->
  total (seed_inv d B db cur) (seed_from_parent queue cur i) (fun _ => seed_inv d B db cur).
Proof.
  intros Hq Hcur Hi. unfold seed_from_parent.
  destruct (Nat.leb_spec cur (length queue)) as [Hle|Hgt]; [|by apply total_ret].
  destruct (lookup_lt_is_Some_2 queue (cur - 1) ltac:(lia)) as [e He].
  rewrite He. simpl.
  destruct (queue_of_tree _ _ Hq) as [T HT].
  replace (cur - 1) with (S (cur - 2)) in He by lia.
  destruct (qi_parent _ _ _ HT _ _ He) as (Hp1 & Hp2 & Hc1 & p & Hp & Hch).
  apply lookup_lt_Some in Hch. fold (num_children (q_tree p)) in Hch.
  destruct (li_rows _ _ _ _ _ _ Hlin (q_parent e) ltac:(lia)) as (m & Hm & _ & _ & Hw).
  destruct (Hw _ _ _ Hq Hp) as [Hwidth _].
  assert (forall ds, seed_inv d B db cur ds ->
            holds B ds (q_parent e) (q_child_index e)) as Hpar.
  { intros ds [[_ Hd] _]. apply (Hd _ m); [lia | done | lia]. }
  eapply total_bind with (R := fun e' ds => e' = e /\ seed_inv d B db cur ds).
  { intros ds Hds. exists ds, e. done. }
  intros e'. apply total_assume. intros ->.
  eapply total_bind with (R := fun c ds => seed_inv d B db cur ds /\ length c = B).
  { intros ds Hds. destruct (Hpar ds Hds 1 (or_introl eq_refl)) as (v & Hv & Hlen).
    exists ds, v. split; [|done]. unfold tab_get. by rewrite Hv. }
  intros c.
  eapply total_bind with (R := fun _ => seed_inv d B db cur).
  { intros ds [Hds Hlen].
    destruct (lookup_lt_is_Some_2 c (i - 1) ltac:(lia)) as [cr Hcr].
    exists ds, cr. split; [|done]. unfold lift, rows_get. by rewrite Hcr. }
  intros cr.
  eapply total_bind; [apply set_state_row_total; [lia | by left]|]. intros [].
  cbv beta.
  eapply total_bind with (R := fun h ds => seed_inv d B db cur ds /\ length h = B).
  { intros ds Hds. destruct (Hpar ds Hds 2 (or_intror eq_refl)) as (v & Hv & Hlen).
    exists ds, v. split; [|done]. unfold tab_get. by rewrite Hv. }
  intros h.
  eapply total_bind with (R := fun _ => seed_inv d B db cur).
  { intros ds [Hds Hlen].
    destruct (lookup_lt_is_Some_2 h (i - 1) ltac:(lia)) as [hr Hhr].
    exists ds, hr. split; [|done]. unfold lift, rows_get. by rewrite Hhr. }
  intros hr. apply set_state_row_total; [lia | by right].
Qed.

Lemma seed_sibling_total queue cur i sib :
  qt !! (i - 1) = Some queue -> 2 <= cur <= mi -> 1 <= i <= B -> length sib = B ->
  total (seed_inv d B db cur) (seed_sibling db queue cur i sib)
    (fun sib' ds => seed_inv d B db cur ds /\ length sib' = B).
Proof.
  intros Hq Hcur Hi Hsib. unfold seed_sibling.
  destruct (find_sibling cur queue) as [k|] eqn:Hk; [|by apply total_ret].
  apply find_sibling_found in Hk as (Hlt & e & c & He & Hc & Hpar & _).
  destruct (queue_of_tree _ _ Hq) as [T HT].
  assert (1 <= k) as Hk1.
  { destruct k as [|k]; [|lia]. exfalso.
    rewrite (qi_root _ _ _ HT) in He. inversion He; subst e. simpl in Hpar.
    replace (cur - 1) with (S (cur - 2)) in Hc by lia.
    destruct (qi_parent _ _ _ HT _ _ Hc) as (Hp1 & _). lia. }
  destruct (li_rows _ _ _ _ _ _ Hlin k ltac:(lia)) as (m & Hm & Hm1 & _ & _).
  rewrite Hm. simpl.
  eapply total_bind with (R := fun m' ds => m' = m /\ seed_inv d B db cur ds).
  { intros ds Hds. exists ds, m. done. }
  intros m'. apply total_assume. intros ->.
  eapply total_bind with (R := fun _ => seed_inv d B db cur).
  { destruct (Nat.eqb_spec (fst m) 0); [lia|]. by apply total_ret. }
  intros _.
  eapply total_bind with (R := fun s ds => seed_inv d B db cur ds /\ length s = B).
  { intros ds Hds. destruct Hds as [[Hs Hd] H0].
    destruct (Hd k m (fst m - 1) ltac:(lia) Hm ltac:(lia) 2 (or_intror eq_refl))
      as (v & Hv & Hlen).
    exists ds, v. split; [|done]. unfold tab_get. by rewrite Hv. }
  intros s.
  eapply total_bind with (R := fun _ => seed_inv d B db cur).
  { intros ds [Hds Hlen].
    destruct (lookup_lt_is_Some_2 s (i - 1) ltac:(lia)) as [sr Hsr].
    exists ds, sr. split; [|done]. unfold lift, rows_get. by rewrite Hsr. }
  intros sr ds Hds. exists ds, (<[i - 1 := sr]> sib). split.
  - unfold lift, rows_set. destruct (Nat.ltb_spec (i - 1) (length sib)); [done|lia].
  - split; [done|]. by rewrite length_insert.
Qed.
End SeedTotal.

(** The seeding of a whole level returns. *)

Lemma total_bind_pure {St A B} (P : St -> Prop) (a : A) (f : A -> M St B)
    (Q : B -> St -> Prop) :
  total P (f a) Q -> total P (mbind (lift (Ok a)) f) Q.
Proof. intros H s Hs. exact (H s Hs). Qed.

Section LevelTotal.
Variables (d : StdTreeDecoder) (trees : list Tree) (gc gh : list Vec).
Variables (db : DecBatch) (qt : list (list QTree)) (mi : nat).
Hypothesis Hlin : lin_inv trees (size_bound trees) (S mi) mi qt db.
Hypothesis Hgc : length gc = length trees.
Hypothesis Hgh : length gh = length trees.

Abbreviation B1 := (length trees).

Lemma seed_level_total cur :
  1 <= cur <= mi -> cur <= max_dec_tree_depth d ->
  total (tab_inv d B1 db cur) (seed_level d B1 gc gh db qt cur)
    (fun sib ds => seed_inv d B1 db cur ds /\ length sib = B1).
Proof.
  intros Hcur Hdepth. unfold seed_level.
  eapply total_bind; [by apply seed_zero_total|]. intros []. cbv beta.
  assert (length (zeros B1 (rnn_size d)) = B1) as Hz
    by (unfold zeros; by rewrite length_replicate).
  destruct (Nat.eqb_spec cur 1) as [->|Hne].
  - eapply total_bind with (R := fun _ => seed_inv d B1 db 1).
    + eapply total_weaken.
      * apply (total_mfor (fun _ => seed_inv d B1 db 1)).
        intros k i Hk. apply lookup_seq in Hk as [-> Hk]. simpl.
        destruct (lookup_lt_is_Some_2 gc k ltac:(lia)) as [c Hc].
        destruct (lookup_lt_is_Some_2 gh k ltac:(lia)) as [h Hh].
        unfold rows_get. rewrite Hc, Hh. simpl of_option.
        apply total_bind_pure.
        eapply total_bind; [apply set_state_row_total; [lia | by left]|].
        intros []. cbv beta.
        apply total_bind_pure.
        apply set_state_row_total; [lia | by right].
      * done.
      * done.
    + intros _. by apply total_ret.
  - eapply total_weaken.
    + apply (total_mfold (fun _ sib ds => seed_inv d B1 db cur ds /\ length sib = B1)).
      intros k i sib Hk. apply lookup_seq in Hk as [-> Hk].
      apply total_weaken with
        (P' := fun ds => length sib = B1 /\ seed_inv d B1 db cur ds)
        (Q' := fun sib' ds => seed_inv d B1 db cur ds /\ length sib' = B1);
        [|by intros ds [? ?]|done].
      apply total_assume. intros Hsib.
      destruct (lookup_lt_is_Some_2 qt (1 + k - 1)) as [queue Hq].
      { rewrite (queue_tree_length _ _ _ _ Hlin). lia. }
      rewrite Hq. simpl of_option.
      apply total_bind_pure.
      eapply total_bind;
        [apply (seed_from_parent_total d trees db qt mi Hlin queue cur (1 + k));
           [done | lia | lia]|].
      intros []. cbv beta.
      apply (seed_sibling_total d trees db qt mi Hlin queue cur (1 + k)); [done|lia|lia|done].
    + intros ds Hds. by split.
    + done.
Qed.
End LevelTotal.

(** ** A token step that fits the table returns *)

Section TokenTotal.
Variables (d : StdTreeDecoder) (rand : nat -> Q) (B : nat).
Variables (enc_outputs : list Mem).
Variables (oov_dict : option Vocab) (enc_batch : option (list (list Z))).
Variables (db : DecBatch).
Hypothesis Hplain : plain d.
Hypothesis Hmem : length enc_outputs = B.

Lemma token_step_total m parent_h cur i :
  1 <= cur <= max_dec_tree_depth d -> length (snd m) = B ->
  i + 1 <= max_dec_seq_length d -> length parent_h = B ->
  total (token_inv d B db cur i)
    (token_step d rand B enc_outputs oov_dict enc_batch m parent_h cur i)
    (fun _ => token_inv d B db cur (S i)).
Proof.
  intros Hcur Hrows Hi Hpar st (Htab & Hhold & Hpred).
  destruct (Hhold i (le_n _) 1 (or_introl eq_refl)) as (c & Hc & Hclen).
  destruct (Hhold i (le_n _) 2 (or_intror eq_refl)) as (h & Hh & Hhlen).
  set (tf := negb (Qle_bool (teacher_force_ratio d) (rand (draws st)))).
  assert (exists iw,
    (if negb tf && (0 <? i)
     then match pred st with
          | Some pr => mret (map argmax pr)
          | None => lift (Raise UnboundLocalError)
          end
     else mret (column m i) : T (list Z)) = mret iw /\ length iw = B) as (iw & Eiw & Hiw).
  { destruct (negb tf && (0 <? i)) eqn:Hb.
    - apply andb_prop in Hb as [_ Hpos]. apply Nat.ltb_lt in Hpos.
      destruct (Hpred Hpos) as (pr & Hpr & Hlen). rewrite Hpr.
      eexists. split; [reflexivity|]. by rewrite length_map.
    - eexists. split; [reflexivity|]. unfold column. by rewrite length_map. }
  destruct (decode_step_plain d B iw c h enc_outputs parent_h oov_dict enc_batch B
              Hplain Hiw Hclen Hhlen Hpar Hmem) as (pr & c' & h' & a & Eout & Hpr & Hc' & Hh').
  assert (is_Some (dec_state st !! cur ≫= (.!! (i + 1)))) as Hslot.
  { apply (proj1 Htab); lia. }
  destruct (ds_set_is_ok _ cur (i + 1) 1 c' Hslot) as [ds1 E1].
  assert (is_Some (ds1 !! cur ≫= (.!! (i + 1)))) as Hslot1
    by (by apply (ds_set_slots _ _ _ _ _ _ _ _ E1)).
  destruct (ds_set_is_ok _ cur (i + 1) 2 h' Hslot1) as [ds2 E2].
  eexists _, tt. split.
  - unfold token_step. unfold mbind at 1. unfold draw at 1.
    unfold mbind at 1. fold tf. cbn [pred draws dec_state loss trace].
    rewrite Eiw. unfold mbind at 1. unfold mret at 1.
    unfold mbind at 1. unfold get_ds at 1. cbn [pred draws dec_state loss trace].
    rewrite Hc. unfold mbind at 1. unfold get_ds at 1.
    cbn [pred draws dec_state loss trace]. rewrite Hh.
    rewrite Eout. unfold mbind at 1. unfold log_event at 1.
    unfold mbind at 1. unfold lift at 1.
    unfold mbind at 1. unfold put_ds at 1. cbn [pred draws dec_state loss trace].
    rewrite E1. unfold mbind at 1. unfold put_ds at 1.
    cbn [pred draws dec_state loss trace]. rewrite E2.
    unfold mbind at 1. unfold set_pred_loss. reflexivity.
  - split; [|split]; cbn [pred draws dec_state loss trace].
    + eapply tab_inv_set; [|exact E2|done]. by eapply tab_inv_set.
    + intros t Ht. destruct (decide (t = i + 1)) as [->|Hne].
      * by eapply holds_set_both.
      * eapply holds_set_other; [exact E2|lia|].
        eapply holds_set_other; [exact E1|lia|]. apply Hhold. lia.
    + intros _. eexists. split; [reflexivity|]. unfold log_rows. by rewrite length_map.
Qed.
End TokenTotal.

(** ** The level loop returns *)

Lemma on_table_total {A} (P : DecState -> Prop) (m : D A) (Q : A -> DecState -> Prop) :
  total P m Q ->
  total (fun st => P (dec_state st)) (on_table m) (fun a st => Q a (dec_state st)).
Proof.
  intros H st Hs. destruct (H _ Hs) as (ds' & a & E & Ha).
  eexists _, a. split; [unfold on_table; by rewrite E | done].
Qed.

Section PassTotal.
Variables (d : StdTreeDecoder) (rand : nat -> Q) (trees : list Tree).
Variables (gc gh : list Vec) (enc_outputs : list Mem).
Variables (oov_dict : option Vocab) (enc_batch : option (list (list Z))).
Variables (db : DecBatch) (qt : list (list QTree)) (mi : nat).
Hypothesis Hplain : plain d.
Hypothesis Hlin : lin_inv trees (size_bound trees) (S mi) mi qt db.
Hypothesis Hgc : length gc = length trees.
Hypothesis Hgh : length gh = length trees.
Hypothesis Hmem : length enc_outputs = length trees.

Abbreviation B2 := (length trees).

Lemma run_level_total cur :
  1 <= cur <= mi -> cur <= max_dec_tree_depth d ->
  (forall m, db !! cur = Some m -> fst m - 1 <= max_dec_seq_length d) ->
  total (fun st => tab_inv d B2 db cur (dec_state st))
    (run_level d rand B2 gc gh enc_outputs oov_dict enc_batch db qt cur)
    (fun _ st => tab_inv d B2 db (S cur) (dec_state st)).
Proof.
  intros Hcur Hdepth Hfitc. unfold run_level.
  destruct (li_rows _ _ _ _ _ _ Hlin cur ltac:(lia)) as (m & Hm & _ & Hrows & _).
  eapply total_bind with (R := fun _ st => seed_inv d B2 db cur (dec_state st)).
  { eapply total_weaken.
    - apply on_table_total.
      apply (seed_level_total d trees gc gh db qt mi Hlin Hgc Hgh cur Hcur Hdepth).
    - done.
    - by intros sib st [H _]. }
  intros sib.
  eapply total_bind with
    (R := fun ph st => length ph = B2 /\ seed_inv d B2 db cur (dec_state st)).
  { intros st Hs. destruct (proj2 Hs 2 (or_intror eq_refl)) as (v & Hv & Hlen).
    exists st, v. split; [unfold get_ds; by rewrite Hv | done]. }
  intros parent_h. apply total_assume. intros Hpar.
  eapply total_bind with (R := fun _ st => seed_inv d B2 db cur (dec_state st)).
  { intros st Hs. destruct (proj2 Hs 1 (or_introl eq_refl)) as (v & Hv & Hlen).
    exists st, v. split; [unfold get_ds; by rewrite Hv | done]. }
  intros c0.
  eapply total_bind with (R := fun _ st => seed_inv d B2 db cur (dec_state st)).
  { intros st Hs. eexists _, tt. split; [reflexivity | done]. }
  intros []. rewrite Hm. simpl of_option. apply total_bind_pure.
  eapply total_weaken.
  - apply (total_mfor (fun i => token_inv d B2 db cur i)).
    intros k i Hk. apply lookup_seq in Hk as [-> Hk]. simpl.
    apply (token_step_total d rand B2 enc_outputs oov_dict enc_batch db Hplain Hmem
             m parent_h cur k); try done; try lia.
    pose proof (Hfitc m Hm). lia.
  - intros st [Htab H0]. split; [done|]. split; [|lia].
    intros t Ht. replace t with 0 by lia. done.
  - intros [] st (Htab & Hhold & _). rewrite length_seq in Hhold. destruct Htab as [Hs Hd].
    split; [done|]. intros q m' t Hq Hm' Ht.
    destruct (decide (q = cur)) as [->|Hne].
    + rewrite Hm in Hm'. inversion Hm'; subst m'. by apply Hhold.
    + apply (Hd q m' t); [lia|done|done].
Qed.

Hypothesis Hfit : levels_fit d db.

Lemma level_loop_total remaining : forall cur,
  1 <= cur -> cur + remaining = mi + 1 ->
  total (fun st => tab_inv d B2 db cur (dec_state st))
    (level_loop d rand B2 gc gh enc_outputs oov_dict enc_batch db qt remaining cur)
    (fun _ _ => True).
Proof.
  induction remaining as [|n IH]; intros cur Hcur Hrem; simpl.
  - by apply total_ret.
  - destruct (Nat.ltb_spec (max_dec_tree_depth d) cur) as [Hd|Hd].
    + by apply total_ret.
    + eapply total_bind;
        [apply run_level_total; [lia | lia | intros m Hm; apply (Hfit cur m); [lia | done]]|].
      intros []. cbv beta. apply IH; lia.
Qed.
End PassTotal.

Lemma tab_inv_init d B db :
  tab_inv d B db 1 (init_dec_state (max_dec_tree_depth d) (max_dec_seq_length d)).
Proof.
  split.
  - intros q t Hq Ht. by apply init_dec_state_slots.
  - intros q m t Hq. lia.
Qed.

(** The pass returns a loss when the step cannot raise, the graph state has
    a row for each tree of a batch that is not empty, and every level within
    the depth limit fits the table. *)
Lemma pass_total d rand gne mask rne gle trees enc oov gc gh :
  plain d -> graph_states d gne gle = Ok (gc, gh) ->
  length gc = length trees -> length gh = length trees -> length gne = length trees ->
  trees <> [] ->
  (forall db qt mi, get_dec_batch trees (length trees) (tgt_vocab d) = Ok (db, qt, mi) ->
     levels_fit d db) ->
  exists l, snd (_run_forward_pass d rand gne mask rne gle trees enc oov) = Ok l.
Proof.
  intros Hplain Hg Hgc Hgh Hmem Hne Hfit.
  destruct (get_dec_batch_spec trees (tgt_vocab d)) as (db & qt & mi & Hb & Hlin).
  unfold _run_forward_pass. rewrite Hg, Hb.
  destruct (level_loop_total d rand trees gc gh gne oov enc db qt mi Hplain Hlin Hgc Hgh
              Hmem (Hfit _ _ _ Hb) mi 1 ltac:(lia) ltac:(lia) (init_tstate d)
              (tab_inv_init _ _ _)) as (st & [] & -> & _).
  destruct (Nat.eqb_spec (length trees) 0) as [H0|H0].
  - destruct trees; [done | discriminate].
  - by eexists.
Qed.

(** ** The limits on depth and length *)

Lemma levels_fitb_spec d db : levels_fitb d db = true -> levels_fit d db.
Proof.
  unfold levels_fitb. intros H q m Hq Hm.
  rewrite forallb_forall in H. specialize (H q).
  rewrite Hm in H. apply Nat.leb_le. apply H.
  apply in_seq. lia.
Qed.

Lemma batch_fits_spec d trees db qt mi :
  batch_fits d trees = true ->
  get_dec_batch trees (length trees) (tgt_vocab d) = Ok (db, qt, mi) -> levels_fit d db.
Proof.
  unfold batch_fits. intros H E. rewrite E in H. by apply levels_fitb_spec.
Qed.

(** One iteration of the greedy loop whose step returns. *)
Lemma greedy_loop_step fuel d form_manager max_dec_seq_length enc_outputs oov enc
    head parent_h sibling_state s prev_word i_child st prediction c h a w e :
  decode_step d 1 prev_word s enc_outputs parent_h None oov enc
    = Ok (prediction, (c, h), a) ->
  map argmax (log_rows (net d) prediction) !! 0 = Some w ->
  queue_decode st !! (head - 1) = Some e ->
  let call := greedy_call d enc_outputs oov enc head parent_h sibling_state s prev_word in
  greedy_loop (S fuel) d form_manager max_dec_seq_length enc_outputs oov enc head
    parent_h sibling_state s prev_word i_child st =
  if (w =? get_symbol_idx form_manager (end_token form_manager))%Z
     || (max_dec_seq_length <=? length (qd_t e))
  then ({| queue_decode := queue_decode st; calls := calls st ++ [call] |}, Ok tt)
  else greedy_loop fuel d form_manager max_dec_seq_length enc_outputs oov enc head
         parent_h sibling_state (c, h) (map argmax (log_rows (net d) prediction))
         (i_child + 1)
         {| queue_decode := grown_queue form_manager (queue_decode st) head e w (c, h) i_child;
            calls := calls st ++ [call] |}.
Proof.
  intros Hout Hw He call.
  destruct (greedy_loop (S fuel) d form_manager max_dec_seq_length enc_outputs oov enc
              head parent_h sibling_state s prev_word i_child st) as [st' r] eqn:E.
  destruct (greedy_loop_cases _ _ _ _ _ _ _ _ _ _ _ _ _ _ _ _ E) as [(_ & _ & Hn)|H].
  - exfalso. apply Hn. exists prediction, c, h, a, w, e. done.
  - destruct H as (pr' & c' & h' & a' & w' & e' & Hout' & Hw' & He' & Hcase).
    simpl in Hout'. rewrite Hout in Hout'. inversion Hout'; subst pr' c' h' a'.
    rewrite Hw in Hw'. inversion Hw'; subst w'.
    rewrite He in He'. inversion He'; subst e'.
    destruct Hcase as [(-> & -> & ->)|(-> & <-)]; reflexivity.
Qed.

(** Every entry of the log of a pass belongs to a level within the depth
    limit, whatever the outcome. *)
Lemma pass_levels d rand gne mask rne gle trees enc oov n e :
  trace (fst (_run_forward_pass d rand gne mask rne gle trees enc oov)) !! n = Some e ->
  1 <= event_level e <= max_dec_tree_depth d.
Proof.
  destruct (graph_states d gne gle) as [[gc gh]|x|] eqn:Hg.
  - destruct (get_dec_batch_spec trees (tgt_vocab d)) as (db & qt & mi & Hb & _).
    intros Hn.
    pose proof (pass_trace_ok d rand gne mask rne gle trees enc oov gc gh db qt mi Hg Hb
                  n e Hn) as H.
    destruct e as [q c0 h0 sib|ev]; simpl.
    + by destruct H.
    + by destruct H as [[H _] _].
  - unfold _run_forward_pass. rewrite Hg. simpl. discriminate.
  - unfold _run_forward_pass. rewrite Hg. simpl. discriminate.
Qed.

(** What the store of a greedy inference that returns holds. *)
Lemma translate_store d form_manager dec_hidden_size max_dec_seq_length max_dec_tree_depth
    graph_node_embedding enc_w_list oov_dict tree k x :
  let run := translate d form_manager dec_hidden_size max_dec_seq_length
               max_dec_tree_depth graph_node_embedding enc_w_list oov_dict in
  snd run = Ok tree -> queue_decode (fst run) !! k = Some x ->
  length (qd_t x) <= max_dec_seq_length /\
  (max_dec_tree_depth <= k -> qd_t x = []) /\
  (forall c, qd_t x !! c <> Some (SWord (end_idx form_manager))).
Proof.
  intros run Hr Hk. subst run.
  destruct (translate _ _ _ _ _ _ _ _) as [st r] eqn:E. simpl in *.
  destruct (translate_inv _ _ _ _ _ _ _ _ _ _ E) as (_ & H & _).
  destruct (H tree Hr) as (q & f & Hf & Hdq & Hlen & Hst).
  destruct (lookup_lt_is_Some_2 q k) as [e He].
  { rewrite <- Hlen. by apply lookup_lt_Some in Hk. }
  destruct (Hst k e He) as (x' & Hx' & _ & _ & Hl & Hs).
  rewrite Hk in Hx'. inversion Hx'; subst x'.
  split; [rewrite Hl; by apply (dq_len _ _ _ _ _ Hdq k)|]. split.
  - intros Hge. apply nil_length_inv. rewrite Hl.
    rewrite (dq_fresh _ _ _ _ _ Hdq k e He); [done|lia].
  - intros c Hc. destruct (Hs c _ Hc) as [(w & Hw & Hq)|(i & Hi & _)]; [|discriminate].
    inversion Hw; subst w.
    destruct (dq_words _ _ _ _ _ Hdq _ _ _ _ He Hq) as (w' & Hw' & Hne).
    inversion Hw'; subst w'. by apply Hne.
Qed.

(** ** The depth and length limits

    What the guards of the two loops give.  Training: every level the pass
    enters is within [max_dec_tree_depth], whatever the outcome; and the
    pass returns a loss when the step cannot raise, the graph state has a
    row for each tree of a batch that is not empty, and every level within
    the depth limit has a target matrix of at most [max_dec_seq_length + 1]
    columns (the state table has no slot for a longer level).  Greedy
    inference: only queue positions up to [max_dec_tree_depth] are
    expanded; an iteration whose step returns stops the branch, leaving the
    queue as it was, when the word is the end token or the node has
    [max_dec_seq_length] children, and goes on with the word attached
    otherwise; when the step cannot raise, inference returns a tree; and in
    the store of an inference that returns no node has more than
    [max_dec_seq_length] children, none has the end token as a child, and
    the entries past the depth limit have no child. *)
Theorem depth_and_length_limits (d : StdTreeDecoder) (rand : nat -> Q)
    (graph_node_embedding : list Mem) (graph_node_mask : list Vec)
    (rnn_node_embedding : list Mem)
    (graph_level_embedding : option (list Vec * list Vec))
    (tgt_tree_batch : list Tree) (enc_batch : option (list (list Z)))
    (oov_dict : option Vocab)
    (form_manager : Vocab) (dec_hidden_size max_seq max_depth : nat)
    (enc_outputs : list Mem) (enc_w_list : option (list (list Z))) :
  let pass := _run_forward_pass d rand graph_node_embedding graph_node_mask
                rnn_node_embedding graph_level_embedding tgt_tree_batch enc_batch
                oov_dict in
  let run := translate d form_manager dec_hidden_size max_seq
               max_depth enc_outputs enc_w_list oov_dict in
  (forall n e, trace (fst pass) !! n = Some e ->
     1 <= event_level e <= max_dec_tree_depth d) /\
  (plain d ->
   forall graph_cell_state graph_hidden_state,
     graph_states d graph_node_embedding graph_level_embedding
       = Ok (graph_cell_state, graph_hidden_state) ->
     length graph_cell_state = length tgt_tree_batch ->
     length graph_hidden_state = length tgt_tree_batch ->
     length graph_node_embedding = length tgt_tree_batch ->
     tgt_tree_batch <> [] -> batch_fits d tgt_tree_batch = true ->
     exists l, snd pass = Ok l) /\
  (forall n c, calls (fst run) !! n = Some c -> 1 <= ce_head c <= max_depth) /\
  (forall fuel head parent_h sibling_state s prev_word i_child st prediction c h a w e,
     decode_step d 1 prev_word s enc_outputs parent_h None oov_dict enc_w_list
       = Ok (prediction, (c, h), a) ->
     map argmax (log_rows (net d) prediction) !! 0 = Some w ->
     queue_decode st !! (head - 1) = Some e ->
     let call := greedy_call d enc_outputs oov_dict enc_w_list head parent_h
                   sibling_state s prev_word in
     greedy_loop (S fuel) d form_manager max_seq enc_outputs oov_dict
       enc_w_list head parent_h sibling_state s prev_word i_child st =
     if (w =? get_symbol_idx form_manager (end_token form_manager))%Z
        || (max_seq <=? length (qd_t e))
     then ({| queue_decode := queue_decode st; calls := calls st ++ [call] |}, Ok tt)
     else greedy_loop fuel d form_manager max_seq enc_outputs oov_dict
            enc_w_list head parent_h sibling_state (c, h)
            (map argmax (log_rows (net d) prediction)) (i_child + 1)
            {| queue_decode :=
                 grown_queue form_manager (queue_decode st) head e w (c, h) i_child;
               calls := calls st ++ [call] |}) /\
  (plain d -> graph_pooling_strategy d = "max"%string -> length enc_outputs = 1 ->
   exists tree, snd run = Ok tree) /\
  (forall tree k x, snd run = Ok tree -> queue_decode (fst run) !! k = Some x ->
     length (qd_t x) <= max_seq /\
     (max_depth <= k -> qd_t x = []) /\
     (forall i, qd_t x !! i <> Some (SWord (end_idx form_manager)))).
Proof.
  intros pass run. split; [|split; [|split; [|split; [|split]]]].
  - intros n e. apply pass_levels.
  - intros Hplain gc gh Hg Hgc Hgh Hmem Hne Hfit.
    apply (pass_total d rand graph_node_embedding graph_node_mask rnn_node_embedding
             graph_level_embedding tgt_tree_batch enc_batch oov_dict gc gh); try done.
    intros db qt mi Hb. by apply (batch_fits_spec d tgt_tree_batch db qt mi).
  - intros n c Hn. subst run.
    destruct (translate _ _ _ _ _ _ _ _) as [st r] eqn:E.
    destruct (translate_inv _ _ _ _ _ _ _ _ _ _ E) as (HF & _ & _).
    rewrite Forall_lookup in HF. by destruct (HF n c Hn).
  - intros fuel head parent_h sibling_state s prev_word i_child st prediction c h a w e
      Hout Hw He.
    exact (greedy_loop_step fuel d form_manager max_seq enc_outputs oov_dict
             enc_w_list head parent_h sibling_state s prev_word i_child st prediction
             c h a w e Hout Hw He).
  - intros Hplain Hmax Hlen. subst run.
    destruct (translate _ _ _ _ _ _ _ _) as [st r] eqn:E.
    destruct (translate_inv _ _ _ _ _ _ _ _ _ _ E) as (_ & _ & H). by apply H.
  - intros tree k x Hr Hk.
    exact (translate_store d form_manager dec_hidden_size max_seq
             max_depth enc_outputs enc_w_list oov_dict tree k x Hr Hk).
Qed.

(** C6, where the training pass departs from it.  The level loop guards
    the depth of the state table and greedy inference guards the length of
    a branch, but the token loop of the training pass has no guard for the
    length.  With [max_dec_seq_length = 1] the table has steps 0 and 1.  The
    root of the target has three children, so its level has four steps: the
    pass stores the state of step 1, and raises [KeyError] when it stores
    the state of step 2.  Greedy inference by the same decoder under the
    same limits stops the root after one child and returns the tree. *)
Theorem C6_training_pass_raises_past_length_limit :
  let d := __init__ Toy.config_short in
  let pass := _run_forward_pass d (fun _ => 0%Q) Toy.memory [] [] None
                [Toy.three_siblings] None None in
  let run := translate d Toy.vocab 1 (max_dec_seq_length d) (max_dec_tree_depth d)
               Toy.memory None None in
  plain d /\
  max_dec_seq_length d = 1 /\
  num_children Toy.three_siblings = 3 /\
  snd pass = Raise KeyError /\
  steps_of_level (trace (fst pass)) 1 = 2 /\
  snd run = Ok (Node [Word 5]).
Proof.
  cbv zeta. split; [repeat split; reflexivity|].
  repeat split; vm_compute; reflexivity.
Qed.

(** The limits at work: the toy decoder on the target with three child
    trees, and greedy inference with both limits set to 2.  The pass returns a loss and
    inference a tree; an iteration at a root that already has two children
    stops and leaves the queue as it was. *)
Lemma depth_and_length_limits_toy :
  let d := __init__ Toy.config in
  let st := {| queue_decode := [{| qd_s := ([[0%Q]], [[0%Q]]); qd_parent := 0;
                                   qd_child_index := 1;
                                   qd_t := [SWord 5; SWord 6] |}];
               calls := [] |} in
  let res := greedy_loop 1 d Toy.vocab 2 Toy.memory None None 1 [[0%Q]] [[0%Q]]
               ([[0%Q]], [[0%Q]]) [1%Z] 3 st in
  (exists l, snd (_run_forward_pass d (fun _ => 0%Q) Toy.memory [] [] None
                    [Toy.three_siblings] None None) = Ok l) /\
  (exists tree, snd (translate d Toy.vocab 1 2 2 Toy.memory None None) = Ok tree) /\
  queue_decode (fst res) = queue_decode st /\ snd res = Ok tt.
Proof.
  intros d st res.
  destruct (depth_and_length_limits d (fun _ => 0%Q) Toy.memory [] [] None
              [Toy.three_siblings] None None Toy.vocab 1 2 2 Toy.memory None)
    as (_ & Hpass & _ & Hstep & Hrun & _).
  assert (plain d) as Hplain by (repeat split; reflexivity).
  split; [|split].
  - apply (Hpass Hplain [[0%Q]] [[0%Q]]); try reflexivity. discriminate.
  - apply Hrun; [exact Hplain | reflexivity | reflexivity].
  - subst res.
    rewrite (Hstep 0 1 [[0%Q]] [[0%Q]] ([[0%Q]], [[0%Q]]) [1%Z] 3 st
               [[0; 0; 0; 0; 0; 1; 0; 0]%Q] [[1%Q]] [[1%Q]] [[1 # 2; 1 # 2]%Q] 5%Z
               {| qd_s := ([[0%Q]], [[0%Q]]); qd_parent := 0; qd_child_index := 1;
                  qd_t := [SWord 5; SWord 6] |}).
    + split; reflexivity.
    + vm_compute. reflexivity.
    + vm_compute. reflexivity.
    + reflexivity.
Defined.

(** ** The sibling state *)

(** C1 (what the code does instead).  Neither the training pass nor greedy
    inference hands the local [sibling_state] to [decode_step]: every logged
    call has no sibling argument, so its result is that of the step without
    sibling input, and a decoder built with [use_sibling] raises [TypeError]
    at every step.  The local [sibling_state] is not the terminal hidden
    state of the nearest left sibling either.  On a root with three child
    trees (queue positions 2, 3 and 4), the training pass finds for position
    4 the queue index 2 of its nearest left sibling and reads the table at
    level 2, the first sibling: [sibling_state] is [[23]], the terminal
    hidden state of position 2, while that of position 3 is [[65]].  Greedy
    inference keeps for position 3 the hidden state with which its sibling
    at position 2 was put in the queue, [[2]], while the terminal hidden
    state of position 2 is [[44]]. *)
Theorem C1_sibling_state_never_reaches_the_step (d : StdTreeDecoder) (rand : nat -> Q)
    (graph_node_embedding : list Mem) (graph_node_mask : list Vec)
    (rnn_node_embedding : list Mem)
    (graph_level_embedding : option (list Vec * list Vec))
    (tgt_tree_batch : list Tree) (enc_batch : option (list (list Z)))
    (oov_dict : option Vocab)
    (form_manager : Vocab) (dec_hidden_size max_seq max_depth : nat)
    (enc_outputs : list Mem) (enc_w_list : option (list (list Z))) :
  let pass := _run_forward_pass d rand graph_node_embedding graph_node_mask
                rnn_node_embedding graph_level_embedding tgt_tree_batch enc_batch
                oov_dict in
  let run := translate d form_manager dec_hidden_size max_seq max_depth enc_outputs
               enc_w_list oov_dict in
  (forall n ev, trace (fst pass) !! n = Some (Stepped ev) ->
     ev_sibling ev = None /\
     ev_out ev = decode_step d (length tgt_tree_batch) (ev_input ev) (ev_state ev)
                   graph_node_embedding (ev_parent ev) None oov_dict enc_batch /\
     (tdu_use_sibling (rnn d) = true -> ev_out ev = Raise TypeError)) /\
  (forall n c, calls (fst run) !! n = Some c ->
     ce_sibling c = None /\
     ce_out c = decode_step d 1 (ce_input c) (ce_state c) enc_outputs (ce_parent c)
                  None oov_dict enc_w_list /\
     (tdu_use_sibling (rnn d) = true -> ce_out c = Raise TypeError)) /\
  (let toy := __init__ Toy.config in
   let tr := trace (fst (_run_forward_pass toy (fun _ => 0%Q) Toy.memory [] [] None
                           [Toy.three_siblings] None None)) in
   let cs := calls (fst (translate toy Toy.vocab 1 16 8 Toy.memory None None)) in
   (exists dec_batch queue_tree max_index queue,
      get_dec_batch [Toy.three_siblings] 1 Toy.vocab
        = Ok (dec_batch, queue_tree, max_index) /\
      queue_tree !! 0 = Some queue /\ find_sibling 4 queue = Some 2) /\
   seeded_sibling tr 4 = Some [[23%Q]] /\
   snd <$> terminal_state tr 2 = Some [[23%Q]] /\
   snd <$> terminal_state tr 3 = Some [[65%Q]] /\
   (qd_parent <$> queue_decode (fst (translate toy Toy.vocab 1 16 8 Toy.memory None None)) !! 1)
     = Some 1 /\
   (qd_parent <$> queue_decode (fst (translate toy Toy.vocab 1 16 8 Toy.memory None None)) !! 2)
     = Some 1 /\
   head_sibling_state cs 3 = Some [[2%Q]] /\
   snd <$> head_terminal_state cs 2 = Some [[44%Q]]).
Proof.
  intros pass run. split; [|split].
  - intros n ev Hn.
    assert (ev_sibling ev = None /\
            ev_out ev = decode_step d (length tgt_tree_batch) (ev_input ev) (ev_state ev)
                          graph_node_embedding (ev_parent ev) None oov_dict enc_batch)
      as [H1 H2].
    { subst pass.
      destruct (graph_states d graph_node_embedding graph_level_embedding)
        as [[gc gh]|x|] eqn:Hg.
      - destruct (get_dec_batch_spec tgt_tree_batch (tgt_vocab d))
          as (db & qt & mi & Hb & _).
        pose proof (pass_trace_ok d rand graph_node_embedding graph_node_mask
                      rnn_node_embedding graph_level_embedding tgt_tree_batch enc_batch
                      oov_dict gc gh db qt mi Hg Hb n _ Hn) as H.
        destruct H as [(_ & Hs & Ho & _) _]. done.
      - unfold _run_forward_pass in Hn. rewrite Hg in Hn. discriminate.
      - unfold _run_forward_pass in Hn. rewrite Hg in Hn. discriminate. }
    split; [done|]. split; [done|]. intros Hsib. rewrite H2.
    by apply decode_step_needs_sibling.
  - intros n c Hn. subst run.
    destruct (translate _ _ _ _ _ _ _ _) as [st r] eqn:E.
    destruct (translate_inv _ _ _ _ _ _ _ _ _ _ E) as (HF & _ & _).
    rewrite Forall_lookup in HF. destruct (HF n c Hn) as (_ & H1 & H2).
    split; [done|]. split; [done|]. intros Hsib. rewrite H2.
    by apply decode_step_needs_sibling.
  - clear pass run. cbv zeta. split.
    + eexists _, _, _, _. split; [vm_compute; reflexivity|].
      split; [reflexivity|]. vm_compute. reflexivity.
    + repeat split; vm_compute; reflexivity.
Qed.

(** C1 at work: with [use_sibling] the first step of the pass on the target
    with three child trees, and the first step of greedy inference, are
    logged without sibling argument and raise [TypeError]. *)
Lemma C1_witness :
  let d := __init__ Toy.config_sibling in
  (exists ev,
     trace (fst (_run_forward_pass d (fun _ => 0%Q) Toy.memory [] [] None
                   [Toy.three_siblings] None None)) !! 1 = Some (Stepped ev) /\
     ev_sibling ev = None /\ ev_out ev = Raise TypeError) /\
  (exists c,
     calls (fst (translate d Toy.vocab 1 16 8 Toy.memory None None)) !! 0 = Some c /\
     ce_sibling c = None /\ ce_out c = Raise TypeError).
Proof.
  intros d.
  destruct (C1_sibling_state_never_reaches_the_step d (fun _ => 0%Q) Toy.memory [] []
              None [Toy.three_siblings] None None Toy.vocab 1 16 8 Toy.memory None)
    as (Hpass & Hrun & _).
  split.
  - assert (exists ev,
              trace (fst (_run_forward_pass d (fun _ => 0%Q) Toy.memory [] [] None
                            [Toy.three_siblings] None None)) !! 1 = Some (Stepped ev))
      as [ev E] by (eexists; vm_compute; reflexivity).
    exists ev. split; [exact E|].
    destruct (Hpass 1 ev E) as (H1 & _ & H3). split; [exact H1 | apply H3; reflexivity].
  - assert (exists c,
              calls (fst (translate d Toy.vocab 1 16 8 Toy.memory None None)) !! 0 = Some c)
      as [c E] by (eexists; vm_compute; reflexivity).
    exists c. split; [exact E|].
    destruct (Hrun 0 c E) as (H1 & _ & H3). split; [exact H1 | apply H3; reflexivity].
Defined.

(** ** The format of the target matrices *)

Lemma fill_row_eq lparen c width (ws : list Z) :
  length ws + 2 <= width -> fill_row lparen c width ws = level_row lparen c width ws.
Proof.
  intros Hw. unfold fill_row, level_row.
  destruct ws as [|w0 ws']; [done|].
  remember (w0 :: ws') as ws eqn:Hws.
  assert (0 < length ws) as Hpos by (rewrite Hws; simpl; lia).
  assert ((0 <? length ws) = true) as -> by (by apply Nat.ltb_lt).
  set (row1 := foldl (fun row jw => <[S (fst jw) := snd jw]> row) (replicate width 0%Z)
                 (imap (fun j w => (j, w)) ws)).
  assert (forall j, row1 !! S j =
            if decide (0 <= j < 0 + length ws) then ws !! (j - 0)
            else replicate width 0%Z !! S j) as Hlook.
  { intros j. apply (fill_loop_lookup ws 0 (replicate width 0%Z) j).
    rewrite length_replicate. lia. }
  assert (length row1 = width) as Hlen.
  { unfold row1. rewrite <- (length_replicate width 0%Z) at 2.
    apply (fill_loop_length ws 0 (replicate width 0%Z)). }
  clear Hws.
  apply list_eq. intros i.
  destruct (decide (i = length ws + 1)) as [->|Hi1].
  { rewrite list_lookup_insert_eq by (rewrite length_insert; lia).
    change (((if c =? 1 then 1%Z else lparen) :: ws ++ 2%Z :: replicate (width - length ws - 2) 0%Z)
              !! (length ws + 1))
      with (((if c =? 1 then 1%Z else lparen) :: (ws ++ 2%Z :: replicate (width - length ws - 2) 0%Z))
              !! (length ws + 1)).
    replace (length ws + 1) with (S (length ws + 0)) by lia. simpl.
    rewrite Nat.add_0_r. by rewrite list_lookup_middle. }
  rewrite list_lookup_insert_ne by lia.
  destruct i as [|i].
  { rewrite list_lookup_insert_eq by lia. done. }
  rewrite list_lookup_insert_ne by lia.
  rewrite Hlook.
  change (((if c =? 1 then 1%Z else lparen) :: ws ++ 2%Z :: replicate (width - length ws - 2) 0%Z)
            !! S i)
    with ((ws ++ 2%Z :: replicate (width - length ws - 2) 0%Z) !! i).
  case_decide as Hd.
  - rewrite Nat.sub_0_r. rewrite lookup_app_l by lia. done.
  - rewrite lookup_app_r by lia.
    destruct (i - length ws) as [|k] eqn:Hk; [lia|]. simpl.
    destruct (decide (S i < width)) as [Hlt|Hge].
    + rewrite !lookup_replicate_2 by lia. done.
    + rewrite !(proj2 (lookup_ge_None _ _)); [done| |]; rewrite length_replicate; lia.
Qed.

Lemma level_scan_width cur queues mi mw :
  snd (level_scan cur queues mi mw) =
    foldl (fun a q => Z.max a (Z.of_nat (length (fst (expand cur q))))) mw queues.
Proof.
  revert mi mw. induction queues as [|q rest IH]; intros mi mw; simpl; [done|].
  destruct (expand cur q) as [w_list q'] eqn:E. simpl.
  set (mi1 := if cur <=? length q
              then (if mi <? length q' then length q' else mi) else mi).
  set (mw1 := if (mw <? Z.of_nat (length w_list))%Z then Z.of_nat (length w_list) else mw).
  specialize (IH mi1 mw1).
  destruct (level_scan cur rest mi1 mw1) as [[[ws qs] mi'] mw']. simpl in *.
  rewrite IH. f_equal. unfold mw1.
  destruct (Z.ltb_spec mw (Z.of_nat (length w_list))); lia.
Qed.

Lemma foldl_max_lengths (lens : list nat) (a : Z) :
  foldl (fun a n => Z.max a (Z.of_nat n)) a lens =
    match lens with
    | [] => a
    | _ => Z.max a (Z.of_nat (max_list lens))
    end.
Proof.
  revert a. induction lens as [|n lens IH]; intros a; [done|].
  simpl. rewrite IH. destruct lens as [|n' lens']; simpl; lia.
Qed.

Lemma level_scan_width_eq cur queues mi :
  1 <= cur ->
  Z.to_nat (snd (level_scan cur queues mi (-1)%Z) + 2) = level_width queues cur.
Proof.
  intros Hc. rewrite level_scan_width.
  assert (forall a,
    foldl (fun a q => Z.max a (Z.of_nat (length (fst (expand cur q))))) a queues =
    foldl (fun a n => Z.max a (Z.of_nat n)) a
      (map (fun q => length (words_at q cur)) queues)) as ->.
  { induction queues as [|q rest IH]; intros a; [done|]. simpl. rewrite IH.
    do 3 f_equal. rewrite expand_spec by done. unfold words_at.
    by destruct (q !! (cur - 1)). }
  rewrite foldl_max_lengths. unfold level_width.
  destruct queues as [|q rest]; [done|]. simpl map. cbv iota. lia.
Qed.

Lemma max_list_lookup (l : list nat) i n : l !! i = Some n -> n <= max_list l.
Proof. intros H. apply max_list_elem_of_le. by eapply list_elem_of_lookup_2. Qed.

Lemma words_at_stable cur (q q' : list QTree) :
  1 <= cur -> q `prefix_of` q' -> (length q < cur -> q' = q) ->
  words_at q' cur = words_at q cur.
Proof.
  intros Hc Hp Hs. unfold words_at.
  destruct (q !! (cur - 1)) as [e|] eqn:E.
  - by rewrite (prefix_lookup_Some _ _ _ _ E Hp).
  - apply lookup_ge_None in E. rewrite Hs by lia.
    by rewrite (proj2 (lookup_ge_None q (cur - 1))) by lia.
Qed.

Lemma level_rows_eq lparen cur (qt : list (list QTree)) :
  1 <= cur ->
  map (fill_row lparen cur (level_width qt cur)) (map (fun q => fst (expand cur q)) qt) =
  map (fun q => level_row lparen cur (level_width qt cur) (words_at q cur)) qt.
Proof.
  intros Hc. rewrite map_map. apply list_eq. intros b.
  rewrite !list_lookup_fmap. destruct (qt !! b) as [q|] eqn:Hq; [|done]. simpl. f_equal.
  assert (fst (expand cur q) = words_at q cur) as ->.
  { rewrite expand_spec by done. unfold words_at. by destruct (q !! (cur - 1)). }
  apply fill_row_eq. unfold level_width. destruct qt as [|q0 rest]; [done|].
  assert (length (words_at q cur)
          <= max_list (map (fun q => length (words_at q cur)) (q0 :: rest))) as H.
  { apply (max_list_lookup _ b). by rewrite list_lookup_fmap, Hq. }
  lia.
Qed.

Lemma get_dec_batch_loop_format lparen (fuel : nat) :
  forall cur mi qt db db' qt' mi',
    1 <= cur <= S mi -> (forall c, cur <= c -> db !! c = None) ->
    get_dec_batch_loop fuel lparen cur mi qt db = Ok (db', qt', mi') ->
    mi <= mi' /\
    Forall2 (fun q q' => q `prefix_of` q' /\ (length q < cur -> q' = q)) qt qt' /\
    (forall c, c < cur -> db' !! c = db !! c) /\
    (forall c, cur <= c -> c <= mi' ->
       db' !! c =
         Some (level_width qt' c,
               map (fun q => level_row lparen c (level_width qt' c) (words_at q c)) qt')) /\
    (forall c, cur <= c -> mi' < c -> db' !! c = None).
Proof.
  induction fuel as [|fuel IH]; intros cur mi qt db db' qt' mi' Hcur Hnone H;
    [discriminate|].
  simpl in H. destruct (Nat.leb_spec cur mi) as [Hle|Hgt].
  - destruct (level_scan_spec cur qt mi (-1)%Z) as (mi1 & mw & Heq & Hmi & _).
    pose proof (level_scan_width_eq cur qt mi ltac:(lia)) as Hw.
    rewrite Heq in H, Hw. simpl in Hw. rewrite Hw in H.
    apply IH in H as (Hmi' & HF & Hlow & Hmid & Hhigh); [|lia|].
    2:{ intros c Hc. rewrite lookup_insert_ne by lia. apply Hnone. lia. }
    assert (Forall2 (fun q q' => q `prefix_of` q' /\ (length q < cur -> q' = q)) qt qt')
      as HF'.
    { apply Forall2_fmap_l in HF. eapply Forall2_impl; [exact HF|].
      intros q q' [Hp Hs]. simpl in *. split.
      - etrans; [|exact Hp]. apply expand_prefix. lia.
      - intros Hlen.
        assert (snd (expand cur q) = q) as Hq.
        { rewrite expand_spec by lia.
          by rewrite (proj2 (lookup_ge_None q (cur - 1))) by lia. }
        rewrite Hq in Hs. apply Hs. lia. }
    split; [lia|]. split; [exact HF'|]. split; [|split].
    + intros c Hc. rewrite Hlow by lia. rewrite lookup_insert_ne by lia. done.
    + intros c Hc1 Hc2. destruct (decide (c = cur)) as [->|Hne]; [|apply Hmid; lia].
      rewrite Hlow by lia. rewrite lookup_insert_eq.
      assert (map (fun q => words_at q cur) qt' = map (fun q => words_at q cur) qt) as Hws.
      { apply list_eq. intros b. rewrite !list_lookup_fmap.
        destruct (qt !! b) as [q|] eqn:Hq.
        - destruct (Forall2_lookup_l _ _ _ _ _ HF' Hq) as (q' & -> & Hp & Hs). simpl.
          f_equal. apply words_at_stable; [lia | done | done].
        - apply Forall2_length in HF'.
          rewrite (proj2 (lookup_ge_None qt' b)); [done|].
          apply lookup_ge_None in Hq. lia. }
      assert (level_width qt' cur = level_width qt cur) as Hwid.
      { unfold level_width. pose proof (Forall2_length _ _ _ HF') as Hlen.
        destruct qt as [|q0 r0], qt' as [|q1 r1]; try done.
        rewrite <- (map_map (fun q => words_at q cur) length (q1 :: r1)).
        rewrite <- (map_map (fun q => words_at q cur) length (q0 :: r0)).
        by rewrite Hws. }
      rewrite Hwid. f_equal. f_equal. rewrite level_rows_eq by lia.
      rewrite <- (map_map (fun q => words_at q cur)
                   (level_row lparen cur (level_width qt cur)) qt).
      rewrite <- (map_map (fun q => words_at q cur)
                   (level_row lparen cur (level_width qt cur)) qt').
      by rewrite Hws.
    + intros c Hc1 Hc2. apply Hhigh; lia.
  - inversion H; subst. split; [lia|]. split; [|split; [|split]].
    + apply Forall_Forall2_diag. apply Forall_forall. by intros q _.
    + done.
    + intros c Hc1 Hc2. lia.
    + intros c Hc1 Hc2. by apply Hnone.
Qed.

Lemma largest_tree_ge trees T : T ∈ trees -> tree_size T <= largest_tree trees.
Proof.
  induction trees as [|t trees IH]; intros Hin; [by apply elem_of_nil in Hin|].
  apply elem_of_cons in Hin as [->|Hin]; simpl; [lia|]. specialize (IH Hin). lia.
Qed.

Lemma largest_tree_pos trees : 1 <= largest_tree trees.
Proof. induction trees as [|t trees IH]; simpl; lia. Qed.

Lemma largest_tree_le trees m :
  1 <= m -> (forall T, T ∈ trees -> tree_size T <= m) -> largest_tree trees <= m.
Proof.
  intros Hm. induction trees as [|t trees IH]; intros H; simpl; [done|].
  pose proof (H t ltac:(left)) as Ht.
  assert (largest_tree trees <= m) by (apply IH; intros T HT; apply H; by right). lia.
Qed.

Lemma largest_tree_fuel trees : largest_tree trees + 2 <= linearise_fuel trees + 1.
Proof. unfold linearise_fuel. induction trees as [|t trees IH]; simpl in *; lia. Qed.

Lemma lin_inv_init trees bound :
  1 <= bound -> lin_inv trees bound 1 1 (map init_queue trees) ∅.
Proof.
  intros Hb. split.
  - lia.
  - apply Forall2_fmap_r. apply Forall_Forall2_diag.
    apply Forall_forall. intros T _. apply queue_inv_init.
  - lia.
  - intros q Hq. apply list_elem_of_fmap in Hq as (T & -> & _). simpl. lia.
  - intros c Hc. lia.
Qed.

(** What [get_dec_batch] returns on the first [n] trees, in one statement. *)
Lemma get_dec_batch_result trees n form_manager :
  n <= length trees ->
  exists db qt mi,
    get_dec_batch trees n form_manager = Ok (db, qt, mi) /\
    lin_inv (take n trees) (largest_tree (take n trees)) (S mi) mi qt db /\
    (forall c, 1 <= c <= mi ->
       db !! c =
         Some (level_width qt c,
               map (fun q => level_row (get_symbol_idx form_manager "(") c
                               (level_width qt c) (words_at q c)) qt)) /\
    (forall c, ~ 1 <= c <= mi -> db !! c = None).
Proof.
  intros Hn. unfold get_dec_batch. destruct (Nat.leb_spec n (length trees)); [|lia].
  set (ts := take n trees).
  destruct (get_dec_batch_loop_spec ts (largest_tree ts) (get_symbol_idx form_manager "(")
              (largest_tree_ge ts) (linearise_fuel ts) 1 1 (map init_queue ts) ∅
              (lin_inv_init ts _ (largest_tree_pos ts)) (largest_tree_fuel ts))
    as (db & qt & mi & E & Hlin).
  exists db, qt, mi. split; [exact E|]. split; [exact Hlin|].
  assert (1 <= 1 <= S 1) as H11 by lia.
  destruct (get_dec_batch_loop_format _ _ 1 1 _ ∅ _ _ _ H11 (fun c _ => lookup_empty c) E)
    as (_ & _ & Hlow & Hmid & Hhigh).
  split.
  - intros c Hc. apply Hmid; lia.
  - intros c Hc. destruct (decide (c < 1)) as [H0|H0].
    + rewrite Hlow by done. apply lookup_empty.
    + apply Hhigh; lia.
Qed.

Lemma queue_inv_full T mi queue :
  queue_inv T (S mi) queue -> length queue <= mi -> length queue = tree_size T.
Proof.
  intros H Hlen. pose proof (qi_size _ _ _ H) as Hs.
  replace (S mi - 1) with mi in Hs by lia.
  rewrite drop_ge in Hs by lia. simpl in Hs. lia.
Qed.

(** X1.  [get_dec_batch] on a batch size beyond the number of trees raises
    [IndexError].  Otherwise it returns for every batch: the queue of each of
    the first [batch_size] trees starts with the root and has one entry for
    each [Tree] object of the tree; [max_index] is the largest such number
    in the batch (1 for an empty batch); and [dec_batch] has exactly the keys
    1 to [max_index]. *)
Theorem X1_get_dec_batch_queues (dec_tree_batch : list Tree) (batch_size : nat)
    (form_manager : Vocab) :
  (length dec_tree_batch < batch_size ->
   get_dec_batch dec_tree_batch batch_size form_manager = Raise IndexError) /\
  (batch_size <= length dec_tree_batch ->
   exists dec_batch queue_tree max_index,
     get_dec_batch dec_tree_batch batch_size form_manager
       = Ok (dec_batch, queue_tree, max_index) /\
     max_index = largest_tree (take batch_size dec_tree_batch) /\
     Forall2 (fun T queue =>
                length queue = tree_size T /\
                queue !! 0 = Some {| q_tree := T; q_parent := 0; q_child_index := 1 |})
       (take batch_size dec_tree_batch) queue_tree /\
     (forall c, is_Some (dec_batch !! c) <-> 1 <= c <= max_index)).
Proof.
  split.
  - intros Hlt. unfold get_dec_batch.
    destruct (Nat.leb_spec batch_size (length dec_tree_batch)); [lia | done].
  - intros Hle.
    destruct (get_dec_batch_result dec_tree_batch batch_size form_manager Hle)
      as (db & qt & mi & E & Hlin & Hin & Hout).
    exists db, qt, mi. split; [exact E|].
    set (ts := take batch_size dec_tree_batch) in *.
    assert (Forall2 (fun T queue =>
                       length queue = tree_size T /\
                       queue !! 0 = Some {| q_tree := T; q_parent := 0; q_child_index := 1 |})
              ts qt) as HF.
    { pose proof (li_queues _ _ _ _ _ _ Hlin) as HQ.
      apply Forall2_same_length_lookup. split; [by apply Forall2_length in HQ|].
      intros b T q HT Hq.
      destruct (Forall2_lookup_l _ _ _ _ _ HQ HT) as (q' & Hq' & Hinv).
      rewrite Hq in Hq'. inversion Hq'; subst q'.
      split; [|exact (qi_root _ _ _ Hinv)].
      apply (queue_inv_full T mi q Hinv). apply (li_len _ _ _ _ _ _ Hlin).
      by eapply list_elem_of_lookup_2. }
    split; [|split; [exact HF|]].
    + pose proof (li_max _ _ _ _ _ _ Hlin) as Hmax.
      assert (largest_tree ts <= mi); [|lia].
      apply largest_tree_le; [lia|]. intros T HT.
      apply list_elem_of_lookup in HT as [b Hb].
      destruct (Forall2_lookup_l _ _ _ _ _ HF Hb) as (q & Hq & Hlen & _).
      rewrite <- Hlen. apply (li_len _ _ _ _ _ _ Hlin). by eapply list_elem_of_lookup_2.
    + intros c. split.
      * intros Hc. destruct (decide (1 <= c <= mi)) as [|Hn]; [done|].
        rewrite (Hout c Hn) in Hc. by destruct Hc.
      * intros Hc. rewrite (Hin c Hc). eauto.
Qed.

Lemma X1_witness :
  get_dec_batch [Toy.three_siblings] 2 Toy.vocab = Raise IndexError /\
  exists dec_batch queue_tree max_index,
    get_dec_batch [Toy.three_siblings; Node []] 1 Toy.vocab
      = Ok (dec_batch, queue_tree, max_index) /\
    max_index = largest_tree (take 1 [Toy.three_siblings; Node []]) /\
    Forall2 (fun T queue =>
               length queue = tree_size T /\
               queue !! 0 = Some {| q_tree := T; q_parent := 0; q_child_index := 1 |})
      (take 1 [Toy.three_siblings; Node []]) queue_tree /\
    (forall c, is_Some (dec_batch !! c) <-> 1 <= c <= max_index).
Proof.
  split.
  - apply (X1_get_dec_batch_queues [Toy.three_siblings] 2 Toy.vocab). simpl. lia.
  - apply (X1_get_dec_batch_queues [Toy.three_siblings; Node []] 1 Toy.vocab). simpl. lia.
Defined.

(** X2.  The matrix of level [c] has one row for each tree and two columns
    more than the longest word list at queue position [c] (one column for an
    empty batch).  The row of a tree whose entry at [c] has children is the
    first token (1 at level 1, the index of ["("] at a later level), the
    children in order with 4 for each child tree, the token 2, and zeros; the
    row of a tree without entry at [c], or whose entry has no child, is all
    zeros, without first or last token. *)
Theorem X2_get_dec_batch_matrices (dec_tree_batch : list Tree) (batch_size : nat)
    (form_manager : Vocab) :
  batch_size <= length dec_tree_batch ->
  exists dec_batch queue_tree max_index,
    get_dec_batch dec_tree_batch batch_size form_manager
      = Ok (dec_batch, queue_tree, max_index) /\
    length queue_tree = batch_size /\
    forall c, 1 <= c <= max_index ->
      dec_batch !! c =
        Some (level_width queue_tree c,
              map (fun queue => level_row (get_symbol_idx form_manager "(") c
                                  (level_width queue_tree c) (words_at queue c))
                  queue_tree).
Proof.
  intros Hle.
  destruct (get_dec_batch_result dec_tree_batch batch_size form_manager Hle)
    as (db & qt & mi & E & Hlin & Hin & _).
  exists db, qt, mi. split; [exact E|]. split; [|exact Hin].
  rewrite <- (Forall2_length _ _ _ (li_queues _ _ _ _ _ _ Hlin)).
  rewrite length_take. lia.
Qed.

Lemma X2_witness :
  exists dec_batch queue_tree max_index,
    get_dec_batch [Toy.three_siblings; Node []] 2 Toy.vocab
      = Ok (dec_batch, queue_tree, max_index) /\
    length queue_tree = 2 /\
    forall c, 1 <= c <= max_index ->
      dec_batch !! c =
        Some (level_width queue_tree c,
              map (fun queue => level_row (get_symbol_idx Toy.vocab "(") c
                                  (level_width queue_tree c) (words_at queue c))
                  queue_tree).
Proof.
  apply (X2_get_dec_batch_matrices [Toy.three_siblings; Node []] 2 Toy.vocab). simpl. lia.
Defined.

(** ** The order of a queue and the scan for a left sibling *)

Lemma sub_entries_sorted cur (cs : list Child) : forall ic j1 j2 e1 e2,
  j1 < j2 -> sub_entries cur ic cs !! j1 = Some e1 -> sub_entries cur ic cs !! j2 = Some e2 ->
  q_child_index e1 < q_child_index e2.
Proof.
  induction cs as [|[w|t] cs IH]; intros ic j1 j2 e1 e2 Hlt H1 H2; simpl in *.
  - discriminate.
  - eapply IH; eauto.
  - destruct j2 as [|j2]; [lia|]. simpl in H2.
    destruct j1 as [|j1]; simpl in H1.
    + inversion H1; subst e1. simpl.
      destruct (sub_entries_sound _ _ _ _ _ H2) as (_ & c & Hc & _). lia.
    + eapply IH; [|exact H1|exact H2]. lia.
Qed.

Lemma expand_sorted T cur queue :
  1 <= cur -> queue_inv T cur queue -> queue_sorted queue ->
  queue_sorted (snd (expand cur queue)).
Proof.
  intros Hc Hinv Hs. rewrite expand_spec by done.
  destruct (queue !! (cur - 1)) as [e|] eqn:He; simpl; [|done].
  intros i j ei ej Hij Hi Hj.
  destruct (decide (j < length queue)) as [Hjl|Hjl].
  - rewrite lookup_app_l in Hi, Hj by lia. by apply (Hs i j).
  - rewrite lookup_app_r in Hj by lia.
    destruct (sub_entries_sound _ _ _ _ _ Hj) as (Hpj & _).
    destruct (decide (i < length queue)) as [Hil|Hil].
    + rewrite lookup_app_l in Hi by lia.
      destruct i as [|i]; [lia|].
      destruct (qi_parent _ _ _ Hinv _ _ Hi) as (_ & Hpi & _). left. lia.
    + rewrite lookup_app_r in Hi by lia.
      destruct (sub_entries_sound _ _ _ _ _ Hi) as (Hpi & _).
      right. split; [lia|].
      eapply (sub_entries_sorted cur _ 0 (i - length queue) (j - length queue));
        [lia | exact Hi | exact Hj].
Qed.

Lemma get_dec_batch_loop_sorted lparen (fuel : nat) :
  forall cur mi qt db db' qt' mi',
    1 <= cur ->
    Forall (fun q => (exists T, queue_inv T cur q) /\ queue_sorted q) qt ->
    get_dec_batch_loop fuel lparen cur mi qt db = Ok (db', qt', mi') ->
    Forall queue_sorted qt'.
Proof.
  induction fuel as [|fuel IH]; intros cur mi qt db db' qt' mi' Hcur HF H;
    [discriminate|].
  simpl in H. destruct (Nat.leb_spec cur mi) as [Hle|Hgt].
  - destruct (level_scan_spec cur qt mi (-1)%Z) as (mi1 & mw & Heq & _).
    rewrite Heq in H. apply IH in H; [done | lia |].
    apply Forall_fmap. eapply Forall_impl; [exact HF|].
    intros q [[T HT] Hs]. simpl. split.
    + exists T. by apply expand_inv.
    + by apply (expand_sorted T).
  - inversion H; subst. eapply Forall_impl; [exact HF|]. by intros q [_ Hs].
Qed.

Lemma get_dec_batch_sorted trees n form_manager db qt mi :
  get_dec_batch trees n form_manager = Ok (db, qt, mi) -> Forall queue_sorted qt.
Proof.
  unfold get_dec_batch. destruct (n <=? length trees); [|discriminate].
  apply get_dec_batch_loop_sorted; [lia|].
  apply Forall_fmap. apply Forall_forall. intros T _. simpl. split.
  - exists T. apply queue_inv_init.
  - intros i j ei ej Hij Hi Hj. destruct j as [|j]; [lia|]. by destruct j.
Qed.

(** A scan that keeps the last index that passes a test. *)
Lemma foldl_last_match (p : nat -> bool) (n : nat) :
  match foldl (fun (acc : option nat) i => if p i then Some i else acc) None (seq 0 n) with
  | Some k => k < n /\ p k = true /\ forall i, k < i < n -> p i = false
  | None => forall i, i < n -> p i = false
  end.
Proof.
  induction n as [|n IH]; [simpl; intros; lia|].
  rewrite seq_S, foldl_app. simpl.
  destruct (p n) eqn:Hn.
  - split; [lia|]. split; [done|]. intros i Hi. lia.
  - destruct (foldl _ None (seq 0 n)) as [k|].
    + destruct IH as (Hk & Hpk & Hlast). split; [lia|]. split; [done|].
      intros i Hi. destruct (decide (i = n)) as [->|]; [done|]. apply Hlast. lia.
    + intros i Hi. destruct (decide (i = n)) as [->|]; [done|]. apply IH. lia.
Qed.


Lemma find_sibling_scan cur queue :
  find_sibling cur queue =
    foldl (fun (acc : option nat) i => if sibling_test cur queue i then Some i else acc)
      None (seq 0 (length queue)).
Proof.
  unfold find_sibling. generalize (@None nat). generalize (seq 0 (length queue)).
  induction l as [|i l IH]; intros acc; [done|]. simpl. rewrite IH. f_equal.
  unfold sibling_test. destruct (queue !! i), (queue !! (cur - 1)); done.
Qed.

Lemma find_sibling_previous T mi queue cur :
  queue_inv T (S mi) queue -> queue_sorted queue -> 2 <= cur ->
  find_sibling cur queue =
    match queue !! (cur - 2), queue !! (cur - 1) with
    | Some e, Some c => if q_parent e =? q_parent c then Some (cur - 2) else None
    | _, _ => None
    end.
Proof.
  intros Hinv Hs Hcur. rewrite find_sibling_scan.
  pose proof (foldl_last_match (sibling_test cur queue) (length queue)) as H.
  destruct (queue !! (cur - 1)) as [c|] eqn:Hc.
  2:{ assert (forall i, sibling_test cur queue i = false) as Hf.
      { intros i. unfold sibling_test. rewrite Hc. by destruct (queue !! i). }
      destruct (foldl _ None _) as [k|].
      - destruct H as (_ & Hk & _). rewrite Hf in Hk. discriminate.
      - by destruct (queue !! (cur - 2)). }
  pose proof (lookup_lt_Some _ _ _ Hc) as Hlt.
  destruct (lookup_lt_is_Some_2 queue (cur - 2) ltac:(lia)) as [e He]. rewrite He.
  replace (cur - 1) with (S (cur - 2)) in Hc by lia.
  destruct (qi_parent _ _ _ Hinv _ _ Hc) as (Hpc & _).
  replace (S (cur - 2)) with (cur - 1) in Hc by lia.
  assert (forall k ek, queue !! k = Some ek -> q_parent ek = q_parent c -> 1 <= k) as Hroot.
  { intros k ek Hk Hp. destruct k as [|k]; [|lia].
    rewrite (qi_root _ _ _ Hinv) in Hk. inversion Hk; subst ek. simpl in Hp. lia. }
  assert (forall k, sibling_test cur queue k = true ->
            exists ek, queue !! k = Some ek /\ k < cur - 1 /\ q_parent ek = q_parent c) as Htest.
  { intros k Hk. unfold sibling_test in Hk. rewrite Hc in Hk.
    destruct (queue !! k) as [ek|]; [|discriminate].
    apply andb_prop in Hk as [Hk _]. apply andb_prop in Hk as [Hk H3].
    apply andb_prop in Hk as [_ H2]. apply Nat.ltb_lt in H2. apply Nat.eqb_eq in H3.
    by exists ek. }
  destruct (Nat.eqb_spec (q_parent e) (q_parent c)) as [Heq|Hne].
  - pose proof (Hroot _ _ He Heq) as H1.
    assert (sibling_test cur queue (cur - 2) = true) as Hprev.
    { unfold sibling_test. rewrite He, Hc.
      destruct (Hs (cur - 2) (cur - 1) e c ltac:(lia) He Hc) as [Hl|[_ Hl]]; [lia|].
      rewrite (proj2 (Nat.leb_le _ _)) by lia.
      rewrite (proj2 (Nat.ltb_lt _ _)) by lia.
      rewrite (proj2 (Nat.eqb_eq _ _)) by done.
      by rewrite (proj2 (Nat.ltb_lt _ _)) by lia. }
    destruct (foldl _ None _) as [k|].
    + destruct H as (Hk & Hpk & Hlast). f_equal.
      destruct (Htest k Hpk) as (ek & _ & Hk2 & _).
      destruct (decide (k = cur - 2)) as [|Hd]; [done|].
      rewrite Hlast in Hprev by lia. discriminate.
    + rewrite H in Hprev by lia. discriminate.
  - destruct (foldl _ None _) as [k|]; [|done]. exfalso.
    destruct H as (Hk & Hpk & _).
    destruct (Htest k Hpk) as (ek & Hek & Hk2 & Hp).
    pose proof (Hroot _ _ Hek Hp) as H1.
    destruct (decide (k = cur - 2)) as [->|Hd].
    + rewrite He in Hek. inversion Hek; subst ek. done.
    + destruct (Hs k (cur - 2) ek e ltac:(lia) Hek He) as [Hl|[Hl _]];
        destruct (Hs (cur - 2) (cur - 1) e c ltac:(lia) He Hc) as [Hr|[Hr _]]; lia.
Qed.

(** X3.  In every queue [get_dec_batch] builds, the entries after the root
    come by parent and, under one parent, by child index.  The scan of the
    training pass for a left sibling of queue position [cur_index], from 2
    on, therefore yields the index [cur_index - 2] of the entry just before
    it when that entry has the same parent, and nothing otherwise. *)
Theorem X3_left_sibling_is_previous_entry (dec_tree_batch : list Tree) (batch_size : nat)
    (form_manager : Vocab) :
  batch_size <= length dec_tree_batch ->
  exists dec_batch queue_tree max_index,
    get_dec_batch dec_tree_batch batch_size form_manager
      = Ok (dec_batch, queue_tree, max_index) /\
    forall i queue, queue_tree !! i = Some queue ->
      queue_sorted queue /\
      forall cur_index, 2 <= cur_index ->
        find_sibling cur_index queue =
          match queue !! (cur_index - 2), queue !! (cur_index - 1) with
          | Some e, Some c =>
              if q_parent e =? q_parent c then Some (cur_index - 2) else None
          | _, _ => None
          end.
Proof.
  intros Hle.
  destruct (get_dec_batch_result dec_tree_batch batch_size form_manager Hle)
    as (db & qt & mi & E & Hlin & _).
  exists db, qt, mi. split; [exact E|]. intros i queue Hq.
  pose proof (get_dec_batch_sorted _ _ _ _ _ _ E) as HS.
  rewrite Forall_lookup in HS. specialize (HS i queue Hq).
  split; [exact HS|]. intros cur Hcur.
  destruct (Forall2_lookup_r _ _ _ _ _ (li_queues _ _ _ _ _ _ Hlin) Hq) as (T & _ & HT).
  by apply (find_sibling_previous T mi).
Qed.

Lemma X3_witness :
  exists dec_batch queue_tree max_index,
    get_dec_batch [Toy.three_siblings] 1 Toy.vocab = Ok (dec_batch, queue_tree, max_index) /\
    forall i queue, queue_tree !! i = Some queue ->
      queue_sorted queue /\
      forall cur_index, 2 <= cur_index ->
        find_sibling cur_index queue =
          match queue !! (cur_index - 2), queue !! (cur_index - 1) with
          | Some e, Some c =>
              if q_parent e =? q_parent c then Some (cur_index - 2) else None
          | _, _ => None
          end.
Proof.
  apply (X3_left_sibling_is_previous_entry [Toy.three_siblings] 1 Toy.vocab). simpl. lia.
Defined.

(** ** The log of a pass that returns *)

Lemma step_count_snoc tr e :
  step_count (tr ++ [e]) =
    step_count tr + match e with Stepped _ => 1 | Seeded _ _ _ _ => 0 end.
Proof.
  unfold step_count. rewrite filter_app, length_app. f_equal.
  destruct e; reflexivity.
Qed.

Section PassShape.
Variables (d : StdTreeDecoder) (rand : nat -> Q) (B : nat).
Variables (gc gh : list Vec) (enc_outputs : list Mem).
Variables (oov_dict : option Vocab) (enc_batch : option (list (list Z))).
Variables (db : DecBatch) (qt : list (list QTree)).

Lemma token_step_log m parent_h cur i keys st st' :
  db !! cur = Some m ->
  token_step d rand B enc_outputs oov_dict enc_batch m parent_h cur i st = (st', Ok tt) ->
  log_inv d db keys st -> log_inv d db (keys ++ [(cur, Some i)]) st'.
Proof.
  intros Hm E (Hloss & Hdraws & Hkeys).
  destruct (token_step_cases _ _ _ _ _ _ _ _ _ _ _ _ _ E) as [[Hn _]|H]; [done|].
  destruct H as (c & h & _ & _ & _ & Hok).
  destruct (Hok eq_refl) as (pr & c' & h' & a & ds1 & ds2 & Hout & _ & _ & ->).
  set (ev := step_event d rand B enc_outputs oov_dict enc_batch m parent_h cur i st c h) in *.
  unfold log_inv. cbn [loss draws trace]. split; [|split].
  - unfold trace_loss. rewrite foldl_app.
    change (foldl (step_loss d db) ?a [?x]) with (step_loss d db a x).
    rewrite Hloss. unfold trace_loss.
    generalize (foldl (step_loss d db) 0%Q (trace st)). intros acc.
    unfold step_loss. rewrite Hout.
    change (ev_level ev) with cur. change (ev_step ev) with i. by rewrite Hm.
  - rewrite step_count_snoc. lia.
  - rewrite map_app. by rewrite Hkeys.
Qed.

Lemma run_level_log cur keys st st' :
  run_level d rand B gc gh enc_outputs oov_dict enc_batch db qt cur st = (st', Ok tt) ->
  log_inv d db keys st -> log_inv d db (keys ++ level_keys db cur) st'.
Proof.
  intros E (Hloss & Hdraws & Hkeys). unfold run_level in E.
  apply mbind_ok in E as (s1 & sib & E1 & E). rewrite on_table_eq in E1.
  inversion E1 as [[Hs1 Hsib]]. clear E1 Hsib.
  apply mbind_ok in E as (s2 & parent_h & E2 & E).
  unfold get_ds in E2. inversion E2 as [[Hs2 Hp]]. clear E2 Hp. subst s2.
  apply mbind_ok in E as (s3 & c0 & E3 & E).
  unfold get_ds in E3. inversion E3 as [[Hs3 Hc]]. clear E3 Hc. subst s3.
  apply mbind_ok in E as (s4 & [] & E4 & E).
  unfold log_event in E4. inversion E4 as [Hs4]. clear E4.
  apply mbind_ok in E as (s5 & m & E5 & E).
  apply lift_ok in E5 as [-> E5]. apply of_option_ok in E5.
  unfold level_keys. rewrite E5.
  pose (I := fun (k : nat) (s : TState) =>
    log_inv d db (keys ++ (cur, None) :: map (fun i => (cur, Some i)) (seq 0 k)) s).
  assert (I (length (seq 0 (fst m - 1))) st') as HI.
  { eapply (hoare_mfor I); [| |exact E].
    - intros k i Hk s Hs s' [] Es. apply lookup_seq in Hk as [-> Hk]. simpl in Es.
      unfold I. rewrite seq_S, map_app. simpl.
      replace (keys ++ (cur, None) :: map (fun i => (cur, Some i)) (seq 0 k) ++ [(cur, Some k)])
        with ((keys ++ (cur, None) :: map (fun i => (cur, Some i)) (seq 0 k)) ++ [(cur, Some k)])
        by (by rewrite <- app_assoc).
      by apply (token_step_log m parent_h cur k _ s s').
    - unfold I, log_inv. rewrite <- Hs4, <- Hs1. cbn [loss draws trace]. split; [|split].
      + unfold trace_loss. rewrite foldl_app. simpl. exact Hloss.
      + rewrite step_count_snoc. lia.
      + rewrite map_app. simpl. by rewrite Hkeys. }
  by rewrite length_seq in HI.
Qed.

Lemma level_loop_log remaining : forall cur keys st st',
  level_loop d rand B gc gh enc_outputs oov_dict enc_batch db qt remaining cur st
    = (st', Ok tt) ->
  log_inv d db keys st ->
  log_inv d db
    (keys ++ concat (map (level_keys db)
                       (seq cur (remaining `min` (S (max_dec_tree_depth d) - cur))))) st'.
Proof.
  induction remaining as [|n IH]; intros cur keys st st' E Hinv; simpl in E.
  - inversion E; subst. simpl. by rewrite app_nil_r.
  - destruct (Nat.ltb_spec (max_dec_tree_depth d) cur) as [Hd|Hd].
    + inversion E; subst.
      replace (S (max_dec_tree_depth d) - cur) with 0 by lia.
      rewrite Nat.min_0_r. simpl. by rewrite app_nil_r.
    + apply mbind_ok in E as (s1 & [] & E1 & E).
      pose proof (run_level_log cur keys st s1 E1 Hinv) as H1.
      pose proof (IH (S cur) _ s1 st' E H1) as H2.
      replace (S n `min` (S (max_dec_tree_depth d) - cur))
        with (S (n `min` (S (max_dec_tree_depth d) - S cur))) by lia.
      simpl. rewrite <- app_assoc in H2. exact H2.
Qed.
End PassShape.

(** The log, the draws and the loss of a pass that returns. *)
Lemma pass_log d rand gne mask rne gle trees enc oov l :
  snd (_run_forward_pass d rand gne mask rne gle trees enc oov) = Ok l ->
  exists db qt mi,
    get_dec_batch trees (length trees) (tgt_vocab d) = Ok (db, qt, mi) /\
    let st := fst (_run_forward_pass d rand gne mask rne gle trees enc oov) in
    log_inv d db (pass_keys db (mi `min` max_dec_tree_depth d)) st /\
    l = (loss st / inject_Z (Z.of_nat (length trees)))%Q.
Proof.
  unfold _run_forward_pass.
  destruct (graph_states d gne gle) as [[gc gh]|e|]; [|discriminate|discriminate].
  destruct (get_dec_batch trees (length trees) (tgt_vocab d)) as [[[db qt] mi]|e|];
    [|discriminate|discriminate].
  destruct (level_loop d rand (length trees) gc gh gne oov enc db qt mi 1 (init_tstate d))
    as [st [[]|e|]] eqn:E; [|discriminate|discriminate].
  intros H. exists db, qt, mi. split; [done|].
  destruct (length trees =? 0); [discriminate|]. simpl in *. inversion H; subst l.
  split; [|done].
  pose proof (level_loop_log d rand (length trees) gc gh gne oov enc db qt mi 1 [] _ st E)
    as Hlog.
  replace (S (max_dec_tree_depth d) - 1) with (max_dec_tree_depth d) in Hlog by lia.
  apply Hlog. done.
Qed.

(** X4.  A training pass that returns a loss has run the levels 1 to
    [min max_index max_dec_tree_depth] in order and no other: its log is, for
    each of these levels in turn, the seeding of the level followed by the
    steps 0, 1, ... of the level, one for each column of the level's matrix
    but the last; and [random.random()] was called once for each step. *)
Theorem X4_pass_runs_levels_in_order (d : StdTreeDecoder) (rand : nat -> Q)
    (graph_node_embedding : list Mem) (graph_node_mask : list Vec)
    (rnn_node_embedding : list Mem)
    (graph_level_embedding : option (list Vec * list Vec))
    (tgt_tree_batch : list Tree) (enc_batch : option (list (list Z)))
    (oov_dict : option Vocab) (l : Q) :
  let pass := _run_forward_pass d rand graph_node_embedding graph_node_mask
                rnn_node_embedding graph_level_embedding tgt_tree_batch enc_batch
                oov_dict in
  snd pass = Ok l ->
  exists dec_batch queue_tree max_index,
    get_dec_batch tgt_tree_batch (length tgt_tree_batch) (tgt_vocab d)
      = Ok (dec_batch, queue_tree, max_index) /\
    map event_key (trace (fst pass))
      = pass_keys dec_batch (max_index `min` max_dec_tree_depth d) /\
    draws (fst pass) = step_count (trace (fst pass)).
Proof.
  intros pass Hl. subst pass.
  destruct (pass_log _ _ _ _ _ _ _ _ _ _ Hl) as (db & qt & mi & E & (_ & Hd & Hk) & _).
  exists db, qt, mi. split; [exact E|]. split; [exact Hk | exact Hd].
Qed.

Lemma X4_witness :
  let pass := _run_forward_pass (__init__ Toy.config) (fun _ => 0%Q) Toy.memory [] []
                None [Toy.three_siblings] None None in
  exists l dec_batch queue_tree max_index,
    snd pass = Ok l /\
    get_dec_batch [Toy.three_siblings] 1 Toy.vocab = Ok (dec_batch, queue_tree, max_index) /\
    map event_key (trace (fst pass))
      = pass_keys dec_batch (max_index `min` max_dec_tree_depth (__init__ Toy.config)) /\
    draws (fst pass) = step_count (trace (fst pass)).
Proof.
  assert (exists l, snd (_run_forward_pass (__init__ Toy.config) (fun _ => 0%Q) Toy.memory
                           [] [] None [Toy.three_siblings] None None) = Ok l) as [l Hl]
    by (eexists; vm_compute; reflexivity).
  destruct (X4_pass_runs_levels_in_order (__init__ Toy.config) (fun _ => 0%Q) Toy.memory
              [] [] None [Toy.three_siblings] None None l Hl) as (db & qt & mi & E & H).
  intros pass. exists l, db, qt, mi. split; [exact Hl|]. split; [exact E | exact H].
Defined.

(** X5.  The loss a training pass returns is the sum, over the steps of its
    log in order, of the criterion on the logarithm of the step's
    distribution and the next column of the level's matrix, divided by the
    batch size; levels beyond the depth limit add nothing. *)
Theorem X5_pass_loss_is_sum_over_steps (d : StdTreeDecoder) (rand : nat -> Q)
    (graph_node_embedding : list Mem) (graph_node_mask : list Vec)
    (rnn_node_embedding : list Mem)
    (graph_level_embedding : option (list Vec * list Vec))
    (tgt_tree_batch : list Tree) (enc_batch : option (list (list Z)))
    (oov_dict : option Vocab) (l : Q) :
  let pass := _run_forward_pass d rand graph_node_embedding graph_node_mask
                rnn_node_embedding graph_level_embedding tgt_tree_batch enc_batch
                oov_dict in
  snd pass = Ok l ->
  exists dec_batch queue_tree max_index,
    get_dec_batch tgt_tree_batch (length tgt_tree_batch) (tgt_vocab d)
      = Ok (dec_batch, queue_tree, max_index) /\
    l = (trace_loss d dec_batch (trace (fst pass))
         / inject_Z (Z.of_nat (length tgt_tree_batch)))%Q.
Proof.
  intros pass Hl. subst pass.
  destruct (pass_log _ _ _ _ _ _ _ _ _ _ Hl) as (db & qt & mi & E & (Hloss & _) & Hq).
  exists db, qt, mi. split; [exact E|]. rewrite Hq. cbv zeta in Hloss. by rewrite Hloss.
Qed.

Lemma X5_witness :
  let pass := _run_forward_pass (__init__ Toy.config) (fun _ => 0%Q) Toy.memory [] []
                None [Toy.three_siblings] None None in
  exists l dec_batch queue_tree max_index,
    snd pass = Ok l /\
    get_dec_batch [Toy.three_siblings] 1 Toy.vocab = Ok (dec_batch, queue_tree, max_index) /\
    l = (trace_loss (__init__ Toy.config) dec_batch (trace (fst pass))
         / inject_Z (Z.of_nat (length [Toy.three_siblings])))%Q.
Proof.
  assert (exists l, snd (_run_forward_pass (__init__ Toy.config) (fun _ => 0%Q) Toy.memory
                           [] [] None [Toy.three_siblings] None None) = Ok l) as [l Hl]
    by (eexists; vm_compute; reflexivity).
  destruct (X5_pass_loss_is_sum_over_steps (__init__ Toy.config) (fun _ => 0%Q) Toy.memory
              [] [] None [Toy.three_siblings] None None l Hl) as (db & qt & mi & E & H).
  intros pass. exists l, db, qt, mi. split; [exact Hl|]. split; [exact E | exact H].
Defined.

(** ** The slots of the state table *)

#[local] Instance same_slots_refl : Reflexive same_slots.
Proof. intros st q t. done. Qed.

#[local] Instance same_slots_trans : Transitive same_slots.
Proof. intros a b c H1 H2 q t. etrans; [apply H2 | apply H1]. Qed.

Lemma preserves_put_ds q t j v : preserves same_slots (put_ds q t j v).
Proof.
  intros st. unfold put_ds.
  destruct (ds_set (dec_state st) q t j v) as [ds'|e|] eqn:E; simpl; try reflexivity.
  intros q' t'. simpl. by apply (ds_set_slots _ _ _ _ _ _ _ _ E).
Qed.

Lemma preserves_on_table {A} (P : nat -> nat -> Prop) (m : D A) :
  preserves (tab_frame P) m -> preserves same_slots (on_table m).
Proof.
  intros H st. rewrite on_table_eq. simpl. intros q t. simpl.
  apply (proj1 (H (dec_state st))).
Qed.

Lemma preserves_same {A} (m : T A) :
  (forall st, dec_state (fst (m st)) = dec_state st) -> preserves same_slots m.
Proof. intros H st q t. by rewrite H. Qed.

Lemma preserves_token_step d rand B enc_outputs oov enc m parent_h cur i :
  preserves same_slots (token_step d rand B enc_outputs oov enc m parent_h cur i).
Proof.
  unfold token_step.
  apply preserves_bind; [apply _ | by apply preserves_same |]. intros r.
  apply preserves_bind; [apply _ | by apply preserves_same |]. intros p.
  apply preserves_bind; [apply _ | |].
  { destruct (_ && _); [destruct p|]; by apply preserves_same. }
  intros input_word.
  apply preserves_bind; [apply _ | by apply preserves_same |]. intros c.
  apply preserves_bind; [apply _ | by apply preserves_same |]. intros h.
  apply preserves_bind; [apply _ | by apply preserves_same |]. intros _.
  apply preserves_bind; [apply _ | by apply preserves_same |].
  intros [[pr [c' h']] a].
  apply preserves_bind; [apply _ | apply preserves_put_ds |]. intros _.
  apply preserves_bind; [apply _ | apply preserves_put_ds |]. intros _.
  apply preserves_bind; [apply _ | by apply preserves_same |]. intros l.
  by apply preserves_same.
Qed.

Lemma total_frame {St A} (P I : St -> Prop) (R : St -> St -> Prop) (m : M St A)
    (Q : A -> St -> Prop) :
  total P m Q -> preserves R m -> (forall s s', R s s' -> I s -> I s') ->
  total (fun s => P s /\ I s) m (fun a s' => Q a s' /\ I s').
Proof.
  intros Ht Hp HI s [HP Hs]. destruct (Ht s HP) as (s' & a & E & HQ).
  exists s', a. split; [done|]. split; [done|].
  apply (HI s); [|done]. specialize (Hp s). by rewrite E in Hp.
Qed.

Lemma tight_same_slots d st st' : same_slots st st' -> tight d st -> tight d st'.
Proof.
  intros H Ht q t Hlt. specialize (Ht q t Hlt). specialize (H q t).
  destruct (dec_state st' !! q ≫= (.!! t)) eqn:E; [|done].
  rewrite Ht in H. destruct (proj1 H ltac:(eauto)). discriminate.
Qed.

Lemma tight_init d : tight d (init_tstate d).
Proof.
  intros q t Hlt. simpl. rewrite init_dec_state_lookup.
  case_decide; [|done]. simpl.
  change (((list_to_map (map (fun j => (j, ∅)) (seq 0 (S (max_dec_seq_length d))))
            : gmap nat (gmap nat (list Vec))) !! t) = None).
  rewrite (range_map_lookup (fun _ => ∅)). rewrite decide_False by lia. done.
Qed.

Lemma ds_set_no_slot (ds : DecState) q t j v :
  ds !! q ≫= (.!! t) = None -> ds_set ds q t j v = Raise KeyError.
Proof.
  unfold ds_set. intros H. destruct (ds !! q) as [row|]; [|done].
  simpl in H. by rewrite H.
Qed.

(** ** Rules for a computation that raises *)

Lemma fails_bind_l {St A B} (P : St -> Prop) (m : M St A) (f : A -> M St B) e :
  fails P m e -> fails P (mbind m f) e.
Proof.
  intros H s Hs. destruct (H s Hs) as (s' & E). exists s'. unfold mbind. by rewrite E.
Qed.

Lemma fails_bind_total {St A B} (P : St -> Prop) (R : A -> St -> Prop)
    (m : M St A) (f : A -> M St B) e :
  total P m R -> (forall a, fails (R a) (f a) e) -> fails P (mbind m f) e.
Proof.
  intros Hm Hf s Hs. destruct (Hm s Hs) as (s1 & a & E & Ha).
  destruct (Hf a s1 Ha) as (s' & E'). exists s'. unfold mbind. by rewrite E.
Qed.

Lemma mfor_app {St A} (l1 l2 : list A) (body : A -> M St unit) (s : St) :
  mfor (l1 ++ l2) body s = mbind (mfor l1 body) (fun _ => mfor l2 body) s.
Proof.
  revert s. induction l1 as [|a l1 IH]; intros s; [reflexivity|].
  simpl. unfold mbind. destruct (body a s) as [s1 [[]|e|]]; [|reflexivity..].
  rewrite IH. reflexivity.
Qed.

Lemma fails_mfor_seq {St} (I : nat -> St -> Prop) (body : nat -> M St unit) (n k : nat) e :
  k < n ->
  (forall i, i < k -> total (I i) (body i) (fun _ => I (S i))) ->
  fails (I k) (body k) e ->
  fails (I 0) (mfor (seq 0 n) body) e.
Proof.
  intros Hk Ht Hf s Hs.
  replace n with (k + S (n - S k)) by lia. rewrite seq_app. simpl.
  rewrite mfor_app.
  destruct (total_mfor I body (seq 0 k)) with (s := s) as (s1 & [] & E & H1).
  - intros j i Hj. apply lookup_seq in Hj as [-> Hj]. simpl. by apply Ht.
  - done.
  - rewrite length_seq in H1. destruct (Hf s1 H1) as (s' & E').
    exists s'. unfold mbind at 1. rewrite E. simpl. unfold mbind. by rewrite E'.
Qed.

Section TokenFails.
Variables (d : StdTreeDecoder) (rand : nat -> Q) (B : nat).
Variables (enc_outputs : list Mem).
Variables (oov_dict : option Vocab) (enc_batch : option (list (list Z))).
Variables (db : DecBatch).
Hypothesis Hplain : plain d.
Hypothesis Hmem : length enc_outputs = B.

Lemma token_step_fails m parent_h cur i :
  length (snd m) = B -> max_dec_seq_length d < i + 1 -> length parent_h = B ->
  fails (fun st => token_inv d B db cur i st /\ tight d st)
    (token_step d rand B enc_outputs oov_dict enc_batch m parent_h cur i) KeyError.
Proof.
  intros Hrows Hi Hpar st ((Htab & Hhold & Hpred) & Htight).
  destruct (Hhold i (le_n _) 1 (or_introl eq_refl)) as (c & Hc & Hclen).
  destruct (Hhold i (le_n _) 2 (or_intror eq_refl)) as (h & Hh & Hhlen).
  set (tf := negb (Qle_bool (teacher_force_ratio d) (rand (draws st)))).
  assert (exists iw,
    (if negb tf && (0 <? i)
     then match pred st with
          | Some pr => mret (map argmax pr)
          | None => lift (Raise UnboundLocalError)
          end
     else mret (column m i) : T (list Z)) = mret iw /\ length iw = B) as (iw & Eiw & Hiw).
  { destruct (negb tf && (0 <? i)) eqn:Hb.
    - apply andb_prop in Hb as [_ Hpos]. apply Nat.ltb_lt in Hpos.
      destruct (Hpred Hpos) as (pr & Hpr & Hlen). rewrite Hpr.
      eexists. split; [reflexivity|]. by rewrite length_map.
    - eexists. split; [reflexivity|]. unfold column. by rewrite length_map. }
  destruct (decode_step_plain d B iw c h enc_outputs parent_h oov_dict enc_batch B
              Hplain Hiw Hclen Hhlen Hpar Hmem) as (pr & c' & h' & a & Eout & Hpr & Hc' & Hh').
  pose proof (ds_set_no_slot (dec_state st) cur (i + 1) 1 c' (Htight cur (i + 1) Hi)) as E1.
  eexists.
  unfold token_step. unfold mbind at 1. unfold draw at 1.
  unfold mbind at 1. fold tf. cbn [pred draws dec_state loss trace].
  rewrite Eiw. unfold mbind at 1. unfold mret at 1.
  unfold mbind at 1. unfold get_ds at 1. cbn [pred draws dec_state loss trace].
  rewrite Hc. unfold mbind at 1. unfold get_ds at 1.
  cbn [pred draws dec_state loss trace]. rewrite Hh.
  rewrite Eout. unfold mbind at 1. unfold log_event at 1.
  unfold mbind at 1. unfold lift at 1.
  unfold mbind at 1. unfold put_ds at 1. cbn [pred draws dec_state loss trace].
  rewrite E1. reflexivity.
Qed.
End TokenFails.

Lemma preserves_run_level d rand B gc gh enc_outputs oov enc db qt cur :
  preserves same_slots (run_level d rand B gc gh enc_outputs oov enc db qt cur).
Proof.
  unfold run_level.
  apply preserves_bind; [apply _ | |].
  { eapply preserves_on_table. apply seed_level_frame. }
  intros sib.
  apply preserves_bind; [apply _ | by apply preserves_same |]. intros parent_h.
  apply preserves_bind; [apply _ | by apply preserves_same |]. intros c0.
  apply preserves_bind; [apply _ | by apply preserves_same |]. intros _.
  apply preserves_bind; [apply _ | by apply preserves_same |]. intros m.
  apply preserves_mfor; [apply _ | apply _ |]. intros i. apply preserves_token_step.
Qed.

Lemma fails_assume {St A} (phi : Prop) (P : St -> Prop) (m : M St A) e :
  (phi -> fails P m e) -> fails (fun s => phi /\ P s) m e.
Proof. intros H s [Hphi Hs]. by apply H. Qed.

Lemma fails_bind_pure {St A B} (P : St -> Prop) (a : A) (f : A -> M St B) e :
  fails P (f a) e -> fails P (mbind (lift (Ok a)) f) e.
Proof. intros H s Hs. exact (H s Hs). Qed.

Section PassFails.
Variables (d : StdTreeDecoder) (rand : nat -> Q) (trees : list Tree).
Variables (gc gh : list Vec) (enc_outputs : list Mem).
Variables (oov_dict : option Vocab) (enc_batch : option (list (list Z))).
Variables (db : DecBatch) (qt : list (list QTree)) (mi : nat).
Hypothesis Hplain : plain d.
Hypothesis Hlin : lin_inv trees (size_bound trees) (S mi) mi qt db.
Hypothesis Hgc : length gc = length trees.
Hypothesis Hgh : length gh = length trees.
Hypothesis Hmem : length enc_outputs = length trees.

Abbreviation B3 := (length trees).
Abbreviation pass_inv cur := (fun st => tab_inv d B3 db cur (dec_state st) /\ tight d st).

Lemma run_level_total_tight cur :
  1 <= cur <= mi -> cur <= max_dec_tree_depth d ->
  (forall m, db !! cur = Some m -> fst m - 1 <= max_dec_seq_length d) ->
  total (pass_inv cur)
    (run_level d rand B3 gc gh enc_outputs oov_dict enc_batch db qt cur)
    (fun _ => pass_inv (S cur)).
Proof.
  intros Hcur Hdepth Hfit.
  apply (total_frame _ (tight d) same_slots).
  - by apply (run_level_total d rand trees gc gh enc_outputs oov_dict enc_batch db qt mi).
  - apply preserves_run_level.
  - intros s s'. apply tight_same_slots.
Qed.

Lemma run_level_fails cur m :
  1 <= cur <= mi -> cur <= max_dec_tree_depth d ->
  db !! cur = Some m -> max_dec_seq_length d < fst m - 1 ->
  fails (pass_inv cur)
    (run_level d rand B3 gc gh enc_outputs oov_dict enc_batch db qt cur) KeyError.
Proof.
  intros Hcur Hdepth Hm Hbad. unfold run_level.
  destruct (li_rows _ _ _ _ _ _ Hlin cur ltac:(lia)) as (m' & Hm' & _ & Hrows & _).
  rewrite Hm in Hm'. inversion Hm'; subst m'. clear Hm'.
  eapply fails_bind_total with
    (R := fun _ st => seed_inv d B3 db cur (dec_state st) /\ tight d st).
  { apply (total_frame _ (tight d) same_slots).
    - eapply total_weaken.
      + apply on_table_total.
        apply (seed_level_total d trees gc gh db qt mi Hlin Hgc Hgh cur Hcur Hdepth).
      + done.
      + by intros sib st [H _].
    - eapply preserves_on_table. apply seed_level_frame.
    - intros s s'. apply tight_same_slots. }
  intros sib.
  eapply fails_bind_total with
    (R := fun ph st => length ph = B3 /\ seed_inv d B3 db cur (dec_state st) /\ tight d st).
  { intros st [Hs Ht]. destruct (proj2 Hs 2 (or_intror eq_refl)) as (v & Hv & Hlen).
    exists st, v. split; [unfold get_ds; by rewrite Hv | done]. }
  intros parent_h. apply fails_assume. intros Hpar.
  eapply fails_bind_total with
    (R := fun _ st => seed_inv d B3 db cur (dec_state st) /\ tight d st).
  { intros st [Hs Ht]. destruct (proj2 Hs 1 (or_introl eq_refl)) as (v & Hv & Hlen).
    exists st, v. split; [unfold get_ds; by rewrite Hv | done]. }
  intros c0.
  eapply fails_bind_total with
    (R := fun _ st => seed_inv d B3 db cur (dec_state st) /\ tight d st).
  { intros st Hs. eexists _, tt. split; [reflexivity | done]. }
  intros []. rewrite Hm. simpl of_option. apply fails_bind_pure.
  intros st [[Htab H0] Ht].
  apply (fails_mfor_seq (fun i st => token_inv d B3 db cur i st /\ tight d st)
           _ (fst m - 1) (max_dec_seq_length d) KeyError).
  - lia.
  - intros i Hi. apply (total_frame _ (tight d) same_slots).
    + apply (token_step_total d rand B3 enc_outputs oov_dict enc_batch db Hplain Hmem
               m parent_h cur i); try done; lia.
    + apply preserves_token_step.
    + intros s s'. apply tight_same_slots.
  - apply (token_step_fails d rand B3 enc_outputs oov_dict enc_batch db Hplain Hmem
             m parent_h cur); try done. lia.
  - split; [|done]. split; [done|]. split; [|lia].
    intros t Hle. replace t with 0 by lia. done.
Qed.

Variables (q0 : nat) (m0 : nat * list (list Z)).
Hypothesis Hq0 : db !! q0 = Some m0.
Hypothesis Hbad : max_dec_seq_length d < fst m0 - 1.
Hypothesis Hq0d : 1 <= q0 <= max_dec_tree_depth d.
Hypothesis Hq0m : q0 <= mi.
Hypothesis Hprev : forall q m, 1 <= q < q0 -> db !! q = Some m ->
  fst m - 1 <= max_dec_seq_length d.

Lemma level_loop_fails (n : nat) : forall remaining cur,
  cur + n = q0 -> cur + remaining = mi + 1 -> 1 <= cur ->
  fails (pass_inv cur)
    (level_loop d rand B3 gc gh enc_outputs oov_dict enc_batch db qt remaining cur)
    KeyError.
Proof.
  induction n as [|n IH]; intros remaining cur Hn Hrem Hcur.
  - assert (cur = q0) as -> by lia.
    destruct remaining as [|r]; [lia|]. simpl.
    destruct (Nat.ltb_spec (max_dec_tree_depth d) q0) as [Hd|Hd]; [lia|].
    apply fails_bind_l. apply (run_level_fails q0 m0); try done; lia.
  - destruct remaining as [|r]; [lia|]. simpl.
    destruct (Nat.ltb_spec (max_dec_tree_depth d) cur) as [Hd|Hd]; [lia|].
    eapply fails_bind_total.
    + apply run_level_total_tight; [lia | lia |].
      intros m Hm. apply (Hprev cur m); [lia | done].
    + intros []. apply IH; lia.
Qed.
End PassFails.

Lemma forallb_first_false (f : nat -> bool) (n : nat) :
  forallb f (seq 1 n) = false ->
  exists q, 1 <= q <= n /\ f q = false /\ forall q', 1 <= q' < q -> f q' = true.
Proof.
  induction n as [|n IH]; [discriminate|].
  rewrite seq_S, forallb_app. simpl. rewrite andb_true_r.
  destruct (forallb f (seq 1 n)) eqn:E; simpl.
  - intros Hf. exists (S n). split; [lia|]. split; [done|].
    intros q' Hq'. rewrite forallb_forall in E. apply E. apply in_seq. lia.
  - intros _. destruct (IH eq_refl) as (q & Hq & Hf & Hl).
    exists q. split; [lia|]. done.
Qed.

(** X6.  When some level within the depth limit has a target matrix of more
    than [max_dec_seq_length + 1] columns, the training pass of a decoder
    whose step cannot raise (no sibling feeding, uniform attention, no copy),
    with a graph state of one row for each tree, raises [KeyError]: the state
    table has no slot for the step. *)
Theorem X6_pass_raises_key_error_on_long_level (d : StdTreeDecoder) (rand : nat -> Q)
    (graph_node_embedding : list Mem) (graph_node_mask : list Vec)
    (rnn_node_embedding : list Mem)
    (graph_level_embedding : option (list Vec * list Vec))
    (tgt_tree_batch : list Tree) (enc_batch : option (list (list Z)))
    (oov_dict : option Vocab) (graph_cell_state graph_hidden_state : list Vec) :
  plain d ->
  graph_states d graph_node_embedding graph_level_embedding
    = Ok (graph_cell_state, graph_hidden_state) ->
  length graph_cell_state = length tgt_tree_batch ->
  length graph_hidden_state = length tgt_tree_batch ->
  length graph_node_embedding = length tgt_tree_batch ->
  batch_fits d tgt_tree_batch = false ->
  snd (_run_forward_pass d rand graph_node_embedding graph_node_mask rnn_node_embedding
         graph_level_embedding tgt_tree_batch enc_batch oov_dict) = Raise KeyError.
Proof.
  intros Hplain Hg Hgc Hgh Hmem Hfit.
  destruct (get_dec_batch_spec tgt_tree_batch (tgt_vocab d)) as (db & qt & mi & Hb & Hlin).
  destruct (get_dec_batch_result tgt_tree_batch (length tgt_tree_batch) (tgt_vocab d)
              (le_n _)) as (db' & qt' & mi' & Hb' & _ & _ & Hout).
  rewrite Hb in Hb'. inversion Hb'; subst db' qt' mi'. clear Hb'.
  unfold batch_fits in Hfit. rewrite Hb in Hfit. unfold levels_fitb in Hfit.
  apply forallb_first_false in Hfit as (q0 & Hq0 & Hbad & Hprev).
  destruct (db !! q0) as [m0|] eqn:Hm0; [|discriminate].
  apply Nat.leb_gt in Hbad.
  assert (q0 <= mi) as Hq0m.
  { destruct (decide (1 <= q0 <= mi)) as [|Hn]; [lia|].
    rewrite (Hout q0 Hn) in Hm0. discriminate. }
  unfold _run_forward_pass. rewrite Hg, Hb.
  destruct (level_loop_fails d rand tgt_tree_batch graph_cell_state graph_hidden_state
              graph_node_embedding oov_dict enc_batch db qt mi Hplain Hlin Hgc Hgh Hmem
              q0 m0 Hm0 Hbad Hq0 Hq0m) with (n := q0 - 1) (remaining := mi) (cur := 1)
              (s := init_tstate d) as (st & ->); try lia; try done.
  - intros q m Hq Hm. specialize (Hprev q Hq). rewrite Hm in Hprev.
    by apply Nat.leb_le in Hprev.
  - split; [apply tab_inv_init | apply tight_init].
Qed.

Lemma X6_witness :
  snd (_run_forward_pass (__init__ Toy.config_short) (fun _ => 0%Q) Toy.memory [] []
         None [Toy.three_siblings] None None) = Raise KeyError.
Proof.
  apply (X6_pass_raises_key_error_on_long_level (__init__ Toy.config_short) (fun _ => 0%Q)
           Toy.memory [] [] None [Toy.three_siblings] None None [[0%Q]] [[0%Q]]).
  - repeat split; reflexivity.
  - reflexivity.
  - reflexivity.
  - reflexivity.
  - reflexivity.
  - vm_compute. reflexivity.
Defined.

(** ** The empty batch *)

Lemma get_dec_batch_empty form_manager :
  get_dec_batch [] 0 form_manager = Ok (<[1 := (1, [])]> ∅, [], 1).
Proof. reflexivity. Qed.

(** X7.  On an empty batch the training pass makes no decoding step and
    raises [ZeroDivisionError] when it divides the loss by the batch size,
    unless the pooling of the graph state has raised before. *)
Theorem X7_pass_on_empty_batch (d : StdTreeDecoder) (rand : nat -> Q)
    (graph_node_embedding : list Mem) (graph_node_mask : list Vec)
    (rnn_node_embedding : list Mem)
    (graph_level_embedding : option (list Vec * list Vec))
    (enc_batch : option (list (list Z))) (oov_dict : option Vocab) :
  let pass := _run_forward_pass d rand graph_node_embedding graph_node_mask
                rnn_node_embedding graph_level_embedding [] enc_batch oov_dict in
  snd pass =
    match graph_states d graph_node_embedding graph_level_embedding with
    | Ok _ => Raise ZeroDivisionError
    | Raise e => Raise e
    | Timeout => Timeout
    end /\
  step_count (trace (fst pass)) = 0.
Proof.
  intros pass. subst pass. unfold _run_forward_pass.
  destruct (graph_states d graph_node_embedding graph_level_embedding)
    as [[gc gh]|e|]; [|done|done].
  change (length (@nil Tree)) with 0. rewrite get_dec_batch_empty.
  assert (exists st,
    level_loop d rand 0 gc gh graph_node_embedding oov_dict enc_batch
      (<[1 := (1, [])]> ∅) [] 1 1 (init_tstate d) = (st, Ok tt) /\
    step_count (trace st) = 0) as (st & -> & Hst).
  { simpl. destruct (Nat.ltb_spec (max_dec_tree_depth d) 1) as [Hd|Hd].
    - by eexists.
    - destruct (seed_zero_total d 0 (<[1 := (1, [])]> ∅) 1 Hd _ (tab_inv_init d 0 _))
        as (ds1 & [] & E1 & _ & Hh).
      destruct (Hh 1 (or_introl eq_refl)) as (c0 & Hc0 & _).
      destruct (Hh 2 (or_intror eq_refl)) as (h0 & Hh0 & _).
      assert (seed_level d 0 gc gh (<[1 := (1, [])]> ∅) [] 1
                (dec_state (init_tstate d)) = (ds1, Ok (zeros 0 (rnn_size d)))) as Hseed.
      { change (seed_level d 0 gc gh (<[1 := (1, [])]> ∅) [] 1)
          with (mbind (mfor [1; 2] (fun j => tab_put 1 0 j (zeros 0 (rnn_size d))))
                  (fun _ => mret (zeros 0 (rnn_size d)) : D (list Vec))).
        unfold mbind. simpl dec_state. by rewrite E1. }
      eexists. split.
      + unfold run_level. unfold mbind at 1. unfold mbind at 1.
        rewrite on_table_eq. rewrite Hseed. cbn [fst snd].
        unfold mbind at 1. unfold get_ds at 1. cbn [dec_state]. rewrite Hh0.
        unfold mbind at 1. unfold get_ds at 1. cbn [dec_state]. rewrite Hc0.
        reflexivity.
      + reflexivity. }
  simpl. done.
Qed.

(** ** Greedy inference ends *)

Lemma scatter_add_row_no_timeout (index : list Z) : forall out src,
  scatter_add_row out index src <> Timeout.
Proof.
  induction index as [|i index IH]; intros out src; simpl; [done|].
  destruct src as [|x src]; [done|]. destruct (_ && _); [apply IH | done].
Qed.

Lemma rmapM_no_timeout {A B} (f : A -> result B) (l : list A) :
  (forall a, f a <> Timeout) -> rmapM f l <> Timeout.
Proof.
  intros Hf. induction l as [|a l IH]; simpl; [done|].
  specialize (Hf a). destruct (f a); simpl; [|done|done].
  destruct (rmapM f l); simpl; done.
Qed.

Lemma decode_step_no_timeout d B inp st mem par sib oov enc :
  decode_step d B inp st mem par sib oov enc <> Timeout.
Proof.
  unfold decode_step, tdu_forward.
  destruct (tdu_use_sibling (rnn d)); [destruct sib|]; simpl; try done.
  - destruct (separate_attn d); [done|]. destruct (use_copy d); [|done].
    destruct enc as [enc|]; [|done]. destruct oov as [oov|]; [|done].
    destruct (_ <? 0)%Z; [done|].
    match goal with |- context [rmapM ?f ?l] =>
      pose proof (rmapM_no_timeout f l) as H; destruct (rmapM f l) end; simpl; try done.
    exfalso. apply H; [|done]. intros [[[[[[e c] h] a] o] s] ids]. unfold copy_row.
    apply scatter_add_row_no_timeout.
  - destruct (separate_attn d); [done|]. destruct (use_copy d); [|done].
    destruct enc as [enc|]; [|done]. destruct oov as [oov|]; [|done].
    destruct (_ <? 0)%Z; [done|].
    match goal with |- context [rmapM ?f ?l] =>
      pose proof (rmapM_no_timeout f l) as H; destruct (rmapM f l) end; simpl; try done.
    exfalso. apply H; [|done]. intros [[[[[[e c] h] a] o] s] ids]. unfold copy_row.
    apply scatter_add_row_no_timeout.
Qed.

(** One iteration of the greedy loop, by outcome: an exception before the
    stop test, a stop, or one more word and the loop again. *)
Lemma greedy_loop_outcomes fuel d form_manager max_dec_seq_length enc_outputs oov enc
    head parent_h sibling_state s prev_word i_child st st' r e :
  greedy_loop (S fuel) d form_manager max_dec_seq_length enc_outputs oov enc head
    parent_h sibling_state s prev_word i_child st = (st', r) ->
  queue_decode st !! (head - 1) = Some e ->
  let call := greedy_call d enc_outputs oov enc head parent_h sibling_state s prev_word in
  let st1 := {| queue_decode := queue_decode st; calls := calls st ++ [call] |} in
  (st' = st1 /\ exists x, r = Raise x) \/
  (st' = st1 /\ r = Ok tt) \/
  (length (qd_t e) < max_dec_seq_length /\
   exists c h w prev_word',
     greedy_loop fuel d form_manager max_dec_seq_length enc_outputs oov enc head
       parent_h sibling_state (c, h) prev_word' (i_child + 1)
       {| queue_decode := grown_queue form_manager (queue_decode st) head e w (c, h) i_child;
          calls := calls st ++ [call] |} = (st', r)).
Proof.
  intros H He call st1.
  destruct (greedy_loop_cases _ _ _ _ _ _ _ _ _ _ _ _ _ _ _ _ H) as [(Hst & Hr & Hn)|Hc].
  - left. split; [done|].
    destruct r as [[]|x|]; [done | by exists x |]. exfalso.
    pose proof (decode_step_no_timeout d 1 prev_word s enc_outputs parent_h None oov enc)
      as Hnt.
    change (greedy_loop (S fuel) d form_manager max_dec_seq_length enc_outputs oov enc
              head parent_h sibling_state s prev_word i_child st)
      with (mbind (log_call call)
              (fun _ => mbind (lift (ce_out call)) (fun o =>
                 let '(prediction, (curr_c, curr_h), _) := o in
                 let s := (curr_c, curr_h) in
                 let prev_word := map argmax (log_rows (net d) prediction) in
                 mbind (lift (of_option IndexError (prev_word !! 0))) (fun w =>
                 mbind get_queue (fun q =>
                 mbind (lift (of_option IndexError (q !! (head - 1)))) (fun e =>
                 if (w =? get_symbol_idx form_manager (end_token form_manager))%Z
                    || (max_dec_seq_length <=? length (qd_t e))
                 then mret tt
                 else
                   mbind
                     (if (w =? get_symbol_idx form_manager
                                 (non_terminal_token form_manager))%Z
                      then mbind (put_queue
                                    (q ++ [{| qd_s := s; qd_parent := head;
                                              qd_child_index := i_child; qd_t := [] |}]))
                             (fun _ => add_child head w)
                      else add_child head w)
                     (fun _ => greedy_loop fuel d form_manager max_dec_seq_length
                                 enc_outputs oov enc head parent_h sibling_state s
                                 prev_word (i_child + 1))))))) st) in H.
    unfold mbind at 1 in H. unfold log_call at 1 in H.
    unfold mbind at 1 in H. unfold lift at 1 in H.
    change (ce_out call) with
      (decode_step d 1 prev_word s enc_outputs parent_h None oov enc) in H.
    destruct (decode_step d 1 prev_word s enc_outputs parent_h None oov enc)
      as [[[prediction [c h]] a]|x|] eqn:Hout; [|discriminate|done].
    unfold mbind at 1 in H. unfold lift at 1 in H.
    destruct (map argmax (log_rows (net d) prediction) !! 0) as [w|] eqn:Hw; simpl in H;
      [|discriminate].
    apply Hn. exists prediction, c, h, a, w, e. done.
  - right. destruct Hc as (prediction & c & h & a & w & e' & Hout & Hw & He' & Hcase).
    rewrite He in He'. inversion He'; subst e'.
    destruct Hcase as [(_ & Hst & Hr)|(Hstop & Hrec)]; [by left|].
    right. apply orb_false_elim in Hstop as [_ Hlen]. apply Nat.leb_gt in Hlen.
    split; [done|]. by exists c, h, w, (map argmax (log_rows (net d) prediction)).
Qed.

Lemma greedy_loop_bounds d form_manager max_dec_seq_length enc_outputs oov enc
    head parent_h sibling_state (fuel : nat) :
  forall s prev_word i_child st st' r e,
    greedy_loop fuel d form_manager max_dec_seq_length enc_outputs oov enc head
      parent_h sibling_state s prev_word i_child st = (st', r) ->
    queue_decode st !! (head - 1) = Some e ->
    length (calls st') <= length (calls st) + fuel /\
    (exists e',
       queue_decode st' !! (head - 1) = Some e' /\
       length (queue_decode st') + length (qd_t e)
         <= length (queue_decode st) + length (qd_t e') /\
       length (qd_t e') <= length (qd_t e) `max` max_dec_seq_length) /\
    (0 < fuel -> max_dec_seq_length < fuel + length (qd_t e) -> r <> Timeout).
Proof.
  induction fuel as [|fuel IH]; intros s prev_word i_child st st' r e H He.
  - simpl in H. inversion H; subst. split; [lia|]. split; [|lia].
    exists e. split; [done|]. lia.
  - destruct (greedy_loop_outcomes _ _ _ _ _ _ _ _ _ _ _ _ _ _ _ _ _ H He)
      as [(-> & x & ->)|[(-> & ->)|(Hlen & c & h & w & pw & Hrec)]].
    + simpl. rewrite length_app. simpl. split; [lia|]. split; [|done].
      exists e. split; [done|]. lia.
    + simpl. rewrite length_app. simpl. split; [lia|]. split; [|done].
      exists e. split; [done|]. lia.
    + pose proof (lookup_lt_Some _ _ _ He) as Hlt.
      assert (grown_queue form_manager (queue_decode st) head e w (c, h) i_child
                !! (head - 1) = Some (add_word e w)) as He1.
      { unfold grown_queue. apply list_lookup_insert_eq. rewrite length_app. lia. }
      destruct (IH _ _ _ _ _ _ _ Hrec He1) as (Hc & (e' & He' & Hq & Hl) & Ht).
      simpl in Hc, Hq, Hl, Ht. rewrite length_app in Hc, Hq, Hl, Ht. simpl in *.
      assert (length (grown_queue form_manager (queue_decode st) head e w (c, h) i_child)
              <= S (length (queue_decode st))) as Hg.
      { unfold grown_queue. rewrite length_insert, length_app.
        destruct (w =? _)%Z; simpl; lia. }
      split; [lia|]. split.
      * exists e'. split; [done|]. lia.
      * intros _ Hf. apply Ht; lia.
Qed.

Section HeadBounds.
Variables (d : StdTreeDecoder) (form_manager : Vocab).
Variables (dec_hidden_size max_seq max_depth : nat).
Variables (enc_outputs : list Mem) (oov_dict : option Vocab).
Variables (enc_w_list : option (list (list Z))).

Lemma expand_head_bounds head st st' r e :
  expand_head d form_manager dec_hidden_size max_seq enc_outputs oov_dict enc_w_list
    head st = (st', r) ->
  queue_decode st !! (head - 1) = Some e -> qd_t e = [] ->
  r <> Timeout /\
  length (calls st') <= length (calls st) + S max_seq /\
  length (queue_decode st') <= length (queue_decode st) + max_seq.
Proof.
  intros H He Hfresh. unfold expand_head in H.
  unfold mbind at 1 in H. unfold get_queue at 1 in H.
  unfold mbind at 1 in H. unfold lift at 1 in H. rewrite He in H. simpl in H.
  destruct (greedy_loop_bounds _ _ _ _ _ _ _ _ _ _ _ _ _ _ _ _ _ H He)
    as (Hc & (e' & _ & Hq & Hl) & Ht).
  rewrite Hfresh in Hc, Hq, Hl, Ht. simpl in Hc, Hq, Hl, Ht.
  split; [apply Ht; lia|]. split; lia.
Qed.

Lemma head_loop_bounds (remaining : nat) : forall head st st' r,
  head_loop d form_manager dec_hidden_size max_seq enc_outputs oov_dict enc_w_list
    remaining head st = (st', r) ->
  1 <= head -> head + remaining = max_depth + 1 ->
  Forall (call_ok d max_depth enc_outputs oov_dict enc_w_list) (calls st) ->
  dq_inv form_manager max_seq (head - 1) (head - 1) (queue_decode st) ->
  r <> Timeout /\
  length (calls st') <= length (calls st) + remaining * S max_seq /\
  length (queue_decode st') <= length (queue_decode st) + remaining * max_seq.
Proof.
  induction remaining as [|n IH]; intros head st st' r H Hhead Hrem Hcalls Hdq.
  - simpl in H. inversion H; subst. split; [done|]. lia.
  - simpl in H. unfold mbind at 1 in H. unfold get_queue at 1 in H.
    destruct (Nat.leb_spec head (length (queue_decode st))) as [Hle|Hgt].
    + unfold mbind at 1 in H.
      destruct (expand_head _ _ _ _ _ _ _ _ st) as [st1 r1] eqn:E.
      destruct (lookup_lt_is_Some_2 (queue_decode st) (head - 1) ltac:(lia)) as [e He].
      assert (qd_t e = []) as Hfresh
        by (apply (dq_fresh _ _ _ _ _ Hdq (head - 1) e He); lia).
      destruct (expand_head_bounds _ _ _ _ _ E He Hfresh) as (Ht1 & Hc1 & Hq1).
      destruct (expand_head_inv d form_manager dec_hidden_size max_seq max_depth
                  enc_outputs oov_dict enc_w_list head st st1 r1 E ltac:(lia) Hle Hcalls)
        as [HF1 HI1].
      destruct (HI1 Hdq) as [HB1 _].
      destruct r1 as [[]|x|].
      * replace head with (head + 1 - 1) in HB1 at 1 2 by lia.
        destruct (IH _ _ _ _ H ltac:(lia) ltac:(lia) HF1 (HB1 eq_refl)) as (Ht & Hc & Hq).
        split; [done|]. simpl. lia.
      * inversion H; subst. split; [done|]. simpl. lia.
      * done.
    + inversion H; subst. split; [done|]. lia.
Qed.
End HeadBounds.

(** X8.  Greedy inference ends: whatever the network predicts and whatever
    the outcome, [translate] calls [decode_step] at most
    [max_dec_tree_depth * (max_dec_seq_length + 1)] times and its queue never
    holds more than [1 + max_dec_tree_depth * max_dec_seq_length] entries;
    the loop budget of the embedding is never exhausted. *)
Theorem X8_translate_ends (d : StdTreeDecoder) (form_manager : Vocab)
    (dec_hidden_size max_seq max_depth : nat) (graph_node_embedding : list Mem)
    (enc_w_list : option (list (list Z))) (oov_dict : option Vocab) :
  let run := translate d form_manager dec_hidden_size max_seq max_depth
               graph_node_embedding enc_w_list oov_dict in
  snd run <> Timeout /\
  length (calls (fst run)) <= max_depth * (max_seq + 1) /\
  length (queue_decode (fst run)) <= 1 + max_depth * max_seq.
Proof.
  intros run. subst run. unfold translate.
  destruct (String.eqb (graph_pooling_strategy d) "max"); [|simpl; split; [done|lia]].
  destruct (head_loop _ _ _ _ _ _ _ _ _ _) as [st1 r1] eqn:E.
  destruct (head_loop_bounds d form_manager dec_hidden_size max_seq max_depth
              graph_node_embedding oov_dict enc_w_list max_depth 1 _ st1 r1 E
              ltac:(lia) ltac:(lia) ltac:(constructor) (dq_inv_start _ _ _))
    as (Ht & Hc & Hq).
  simpl in Hc, Hq.
  destruct (head_loop_inv d form_manager dec_hidden_size max_seq max_depth
              graph_node_embedding oov_dict enc_w_list max_depth 1 _ st1 r1 E
              ltac:(lia) ltac:(lia) ltac:(constructor)) as [_ HI].
  destruct (HI (dq_inv_start _ _ _)) as [HB _].
  destruct r1 as [[]|x|]; [|simpl; split; [done|lia] | done].
  destruct (HB eq_refl) as (f & Hf & Hdq).
  destruct (assemble_store _ _ _ _ _ Hdq) as (D & -> & Hst).
  pose proof (proj1 Hst) as Hlen.
  destruct (dq_root _ _ _ _ _ Hdq) as [e0 He0]. apply lookup_lt_Some in He0.
  assert (0 < length D) as HD0 by lia.
  destruct (lookup_lt_is_Some_2 D 0 HD0) as [x Hx].
  assert (py_getitem D 0 = Ok x) as Hget.
  { destruct D as [|y D']; [done|]. by inversion Hx. }
  destruct (read_tree_total _ D Hst (length D) 0 ltac:(lia) ltac:(lia)) as [t Ht'].
  simpl. rewrite Hget. simpl. rewrite Ht'. split; [done|]. lia.
Qed.

(** ** The tree greedy inference returns *)

Section AttachedProofs.
Variables (form_manager : Vocab) (max_dec_seq_length : nat).
Variables (fresh bound : nat) (q : list QDec).
Hypothesis Hq : dq_inv form_manager max_dec_seq_length fresh bound q.

Lemma attach_attached i D :
  1 <= i < length q -> store_inv q (S i) D -> attached q (S i) D ->
  exists D', attach D i = Ok D' /\ store_inv q i D' /\ attached q i D'.
Proof.
  intros Hi Hst Hat.
  destruct (attach_store _ _ _ _ _ Hq i D Hi Hst) as (D' & HD' & Hst').
  exists D'. split; [done|]. split; [done|].
  destruct Hst as [Hlen Hinv].
  destruct (lookup_lt_is_Some_2 q i ltac:(lia)) as [e He].
  destruct i as [|i']; [lia|]. set (i := S i') in *.
  destruct (dq_parent _ _ _ _ _ Hq _ _ He) as (Hp1 & _ & Hc1 & p & Hp & Hch).
  destruct (Hinv _ _ He) as (x & Hx & Hxp & Hxc & _ & _).
  destruct (Hinv _ _ Hp) as (y & Hy & Hyp & Hyc & Hylen & Hys).
  pose proof (lookup_lt_Some _ _ _ Hch) as Hclt.
  unfold attach in HD'. rewrite Hx in HD'. simpl in HD'. rewrite Hxp, Hxc in HD'.
  rewrite py_index_pred in HD' by (try lia; apply lookup_lt_Some in Hy; lia).
  simpl in HD'. rewrite Hy in HD'. simpl in HD'. unfold py_setitem in HD'.
  rewrite py_index_pred in HD' by lia. simpl in HD'. inversion HD'; subst D'. clear HD'.
  intros k ek Hk1 Hk2 Hek.
  destruct (decide (k = i)) as [->|Hne].
  - rewrite He in Hek. inversion Hek; subst ek.
    eexists _, i. split.
    + apply list_lookup_insert_eq. by apply lookup_lt_Some in Hy.
    + simpl. apply list_lookup_insert_eq. lia.
  - destruct (Hat k ek ltac:(lia) Hk2 Hek) as (x2 & j & Hx2 & Hj).
    destruct (decide (qd_parent ek - 1 = qd_parent e - 1)) as [Heq|Hd].
    + rewrite Heq in Hx2 |- *. rewrite Hy in Hx2. inversion Hx2; subst x2.
      destruct (decide (qd_child_index ek - 1 = qd_child_index e - 1)) as [Hceq|Hcd].
      * eexists _, i. split.
        { apply list_lookup_insert_eq. by apply lookup_lt_Some in Hy. }
        simpl. rewrite Hceq. apply list_lookup_insert_eq. lia.
      * eexists _, j. split.
        { apply list_lookup_insert_eq. by apply lookup_lt_Some in Hy. }
        simpl. by rewrite list_lookup_insert_ne by done.
    + exists x2, j. split; [|done]. by rewrite list_lookup_insert_ne by done.
Qed.

Lemma assemble_loop_attached j D :
  j < length q -> store_inv q (S j) D -> attached q (S j) D ->
  exists D', foldl (fun acc i => x <-- acc ;; attach x i) (Ok D) (reverse (seq 1 j)) = Ok D' /\
             store_inv q 1 D' /\ attached q 1 D'.
Proof.
  revert D. induction j as [|j IH]; intros D Hj Hinv Hat.
  - exists D. done.
  - rewrite seq_S, reverse_app. simpl.
    destruct (attach_attached (S j) D ltac:(lia) Hinv Hat) as (D1 & -> & Hinv1 & Hat1).
    apply IH; [lia | done | done].
Qed.

Lemma assemble_attached :
  exists D, assemble q = Ok D /\ store_inv q 1 D /\ attached q 1 D.
Proof.
  unfold assemble. destruct (dq_root _ _ _ _ _ Hq) as [e0 He0].
  apply lookup_lt_Some in He0.
  apply assemble_loop_attached; [lia | |].
  - replace (S (length q - 1)) with (length q) by lia.
    apply (store_inv_init _ _ _ _ _ Hq).
  - intros i e Hi _ He. apply lookup_lt_Some in He. lia.
Qed.

Lemma final_store_words D k x :
  store_inv q 1 D -> attached q 1 D -> D !! k = Some x ->
  length (qd_t x) <= max_dec_seq_length /\
  forall c w, qd_t x !! c = Some (SWord w) ->
    w <> end_idx form_manager /\ w <> nt_idx form_manager.
Proof.
  intros [Hlen Hinv] Hat Hk.
  destruct (lookup_lt_is_Some_2 q k) as [e He].
  { rewrite <- Hlen. by apply lookup_lt_Some in Hk. }
  destruct (Hinv k e He) as (x' & Hx' & _ & _ & Hl & Hs).
  rewrite Hk in Hx'. inversion Hx'; subst x'.
  split; [rewrite Hl; by apply (dq_len _ _ _ _ _ Hq k)|].
  intros c w Hc. destruct (Hs c _ Hc) as [(w' & Hw & Hqc)|(i & Hi & _)]; [|discriminate].
  inversion Hw; subst w'.
  destruct (dq_words _ _ _ _ _ Hq _ _ _ _ He Hqc) as (w' & Hw' & Hne).
  inversion Hw'; subst w'. split; [done|]. intros ->.
  destruct (dq_complete _ _ _ _ _ Hq k e c He Hqc) as (i & e' & He' & Hp' & Hc').
  destruct (Hat (S i) e' ltac:(lia) ltac:(lia) He') as (x2 & j & Hx2 & Hj).
  rewrite Hp', Hc' in *. simpl in Hx2, Hj. rewrite Nat.sub_0_r in Hx2, Hj.
  rewrite Hk in Hx2. inversion Hx2; subst x2. rewrite Hc in Hj. discriminate.
Qed.
End AttachedProofs.

Lemma tree_words_node (cs : list Child) w :
  w ∈ tree_words (Node cs) ->
  (exists i, cs !! i = Some (Word w)) \/
  (exists i t, cs !! i = Some (Sub t) /\ w ∈ tree_words t).
Proof.
  induction cs as [|[w0|t0] cs IH]; intros Hw.
  - by apply elem_of_nil in Hw.
  - change (tree_words (Node (Word w0 :: cs))) with (w0 :: tree_words (Node cs)) in Hw.
    apply elem_of_cons in Hw as [->|Hw].
    + left. by exists 0.
    + destruct (IH Hw) as [[i Hi]|(i & t & Hi & Ht)].
      * left. by exists (S i).
      * right. by exists (S i), t.
  - change (tree_words (Node (Sub t0 :: cs)))
      with (tree_words t0 ++ tree_words (Node cs)) in Hw.
    apply elem_of_app in Hw as [Hw|Hw].
    + right. by exists 0, t0.
    + destruct (IH Hw) as [[i Hi]|(i & t & Hi & Ht)].
      * left. by exists (S i).
      * right. by exists (S i), t.
Qed.

Lemma max_arity_node (cs : list Child) n :
  length cs <= n -> (forall i t, cs !! i = Some (Sub t) -> max_arity t <= n) ->
  max_arity (Node cs) <= n.
Proof.
  intros Hlen Hsub.
  assert ((fix go (l : list Child) : nat :=
             match l with
             | [] => 0
             | Word _ :: l' => go l'
             | Sub t' :: l' => max_arity t' `max` go l'
             end) cs <= n) as Hgo.
  { clear Hlen. induction cs as [|[w0|t0] cs IH]; [lia | |].
    - apply IH. intros i t Hi. apply (Hsub (S i) t Hi).
    - pose proof (Hsub 0 t0 eq_refl).
      assert ((fix go (l : list Child) : nat :=
                 match l with
                 | [] => 0
                 | Word _ :: l' => go l'
                 | Sub t' :: l' => max_arity t' `max` go l'
                 end) cs <= n) by (apply IH; intros i t Hi; apply (Hsub (S i) t Hi)).
      lia. }
  simpl. lia.
Qed.

Section ReadGood.
Variables (form_manager : Vocab) (max_dec_seq_length : nat) (D : list QDec).
Hypothesis HD : forall k x, D !! k = Some x ->
  length (qd_t x) <= max_dec_seq_length /\
  forall c w, qd_t x !! c = Some (SWord w) ->
    w <> end_idx form_manager /\ w <> nt_idx form_manager.

Lemma read_tree_good (fuel : nat) : forall k t,
  read_tree fuel D k = Ok t ->
  (forall w, w ∈ tree_words t -> w <> end_idx form_manager /\ w <> nt_idx form_manager) /\
  max_arity t <= max_dec_seq_length.
Proof.
  induction fuel as [|fuel IH]; intros k t H; [discriminate|].
  rewrite read_tree_unfold in H.
  apply rbind_ok in H as (x & Hx & H). apply of_option_ok in Hx.
  apply rbind_ok in H as (cs & Hcs & H). inversion H; subst t. clear H.
  destruct (rmapM_lookup _ _ _ Hcs) as [Hlen Hl].
  destruct (HD k x Hx) as [Hx1 Hx2].
  assert (forall i t', cs !! i = Some (Sub t') -> exists a, read_tree fuel D a = Ok t')
    as Hsub.
  { intros i t' Hi. destruct (Hl i _ Hi) as ([w|a] & _ & Ha); [discriminate|].
    apply rbind_ok in Ha as (t2 & Ht2 & Ha). inversion Ha; subst t2. by exists a. }
  split.
  - intros w Hw. apply tree_words_node in Hw as [[i Hi]|(i & t' & Hi & Ht')].
    + destruct (Hl i _ Hi) as ([w'|a] & Hs & Ha).
      * inversion Ha; subst w'. by apply (Hx2 i).
      * apply rbind_ok in Ha as (t2 & _ & Ha). discriminate.
    + destruct (Hsub i t' Hi) as [a Ha]. by apply (IH a t' Ha).
  - apply max_arity_node; [lia|].
    intros i t' Hi. destruct (Hsub i t' Hi) as [a Ha]. by apply (IH a t' Ha).
Qed.
End ReadGood.

(** X9.  The tree greedy inference returns holds neither the end token nor
    the non-terminal placeholder as a word: every placeholder has been
    replaced by the tree of its queue entry, which is empty when the depth
    limit kept it from being expanded.  No node of the tree has more than
    [max_dec_seq_length] children. *)
Theorem X9_translate_result_tree (d : StdTreeDecoder) (form_manager : Vocab)
    (dec_hidden_size max_seq max_depth : nat) (graph_node_embedding : list Mem)
    (enc_w_list : option (list (list Z))) (oov_dict : option Vocab) (tree : Tree) :
  snd (translate d form_manager dec_hidden_size max_seq max_depth graph_node_embedding
         enc_w_list oov_dict) = Ok tree ->
  (forall w, w ∈ tree_words tree ->
     w <> get_symbol_idx form_manager (end_token form_manager) /\
     w <> get_symbol_idx form_manager (non_terminal_token form_manager)) /\
  max_arity tree <= max_seq.
Proof.
  unfold translate.
  destruct (String.eqb (graph_pooling_strategy d) "max"); [|discriminate].
  destruct (head_loop _ _ _ _ _ _ _ _ _ _) as [st1 r1] eqn:E.
  destruct (head_loop_inv d form_manager dec_hidden_size max_seq max_depth
              graph_node_embedding oov_dict enc_w_list max_depth 1 _ st1 r1 E
              ltac:(lia) ltac:(lia) ltac:(constructor)) as [_ HI].
  destruct (HI (dq_inv_start _ _ _)) as [HB _].
  destruct r1 as [[]|x|]; [|discriminate|discriminate].
  destruct (HB eq_refl) as (f & Hf & Hdq).
  destruct (assemble_attached _ _ _ _ _ Hdq) as (D & -> & Hst & Hat).
  simpl. intros H. apply rbind_ok in H as (x0 & _ & H).
  apply (read_tree_good form_manager max_seq D) in H; [exact H|].
  intros k x Hk. by apply (final_store_words _ _ _ _ _ Hdq D k x).
Qed.

Lemma X9_witness :
  exists tree,
    snd (translate (__init__ Toy.config) Toy.vocab 1 2 2 Toy.memory None None) = Ok tree /\
    (forall w, w ∈ tree_words tree ->
       w <> get_symbol_idx Toy.vocab (end_token Toy.vocab) /\
       w <> get_symbol_idx Toy.vocab (non_terminal_token Toy.vocab)) /\
    max_arity tree <= 2.
Proof.
  assert (exists tree,
            snd (translate (__init__ Toy.config) Toy.vocab 1 2 2 Toy.memory None None)
              = Ok tree) as [tree Ht] by (eexists; vm_compute; reflexivity).
  exists tree. split; [exact Ht|].
  exact (X9_translate_result_tree (__init__ Toy.config) Toy.vocab 1 2 2 Toy.memory
           None None tree Ht).
Defined.

(** X10.  The limits at zero.  With [max_dec_tree_depth = 0] greedy
    inference returns the empty tree without a call of [decode_step].  With
    [max_dec_seq_length = 0] and a depth limit of 1 at least, a decoder
    whose step cannot raise makes exactly one call, for the root, drops its
    word and returns the empty tree. *)
Theorem X10_translate_limits_at_zero (d : StdTreeDecoder) (form_manager : Vocab)
    (dec_hidden_size max_seq max_depth : nat) (graph_node_embedding : list Mem)
    (enc_w_list : option (list (list Z))) (oov_dict : option Vocab) :
  graph_pooling_strategy d = "max"%string ->
  (let run := translate d form_manager dec_hidden_size max_seq 0 graph_node_embedding
                enc_w_list oov_dict in
   snd run = Ok (Node []) /\ calls (fst run) = []) /\
  (plain d -> length graph_node_embedding = 1 -> 1 <= max_depth ->
   let run := translate d form_manager dec_hidden_size 0 max_depth graph_node_embedding
                enc_w_list oov_dict in
   snd run = Ok (Node []) /\ length (calls (fst run)) = 1).
Proof.
  intros Hmax. split.
  - unfold translate. rewrite Hmax. simpl. done.
  - intros Hplain Hlen Hdepth. unfold translate. rewrite Hmax. simpl String.eqb. cbv iota.
    destruct max_depth as [|n]; [lia|].
    set (g := map (pool_max (net d)) graph_node_embedding).
    assert (length g = 1) as Hg by (unfold g; by rewrite length_map).
    set (root := {| qd_s := (g, g); qd_parent := 0; qd_child_index := 1; qd_t := [] |}).
    set (st1 := {| queue_decode := [root]; calls := [] |}).
    set (pw := [get_symbol_idx form_manager (start_token form_manager)]).
    destruct (decode_step_plain d 1 pw g g graph_node_embedding g oov_dict enc_w_list 1
                Hplain eq_refl Hg Hg Hg Hlen) as (pr & c & h & a & Eout & Hpr & _ & _).
    assert (exists w, map argmax (log_rows (net d) pr) !! 0 = Some w) as [w Hw].
    { apply lookup_lt_is_Some_2. unfold log_rows. rewrite !length_map. lia. }
    pose proof (greedy_loop_step 0 d form_manager 0 graph_node_embedding oov_dict
                  enc_w_list 1 g (zeros 1 dec_hidden_size) (g, g) pw 1 st1 pr c h a w root
                  Eout Hw eq_refl) as Hstep.
    cbv zeta in Hstep. simpl length in Hstep. simpl Nat.leb in Hstep.
    rewrite orb_true_r in Hstep.
    assert (head_loop d form_manager dec_hidden_size 0 graph_node_embedding oov_dict
              enc_w_list (S n) 1 st1
            = ({| queue_decode := [root];
                  calls := [greedy_call d graph_node_embedding oov_dict enc_w_list 1 g
                              (zeros 1 dec_hidden_size) (g, g) pw] |}, Ok tt)) as ->.
    { change (head_loop d form_manager dec_hidden_size 0 graph_node_embedding oov_dict
                enc_w_list (S n) 1 st1)
        with (mbind (greedy_loop 1 d form_manager 0 graph_node_embedding oov_dict
                       enc_w_list 1 g (zeros 1 dec_hidden_size) (g, g) pw 1)
                (fun _ => head_loop d form_manager dec_hidden_size 0 graph_node_embedding
                            oov_dict enc_w_list n 2) st1).
      unfold mbind. rewrite Hstep. destruct n; reflexivity. }
    simpl. done.
Qed.

Lemma X10_witness :
  (snd (translate (__init__ Toy.config) Toy.vocab 1 5 0 Toy.memory None None) = Ok (Node [])
   /\ calls (fst (translate (__init__ Toy.config) Toy.vocab 1 5 0 Toy.memory None None)) = [])
  /\
  (snd (translate (__init__ Toy.config) Toy.vocab 1 0 3 Toy.memory None None) = Ok (Node [])
   /\ length (calls (fst (translate (__init__ Toy.config) Toy.vocab 1 0 3 Toy.memory
                            None None))) = 1).
Proof.
  split.
  - exact (proj1 (X10_translate_limits_at_zero (__init__ Toy.config) Toy.vocab 1 5 3
                    Toy.memory None None eq_refl)).
  - apply (proj2 (X10_translate_limits_at_zero (__init__ Toy.config) Toy.vocab 1 5 3
                    Toy.memory None None eq_refl)).
    + repeat split; reflexivity.
    + reflexivity.
    + lia.
Defined.

(** ** Out-of-vocabulary inputs and masks *)

Lemma filter_oov_lookup tokens vocab i :
  _filter_oov tokens vocab !! i =
    (fun t => if (Z.of_nat (vocab_size vocab) <=? t)%Z
              then get_symbol_idx vocab (unk_token vocab) else t) <$> tokens !! i.
Proof. unfold _filter_oov. apply list_lookup_fmap. Qed.

Lemma filter_oov_idem tokens vocab :
  (get_symbol_idx vocab (unk_token vocab) < Z.of_nat (vocab_size vocab))%Z ->
  _filter_oov (_filter_oov tokens vocab) vocab = _filter_oov tokens vocab.
Proof.
  intros Hunk. unfold _filter_oov. rewrite map_map. apply map_ext. intros t.
  destruct (Z.leb_spec (Z.of_nat (vocab_size vocab)) t) as [H|H].
  - destruct (Z.leb_spec (Z.of_nat (vocab_size vocab))
                (get_symbol_idx vocab (unk_token vocab))); [lia | done].
  - destruct (Z.leb_spec (Z.of_nat (vocab_size vocab)) t); [lia | done].
Qed.

(** X11.  [_filter_oov] keeps the length of its input, leaves every token
    below [vocab_size] as it is and replaces every other token by the index
    of the unknown token.  When that index is itself below [vocab_size],
    every token of the result is, filtering twice is filtering once, and
    [decode_step] returns on a filtered input what it returns on the input. *)
Theorem X11_filter_oov (d : StdTreeDecoder) (tokens : list Z) (vocab : Vocab) :
  length (_filter_oov tokens vocab) = length tokens /\
  (forall i t, tokens !! i = Some t ->
     _filter_oov tokens vocab !! i =
       Some (if (t <? Z.of_nat (vocab_size vocab))%Z then t
             else get_symbol_idx vocab (unk_token vocab))) /\
  ((get_symbol_idx vocab (unk_token vocab) < Z.of_nat (vocab_size vocab))%Z ->
   (forall t, t ∈ _filter_oov tokens vocab -> (t < Z.of_nat (vocab_size vocab))%Z) /\
   _filter_oov (_filter_oov tokens vocab) vocab = _filter_oov tokens vocab) /\
  ((get_symbol_idx (tgt_vocab d) (unk_token (tgt_vocab d))
      < Z.of_nat (vocab_size (tgt_vocab d)))%Z ->
   forall tgt_batch_size state memory parent_state sibling_state oov_dict enc_batch,
     decode_step d tgt_batch_size (_filter_oov tokens (tgt_vocab d)) state memory
       parent_state sibling_state oov_dict enc_batch
     = decode_step d tgt_batch_size tokens state memory parent_state sibling_state
         oov_dict enc_batch).
Proof.
  split; [|split; [|split]].
  - unfold _filter_oov. by rewrite length_map.
  - intros i t Hi. rewrite filter_oov_lookup, Hi. simpl. f_equal.
    destruct (Z.leb_spec (Z.of_nat (vocab_size vocab)) t),
             (Z.ltb_spec t (Z.of_nat (vocab_size vocab))); try lia; done.
  - intros Hunk. split; [|by apply filter_oov_idem].
    intros t Ht. unfold _filter_oov in Ht.
    apply list_elem_of_fmap in Ht as (t0 & -> & _).
    destruct (Z.leb_spec (Z.of_nat (vocab_size vocab)) t0); lia.
  - intros Hunk B st mem par sib oov enc. unfold decode_step.
    by rewrite filter_oov_idem.
Qed.

Lemma X11_witness :
  (forall t, t ∈ _filter_oov [5; 9; 1]%Z Toy.vocab -> (t < 8)%Z) /\
  _filter_oov (_filter_oov [5; 9; 1]%Z Toy.vocab) Toy.vocab = _filter_oov [5; 9; 1]%Z Toy.vocab /\
  _filter_oov [5; 9; 1]%Z Toy.vocab !! 1 = Some 0%Z.
Proof.
  destruct (X11_filter_oov (__init__ Toy.config) [5; 9; 1]%Z Toy.vocab)
    as (_ & Hl & Hin & _).
  split; [|split].
  - apply Hin. reflexivity.
  - apply Hin. reflexivity.
  - apply (Hl 1 9%Z). reflexivity.
Defined.

Lemma set_prefix_spec (stop : nat) : forall (row : Vec),
  stop <= length row ->
  set_prefix row stop = replicate stop 1%Q ++ drop stop row.
Proof.
  unfold set_prefix. induction stop as [|n IH]; intros row Hlen; [by rewrite drop_0|].
  rewrite seq_S, foldl_app. cbn [foldl]. rewrite Nat.add_0_l. rewrite IH by lia.
  apply list_eq. intros j.
  destruct (decide (j = n)) as [->|Hne].
  - rewrite list_lookup_insert_eq by (rewrite length_app, length_replicate, length_drop; lia).
    rewrite lookup_app_l by (rewrite length_replicate; lia).
    symmetry. apply lookup_replicate_2. lia.
  - rewrite list_lookup_insert_ne by done.
    destruct (decide (j < n)) as [Hlt|Hge].
    + rewrite !lookup_app_l by (rewrite length_replicate; lia).
      rewrite !lookup_replicate_2 by lia. done.
    + rewrite !lookup_app_r by (rewrite length_replicate; lia).
      rewrite !length_replicate, !lookup_drop. f_equal. lia.
Qed.

(** X12.  [create_mask] returns one row of [N] entries for each entry of
    [x].  For a length [k] that is not negative, entry [j] of the row is 1
    when [j < k] and 0 otherwise.  A negative length counts from the end of
    the row: entry [j] is 1 when [j < N + k]. *)
Theorem X12_create_mask (x : list Z) (N : nat) :
  length (create_mask x N) = length x /\
  forall i k, x !! i = Some k ->
    exists row,
      create_mask x N !! i = Some row /\ length row = N /\
      forall j, j < N ->
        row !! j =
          Some (if (0 <=? k)%Z
                then (if (Z.of_nat j <? k)%Z then 1%Q else 0%Q)
                else (if (Z.of_nat j <? Z.of_nat N + k)%Z then 1%Q else 0%Q)).
Proof.
  split; [unfold create_mask; by rewrite length_map|].
  intros i k Hk. unfold create_mask. rewrite list_lookup_fmap, Hk. simpl.
  eexists. split; [reflexivity|].
  assert (slice_stop N k <= N) as Hs.
  { unfold slice_stop. destruct (k <? 0)%Z eqn:E; [apply Z.ltb_lt in E|]; lia. }
  rewrite set_prefix_spec by (by rewrite length_replicate).
  split.
  - rewrite length_app, length_replicate, length_drop, length_replicate. lia.
  - intros j Hj.
    destruct (decide (j < slice_stop N k)) as [Hlt|Hge].
    + rewrite lookup_app_l by (rewrite length_replicate; lia).
      rewrite lookup_replicate_2 by lia. f_equal.
      unfold slice_stop in Hlt.
      destruct (Z.ltb_spec k 0), (Z.leb_spec 0 k); try lia.
      * destruct (Z.ltb_spec (Z.of_nat j) (Z.of_nat N + k)); [done|lia].
      * destruct (Z.ltb_spec (Z.of_nat j) k); [done|lia].
    + rewrite lookup_app_r by (rewrite length_replicate; lia).
      rewrite length_replicate, lookup_drop, lookup_replicate_2 by lia. f_equal.
      unfold slice_stop in Hge.
      destruct (Z.ltb_spec k 0), (Z.leb_spec 0 k); try lia.
      * destruct (Z.ltb_spec (Z.of_nat j) (Z.of_nat N + k)); [lia|done].
      * destruct (Z.ltb_spec (Z.of_nat j) k); [lia|done].
Qed.

Lemma X12_witness :
  create_mask [2; 0; 7; -1]%Z 3
    = [[1; 1; 0]; [0; 0; 0]; [1; 1; 1]; [1; 1; 0]]%Q /\
  exists row,
    create_mask [2; 0; 7; -1]%Z 3 !! 3 = Some row /\ length row = 3 /\
    forall j, j < 3 ->
      row !! j =
        Some (if (0 <=? -1)%Z
              then (if (Z.of_nat j <? -1)%Z then 1%Q else 0%Q)
              else (if (Z.of_nat j <? Z.of_nat 3 + -1)%Z then 1%Q else 0%Q)).
Proof.
  split; [reflexivity|].
  apply (proj2 (X12_create_mask [2; 0; 7; -1]%Z 3) 3 (-1)%Z). reflexivity.
Defined.

(** ** The state along the calls of greedy inference *)

Section ThreadProofs.
Variables (d : StdTreeDecoder) (form_manager : Vocab).
Variables (max_seq : nat) (enc_outputs : list Mem) (oov_dict : option Vocab).
Variables (enc_w_list : option (list (list Z))).

Abbreviation chain := (calls_chain d form_manager).
Abbreviation seeded := (entries_seeded d form_manager).

Lemma chain_snoc states cs c :
  chain states cs -> chain_at d form_manager states (cs ++ [c]) (length cs) c ->
  chain states (cs ++ [c]).
Proof.
  intros Hc Hn n c0 Hl.
  destruct (decide (n < length cs)) as [Hlt|Hge].
  - rewrite lookup_app_l in Hl by done.
    destruct (Hc n c0 Hl) as (s0 & H1 & H2 & H3). exists s0. split; [done|]. split; [done|].
    destruct n as [|n']; [done|]. simpl in *. by rewrite lookup_app_l by lia.
  - pose proof (lookup_lt_Some _ _ _ Hl) as Hb. rewrite length_app in Hb. simpl in Hb.
    assert (n = length cs) as -> by lia.
    rewrite list_lookup_middle in Hl by done. by inversion Hl; subst.
Qed.

Lemma chain_states_mono states states' cs :
  states `prefix_of` states' -> chain states cs -> chain states' cs.
Proof.
  intros Hp Hc n c Hl. destruct (Hc n c Hl) as (s0 & H1 & H2).
  exists s0. split; [|done]. by apply (prefix_lookup_Some _ _ _ _ H1 Hp).
Qed.

Lemma grown_queue_states q head e w s i_child :
  q !! (head - 1) = Some e ->
  map qd_s (grown_queue form_manager q head e w s i_child) =
    map qd_s q ++
      (if (w =? get_symbol_idx form_manager (non_terminal_token form_manager))%Z
       then [s] else []).
Proof.
  intros He. unfold grown_queue.
  change (map qd_s (<[head - 1 := add_word e w]> ?l)) with (qd_s <$> <[head - 1 := add_word e w]> l).
  rewrite list_fmap_insert. simpl.
  change (qd_s <$> ?l) with (map qd_s l). rewrite map_app.
  rewrite list_insert_id.
  - by destruct (w =? _)%Z.
  - rewrite lookup_app_l by (rewrite length_map; by apply lookup_lt_Some in He).
    change (map qd_s q) with (qd_s <$> q). by rewrite list_lookup_fmap, He.
Qed.

Lemma greedy_thread head n0 parent_h sibling_state (fuel : nat) :
  forall s prev_word i_child st st' r,
    greedy_loop fuel d form_manager max_seq enc_outputs oov_dict enc_w_list head
      parent_h sibling_state s prev_word i_child st = (st', r) ->
    loop_thread d form_manager head n0 parent_h s prev_word st ->
    thread_inv d form_manager (queue_decode st') (calls st') /\
    (forall n c, calls st' !! n = Some c -> ce_head c <= head).
Proof.
  induction fuel as [|fuel IH]; intros s prev_word i_child st st' r H Hinv.
  - simpl in H. inversion H; subst. destruct Hinv as (Ht & _ & Hheads & _).
    split; [done|]. intros n c Hn. specialize (Hheads n c Hn).
    destruct (n <? n0); lia.
  - destruct Hinv as ((Hchain & Hseed) & Hn0 & Hheads & e & He & Hpar & Hcont).
    set (call := greedy_call d enc_outputs oov_dict enc_w_list head parent_h
                   sibling_state s prev_word).
    assert (chain (map qd_s (queue_decode st)) (calls st ++ [call])) as Hchain1.
    { apply chain_snoc; [done|]. exists (qd_s e). simpl.
      split; [change (map qd_s ?l) with (qd_s <$> l); by rewrite list_lookup_fmap, He|].
      split; [done|].
      destruct Hcont as [(Hlen & -> & ->)|(Hlt & c' & pr & a & Hlast & Hout & ->)].
      - destruct (length (calls st)) as [|n'] eqn:El; simpl; [done|].
        rewrite lookup_app_l by lia.
        destruct (lookup_lt_is_Some_2 (calls st) n' ltac:(lia)) as [c' Hc']. rewrite Hc'.
        specialize (Hheads n' c' Hc'). destruct (Nat.ltb_spec n' n0); [|lia].
        destruct (Nat.eqb_spec (ce_head c') head); [lia | done].
      - destruct (length (calls st)) as [|n'] eqn:El; [lia|]. simpl.
        rewrite lookup_app_l by lia.
        rewrite last_lookup, El in Hlast. simpl in Hlast. rewrite Hlast.
        specialize (Hheads n' c' Hlast). destruct (Nat.ltb_spec n' n0); [lia|].
        rewrite Hheads, Nat.eqb_refl. by exists pr, s, a. }
    assert (forall n c, (calls st ++ [call]) !! n = Some c -> ce_head c <= head) as Hheads1.
    { intros n c Hn. destruct (decide (n < length (calls st))) as [Hlt|Hge].
      - rewrite lookup_app_l in Hn by done. specialize (Hheads n c Hn).
        destruct (n <? n0); lia.
      - pose proof (lookup_lt_Some _ _ _ Hn) as Hb. rewrite length_app in Hb. simpl in Hb.
        assert (n = length (calls st)) as -> by lia.
        rewrite list_lookup_middle in Hn by done. inversion Hn; subst c. done. }
    destruct (greedy_loop_cases _ _ _ _ _ _ _ _ _ _ _ _ _ _ _ _ H) as [(-> & _)|Hc].
    { simpl. split; [|done]. split; [done|].
      intros i x Hx. destruct (Hseed i x Hx) as (n & c & pr & a & Hn & Hr).
      exists n, c, pr, a. split; [|done].
      rewrite lookup_app_l; [done | by apply lookup_lt_Some in Hn]. }
    destruct Hc as (pr & c & h & a & w & e' & Hout & Hw & He' & Hcase).
    rewrite He in He'. inversion He'; subst e'. clear He'.
    destruct Hcase as [(_ & -> & _)|(_ & Hrec)].
    { simpl. split; [|done]. split; [done|].
      intros i x Hx. destruct (Hseed i x Hx) as (n & c0 & pr0 & a0 & Hn & Hr).
      exists n, c0, pr0, a0. split; [|done].
      rewrite lookup_app_l; [done | by apply lookup_lt_Some in Hn]. }
    apply IH in Hrec; [exact Hrec|]. clear IH.
    pose proof (lookup_lt_Some _ _ _ He) as Hlt.
    pose proof (grown_queue_states (queue_decode st) head e w (c, h) i_child He) as Hst.
    split; [split|]; simpl.
    + rewrite Hst. eapply chain_states_mono; [|exact Hchain1]. by apply prefix_app_r.
    + intros i x Hx. unfold grown_queue in Hx.
      destruct (decide (S i < length (queue_decode st))) as [Hi|Hi].
      * assert (exists x0, queue_decode st !! S i = Some x0 /\
                  qd_parent x = qd_parent x0 /\ qd_s x = qd_s x0) as (x0 & Hx0 & Hp & Hs).
        { destruct (decide (S i = head - 1)) as [Heq|Hne].
          - rewrite Heq in Hx.
            rewrite list_lookup_insert_eq in Hx by (rewrite length_app; lia).
            inversion Hx; subst x. exists e. rewrite Heq. done.
          - rewrite list_lookup_insert_ne in Hx by done.
            rewrite lookup_app_l in Hx by done. by exists x. }
        destruct (Hseed i x0 Hx0) as (n & c0 & pr0 & a0 & Hn & H1 & H2 & H3).
        exists n, c0, pr0, a0. rewrite Hp, Hs.
        split; [rewrite lookup_app_l; [done | by apply lookup_lt_Some in Hn]|]. done.
      * rewrite list_lookup_insert_ne in Hx by lia.
        rewrite lookup_app_r in Hx by lia.
        destruct (w =? get_symbol_idx form_manager (non_terminal_token form_manager))%Z
          eqn:Hnt; [|by destruct (S i - length (queue_decode st))].
        destruct (S i - length (queue_decode st)) as [|k] eqn:Ek; [|by destruct k].
        simpl in Hx. inversion Hx; subst x. simpl.
        apply Z.eqb_eq in Hnt. subst w.
        exists (length (calls st)), call, pr, a.
        split; [by apply list_lookup_middle|]. done.
    + split; [rewrite length_app; simpl; lia|]. split.
      * intros n c0 Hn. destruct (decide (n < length (calls st))) as [Hl|Hg].
        -- rewrite lookup_app_l in Hn by done. by apply Hheads.
        -- pose proof (lookup_lt_Some _ _ _ Hn) as Hb. rewrite length_app in Hb.
           simpl in Hb. assert (n = length (calls st)) as -> by lia.
           rewrite list_lookup_middle in Hn by done. inversion Hn; subst c0.
           destruct (Nat.ltb_spec (length (calls st)) n0); [lia | done].
      * exists (add_word e w). split.
        { unfold grown_queue. apply list_lookup_insert_eq. rewrite length_app. lia. }
        split; [done|]. right. split; [rewrite length_app; simpl; lia|].
        exists call, pr, a. split; [by rewrite last_snoc|]. done.
Qed.
End ThreadProofs.

Section HeadThread.
Variables (d : StdTreeDecoder) (form_manager : Vocab).
Variables (dec_hidden_size max_seq : nat).
Variables (enc_outputs : list Mem) (oov_dict : option Vocab).
Variables (enc_w_list : option (list (list Z))).

Abbreviation thread := (thread_inv d form_manager).

Lemma expand_head_thread head st st' r :
  expand_head d form_manager dec_hidden_size max_seq enc_outputs oov_dict
    enc_w_list head st = (st', r) ->
  thread (queue_decode st) (calls st) ->
  (forall n c, calls st !! n = Some c -> ce_head c < head) ->
  thread (queue_decode st') (calls st') /\
  (forall n c, calls st' !! n = Some c -> ce_head c <= head).
Proof.
  intros H Ht Hheads. unfold expand_head in H.
  unfold mbind at 1 in H. unfold get_queue at 1 in H.
  unfold mbind at 1 in H. unfold lift at 1 in H.
  destruct (queue_decode st !! (head - 1)) as [e|] eqn:He; simpl in H.
  - eapply (greedy_thread d form_manager max_seq enc_outputs oov_dict enc_w_list
              head (length (calls st))); [exact H|].
    split; [done|]. split; [done|]. split.
    + intros n c Hn. pose proof (lookup_lt_Some _ _ _ Hn) as Hb.
      destruct (Nat.ltb_spec n (length (calls st))); [by eapply Hheads | lia].
    + exists e. split; [done|]. split; [done|]. left. done.
  - inversion H; subst. split; [done|]. intros n c Hn.
    specialize (Hheads n c Hn). lia.
Qed.

Lemma head_loop_thread (remaining : nat) : forall head st st' r,
  head_loop d form_manager dec_hidden_size max_seq enc_outputs oov_dict
    enc_w_list remaining head st = (st', r) ->
  thread (queue_decode st) (calls st) ->
  (forall n c, calls st !! n = Some c -> ce_head c < head) ->
  thread (queue_decode st') (calls st').
Proof.
  induction remaining as [|k IH]; intros head st st' r H Ht Hheads.
  - simpl in H. by inversion H; subst.
  - simpl in H. unfold mbind at 1 in H. unfold get_queue at 1 in H.
    destruct (head <=? length (queue_decode st)).
    + unfold mbind at 1 in H.
      destruct (expand_head _ _ _ _ _ _ _ _ st) as [st1 r1] eqn:E.
      destruct (expand_head_thread _ _ _ _ E Ht Hheads) as [Ht1 Hh1].
      destruct r1 as [[]|e1|].
      * apply (IH _ _ _ _ H Ht1). intros n c Hn. specialize (Hh1 n c Hn). lia.
      * by inversion H; subst.
      * by inversion H; subst.
    + by inversion H; subst.
Qed.
End HeadThread.

Lemma attach_keeps q i q' :
  attach q i = Ok q' ->
  map qd_s q' = map qd_s q /\ map qd_parent q' = map qd_parent q.
Proof.
  unfold attach. intros H.
  apply rbind_ok in H as (cur & _ & H).
  apply rbind_ok in H as (p & _ & H).
  apply rbind_ok in H as (e & He & H).
  apply rbind_ok in H as (cs & _ & H).
  inversion H; subst q'. clear H.
  apply of_option_ok in He.
  split.
  - change (map qd_s ?l) with (qd_s <$> l). rewrite list_fmap_insert. simpl.
    apply list_insert_id. by rewrite list_lookup_fmap, He.
  - change (map qd_parent ?l) with (qd_parent <$> l). rewrite list_fmap_insert. simpl.
    apply list_insert_id. by rewrite list_lookup_fmap, He.
Qed.

Lemma assemble_keeps q q' :
  assemble q = Ok q' ->
  map qd_s q' = map qd_s q /\ map qd_parent q' = map qd_parent q.
Proof.
  unfold assemble. generalize (reverse (seq 1 (length q - 1))) as l.
  intros l. revert q'. induction l as [|i l IH] using rev_ind; intros q' H.
  - simpl in H. by inversion H; subst.
  - rewrite foldl_app in H. simpl in H.
    apply rbind_ok in H as (q1 & H1 & H).
    destruct (IH _ H1) as [E1 E2]. destruct (attach_keeps _ _ _ H) as [E3 E4].
    split; congruence.
Qed.

Lemma thread_inv_keeps d form_manager q q' cs :
  map qd_s q' = map qd_s q -> map qd_parent q' = map qd_parent q ->
  thread_inv d form_manager q cs -> thread_inv d form_manager q' cs.
Proof.
  intros Es Ep [Hc Hs]. split; [by rewrite Es|].
  intros i e' He'.
  assert (exists e, q !! S i = Some e /\ qd_s e = qd_s e' /\ qd_parent e = qd_parent e')
    as (e & He & E1 & E2).
  { assert ((qd_s <$> q) !! S i = Some (qd_s e')) as H1.
    { change (qd_s <$> q) with (map qd_s q). rewrite <- Es.
      change (map qd_s q') with (qd_s <$> q'). by rewrite list_lookup_fmap, He'. }
    assert ((qd_parent <$> q) !! S i = Some (qd_parent e')) as H2.
    { change (qd_parent <$> q) with (map qd_parent q). rewrite <- Ep.
      change (map qd_parent q') with (qd_parent <$> q'). by rewrite list_lookup_fmap, He'. }
    rewrite list_lookup_fmap in H1. rewrite list_lookup_fmap in H2.
    destruct (q !! S i) as [e|]; [|done]. simpl in H1, H2.
    exists e. split; [done|]. split; congruence. }
  destruct (Hs i e He) as (n & c & pr & a & Hn & H1 & H2 & H3).
  exists n, c, pr, a. rewrite <- E1, <- E2. done.
Qed.

Lemma translate_thread d form_manager dec_hidden_size max_seq max_depth
    graph_node_embedding enc_w_list oov_dict :
  let run := translate d form_manager dec_hidden_size max_seq max_depth
               graph_node_embedding enc_w_list oov_dict in
  thread_inv d form_manager (queue_decode (fst run)) (calls (fst run)).
Proof.
  assert (forall q0, length q0 <= 1 -> thread_inv d form_manager q0 []) as Hnil.
  { intros q0 Hq0. split.
    - intros n c Hn. done.
    - intros i e Hi. apply lookup_lt_Some in Hi. lia. }
  intros run. subst run. unfold translate.
  destruct (String.eqb _ _); [|apply Hnil; simpl; lia].
  match goal with |- context [head_loop ?a ?b ?c ?e ?f ?g ?h ?i ?j ?k] =>
    destruct (head_loop a b c e f g h i j k) as [st r] eqn:E end.
  apply head_loop_thread in E; [|apply Hnil; simpl; lia|done].
  destruct r as [[]|e|]; [|done..].
  destruct (assemble (queue_decode st)) as [q|e|] eqn:Ea; [|done..].
  simpl. destruct (assemble_keeps _ _ Ea) as [E1 E2].
  by apply (thread_inv_keeps _ _ _ _ _ E1 E2).
Qed.

(** X13 (state threading of greedy inference).  In the log of the
    [decode_step] calls that [translate] makes, whatever the run ends with:
    every call is for a position of the final queue, and its parent state is
    the hidden part of the state stored at that position; a call that
    follows a call for the same position takes the state that call returned
    and the arg-max of its prediction as input, and any other call starts
    from the state stored at its position, with the start token for the
    root and the opening bracket otherwise.  The state stored at a position
    after the root is the state returned by the call, made for its parent
    position, whose arg-max was the non-terminal token. *)
Theorem X13_translate_threads_state (d : StdTreeDecoder) (form_manager : Vocab)
    (dec_hidden_size max_seq max_depth : nat) (graph_node_embedding : list Mem)
    (enc_w_list : option (list (list Z))) (oov_dict : option Vocab) :
  let run := translate d form_manager dec_hidden_size max_seq max_depth
               graph_node_embedding enc_w_list oov_dict in
  let queue := queue_decode (fst run) in
  let log := calls (fst run) in
  (forall n c, log !! n = Some c ->
     exists e,
       queue !! (ce_head c - 1) = Some e /\ ce_parent c = snd (qd_s e) /\
       match prev_call log n with
       | Some c' =>
           if ce_head c' =? ce_head c then continues d c' c
           else starts form_manager (qd_s e) c
       | None => starts form_manager (qd_s e) c
       end) /\
  (forall i e, queue !! S i = Some e ->
     exists n c prediction a,
       log !! n = Some c /\ ce_head c = qd_parent e /\
       ce_out c = Ok (prediction, qd_s e, a) /\
       map argmax (log_rows (net d) prediction) !! 0
         = Some (get_symbol_idx form_manager (non_terminal_token form_manager))).
Proof.
  intros run queue log.
  destruct (translate_thread d form_manager dec_hidden_size max_seq max_depth
              graph_node_embedding enc_w_list oov_dict) as [Hc Hs].
  fold run in Hc, Hs. fold queue in Hc, Hs. fold log in Hc, Hs.
  split; [|exact Hs].
  intros n c Hn. destruct (Hc n c Hn) as (s0 & H0 & Hp & Hm).
  change (map qd_s queue) with (qd_s <$> queue) in H0.
  rewrite list_lookup_fmap in H0.
  destruct (queue !! (ce_head c - 1)) as [e|]; [|done].
  simpl in H0. inversion H0; subst s0. by exists e.
Qed.

(** The second call of a toy run goes on from the first. *)
Lemma X13_witness :
  exists c e,
    calls (fst (translate (__init__ Toy.config) Toy.vocab 1 2 2 Toy.memory None None)) !! 1
      = Some c /\
    queue_decode (fst (translate (__init__ Toy.config) Toy.vocab 1 2 2 Toy.memory None None))
      !! (ce_head c - 1) = Some e /\
    ce_parent c = snd (qd_s e) /\
    match prev_call
            (calls (fst (translate (__init__ Toy.config) Toy.vocab 1 2 2 Toy.memory
                           None None))) 1 with
    | Some c' =>
        if ce_head c' =? ce_head c then continues (__init__ Toy.config) c' c
        else starts Toy.vocab (qd_s e) c
    | None => starts Toy.vocab (qd_s e) c
    end.
Proof.
  assert (exists c,
            calls (fst (translate (__init__ Toy.config) Toy.vocab 1 2 2 Toy.memory
                          None None)) !! 1 = Some c)
    as [c Hc] by (eexists; vm_compute; reflexivity).
  destruct (proj1 (X13_translate_threads_state (__init__ Toy.config) Toy.vocab 1 2 2
                     Toy.memory None None) 1 c Hc) as (e & H1 & H2 & H3).
  exists c, e. split; [exact Hc|]. split; [exact H1|]. split; [exact H2 | exact H3].
Defined.
